(** * gsIetiMapper: dof bookkeeping for IETI solvers

    A shallow embedding of [src/gsIeti/gsIetiMapper.hpp] together with the
    properties of its index algebra: phase sequencing, local index spaces,
    primal constraints (corners, interface averages, custom), jump matrices
    and the reconstruction of a global solution.

    Conventions.
    - [index_t] values that are positions in a container are [nat]; the
      counters on which the source does signed arithmetic
      ([m_nPrimalDofs], [numLagrangeMult], [multiplier], [lastIndex]) and
      the status bit mask are [Z].  The counter of the primal dofs grows
      with every call of a builder, however small its input, so its
      arithmetic is written with the wrap-around of [index_t]
      ([wrap_index]).  The other counters are sums over containers that
      the source holds in memory; they are kept as they are.
    - [GISMO_ASSERT] failures are errors, classified by their message.  An
      access outside a container (undefined behaviour or an Eigen assertion
      in the source) is the error [OutOfRange].
    - Member functions run in a state-and-error monad over the object; a
      failure returns the object as it was when the failure happened. *)

From Stdlib Require Import ZArith Lia Sorting.Sorted Sorting.Permutation.
From stdpp Require Import base numbers list.

(** ** The index type *)

(** The typedef of [index_t] (gsConfig.h) is not among the sources; its
    default, [int], is taken here: 32 bits in two's complement.
    [wrap_index] is the value that is stored when a sum or a difference
    has left its range, as [++] does at the largest value. *)
Definition index_bits : Z := 32.
Definition index_min : Z := - 2 ^ (index_bits - 1).
Definition index_max : Z := 2 ^ (index_bits - 1) - 1.

Definition wrap_index (z : Z) : Z :=
  (z - index_min) mod 2 ^ index_bits + index_min.

(** ** Errors and the two monads *)

Inductive error : Type :=
| ConfigurationError
| SequencingError
| InternalInvariantViolation
| OutOfRange.

Inductive result (A : Type) : Type :=
| Ok (a : A)
| Err (e : error).
Arguments Ok {A} a.
Arguments Err {A} e.

#[global] Instance result_ret : MRet result := fun A a => Ok a.
#[global] Instance result_bind : MBind result := fun A B f r =>
  match r with Ok a => f a | Err e => Err e end.

Definition check (b : bool) (e : error) : result unit :=
  if b then Ok tt else Err e.

(** [l[i]] on a [std::vector] or an Eigen vector. *)
Definition get {A} (l : list A) (i : nat) : result A :=
  match l !! i with Some x => Ok x | None => Err OutOfRange end.

(** [l[i] = x]. *)
Definition put {A} (l : list A) (i : nat) (x : A) : result (list A) :=
  if decide (i < length l) then Ok (<[i:=x]> l) else Err OutOfRange.

(** [for (x : l) s = f(s, x)], stopping at the first failure. *)
Fixpoint foldM {A S} (f : S -> A -> result S) (l : list A) (s : S) : result S :=
  match l with
  | [] => Ok s
  | x :: l' => match f s x with Ok s' => foldM f l' s' | Err e => Err e end
  end.

Definition M (St A : Type) : Type := St -> result A * St.

#[global] Instance M_ret {St} : MRet (M St) := fun A a s => (Ok a, s).
#[global] Instance M_bind {St} : MBind (M St) := fun A B f m s =>
  match m s with
  | (Ok a, s') => f a s'
  | (Err e, s') => (Err e, s')
  end.

Definition gets {St A} (f : St -> A) : M St A := fun s => (Ok (f s), s).
Definition modify {St} (f : St -> St) : M St unit := fun s => (Ok tt, f s).
Definition lift {St A} (r : result A) : M St A := fun s => (r, s).
Definition assert_ {St} (b : bool) (e : error) : M St unit := lift (check b e).

Fixpoint forM_ {St A} (l : list A) (body : A -> M St unit) : M St unit :=
  match l with
  | [] => mret tt
  | x :: l' => body x;; forM_ l' body
  end.

(** A loop that carries a local variable [a] next to the object. *)
Fixpoint foldS {St A B} (f : B -> A -> M St B) (l : list A) (b : B)
  : M St B :=
  match l with
  | [] => mret b
  | x :: l' => b' ← f b x; foldS f l' b'
  end.

(** [std::sort] with comparison [lt]: the result is ordered by [lt] and a
    rearrangement of the input.  The order it leaves between elements that
    compare equal is unspecified; the model is insertion sort, which keeps
    their input order. *)
Fixpoint sort_insert {A} (lt : A -> A -> bool) (x : A) (l : list A) : list A :=
  match l with
  | [] => [x]
  | y :: r => if lt y x then y :: sort_insert lt x r else x :: y :: r
  end.

Definition std_sort {A} (lt : A -> A -> bool) (l : list A) : list A :=
  fold_right (sort_insert lt) [] l.

(** ** Collaborators that are not part of this file

    The global dof mapper, the multi basis and the geometry are consumed
    through their query interface only; they are parameters of the
    development. *)

(** The queries of the global [gsDofMapper] that the mapper uses.
    [dm_index dm i k] is [index(i,k)], the global index of basis function
    [i] of patch [k]. *)
Record gsDofMapper : Type := {
  dm_componentsSize : nat;
  dm_numPatches : nat;
  dm_patchSize : nat -> nat;
  dm_index : nat -> nat -> nat;
  dm_bindex : nat -> nat -> nat;
  dm_cindex : nat -> nat -> nat;
  dm_is_free_index : nat -> bool;
  dm_is_boundary_index : nat -> bool;
  dm_is_coupled_index : nat -> bool;
  dm_freeSize : nat;
  dm_coupledSize : nat;
  dm_preImage : nat -> list (nat * nat)
}.

(** [is_free(i,k)] and [is_coupled(i,k)] classify the global image. *)
Definition dm_is_free (dm : gsDofMapper) (i k : nat) : bool :=
  dm_is_free_index dm (dm_index dm i k).
Definition dm_is_coupled (dm : gsDofMapper) (i k : nat) : bool :=
  dm_is_coupled_index dm (dm_index dm i k).

(** The queries of [gsMultiBasis]: [mb_size mb k] is [piece(k).size()],
    [mb_functionAtCorner mb k c] is [functionAtCorner(c)] of the basis of patch [k]. *)
Record gsMultiBasis : Type := {
  mb_dim : Z;
  mb_nBases : nat;
  mb_size : nat -> nat;
  mb_functionAtCorner : nat -> nat -> nat
}.

(** [boxCorner::getFirst(dim)] up to [boxCorner::getEnd(dim)]: the
    [1 << dim] corners of the parameter domain, numbered from 1. *)
Definition boxCorners (dim : Z) : list nat := seq 1 (2 ^ Z.to_nat dim).

(** A [patchComponent]: the patch it lies on, its dimension and its index
    on that patch. *)
Record patchComponent : Type := {
  pc_patch : nat;
  pc_dim : Z;
  pc_index : nat
}.

(** The queries of [gsMultiPatch]. *)
Record gsMultiPatch : Type := {
  mp_nPatches : nat;
  mp_parDim : Z;
  mp_allComponents : list (list patchComponent)
}.

(** ** Local dof mappers *)

(** Modelled from the spec: the [gsDofMapper] operations used to build a
    local mapper ([setIdentity], [eliminateDof], [finalize]; gsDofMapper is
    not among the sources).  A mapper under construction is the list of
    elimination marks; [finalize] assigns the contiguous local free indices
    [0 .. freeSize-1] to the dofs that were not eliminated, in order, and
    the indices from [freeSize] on to the eliminated ones. *)
Record gsDofMapperLocal : Type := {
  lm_dofs : list nat;
  lm_numFree : nat;
  lm_numElim : nat
}.

Definition lm_default : gsDofMapperLocal :=
  {| lm_dofs := []; lm_numFree := 0; lm_numElim := 0 |}.

Definition setIdentity (nDofs : nat) : list bool := replicate nDofs false.

Definition eliminateDof (i : nat) (marks : list bool) : list bool :=
  <[i:=true]> marks.

Definition count_free (marks : list bool) : nat :=
  length (filter (fun b => b = false) marks).

Fixpoint number_dofs (marks : list bool) (nf ne total : nat) : list nat :=
  match marks with
  | [] => []
  | false :: r => nf :: number_dofs r (S nf) ne total
  | true :: r => (total + ne) :: number_dofs r nf (S ne) total
  end.

Definition finalize (marks : list bool) : gsDofMapperLocal :=
  {| lm_dofs := number_dofs marks 0 0 (count_free marks);
     lm_numFree := count_free marks;
     lm_numElim := length marks - count_free marks |}.

Definition lm_size (lm : gsDofMapperLocal) : nat := length (lm_dofs lm).
Definition lm_freeSize (lm : gsDofMapperLocal) : nat := lm_numFree lm.
Definition lm_boundarySize (lm : gsDofMapperLocal) : nat := lm_numElim lm.

(** [index(i,0)] *)
Definition lm_index (lm : gsDofMapperLocal) (i : nat) : result nat :=
  get (lm_dofs lm) i.

(** [is_free(i,0)] *)
Definition lm_is_free (lm : gsDofMapperLocal) (i : nat) : result bool :=
  idx ← lm_index lm i; mret (idx <? lm_numFree lm).

(** [bindex(i,0)], asked for eliminated dofs only *)
Definition lm_bindex (lm : gsDofMapperLocal) (i : nat) : result nat :=
  idx ← lm_index lm i; mret (idx - lm_numFree lm).

(** [inverseOnPatch(0)[j]]: the dof with local index [j]; a key that is
    absent from the [std::map] reads as 0. *)
Fixpoint find_pos (j : nat) (dofs : list nat) (i : nat) : nat :=
  match dofs with
  | [] => 0
  | d :: r => if d =? j then i else find_pos j r (S i)
  end.
Definition lm_inverse (lm : gsDofMapperLocal) (j : nat) : nat :=
  find_pos j (lm_dofs lm) 0.

(** The local mapper that [init] builds for patch [k]. *)
Definition local_marks (dm : gsDofMapper) (k : nat) : list bool :=
  fold_left
    (fun marks i =>
       if dm_is_boundary_index dm (dm_index dm i k)
       then eliminateDof i marks else marks)
    (seq 0 (dm_patchSize dm k))
    (setIdentity (dm_patchSize dm k)).

Definition local_mapper (dm : gsDofMapper) (k : nat) : gsDofMapperLocal :=
  finalize (local_marks dm k).

(** ** Vectors, matrices and the mapper object *)

(** What the code needs of its scalar type. *)
Class Scalar (T : Type) : Type := {
  T0 : T;
  T1 : T;
  Tm1 : T;
  Tadd : T -> T -> T
}.

Section Mapper.

(** The scalar type [T] of the library and the three constants the code
    writes: [(T)0], [(T)1] and [(T)-1]; [Tadd] is its addition. *)
Context `{Scalar T}.

(** [gsSparseVector<T>]: its size and its stored entries, by increasing
    index. *)
Record SparseVector : Type := {
  sv_size : nat;
  sv_nz : list (nat * T)
}.

Definition sv_new (n : nat) : SparseVector := {| sv_size := n; sv_nz := [] |}.
Definition sv_nonZeros (v : SparseVector) : nat := length (sv_nz v).

Fixpoint nz_set (i : nat) (x : T) (nz : list (nat * T)) : list (nat * T) :=
  match nz with
  | [] => [(i, x)]
  | (j, y) :: r =>
      if i <? j then (i, x) :: (j, y) :: r
      else if i =? j then (i, x) :: r
      else (j, y) :: nz_set i x r
  end.

(** [v[i] = x] *)
Definition sv_set (v : SparseVector) (i : nat) (x : T) : result SparseVector :=
  check (i <? sv_size v) OutOfRange;;
  mret {| sv_size := sv_size v; sv_nz := nz_set i x (sv_nz v) |}.

(** [v.coeff(i)] *)
Definition sv_coeff (v : SparseVector) (i : nat) : T :=
  match list_find (fun e => e.1 = i) (sv_nz v) with
  | Some (_, e) => e.2
  | None => T0
  end.

(** A dense [gsMatrix<T>], row by row. *)
Record Matrix : Type := {
  mat_cols : nat;
  mat_data : list (list T)
}.

Definition mat_rows (m : Matrix) : nat := length (mat_data m).
Definition mat_empty : Matrix := {| mat_cols := 0; mat_data := [] |}.

(** [setZero(r,c)] *)
Definition mat_zero (r c : nat) : Matrix :=
  {| mat_cols := c; mat_data := replicate r (replicate c T0) |}.

(** [m(i,j)] *)
Definition mat_coeff (m : Matrix) (i j : nat) : result T :=
  row ← get (mat_data m) i; get row j.

(** [m(i,j) = x] *)
Definition mat_set_coeff (m : Matrix) (i j : nat) (x : T) : result Matrix :=
  row ← get (mat_data m) i;
  row' ← put row j x;
  data ← put (mat_data m) i row';
  mret {| mat_cols := mat_cols m; mat_data := data |}.

(** [m.row(i)] *)
Definition mat_row (m : Matrix) (i : nat) : result (list T) :=
  get (mat_data m) i.

(** [m.row(i) = r] *)
Definition mat_set_row (m : Matrix) (i : nat) (r : list T) : result Matrix :=
  check (length r =? mat_cols m) OutOfRange;;
  data ← put (mat_data m) i r;
  mret {| mat_cols := mat_cols m; mat_data := data |}.

(** [gsSparseEntries<T>]: triplets (row, column, value) in the order they
    were added. *)
Definition gsSparseEntries : Type := list (Z * nat * T).

(** A [JumpMatrix] (sparse): its shape and the triplets it was set from;
    [setFrom] adds up triplets that name the same position. *)
Record JumpMatrix : Type := {
  jm_rows : Z;
  jm_cols : nat;
  jm_entries : gsSparseEntries
}.

Definition triplet_in_range (rows : Z) (cols : nat) (t : Z * nat * T) : bool :=
  (0 <=? t.1.1)%Z && (t.1.1 <? rows)%Z && (t.1.2 <? cols).

(** [JumpMatrix(rows, cols)] followed by [setFrom(se)] *)
Definition jm_setFrom (rows : Z) (cols : nat) (se : gsSparseEntries)
  : result JumpMatrix :=
  check (forallb (triplet_in_range rows cols) se) OutOfRange;;
  mret {| jm_rows := rows; jm_cols := cols; jm_entries := se |}.

(** The coefficient at (r, c). *)
Definition jm_coeff (jm : JumpMatrix) (r : Z) (c : nat) : T :=
  fold_left
    (fun acc (t : Z * nat * T) =>
       if (t.1.1 =? r)%Z && (t.1.2 =? c) then Tadd acc t.2 else acc)
    (jm_entries jm) T0.

(** The members of [gsIetiMapper<T>].  [m_artificialDofInfo[k]] is a
    [std::map] from patch to vector, kept as a list sorted by key. *)
Record gsIetiMapper : Type := {
  m_multiBasis : gsMultiBasis;
  m_dofMapperGlobal : gsDofMapper;
  m_dofMapperLocal : list gsDofMapperLocal;
  m_fixedPart : list Matrix;
  m_jumpMatrices : list JumpMatrix;
  m_nPrimalDofs : Z;
  m_primalConstraints : list (list SparseVector);
  m_primalDofIndices : list (list Z);
  m_artificialDofInfo : list (list (nat * list nat));
  m_status : Z
}.

Definition set_dofMapperLocal (v : list gsDofMapperLocal) (s : gsIetiMapper) :=
  {| m_multiBasis := m_multiBasis s; m_dofMapperGlobal := m_dofMapperGlobal s;
     m_dofMapperLocal := v; m_fixedPart := m_fixedPart s;
     m_jumpMatrices := m_jumpMatrices s; m_nPrimalDofs := m_nPrimalDofs s;
     m_primalConstraints := m_primalConstraints s;
     m_primalDofIndices := m_primalDofIndices s;
     m_artificialDofInfo := m_artificialDofInfo s; m_status := m_status s |}.

Definition set_fixedPart (v : list Matrix) (s : gsIetiMapper) :=
  {| m_multiBasis := m_multiBasis s; m_dofMapperGlobal := m_dofMapperGlobal s;
     m_dofMapperLocal := m_dofMapperLocal s; m_fixedPart := v;
     m_jumpMatrices := m_jumpMatrices s; m_nPrimalDofs := m_nPrimalDofs s;
     m_primalConstraints := m_primalConstraints s;
     m_primalDofIndices := m_primalDofIndices s;
     m_artificialDofInfo := m_artificialDofInfo s; m_status := m_status s |}.

Definition set_jumpMatrices (v : list JumpMatrix) (s : gsIetiMapper) :=
  {| m_multiBasis := m_multiBasis s; m_dofMapperGlobal := m_dofMapperGlobal s;
     m_dofMapperLocal := m_dofMapperLocal s; m_fixedPart := m_fixedPart s;
     m_jumpMatrices := v; m_nPrimalDofs := m_nPrimalDofs s;
     m_primalConstraints := m_primalConstraints s;
     m_primalDofIndices := m_primalDofIndices s;
     m_artificialDofInfo := m_artificialDofInfo s; m_status := m_status s |}.

Definition set_nPrimalDofs (v : Z) (s : gsIetiMapper) :=
  {| m_multiBasis := m_multiBasis s; m_dofMapperGlobal := m_dofMapperGlobal s;
     m_dofMapperLocal := m_dofMapperLocal s; m_fixedPart := m_fixedPart s;
     m_jumpMatrices := m_jumpMatrices s; m_nPrimalDofs := v;
     m_primalConstraints := m_primalConstraints s;
     m_primalDofIndices := m_primalDofIndices s;
     m_artificialDofInfo := m_artificialDofInfo s; m_status := m_status s |}.

Definition set_primalConstraints (v : list (list SparseVector))
    (s : gsIetiMapper) :=
  {| m_multiBasis := m_multiBasis s; m_dofMapperGlobal := m_dofMapperGlobal s;
     m_dofMapperLocal := m_dofMapperLocal s; m_fixedPart := m_fixedPart s;
     m_jumpMatrices := m_jumpMatrices s; m_nPrimalDofs := m_nPrimalDofs s;
     m_primalConstraints := v;
     m_primalDofIndices := m_primalDofIndices s;
     m_artificialDofInfo := m_artificialDofInfo s; m_status := m_status s |}.

Definition set_primalDofIndices (v : list (list Z)) (s : gsIetiMapper) :=
  {| m_multiBasis := m_multiBasis s; m_dofMapperGlobal := m_dofMapperGlobal s;
     m_dofMapperLocal := m_dofMapperLocal s; m_fixedPart := m_fixedPart s;
     m_jumpMatrices := m_jumpMatrices s; m_nPrimalDofs := m_nPrimalDofs s;
     m_primalConstraints := m_primalConstraints s;
     m_primalDofIndices := v;
     m_artificialDofInfo := m_artificialDofInfo s; m_status := m_status s |}.

Definition set_artificialDofInfo (v : list (list (nat * list nat)))
    (s : gsIetiMapper) :=
  {| m_multiBasis := m_multiBasis s; m_dofMapperGlobal := m_dofMapperGlobal s;
     m_dofMapperLocal := m_dofMapperLocal s; m_fixedPart := m_fixedPart s;
     m_jumpMatrices := m_jumpMatrices s; m_nPrimalDofs := m_nPrimalDofs s;
     m_primalConstraints := m_primalConstraints s;
     m_primalDofIndices := m_primalDofIndices s;
     m_artificialDofInfo := v; m_status := m_status s |}.

Definition set_status (v : Z) (s : gsIetiMapper) :=
  {| m_multiBasis := m_multiBasis s; m_dofMapperGlobal := m_dofMapperGlobal s;
     m_dofMapperLocal := m_dofMapperLocal s; m_fixedPart := m_fixedPart s;
     m_jumpMatrices := m_jumpMatrices s; m_nPrimalDofs := m_nPrimalDofs s;
     m_primalConstraints := m_primalConstraints s;
     m_primalDofIndices := m_primalDofIndices s;
     m_artificialDofInfo := m_artificialDofInfo s; m_status := v |}.

(** [m_status & flag] as a truth value *)
Definition has_flag (status flag : Z) : bool :=
  negb (Z.land status flag =? 0)%Z.

(** [std::vector::resize(n)]: keeps the first [n] elements, pads with
    default-constructed ones. *)
Definition resize {A} (n : nat) (d : A) (l : list A) : list A :=
  take n l ++ replicate (n - length l) d.

#[local] Abbreviation Mapper := (M gsIetiMapper).

(** [v[k] = x] on a member vector, read and written through [f] / [g]. *)
Definition m_put {A} (f : gsIetiMapper -> list A)
    (g : list A -> gsIetiMapper -> gsIetiMapper) (k : nat) (x : A)
  : Mapper unit :=
  l ← gets f; l' ← lift (put l k x); modify (g l').

(** [v[k]] on a member vector *)
Definition m_get {A} (f : gsIetiMapper -> list A) (k : nat) : Mapper A :=
  l ← gets f; lift (get l k).

(** [std::map<index_t, gsVector<index_t>>] as a list sorted by key. *)
Fixpoint amap_find {V} (k : nat) (m : list (nat * V)) : option V :=
  match m with
  | [] => None
  | (k', v) :: r => if k' =? k then Some v else amap_find k r
  end.

Fixpoint amap_insert {V} (k : nat) (v : V) (m : list (nat * V))
  : list (nat * V) :=
  match m with
  | [] => [(k, v)]
  | (k', v') :: r =>
      if k <? k' then (k, v) :: (k', v') :: r
      else if k =? k' then (k, v) :: r
      else (k', v') :: amap_insert k v r
  end.

(** ** init *)

(** Lines 90-101: the fixed part of patch [k]. *)
Definition init_fixedPart (dm : gsDofMapper) (lm : gsDofMapperLocal)
    (fixedPart : Matrix) (k : nat) : result Matrix :=
  foldM
    (fun fp i =>
       if dm_is_boundary_index dm (dm_index dm i k) then
         let globalBoundaryIdx := dm_bindex dm i k in
         localBoundaryIdx ← lm_bindex lm i;
         x ← mat_coeff fixedPart globalBoundaryIdx 0;
         mat_set_coeff fp localBoundaryIdx 0 x
       else mret fp)
    (seq 0 (dm_patchSize dm k))
    (mat_zero (lm_boundarySize lm) 1).

(** Lines 107-125: the owner (patch, local index + 1) of every free global
    dof, found among the basis functions proper. *)
Definition init_owners (mb : gsMultiBasis) (dm : gsDofMapper)
    (locals : list gsDofMapperLocal) : result (list (nat * nat)) :=
  foldM
    (fun dofs k =>
       foldM
         (fun dofs i =>
            let globalIndex := dm_index dm i k in
            if dm_is_free_index dm globalIndex then
              d ← get dofs globalIndex;
              check (d.1 =? 0) InternalInvariantViolation;;
              lm ← get locals k;
              li ← lm_index lm i;
              put dofs globalIndex (k, li + 1)
            else mret dofs)
         (seq 0 (mb_size mb k)) dofs)
    (seq 0 (dm_numPatches dm))
    (replicate (dm_freeSize dm) (0, 0)).

(** Lines 127-146: record, with the owner, where patch [k] holds an
    artificial copy. *)
Definition init_artificial (mb : gsMultiBasis) (dm : gsDofMapper)
    (dofs : list (nat * nat)) : Mapper unit :=
  modify (fun s => set_artificialDofInfo
            (resize (dm_numPatches dm) [] (m_artificialDofInfo s)) s);;
  forM_ (seq 0 (dm_numPatches dm)) (fun k =>
    let sz := mb_size mb k in
    let sz2 := dm_patchSize dm k in
    forM_ (seq sz (sz2 - sz)) (fun i =>
      let globalIndex := dm_index dm i k in
      if dm_is_free_index dm globalIndex then
        d ← lift (get dofs globalIndex);
        let otherPatch := d.1 in
        assert_ (0 <=? Z.of_nat d.2 - 1)%Z InternalInvariantViolation;;
        let indexOnOtherPatch := d.2 - 1 in
        info ← m_get m_artificialDofInfo otherPatch;
        lmO ← m_get m_dofMapperLocal otherPatch;
        let which := default [] (amap_find k info) in
        let which1 :=
          if length which =? 0 then replicate (lm_freeSize lmO) 0 else which in
        which2 ← lift (put which1 indexOnOtherPatch (i + 1));
        m_put m_artificialDofInfo set_artificialDofInfo otherPatch
              (amap_insert k which2 info)
      else mret tt)).

Definition init (multiBasis : gsMultiBasis) (dofMapperGlobal : gsDofMapper)
    (fixedPart : Matrix) : Mapper unit :=
  assert_ (dm_componentsSize dofMapperGlobal =? 1) ConfigurationError;;
  assert_ (dm_numPatches dofMapperGlobal =? mb_nBases multiBasis)
          ConfigurationError;;
  let nPatches := dm_numPatches dofMapperGlobal in
  modify (fun s =>
    {| m_multiBasis := multiBasis;
       m_dofMapperGlobal := dofMapperGlobal;
       m_dofMapperLocal := resize nPatches lm_default [];
       m_fixedPart := resize nPatches mat_empty [];
       m_jumpMatrices := [];
       m_nPrimalDofs := 0;
       m_primalConstraints := resize nPatches [] [];
       m_primalDofIndices := resize nPatches [] [];
       m_artificialDofInfo := m_artificialDofInfo s;
       m_status := 1 |});;
  forM_ (seq 0 nPatches) (fun k =>
    let nDofs := dm_patchSize dofMapperGlobal k in
    assert_ (mb_size multiBasis k <=? nDofs) ConfigurationError;;
    (if mb_size multiBasis k <? nDofs
     then modify (fun s => set_status (Z.lor (m_status s) 2) s)
     else mret tt);;
    m_put m_dofMapperLocal set_dofMapperLocal k
          (local_mapper dofMapperGlobal k);;
    lm ← m_get m_dofMapperLocal k;
    fp ← lift (init_fixedPart dofMapperGlobal lm fixedPart k);
    m_put m_fixedPart set_fixedPart k fp);;
  status ← gets m_status;
  if has_flag status 2 then
    locals ← gets m_dofMapperLocal;
    dofs ← lift (init_owners multiBasis dofMapperGlobal locals);
    init_artificial multiBasis dofMapperGlobal dofs
  else mret tt.

(** [v[k].push_back(x)] on a member vector of vectors *)
Definition m_push_back {A} (f : gsIetiMapper -> list (list A))
    (g : list (list A) -> gsIetiMapper -> gsIetiMapper) (k : nat) (x : A)
  : Mapper unit :=
  l ← m_get f k; m_put f g k (l ++ [x]).

(** [GISMO_ASSERT( m_status&1, ... )] *)
Definition assert_initialized : Mapper unit :=
  status ← gets m_status;
  assert_ (has_flag status 1) SequencingError.

(** ** constructGlobalSolutionFromLocalSolutions *)

Definition constructGlobalSolutionFromLocalSolutions
    (localContribs : list Matrix) : Mapper Matrix :=
  assert_initialized;;
  dm ← gets m_dofMapperGlobal;
  mb ← gets m_multiBasis;
  locals ← gets m_dofMapperLocal;
  let nPatches := dm_numPatches dm in
  assert_ (nPatches =? length localContribs) ConfigurationError;;
  lc0 ← lift (get localContribs 0);
  lift (foldM
    (fun result k =>
       let sz := mb_size mb k in
       foldM
         (fun result i =>
            lm ← get locals k;
            lfree ← lm_is_free lm i;
            if lfree && dm_is_free dm i k then
              lc ← get localContribs k;
              li ← lm_index lm i;
              row ← mat_row lc li;
              mat_set_row result (dm_index dm i k) row
            else mret result)
         (seq 0 sz) result)
    (seq 0 nPatches)
    (mat_zero (dm_freeSize dm) (mat_cols lc0))).

(** ** cornersAsPrimals *)

Record dof_helper : Type := {
  dh_globalIndex : nat;
  dh_patch : nat;
  dh_localIndex : nat
}.

(** [dof_helper::operator<] *)
Definition dof_helper_lt (a b : dof_helper) : bool :=
  dh_globalIndex a <? dh_globalIndex b.

(** Lines 201-238: the corners of all patches. *)
Definition collect_corners (mb : gsMultiBasis) (dm : gsDofMapper)
    (locals : list gsDofMapperLocal) (status : Z) (nPatches : nat)
  : result (list dof_helper) :=
  foldM
    (fun corners k =>
       foldM
         (fun corners it =>
            let idx := mb_functionAtCorner mb k it in
            let globalIndex := dm_index dm idx k in
            lm ← get locals k;
            localIndex ← lm_index lm idx;
            let dh := {| dh_globalIndex := globalIndex; dh_patch := k;
                         dh_localIndex := localIndex |} in
            if dm_is_free_index dm globalIndex then
              if has_flag status 2 then
                foldM
                  (fun corners (pre : nat * nat) =>
                     lm2 ← get locals pre.1;
                     localIndex2 ← lm_index lm2 pre.2;
                     mret (corners ++
                             [{| dh_globalIndex := globalIndex;
                                 dh_patch := pre.1;
                                 dh_localIndex := localIndex2 |}]))
                  (dm_preImage dm globalIndex) corners
              else mret (corners ++ [dh])
            else mret corners)
         (boxCorners (mb_dim mb)) corners)
    (seq 0 nPatches) [].

(** Lines 244-262: one pass over the sorted corners. *)
Definition corners_create_data (corners : list dof_helper) : Mapper unit :=
  foldS
    (fun (lastIndex : Z) (c : dof_helper) =>
       lastIndex' ←
         (if negb (lastIndex =? Z.of_nat (dh_globalIndex c))%Z then
            modify (fun s => set_nPrimalDofs (wrap_index (m_nPrimalDofs s + 1)) s);;
            mret (Z.of_nat (dh_globalIndex c))
          else mret lastIndex);
       n ← gets m_nPrimalDofs;
       let cornerIndex := wrap_index (n - 1) in
       let patch := dh_patch c in
       let localIndex := dh_localIndex c in
       lm ← m_get m_dofMapperLocal patch;
       constr ← lift (sv_set (sv_new (lm_freeSize lm)) localIndex T1);
       m_push_back m_primalConstraints set_primalConstraints patch constr;;
       m_push_back m_primalDofIndices set_primalDofIndices patch cornerIndex;;
       mret lastIndex')
    corners (-1)%Z;;
  mret tt.

Definition cornersAsPrimals : Mapper unit :=
  assert_initialized;;
  status ← gets m_status;
  assert_ (negb (has_flag status 8)) SequencingError;;
  modify (fun s => set_status (Z.lor (m_status s) 8) s);;
  locals ← gets m_dofMapperLocal;
  let nPatches := length locals in
  mb ← gets m_multiBasis;
  dm ← gets m_dofMapperGlobal;
  status ← gets m_status;
  corners ← lift (collect_corners mb dm locals status nPatches);
  corners_create_data (std_sort dof_helper_lt corners).

(** ** interfaceAveragesAsPrimals *)

(** [assembleAverage(geo[patch], basis[patch], localMapper, component)]:
    the moments come from the assembler and are normalised in floating
    point; only the shape of the row matters to the bookkeeping. *)
Variable assembleAverage :
  gsMultiPatch -> gsMultiBasis -> nat -> gsDofMapperLocal -> patchComponent ->
  SparseVector.

Record constr_helper : Type := {
  ch_globalIndices : list nat;
  ch_vector : SparseVector;
  ch_patch : nat
}.

(** The loop of [constr_helper::operator<] over two index lists of the
    same length: the first position where they differ decides. *)
Fixpoint first_diff_lt (a b : list nat) : bool :=
  match a, b with
  | x :: a', y :: b' => if negb (x =? y) then x <? y else first_diff_lt a' b'
  | _, _ => false
  end.

(** [constr_helper::operator<] *)
Definition constr_helper_lt (a b : constr_helper) : bool :=
  let sz := length (ch_globalIndices a) in
  if negb (sz =? length (ch_globalIndices b))
  then sz <? length (ch_globalIndices b)
  else first_diff_lt (ch_globalIndices a) (ch_globalIndices b).

(** Lines 376-402: copies of [constraint] on the patches that mirror all
    of its dofs. *)
Definition transfer_to_artificial (locals : list gsDofMapperLocal)
    (info : list (nat * list nat)) (constraint : constr_helper)
    (constraints : list constr_helper) : result (list constr_helper) :=
  foldM
    (fun constraints (it : nat * list nat) =>
       ok ← foldM
              (fun ok (v_it : nat * T) =>
                 w ← get it.2 v_it.1;
                 mret (if w =? 0 then false else ok))
              (sv_nz (ch_vector constraint)) true;
       if ok : bool then
         lm2 ← get locals it.1;
         vector2 ← foldM
              (fun vec (v_it : nat * T) =>
                 w ← get it.2 v_it.1;
                 idx ← lm_index lm2 (w - 1);
                 sv_set vec idx v_it.2)
              (sv_nz (ch_vector constraint)) (sv_new (lm_freeSize lm2));
         mret (constraints ++
                 [{| ch_globalIndices := ch_globalIndices constraint;
                     ch_vector := vector2;
                     ch_patch := it.1 |}])
       else mret constraints)
    info constraints.

(** Lines 350-407: the constraints of one component. *)
Definition collect_constraints (geo : gsMultiPatch) (mb : gsMultiBasis)
    (dm : gsDofMapper) (locals : list gsDofMapperLocal)
    (artificial : list (list (nat * list nat))) (status : Z)
    (component : list patchComponent) : result (list constr_helper) :=
  foldM
    (fun constraints (pc : patchComponent) =>
       let patch := pc_patch pc in
       lm ← get locals patch;
       let vector := assembleAverage geo mb patch lm pc in
       if 0 <? sv_nonZeros vector then
         let globalIndices :=
           std_sort Nat.ltb
             (map (fun it : nat * T => dm_index dm (lm_inverse lm it.1) patch)
                  (sv_nz vector)) in
         let constraint :=
           {| ch_globalIndices := globalIndices; ch_vector := vector;
              ch_patch := patch |} in
         constraints' ←
           (if has_flag status 2 then
              info ← get artificial patch;
              transfer_to_artificial locals info constraint constraints
            else mret constraints);
         mret (constraints' ++ [constraint])
       else mret constraints)
    component [].

(** Lines 413-435: one pass over the sorted constraints of a component;
    [wholeDomain] is [m_multiBasis->dim() == d]. *)
Definition constraints_construct_data (wholeDomain : bool)
    (constraints : list constr_helper) : Mapper unit :=
  let nConstraints := length constraints in
  forM_ (seq 0 nConstraints) (fun i =>
    ci ← lift (get constraints i);
    first ←
      (if i =? 0 then mret true
       else cp ← lift (get constraints (i - 1));
            mret (constr_helper_lt cp ci));
    ignore ←
      (if first : bool then
         shared ←
           (if (Z.of_nat i <? Z.of_nat nConstraints - 1)%Z then
              cn ← lift (get constraints (i + 1));
              mret (negb (constr_helper_lt ci cn))
            else mret false);
         if (shared : bool) || wholeDomain then
           modify (fun s => set_nPrimalDofs (wrap_index (m_nPrimalDofs s + 1)) s);;
           mret false
         else mret true
       else mret false);
    if negb ignore then
      let k := ch_patch ci in
      n ← gets m_nPrimalDofs;
      m_push_back m_primalConstraints set_primalConstraints k (ch_vector ci);;
      m_push_back m_primalDofIndices set_primalDofIndices k
                  (wrap_index (n - 1))
    else mret tt).

Definition interfaceAveragesAsPrimals (geo : gsMultiPatch) (d : Z)
  : Mapper unit :=
  assert_initialized;;
  mb ← gets m_multiBasis;
  assert_ (0 <? d)%Z ConfigurationError;;
  assert_ (d <=? mb_dim mb)%Z ConfigurationError;;
  assert_ (mp_nPatches geo =? mb_nBases mb) ConfigurationError;;
  assert_ (mp_parDim geo =? mb_dim mb)%Z ConfigurationError;;
  let flag := Z.shiftl 1 (3 + d) in
  status ← gets m_status;
  assert_ (negb (has_flag status flag)) SequencingError;;
  modify (fun s => set_status (Z.lor (m_status s) flag) s);;
  forM_ (mp_allComponents geo) (fun component =>
    c0 ← lift (get component 0);
    if (pc_dim c0 =? d)%Z then
      dm ← gets m_dofMapperGlobal;
      locals ← gets m_dofMapperLocal;
      artificial ← gets m_artificialDofInfo;
      status ← gets m_status;
      constraints ←
        lift (collect_constraints geo mb dm locals artificial status component);
      constraints_construct_data (mb_dim mb =? d)%Z
        (std_sort constr_helper_lt constraints)
    else mret tt).

(** ** customPrimalConstraints *)

Definition customPrimalConstraints (data : list (nat * SparseVector))
  : Mapper unit :=
  assert_initialized;;
  forM_ data (fun d =>
    let patch := d.1 in
    n ← gets m_nPrimalDofs;
    m_push_back m_primalConstraints set_primalConstraints patch d.2;;
    m_push_back m_primalDofIndices set_primalDofIndices patch n);;
  modify (fun s => set_nPrimalDofs (wrap_index (m_nPrimalDofs s + 1)) s).

(** [nPrimalDofs()] *)
Definition nPrimalDofs (s : gsIetiMapper) : Z := m_nPrimalDofs s.

(** ** skeletonDofs *)

Definition skeletonDofs (patch : nat) : Mapper (list nat) :=
  assert_initialized;;
  dm ← gets m_dofMapperGlobal;
  locals ← gets m_dofMapperLocal;
  let patchSize := dm_patchSize dm patch in
  lift (foldM
    (fun result i =>
       if dm_is_coupled dm i patch then
         lm ← get locals patch;
         li ← lm_index lm i;
         mret (result ++ [li])
       else mret result)
    (seq 0 patchSize) []).

(** ** computeJumpMatrices *)

(** Lines 487-503: the groups of occurrences (patch, local index) of every
    coupled global dof. *)
Definition find_coupling (dm : gsDofMapper) (locals : list gsDofMapperLocal)
    (nPatches coupledSize : nat) : result (list (list (nat * nat))) :=
  foldM
    (fun coupling k =>
       foldM
         (fun coupling i =>
            let globalIndex := dm_index dm i k in
            if dm_is_coupled_index dm globalIndex then
              let coupledIndex := dm_cindex dm i k in
              lm ← get locals k;
              localIndex ← lm_index lm i;
              group ← get coupling coupledIndex;
              put coupling coupledIndex (group ++ [(k, localIndex)])
            else mret coupling)
         (seq 0 (dm_patchSize dm k)) coupling)
    (seq 0 nPatches) (replicate coupledSize []).

(** Lines 505-522: clear the groups of the corner dofs. *)
Definition erase_corners (mb : gsMultiBasis) (dm : gsDofMapper)
    (nPatches : nat) (coupling : list (list (nat * nat)))
  : result (list (list (nat * nat))) :=
  foldM
    (fun coupling k =>
       foldM
         (fun coupling it =>
            let idx := mb_functionAtCorner mb k it in
            let globalIndex := dm_index dm idx k in
            if dm_is_coupled_index dm globalIndex then
              let coupledIndex := dm_cindex dm idx k in
              put coupling coupledIndex []
            else mret coupling)
         (boxCorners (mb_dim mb)) coupling)
    (seq 0 nPatches) coupling.

(** Lines 524-535: the number of Lagrange multipliers. *)
Definition count_multipliers (fullyRedundant excludeCorners : bool)
    (coupling : list (list (nat * nat))) : result Z :=
  foldM
    (fun numLagrangeMult group =>
       let n := Z.of_nat (length group) in
       check ((1 <? n)%Z || excludeCorners) InternalInvariantViolation;;
       mret (if fullyRedundant
             then numLagrangeMult + Z.quot (n * (n - 1)) 2
             else numLagrangeMult + (n - 1))%Z)
    coupling 0%Z.

(** [jumpMatrices_se[patch].add(row, col, value)] *)
Definition se_add (se : list gsSparseEntries) (patch : nat) (row : Z)
    (col : nat) (value : T) : result (list gsSparseEntries) :=
  e ← get se patch; put se patch (e ++ [(row, col, value)]).

(** Lines 545-563: the rows of one group, then of all groups. *)
Definition assemble_group (fullyRedundant : bool) (group : list (nat * nat))
    (st : list gsSparseEntries * Z) : result (list gsSparseEntries * Z) :=
  let n := length group in
  let maxIndex := (if fullyRedundant then Z.of_nat n - 1 else 1)%Z in
  foldM
    (fun st j1 =>
       foldM
         (fun (st : list gsSparseEntries * Z) j2 =>
            let multiplier := st.2 in
            o1 ← get group j1;
            o2 ← get group j2;
            se1 ← se_add st.1 o1.1 multiplier o1.2 T1;
            se2 ← se_add se1 o2.1 multiplier o2.2 Tm1;
            mret (se2, (multiplier + 1)%Z))
         (seq (j1 + 1) (n - (j1 + 1))) st)
    (seq 0 (Z.to_nat maxIndex)) st.

Definition assemble_jumps (fullyRedundant : bool) (nPatches : nat)
    (coupling : list (list (nat * nat)))
  : result (list gsSparseEntries * Z) :=
  foldM (fun st group => assemble_group fullyRedundant group st)
        coupling (replicate nPatches [], 0%Z).

Definition computeJumpMatrices (fullyRedundant excludeCorners : bool)
  : Mapper unit :=
  assert_initialized;;
  status ← gets m_status;
  assert_ (negb (has_flag status 4)) SequencingError;;
  modify (fun s => set_status (Z.lor (m_status s) 4) s);;
  dm ← gets m_dofMapperGlobal;
  mb ← gets m_multiBasis;
  locals ← gets m_dofMapperLocal;
  let nPatches := dm_numPatches dm in
  let coupledSize := dm_coupledSize dm in
  coupling ← lift (find_coupling dm locals nPatches coupledSize);
  coupling ←
    (if excludeCorners then lift (erase_corners mb dm nPatches coupling)
     else mret coupling);
  numLagrangeMult ←
    lift (count_multipliers fullyRedundant excludeCorners coupling);
  r ← lift (assemble_jumps fullyRedundant nPatches coupling);
  let jumpMatrices_se := r.1 in
  let multiplier := r.2 in
  assert_ (multiplier =? numLagrangeMult)%Z InternalInvariantViolation;;
  modify (set_jumpMatrices []);;
  forM_ (seq 0 nPatches) (fun i =>
    lm ← m_get m_dofMapperLocal i;
    se ← lift (get jumpMatrices_se i);
    jm ← lift (jm_setFrom numLagrangeMult (lm_freeSize lm) se);
    modify (fun s => set_jumpMatrices (m_jumpMatrices s ++ [jm]) s)).

(** The default-constructed object: nothing has run. *)
Definition empty_dofMapper : gsDofMapper :=
  {| dm_componentsSize := 1; dm_numPatches := 0;
     dm_patchSize := fun _ => 0; dm_index := fun _ _ => 0;
     dm_bindex := fun _ _ => 0; dm_cindex := fun _ _ => 0;
     dm_is_free_index := fun _ => false;
     dm_is_boundary_index := fun _ => false;
     dm_is_coupled_index := fun _ => false;
     dm_freeSize := 0; dm_coupledSize := 0; dm_preImage := fun _ => [] |}.

Definition empty_multiBasis : gsMultiBasis :=
  {| mb_dim := 0; mb_nBases := 0; mb_size := fun _ => 0;
     mb_functionAtCorner := fun _ _ => 0 |}.

Definition new_mapper : gsIetiMapper :=
  {| m_multiBasis := empty_multiBasis;
     m_dofMapperGlobal := empty_dofMapper;
     m_dofMapperLocal := []; m_fixedPart := []; m_jumpMatrices := [];
     m_nPrimalDofs := 0; m_primalConstraints := []; m_primalDofIndices := [];
     m_artificialDofInfo := []; m_status := 0 |}.

End Mapper.

Arguments SparseVector T : clear implicits.
Arguments Matrix T : clear implicits.
Arguments gsSparseEntries T : clear implicits.
Arguments JumpMatrix T : clear implicits.
Arguments gsIetiMapper T : clear implicits.
Arguments constr_helper T : clear implicits.

(** ** Concrete inputs *)

#[global] Instance Z_Scalar : Scalar Z :=
  {| T0 := 0%Z; T1 := 1%Z; Tm1 := (-1)%Z; Tadd := Z.add |}.

(** A global mapper given by its table: [table !! k !! i] is the global
    index of dof [i] of patch [k].  Global indices below [nFree] are free,
    the last [nCoupled] of them coupled; the others are eliminated. *)
Definition table_index (table : list (list nat)) (i k : nat) : nat :=
  default 0 (l ← table !! k; l !! i).

Definition table_preImage (table : list (list nat)) (g : nat)
  : list (nat * nat) :=
  flat_map
    (fun k =>
       flat_map
         (fun i => if table_index table i k =? g then [(k, i)] else [])
         (seq 0 (length (default [] (table !! k)))))
    (seq 0 (length table)).

Definition table_mapper (table : list (list nat)) (nFree nCoupled : nat)
  : gsDofMapper :=
  {| dm_componentsSize := 1;
     dm_numPatches := length table;
     dm_patchSize := fun k => length (default [] (table !! k));
     dm_index := table_index table;
     dm_bindex := fun i k => table_index table i k - nFree;
     dm_cindex := fun i k => table_index table i k - (nFree - nCoupled);
     dm_is_free_index := fun g => g <? nFree;
     dm_is_boundary_index := fun g => nFree <=? g;
     dm_is_coupled_index := fun g => (nFree - nCoupled <=? g) && (g <? nFree);
     dm_freeSize := nFree;
     dm_coupledSize := nCoupled;
     dm_preImage := table_preImage table |}.

(** One-dimensional bases of the given sizes: the two corners of a patch
    are its first and its last basis function. *)
Definition interval_bases (sizes : list nat) : gsMultiBasis :=
  {| mb_dim := 1;
     mb_nBases := length sizes;
     mb_size := fun k => default 0 (sizes !! k);
     mb_functionAtCorner := fun k c =>
       if c =? 1 then 0 else default 0 (sizes !! k) - 1 |}.

(** Two intervals with three basis functions each that share an end
    point; the two outer end points carry Dirichlet values. *)
Definition two_intervals : gsDofMapper :=
  table_mapper [[3; 0; 2]; [2; 1; 4]] 3 1.
Definition two_intervals_bases : gsMultiBasis := interval_bases [3; 3].
Definition two_intervals_fixed : Matrix Z :=
  {| mat_cols := 1; mat_data := [[7%Z]; [9%Z]] |}.

Definition two_intervals_mapper : gsIetiMapper Z :=
  (init two_intervals_bases two_intervals two_intervals_fixed new_mapper).2.

(** Three patches with three basis functions each; their middle functions
    are one coupled dof, everything else is free and not shared. *)
Definition three_shared : gsDofMapper :=
  table_mapper [[0; 6; 1]; [2; 6; 3]; [4; 6; 5]] 7 1.
Definition three_shared_bases : gsMultiBasis := interval_bases [3; 3; 3].
Definition three_shared_mapper : gsIetiMapper Z :=
  (init three_shared_bases three_shared
        {| mat_cols := 1; mat_data := [] |} new_mapper).2.


(** ** Calls and sequences of calls *)

Section Calls.
Context `{Scalar T}.
Variable assembleAverage :
  gsMultiPatch -> gsMultiBasis -> nat -> gsDofMapperLocal -> patchComponent ->
  SparseVector T.

(** The three builders of primal constraints. *)
Inductive builder_call : Type :=
| CornersAsPrimals
| InterfaceAveragesAsPrimals (geo : gsMultiPatch) (d : Z)
| CustomPrimalConstraints (data : list (nat * SparseVector T)).

Definition run_builder (c : builder_call) : M (gsIetiMapper T) unit :=
  match c with
  | CornersAsPrimals => cornersAsPrimals
  | InterfaceAveragesAsPrimals geo d =>
      interfaceAveragesAsPrimals assembleAverage geo d
  | CustomPrimalConstraints data => customPrimalConstraints data
  end.

(** Every member function but [init]. *)
Inductive phase_call : Type :=
| Builder (b : builder_call)
| ComputeJumpMatrices (fullyRedundant excludeCorners : bool)
| SkeletonDofs (patch : nat)
| ConstructGlobalSolution (localContribs : list (Matrix T)).

Definition run_phase (c : phase_call) : M (gsIetiMapper T) unit :=
  match c with
  | Builder b => run_builder b
  | ComputeJumpMatrices fr ec => computeJumpMatrices fr ec
  | SkeletonDofs patch => skeletonDofs patch;; mret tt
  | ConstructGlobalSolution lc =>
      constructGlobalSolutionFromLocalSolutions lc;; mret tt
  end.

(** The object after a sequence of calls, each of which may have failed. *)
Definition after {C} (run : C -> M (gsIetiMapper T) unit) (cs : list C)
    (s : gsIetiMapper T) : gsIetiMapper T :=
  fold_left (fun s c => (run c s).2) cs s.

End Calls.

Arguments builder_call T : clear implicits.
Arguments phase_call T : clear implicits.

(** ** Notions used in the statements *)

(** A relation between the object before and after a computation that
    holds whatever the outcome. *)
Definition mono {St} (R : St -> St -> Prop) {A} (m : M St A) : Prop :=
  forall s, R s (m s).2.

(** A value of [index_t]. *)
Definition index_range (z : Z) : Prop := (index_min <= z <= index_max)%Z.

(** [k] more primal dofs can be counted from [n] within [index_t]. *)
Definition counter_fits (n k : Z) : Prop :=
  (index_min <= n /\ n + k <= index_max)%Z.

(** What no call but [init] undoes: the flags that are set, and the basis
    the object refers to. *)
Definition phase_kept {T} (s s' : gsIetiMapper T) : Prop :=
  m_multiBasis s' = m_multiBasis s /\
  forall f, has_flag (m_status s) f = true -> has_flag (m_status s') f = true.

(** The checks that [interfaceAveragesAsPrimals] makes on its arguments. *)
Definition interface_args_ok (mb : gsMultiBasis) (geo : gsMultiPatch) (d : Z)
  : bool :=
  (0 <? d)%Z && (d <=? mb_dim mb)%Z && (mp_nPatches geo =? mb_nBases mb)
  && (mp_parDim geo =? mb_dim mb)%Z.

(** The object is consistent with its global mapper: the local mappers are
    the ones [init] builds, there is a list of primal constraints for every
    patch, and no basis is larger than its patch in the mapper. *)
Definition consistent {T} (s : gsIetiMapper T) : Prop :=
  let dm := m_dofMapperGlobal s in
  m_dofMapperLocal s = map (local_mapper dm) (seq 0 (dm_numPatches dm)) /\
  length (m_primalConstraints s) = dm_numPatches dm /\
  length (m_primalDofIndices s) = dm_numPatches dm /\
  forall k, k < dm_numPatches dm ->
            mb_size (m_multiBasis s) k <= dm_patchSize dm k.

(** All pairs (patch, dof) of a mapper, patch by patch, the global index
    of a pair, and whether the local mapper keeps it free. *)
Definition all_dofs (dm : gsDofMapper) : list (nat * nat) :=
  k ← seq 0 (dm_numPatches dm);
  (fun i => (k, i)) <$> seq 0 (dm_patchSize dm k).

Definition global_index (dm : gsDofMapper) (ki : nat * nat) : nat :=
  dm_index dm ki.2 ki.1.

Definition locally_free (dm : gsDofMapper) (ki : nat * nat) : Prop :=
  dm_is_boundary_index dm (global_index dm ki) = false.

#[global] Instance locally_free_dec dm ki : Decision (locally_free dm ki).
Proof. unfold locally_free. apply _. Defined.

(** The sum of the local free sizes. *)
Definition total_local_free {T} (s : gsIetiMapper T) : nat :=
  sum_list_with lm_freeSize (m_dofMapperLocal s).

(** Everything but the artificial-dof table is the same. *)
Definition core_kept {T} (s s' : gsIetiMapper T) : Prop :=
  m_multiBasis s' = m_multiBasis s /\
  m_dofMapperGlobal s' = m_dofMapperGlobal s /\
  m_dofMapperLocal s' = m_dofMapperLocal s /\
  m_fixedPart s' = m_fixedPart s /\
  m_jumpMatrices s' = m_jumpMatrices s /\
  m_primalConstraints s' = m_primalConstraints s /\
  m_primalDofIndices s' = m_primalDofIndices s /\
  m_nPrimalDofs s' = m_nPrimalDofs s /\
  m_status s' = m_status s.

(** The local index that the local mapper of patch [k] gives to dof [i]. *)
Definition local_index (dm : gsDofMapper) (k i : nat) : nat :=
  default 0 (lm_dofs (local_mapper dm k) !! i).

(** The pairs (patch, basis function) of the bases proper, in the order in
    which the reconstruction visits them. *)
Definition basis_dofs (mb : gsMultiBasis) (dm : gsDofMapper)
  : list (nat * nat) :=
  k ← seq 0 (dm_numPatches dm); (fun i => (k, i)) <$> seq 0 (mb_size mb k).

(** The reconstruction copies the row of a pair when the pair is free in
    the local and in the global mapper. *)
Definition copied (dm : gsDofMapper) (ki : nat * nat) : bool :=
  negb (dm_is_boundary_index dm (global_index dm ki))
  && dm_is_free_index dm (global_index dm ki).

(** The pairs whose row is written to row [g] of the result, in order. *)
Definition writers (mb : gsMultiBasis) (dm : gsDofMapper) (g : nat)
  : list (nat * nat) :=
  filter (fun ki => copied dm ki = true /\ global_index dm ki = g)
         (basis_dofs mb dm).

(** The row of the local contributions that belongs to a pair. *)
Definition contrib_row {T} (dm : gsDofMapper) (lc : list (Matrix T))
    (ki : nat * nat) : option (list T) :=
  m ← lc !! ki.1; mat_data m !! local_index dm ki.1 ki.2.

(** The body of the two loops of the reconstruction, for one pair. *)
Definition reconstruct_step {T} (dm : gsDofMapper)
    (locals : list gsDofMapperLocal) (localContribs : list (Matrix T))
    (res : Matrix T) (ki : nat * nat) : result (Matrix T) :=
  lm ← get locals ki.1;
  lfree ← lm_is_free lm ki.2;
  if lfree && dm_is_free dm ki.2 ki.1 then
    lc ← get localContribs ki.1;
    li ← lm_index lm ki.2;
    row ← mat_row lc li;
    mat_set_row res (dm_index dm ki.2 ki.1) row
  else mret res.

(** *** Jump matrices *)

(** The pairs of positions (j1, j2) of a group of [n] occurrences for
    which the two loops of [computeJumpMatrices] emit a row, in order. *)
Definition pair_positions (fullyRedundant : bool) (n : nat)
  : list (nat * nat) :=
  j1 ← seq 0 (Z.to_nat (if fullyRedundant then Z.of_nat n - 1 else 1)%Z);
  (fun j2 => (j1, j2)) <$> seq (j1 + 1) (n - (j1 + 1)).

(** The pairs of occurrences that are set against each other. *)
Definition group_pairs (fullyRedundant : bool) (group : list (nat * nat))
  : list ((nat * nat) * (nat * nat)) :=
  omap (fun j : nat * nat =>
          o1 ← group !! j.1; o2 ← group !! j.2; Some (o1, o2))
       (pair_positions fullyRedundant (length group)).

Definition all_pairs (fullyRedundant : bool)
    (coupling : list (list (nat * nat))) : list ((nat * nat) * (nat * nat)) :=
  group ← coupling; group_pairs fullyRedundant group.

(** The number of rows that the count of line 524 on expects of a group
    of [n] occurrences. *)
Definition expected_rows (fullyRedundant : bool) (n : Z) : Z :=
  if fullyRedundant then Z.quot (n * (n - 1)) 2 else (n - 1)%Z.

(** One row: +1 at the first occurrence, -1 at the second. *)
Definition emit_pair `{Scalar T} (st : list (gsSparseEntries T) * Z)
    (p : (nat * nat) * (nat * nat))
  : result (list (gsSparseEntries T) * Z) :=
  se1 ← se_add st.1 p.1.1 st.2 p.1.2 T1;
  se2 ← se_add se1 p.2.1 st.2 p.2.2 Tm1;
  mret (se2, (st.2 + 1)%Z).

(** The occurrences (patch, local index) of the coupled dof with coupled
    index [c] among the pairs [l], and among all pairs in the order of the
    two loops of line 487 on. *)
Definition occurrences_in (dm : gsDofMapper) (l : list (nat * nat)) (c : nat)
  : list (nat * nat) :=
  (fun ki => (ki.1, local_index dm ki.1 ki.2))
    <$> filter (fun ki => dm_is_coupled_index dm (global_index dm ki) = true
                          /\ dm_cindex dm ki.2 ki.1 = c) l.

Definition occurrences (dm : gsDofMapper) (c : nat) : list (nat * nat) :=
  occurrences_in dm (all_dofs dm) c.

(** The triplets that a pair with row index [m] leaves in the entries of
    patch [k], and those of a list of pairs numbered from [m] on. *)
Definition pair_entries `{Scalar T} (m : Z) (p : (nat * nat) * (nat * nat))
    (k : nat) : gsSparseEntries T :=
  (if decide (p.1.1 = k) then [(m, p.1.2, T1)] else [])
  ++ (if decide (p.2.1 = k) then [(m, p.2.2, Tm1)] else []).

Fixpoint entries_from `{Scalar T} (m : Z)
    (pairs : list ((nat * nat) * (nat * nat))) (k : nat)
  : gsSparseEntries T :=
  match pairs with
  | [] => []
  | p :: rest => pair_entries m p k ++ entries_from (m + 1) rest k
  end.

(** One step of the loops of line 487 on, for the pair [ki]. *)
Definition coupling_step (dm : gsDofMapper) (locals : list gsDofMapperLocal)
    (coupling : list (list (nat * nat))) (ki : nat * nat)
  : result (list (list (nat * nat))) :=
  if dm_is_coupled_index dm (dm_index dm ki.2 ki.1) then
    lm ← get locals ki.1;
    localIndex ← lm_index lm ki.2;
    group ← get coupling (dm_cindex dm ki.2 ki.1);
    put coupling (dm_cindex dm ki.2 ki.1) (group ++ [(ki.1, localIndex)])
  else mret coupling.

(** The entry (r, c) of the jump matrix of patch [k]. *)
Definition jump_entry `{Scalar T} (s : gsIetiMapper T) (k : nat) (r : Z)
    (c : nat) : T :=
  match m_jumpMatrices s !! k with
  | Some jm => jm_coeff jm r c
  | None => T0
  end.

(** The number of rows expected of all groups together. *)
Definition expected_total (fullyRedundant : bool)
    (coupling : list (list (nat * nat))) : Z :=
  foldr (fun group acc =>
           (expected_rows fullyRedundant (Z.of_nat (length group)) + acc)%Z)
        0%Z coupling.

(** The jump matrix of patch [k] with [N] rows. *)
Definition is_jump_matrix {T} (dm : gsDofMapper)
    (se : list (gsSparseEntries T)) (N : Z) (k : nat) (jm : JumpMatrix T)
  : Prop :=
  exists e, se !! k = Some e /\
            jm = {| jm_rows := N; jm_cols := lm_freeSize (local_mapper dm k);
                    jm_entries := e |} /\
            forallb (triplet_in_range N (lm_freeSize (local_mapper dm k))) e
            = true.

(** *** Primal constraints *)

(** [v[p].push_back(x)] for every item (p, x) of a list, in order. *)
Definition register {A} (v : list (list A)) (items : list (nat * A))
  : list (list A) :=
  fold_left (fun v (it : nat * A) => alter (fun l => l ++ [it.2]) it.1 v)
            items v.

(** The tuples that lines 201-238 collect, in order: for every patch and
    every corner whose function has a free global index, the tuple of the
    corner or, when there are artificial dofs, one tuple for every
    pre-image of that global index. *)
Definition corner_tuples (mb : gsMultiBasis) (dm : gsDofMapper) (status : Z)
  : list dof_helper :=
  k ← seq 0 (dm_numPatches dm);
  it ← boxCorners (mb_dim mb);
  let idx := mb_functionAtCorner mb k it in
  let globalIndex := dm_index dm idx k in
  if dm_is_free_index dm globalIndex then
    if has_flag status 2 then
      (fun pre : nat * nat =>
         {| dh_globalIndex := globalIndex; dh_patch := pre.1;
            dh_localIndex := local_index dm pre.1 pre.2 |})
        <$> dm_preImage dm globalIndex
    else [{| dh_globalIndex := globalIndex; dh_patch := k;
             dh_localIndex := local_index dm k idx |}]
  else [].

(** The constraint row of a tuple: a unit vector over the free dofs of its
    patch, with its single 1 at the local index of the tuple. *)
Definition unit_row `{Scalar T} (dm : gsDofMapper) (c : dof_helper)
  : SparseVector T :=
  {| sv_size := lm_freeSize (local_mapper dm (dh_patch c));
     sv_nz := [(dh_localIndex c, T1)] |}.

(** The primal ids that the pass of lines 244-262 gives to the tuples of a
    list, when it starts with [lastIndex] and the counter at [n]; and the
    counter it ends with.  Both are counted here in the integers; the
    pass stores them as [index_t], that is, their [wrap_index]. *)
Fixpoint corner_ids (lastIndex n : Z) (corners : list dof_helper) : list Z :=
  match corners with
  | [] => []
  | c :: rest =>
      let g := Z.of_nat (dh_globalIndex c) in
      let n' := if decide (lastIndex = g) then n else (n + 1)%Z in
      (n' - 1)%Z :: corner_ids g n' rest
  end.

Fixpoint corner_count (lastIndex n : Z) (corners : list dof_helper) : Z :=
  match corners with
  | [] => n
  | c :: rest =>
      let g := Z.of_nat (dh_globalIndex c) in
      corner_count g (if decide (lastIndex = g) then n else (n + 1)%Z) rest
  end.

(** The number of primal dofs that the corners give: the number of global
    indices that occur among the tuples. *)
Definition corner_dofs (mb : gsMultiBasis) (dm : gsDofMapper) (status : Z)
  : Z :=
  Z.of_nat (length (remove_dups (dh_globalIndex <$> corner_tuples mb dm status))).

(** [a] does not come after [b] in the order of the comparison [lt]. *)
Definition not_after {A} (lt : A -> A -> bool) (a b : A) : Prop :=
  lt b a = false.

(** The body of the pass of lines 244-262, for one tuple. *)
Definition corner_step `{Scalar T} (lastIndex : Z) (c : dof_helper)
  : M (gsIetiMapper T) Z :=
  lastIndex' ←
    (if negb (lastIndex =? Z.of_nat (dh_globalIndex c))%Z then
       modify (fun s => set_nPrimalDofs (wrap_index (m_nPrimalDofs s + 1)) s);;
       mret (Z.of_nat (dh_globalIndex c))
     else mret lastIndex);
  n ← gets m_nPrimalDofs;
  let cornerIndex := wrap_index (n - 1) in
  let patch := dh_patch c in
  let localIndex := dh_localIndex c in
  lm ← m_get m_dofMapperLocal patch;
  constr ← lift (sv_set (sv_new (lm_freeSize lm)) localIndex T1);
  m_push_back m_primalConstraints set_primalConstraints patch constr;;
  m_push_back m_primalDofIndices set_primalDofIndices patch cornerIndex;;
  mret lastIndex'.

(** Only the primal constraints and their counter changed. *)
Definition primal_only {T} (s s' : gsIetiMapper T) : Prop :=
  m_multiBasis s' = m_multiBasis s /\
  m_dofMapperGlobal s' = m_dofMapperGlobal s /\
  m_dofMapperLocal s' = m_dofMapperLocal s /\
  m_fixedPart s' = m_fixedPart s /\
  m_jumpMatrices s' = m_jumpMatrices s /\
  m_artificialDofInfo s' = m_artificialDofInfo s /\
  m_status s' = m_status s.

(** The comparison of [constr_helper::operator<] on the signatures. *)
Definition signature_lt (a b : list nat) : bool :=
  if negb (length a =? length b) then length a <? length b
  else first_diff_lt a b.

(** The body of the pass of lines 413-435, for position [i]. *)
Definition constraint_step `{Scalar T} (wholeDomain : bool)
    (constraints : list (constr_helper T)) (i : nat)
  : M (gsIetiMapper T) unit :=
  let nConstraints := length constraints in
  ci ← lift (get constraints i);
  first ←
    (if i =? 0 then mret true
     else cp ← lift (get constraints (i - 1));
          mret (constr_helper_lt cp ci));
  ignore ←
    (if first : bool then
       shared ←
         (if (Z.of_nat i <? Z.of_nat nConstraints - 1)%Z then
            cn ← lift (get constraints (i + 1));
            mret (negb (constr_helper_lt ci cn))
          else mret false);
       if (shared : bool) || wholeDomain then
         modify (fun s => set_nPrimalDofs (wrap_index (m_nPrimalDofs s + 1)) s);;
         mret false
       else mret true
     else mret false);
  if negb ignore then
    let k := ch_patch ci in
    n ← gets m_nPrimalDofs;
    m_push_back m_primalConstraints set_primalConstraints k (ch_vector ci);;
    m_push_back m_primalDofIndices set_primalDofIndices k
                (wrap_index (n - 1))
  else mret tt.

(** What the pass does with the constraints of a list that follow the
    constraint [prev], with the counter at [n]: the id under which a
    constraint is registered, or [None] when it is ignored; and the
    counter at the end.  Both are counted here in the integers; the pass
    stores them as [index_t], that is, their [wrap_index]. *)
Fixpoint constraint_ids {T} (wholeDomain : bool)
    (prev : option (constr_helper T)) (n : Z) (cs : list (constr_helper T))
  : list (option Z) :=
  match cs with
  | [] => []
  | c :: rest =>
      let first :=
        match prev with None => true | Some p => constr_helper_lt p c end in
      let shared :=
        match rest with
        | c' :: _ => negb (constr_helper_lt c c')
        | [] => false
        end in
      if first then
        if shared || wholeDomain
        then Some n :: constraint_ids wholeDomain (Some c) (n + 1) rest
        else None :: constraint_ids wholeDomain (Some c) n rest
      else Some (n - 1)%Z :: constraint_ids wholeDomain (Some c) n rest
  end.

Fixpoint constraint_count {T} (wholeDomain : bool)
    (prev : option (constr_helper T)) (n : Z) (cs : list (constr_helper T))
  : Z :=
  match cs with
  | [] => n
  | c :: rest =>
      let first :=
        match prev with None => true | Some p => constr_helper_lt p c end in
      let shared :=
        match rest with
        | c' :: _ => negb (constr_helper_lt c c')
        | [] => false
        end in
      if first then
        if shared || wholeDomain
        then constraint_count wholeDomain (Some c) (n + 1) rest
        else constraint_count wholeDomain (Some c) n rest
      else constraint_count wholeDomain (Some c) n rest
  end.

(** An id as the pass stores it. *)
Definition wrap_id (o : option Z) : option Z := wrap_index <$> o.

(** The rows and the ids that are registered: those of the constraints
    that are not ignored. *)
Definition kept_rows {T} (cs : list (constr_helper T))
    (ids : list (option Z)) : list (nat * SparseVector T) :=
  omap (fun co : constr_helper T * option Z =>
          (fun _ : Z => (ch_patch co.1, ch_vector co.1)) <$> co.2)
       (zip cs ids).

Definition kept_ids {T} (cs : list (constr_helper T))
    (ids : list (option Z)) : list (nat * Z) :=
  omap (fun co : constr_helper T * option Z =>
          (fun z : Z => (ch_patch co.1, z)) <$> co.2)
       (zip cs ids).

(** *** The interface averages, component by component *)

(** [components[n][0].dim() == d] *)
Definition has_dim (d : Z) (component : list patchComponent) : bool :=
  match component !! 0 with
  | Some c0 => (pc_dim c0 =? d)%Z
  | None => false
  end.

(** The components of dimension [d], in the order of the geometry. *)
Definition components_of (geo : gsMultiPatch) (d : Z)
  : list (list patchComponent) :=
  filter (fun component => has_dim d component = true) (mp_allComponents geo).

(** The number of primal dofs that the pass of lines 409-435 gives for
    sorted constraints: the number of runs that are kept. *)
Definition kept_runs {T} (wholeDomain : bool) (cs : list (constr_helper T))
  : Z :=
  constraint_count wholeDomain None 0 cs.

Section PrimalDofsAdded.
Context `{Scalar T}.
Variable assembleAverage :
  gsMultiPatch -> gsMultiBasis -> nat -> gsDofMapperLocal -> patchComponent ->
  SparseVector T.

(** The constraints that lines 350-407 collect for a component, on the
    object [s]. *)
Definition collected_for (geo : gsMultiPatch) (s : gsIetiMapper T)
    (component : list patchComponent) : result (list (constr_helper T)) :=
  collect_constraints assembleAverage geo (m_multiBasis s)
    (m_dofMapperGlobal s) (m_dofMapperLocal s) (m_artificialDofInfo s)
    (m_status s) component.

(** The number of primal dofs that the interface averages of dimension
    [d] give: the runs kept, summed over the components of dimension
    [d]. *)
Definition component_dofs (geo : gsMultiPatch) (d : Z) (s : gsIetiMapper T)
    (component : list patchComponent) : Z :=
  match collected_for geo s component with
  | Ok cs => kept_runs (mb_dim (m_multiBasis s) =? d)%Z
                       (std_sort constr_helper_lt cs)
  | Err _ => 0%Z
  end.

Definition interface_dofs (geo : gsMultiPatch) (d : Z) (s : gsIetiMapper T)
  : Z :=
  foldr Z.add 0%Z (component_dofs geo d s <$> components_of geo d).

(** The number of primal dofs that a call of a builder adds. *)
Definition added_primal_dofs (c : builder_call T) (s : gsIetiMapper T) : Z :=
  match c with
  | CornersAsPrimals =>
      corner_dofs (m_multiBasis s) (m_dofMapperGlobal s) (m_status s)
  | InterfaceAveragesAsPrimals geo d => interface_dofs geo d s
  | CustomPrimalConstraints _ => 1%Z
  end.

(** Every call of a sequence completes, and the counter has room for the
    primal dofs it adds. *)
Fixpoint completes_within (cs : list (builder_call T)) (s : gsIetiMapper T)
  : Prop :=
  match cs with
  | [] => True
  | c :: rest =>
      counter_fits (nPrimalDofs s) (added_primal_dofs c s) /\
      exists s', run_builder assembleAverage c s = (Ok tt, s') /\
                 completes_within rest s'
  end.

End PrimalDofsAdded.


(** ** More concrete inputs *)

(** Two intervals with two basis functions each and nothing shared. *)
Definition two_apart : gsDofMapper := table_mapper [[0; 1]; [2; 3]] 4 0.
Definition two_apart_bases : gsMultiBasis := interval_bases [2; 2].

(** Two patches with two basis functions each; the mapper of patch 0
    declares a third, artificial dof, a copy of the first dof of patch 1. *)
Definition with_artificial : gsDofMapper :=
  table_mapper [[0; 1; 3]; [3; 2]] 4 1.
Definition with_artificial_bases : gsMultiBasis := interval_bases [2; 2].
Definition with_artificial_mapper : gsIetiMapper Z :=
  (init with_artificial_bases with_artificial
        {| mat_cols := 1; mat_data := [] |} new_mapper).2.

(** The components of the two intervals: the two interiors, and the three
    end points, one of them shared. *)
Definition two_intervals_geo : gsMultiPatch :=
  {| mp_nPatches := 2;
     mp_parDim := 1;
     mp_allComponents :=
       [ [ {| pc_patch := 0; pc_dim := 1; pc_index := 0 |} ];
         [ {| pc_patch := 1; pc_dim := 1; pc_index := 0 |} ];
         [ {| pc_patch := 0; pc_dim := 0; pc_index := 1 |} ];
         [ {| pc_patch := 0; pc_dim := 0; pc_index := 2 |};
           {| pc_patch := 1; pc_dim := 0; pc_index := 1 |} ];
         [ {| pc_patch := 1; pc_dim := 0; pc_index := 2 |} ] ] |}.

(** An average with the same weight on every free dof of the patch. *)
Definition uniform_average (geo : gsMultiPatch) (mb : gsMultiBasis)
    (patch : nat) (lm : gsDofMapperLocal) (pc : patchComponent)
  : SparseVector Z :=
  {| sv_size := lm_freeSize lm;
     sv_nz := (fun j => (j, 1%Z)) <$> seq 0 (lm_freeSize lm) |}.

(** The two patches of [two_intervals] as two strips of a surface that
    share a side: the bases and the geometry have dimension 2.  The
    components of dimension 1 are the shared side, one side of patch 1
    alone, and the components of dimension 2 the two interiors. *)
Definition two_strips_bases : gsMultiBasis :=
  {| mb_dim := 2;
     mb_nBases := mb_nBases two_intervals_bases;
     mb_size := mb_size two_intervals_bases;
     mb_functionAtCorner := mb_functionAtCorner two_intervals_bases |}.

Definition two_strips_mapper : gsIetiMapper Z :=
  (init two_strips_bases two_intervals two_intervals_fixed new_mapper).2.

Definition two_strips_geo : gsMultiPatch :=
  {| mp_nPatches := 2;
     mp_parDim := 2;
     mp_allComponents :=
       [ [ {| pc_patch := 0; pc_dim := 2; pc_index := 0 |} ];
         [ {| pc_patch := 0; pc_dim := 1; pc_index := 2 |};
           {| pc_patch := 1; pc_dim := 1; pc_index := 1 |} ];
         [ {| pc_patch := 1; pc_dim := 1; pc_index := 2 |} ];
         [ {| pc_patch := 1; pc_dim := 2; pc_index := 0 |} ] ] |}.

(** An average with its weight on the one free dof of the patch that
    lies on the side: the first free dof for side 1, the second for
    side 2. *)
Definition side_average (geo : gsMultiPatch) (mb : gsMultiBasis)
    (patch : nat) (lm : gsDofMapperLocal) (pc : patchComponent)
  : SparseVector Z :=
  {| sv_size := lm_freeSize lm;
     sv_nz := [ (if pc_index pc =? 1 then 0 else 1, 1%Z) ] |}.

(** Local solutions on the two intervals that agree at the shared end
    point, and the global vector they come from. *)
Definition two_intervals_local : list (Matrix Z) :=
  [ {| mat_cols := 1; mat_data := [[10%Z]; [12%Z]] |};
    {| mat_cols := 1; mat_data := [[12%Z]; [11%Z]] |} ].
Definition two_intervals_global : Matrix Z :=
  {| mat_cols := 1; mat_data := [[10%Z]; [11%Z]; [12%Z]] |}.

(** Local contributions for [with_artificial] that differ only in the row
    of the artificial dof of patch 0. *)
Definition artificial_local_1 : list (Matrix Z) :=
  [ {| mat_cols := 1; mat_data := [[1%Z]; [2%Z]; [30%Z]] |};
    {| mat_cols := 1; mat_data := [[3%Z]; [4%Z]] |} ].
Definition artificial_local_2 : list (Matrix Z) :=
  [ {| mat_cols := 1; mat_data := [[1%Z]; [2%Z]; [99%Z]] |};
    {| mat_cols := 1; mat_data := [[3%Z]; [4%Z]] |} ].

(** ** More notions used in the statements *)

(** Some patch of [ks] has more dofs in the global mapper than its basis
    has functions: the condition of line 76 for the flag 2. *)
Definition has_artificial (mb : gsMultiBasis) (dm : gsDofMapper)
    (ks : list nat) : bool :=
  existsb (fun k => mb_size mb k <? dm_patchSize dm k) ks.

(** What an entry [i + 1] at position [j] of the table that patch [p]
    keeps for patch [k] stands for (lines 104-146): [i] is an artificial
    dof of [k] with a free global index, and the basis function of [p]
    with local index [j] has the same global index. *)
Definition artificial_copy (mb : gsMultiBasis) (dm : gsDofMapper)
    (p k j i : nat) : Prop :=
  p < dm_numPatches dm /\ k < dm_numPatches dm /\
  mb_size mb k <= i < dm_patchSize dm k /\
  dm_is_free_index dm (dm_index dm i k) = true /\
  exists i0, i0 < mb_size mb p /\
             dm_index dm i0 p = dm_index dm i k /\
             local_index dm p i0 = j.

(** The tables of artificial dofs hold copies only, and have an entry for
    every free local dof of the patch that keeps them. *)
Definition artificial_sound (mb : gsMultiBasis) (dm : gsDofMapper)
    (tables : list (list (nat * list nat))) : Prop :=
  forall p info k which,
    tables !! p = Some info -> amap_find k info = Some which ->
    length which = lm_freeSize (local_mapper dm p) /\
    forall j i, which !! j = Some (S i) -> artificial_copy mb dm p k j i.

(** What only [init] writes: the bases, the mappers, the fixed parts, the
    table of artificial dofs and the number of patches for which primal
    constraints are kept. *)
Definition setup_kept {T} (s s' : gsIetiMapper T) : Prop :=
  m_multiBasis s' = m_multiBasis s /\
  m_dofMapperGlobal s' = m_dofMapperGlobal s /\
  m_dofMapperLocal s' = m_dofMapperLocal s /\
  m_fixedPart s' = m_fixedPart s /\
  m_artificialDofInfo s' = m_artificialDofInfo s /\
  length (m_primalConstraints s') = length (m_primalConstraints s) /\
  length (m_primalDofIndices s') = length (m_primalDofIndices s).

(** The status flag of a member function: 8 for the corners, 16, 32, ..
    for the interface averages of dimension 1, 2, .., 4 for the jump
    matrices; the others have none. *)
Definition phase_flag {T} (c : phase_call T) : Z :=
  match c with
  | Builder CornersAsPrimals => 8
  | Builder (InterfaceAveragesAsPrimals _ d) => Z.shiftl 1 (3 + d)
  | Builder (CustomPrimalConstraints _) => 0
  | ComputeJumpMatrices _ _ => 4
  | SkeletonDofs _ => 0
  | ConstructGlobalSolution _ => 0
  end.

(** The status is as it was, or has the flag [f] added. *)
Definition flag_added {T} (f : Z) (s s' : gsIetiMapper T) : Prop :=
  m_status s' = m_status s \/ m_status s' = Z.lor (m_status s) f.

(** The local indices of the coupled dofs of a patch, in the order of the
    dofs: what lines 468-470 push. *)
Definition skeleton_of (dm : gsDofMapper) (patch : nat) : list nat :=
  local_index dm patch
    <$> filter (fun i => dm_is_coupled dm i patch = true)
               (seq 0 (dm_patchSize dm patch)).

(** The coupled indices of the corner functions that are coupled: the
    groups that lines 505-522 clear. *)
Definition corner_cindices (mb : gsMultiBasis) (dm : gsDofMapper)
  : list nat :=
  k ← seq 0 (dm_numPatches dm);
  it ← boxCorners (mb_dim mb);
  if dm_is_coupled_index dm (dm_index dm (mb_functionAtCorner mb k it) k)
  then [dm_cindex dm (mb_functionAtCorner mb k it) k] else [].

(** The groups that the rows are built from: the occurrences of every
    coupled dof, with the groups of the corners emptied when corners are
    excluded. *)
Definition coupling_groups (mb : gsMultiBasis) (dm : gsDofMapper)
    (excludeCorners : bool) : list (list (nat * nat)) :=
  (fun c => if excludeCorners && bool_decide (c ∈ corner_cindices mb dm)
            then [] else occurrences dm c)
    <$> seq 0 (dm_coupledSize dm).

(** Patch [k] has, in the table of some patch, an entry for an
    artificial dof with the global index [g]. *)
Definition recorded (dm : gsDofMapper) (tables : list (list (nat * list nat)))
    (k g : nat) : Prop :=
  exists p info which j i',
    tables !! p = Some info /\ amap_find k info = Some which /\
    which !! j = Some (S i') /\ dm_index dm i' k = g.

(** The global indices of the dofs of patch [patch] on which a row over
    the free local dofs is stored: line 365. *)
Definition support_indices {T} (dm : gsDofMapper) (lm : gsDofMapperLocal)
    (patch : nat) (v : SparseVector T) : list nat :=
  map (fun it : nat * T => dm_index dm (lm_inverse lm it.1) patch) (sv_nz v).

(** [c2] is the copy of the constraint [c] on a patch with the local
    mapper [lm2], for the table [which] that the patch of [c] keeps for
    it (lines 376-402): it has the signature of [c], its row is over the
    free dofs of that patch, every value of its row is a value of the row
    of [c], stored at the local index of the artificial dof that the
    table gives for its position, and every position of the row of [c]
    has its place in the row of [c2]. *)
Definition copy_of {T} (lm2 : gsDofMapperLocal) (which : list nat)
    (c c2 : constr_helper T) : Prop :=
  ch_globalIndices c2 = ch_globalIndices c /\
  sv_size (ch_vector c2) = lm_freeSize lm2 /\
  (forall idx x,
     (idx, x) ∈ sv_nz (ch_vector c2) ->
     exists row w, (row, x) ∈ sv_nz (ch_vector c) /\
                   which !! row = Some (S w) /\ lm_index lm2 w = Ok idx) /\
  (forall row x,
     (row, x) ∈ sv_nz (ch_vector c) ->
     exists w idx x', which !! row = Some (S w) /\
                      lm_index lm2 w = Ok idx /\
                      (idx, x') ∈ sv_nz (ch_vector c2)).

(** The primal bookkeeping of an object agrees: on every patch each
    constraint has its primal dof index, and every index is one of the
    primal dofs counted so far. *)
Definition primal_ids_valid {T} (s : gsIetiMapper T) : Prop :=
  (0 <= m_nPrimalDofs s)%Z /\
  forall patch rows ids,
    m_primalConstraints s !! patch = Some rows ->
    m_primalDofIndices s !! patch = Some ids ->
    length rows = length ids /\
    Forall (fun z => (0 <= z < m_nPrimalDofs s)%Z) ids.

(** Every primal dof counted so far has a constraint on some patch. *)
Definition primal_ids_covered {T} (s : gsIetiMapper T) : Prop :=
  forall z, (0 <= z < m_nPrimalDofs s)%Z ->
            exists patch ids,
              m_primalDofIndices s !! patch = Some ids /\ z ∈ ids.

(** ** Concrete inputs for the properties below *)

(** A mapper with two components, which [init] does not take. *)
Definition two_components : gsDofMapper :=
  {| dm_componentsSize := 2;
     dm_numPatches := dm_numPatches two_intervals;
     dm_patchSize := dm_patchSize two_intervals;
     dm_index := dm_index two_intervals;
     dm_bindex := dm_bindex two_intervals;
     dm_cindex := dm_cindex two_intervals;
     dm_is_free_index := dm_is_free_index two_intervals;
     dm_is_boundary_index := dm_is_boundary_index two_intervals;
     dm_is_coupled_index := dm_is_coupled_index two_intervals;
     dm_freeSize := dm_freeSize two_intervals;
     dm_coupledSize := dm_coupledSize two_intervals;
     dm_preImage := dm_preImage two_intervals |}.

(** The end points of the two intervals alone: a geometry of the two
    patches that lists no component of dimension 1. *)
Definition two_intervals_points : gsMultiPatch :=
  {| mp_nPatches := 2;
     mp_parDim := 1;
     mp_allComponents :=
       [ [ {| pc_patch := 0; pc_dim := 0; pc_index := 1 |} ];
         [ {| pc_patch := 0; pc_dim := 0; pc_index := 2 |};
           {| pc_patch := 1; pc_dim := 0; pc_index := 1 |} ];
         [ {| pc_patch := 1; pc_dim := 0; pc_index := 2 |} ] ] |}.

(** One custom primal constraint with a row on each of the two patches. *)
Definition two_custom : list (nat * SparseVector Z) :=
  [ (0, {| sv_size := 2; sv_nz := [(0, 1%Z); (1, 1%Z)] |});
    (1, {| sv_size := 2; sv_nz := [(0, 1%Z)] |}) ].

(** Two patches with two basis functions each, the second of patch 0 and
    the first of patch 1 being one dof; the mapper of patch 0 declares a
    third, artificial dof, a copy of the second function of patch 1. *)
Definition shared_with_artificial : gsDofMapper :=
  table_mapper [[0; 2; 1]; [2; 1]] 3 2.

(** A geometry for [with_artificial]: two intervals, of which the second
    is listed as a component of dimension 1. *)
Definition with_artificial_geo : gsMultiPatch :=
  {| mp_nPatches := 2;
     mp_parDim := 1;
     mp_allComponents :=
       [ [ {| pc_patch := 1; pc_dim := 1; pc_index := 1 |} ] ] |}.


(** * Properties *)

(** ** The arithmetic of [index_t] *)

Lemma wrap_index_range z : index_range (wrap_index z).
Proof.
  unfold index_range, wrap_index, index_min, index_max, index_bits.
  pose proof (Z.mod_pos_bound (z - - 2 ^ (32 - 1)) (2 ^ 32) ltac:(lia)).
  lia.
Qed.

Lemma wrap_index_id z : index_range z -> wrap_index z = z.
Proof.
  unfold index_range, wrap_index, index_min, index_max, index_bits.
  intros Hz. rewrite Z.mod_small by lia. lia.
Qed.

(** A step from a wrapped value is the step from the value itself. *)
Lemma wrap_index_add z c : wrap_index (wrap_index z + c) = wrap_index (z + c).
Proof.
  unfold wrap_index. f_equal.
  replace ((z - index_min) mod 2 ^ index_bits + index_min + c - index_min)%Z
    with ((z - index_min) mod 2 ^ index_bits + c)%Z by lia.
  replace (z + c - index_min)%Z with (z - index_min + c)%Z by lia.
  apply Zplus_mod_idemp_l.
Qed.

Lemma wrap_index_succ_pred z :
  wrap_index (wrap_index (z + 1) - 1) = wrap_index z.
Proof.
  replace (wrap_index (z + 1) - 1)%Z with (wrap_index (z + 1) + -1)%Z by lia.
  rewrite wrap_index_add. f_equal. lia.
Qed.

Lemma wrap_index_max : wrap_index (index_max + 1) = index_min.
Proof. reflexivity. Qed.

Lemma index_range_0 : index_range 0.
Proof. unfold index_range, index_min, index_max, index_bits. lia. Qed.

(** ** Equations of the monads *)

Section MonadFacts.
Context {St : Type}.
Implicit Types s : St.

Lemma bind_eq {A B} (m : M St A) (f : A -> M St B) s :
  (m ≫= f) s
  = match m s with (Ok a, s') => f a s' | (Err e, s') => (Err e, s') end.
Proof. reflexivity. Qed.

Lemma bind_Ok {A B} (m : M St A) (f : A -> M St B) s b s' :
  (m ≫= f) s = (Ok b, s') ->
  exists a s1, m s = (Ok a, s1) /\ f a s1 = (Ok b, s').
Proof.
  rewrite bind_eq. destruct (m s) as [[a|e] s1]; [eauto | discriminate].
Qed.

Lemma bind_ret {A B} (a : A) (f : A -> M St B) s : (mret a ≫= f) s = f a s.
Proof. reflexivity. Qed.

Lemma bind_gets {A B} (g : St -> A) (f : A -> M St B) s :
  (gets g ≫= f) s = f (g s) s.
Proof. reflexivity. Qed.

Lemma bind_modify {B} (g : St -> St) (f : unit -> M St B) s :
  (modify g ≫= f) s = f tt (g s).
Proof. reflexivity. Qed.

Lemma bind_lift_Ok {A B} (a : A) (f : A -> M St B) s :
  (lift (Ok a) ≫= f) s = f a s.
Proof. reflexivity. Qed.

Lemma bind_lift_Err {A B} e (f : A -> M St B) s :
  (lift (Err e) ≫= f) s = (Err e, s).
Proof. reflexivity. Qed.

Lemma bind_assert_true {B} e (f : unit -> M St B) s :
  (assert_ true e ≫= f) s = f tt s.
Proof. reflexivity. Qed.

Lemma bind_assert_false {B} e (f : unit -> M St B) s :
  (assert_ false e ≫= f) s = (Err e, s).
Proof. reflexivity. Qed.

Lemma bind_assoc {A B C} (m : M St A) (f : A -> M St B) (g : B -> M St C) s :
  ((m ≫= f) ≫= g) s = (m ≫= (fun a => f a ≫= g)) s.
Proof. rewrite !bind_eq. destruct (m s) as [[a|e] s1]; reflexivity. Qed.

Section Mono.
Variable R : St -> St -> Prop.
Hypothesis R_refl : forall s, R s s.
Hypothesis R_trans : forall s1 s2 s3, R s1 s2 -> R s2 s3 -> R s1 s3.

Lemma mono_ret {A} (a : A) : mono R (mret a : M St A).
Proof. intros s. apply R_refl. Qed.

Lemma mono_gets {A} (f : St -> A) : mono R (gets f).
Proof. intros s. apply R_refl. Qed.

Lemma mono_lift {A} (r : result A) : mono R (lift r : M St A).
Proof. intros s. apply R_refl. Qed.

Lemma mono_assert b e : mono R (assert_ b e : M St unit).
Proof. intros s. apply R_refl. Qed.

Lemma mono_modify (f : St -> St) : (forall s, R s (f s)) -> mono R (modify f).
Proof. intros Hf s. apply Hf. Qed.

Lemma mono_bind {A B} (m : M St A) (f : A -> M St B) :
  mono R m -> (forall a, mono R (f a)) -> mono R (m ≫= f).
Proof.
  intros Hm Hf s. rewrite bind_eq. specialize (Hm s).
  destruct (m s) as [[a|e] s1]; simpl in *; [|done].
  eapply R_trans; [exact Hm | apply Hf].
Qed.

Lemma mono_forM {A} (l : list A) (body : A -> M St unit) :
  (forall x, mono R (body x)) -> mono R (forM_ l body).
Proof.
  intros Hb. induction l as [|x l IH]; simpl.
  - apply mono_ret.
  - apply mono_bind; auto.
Qed.

Lemma mono_foldS {A B} (f : B -> A -> M St B) (l : list A) (b : B) :
  (forall b x, mono R (f b x)) -> mono R (foldS f l b).
Proof.
  intros Hf. revert b. induction l as [|x l IH]; intros b; simpl.
  - apply mono_ret.
  - apply mono_bind; auto.
Qed.

Lemma mono_after {C} (run : C -> M St unit) (cs : list C) s :
  (forall c, mono R (run c)) ->
  R s (fold_left (fun s c => (run c s).2) cs s).
Proof.
  intros Hrun. revert s. induction cs as [|c cs IH]; intros s; simpl.
  - apply R_refl.
  - eapply R_trans; [apply Hrun | apply IH].
Qed.
End Mono.
End MonadFacts.

(** Decomposes a goal [mono R m] along the structure of [m]; what is left
    are the steps that change the object. *)
Ltac mono_step :=
  match goal with
  | |- mono _ (mret _) => apply mono_ret; [assumption..]
  | |- mono _ (gets _) => apply mono_gets; [assumption..]
  | |- mono _ (lift _) => apply mono_lift; [assumption..]
  | |- mono _ (assert_ _ _) => apply mono_assert; [assumption..]
  | |- mono _ (_ ≫= _) => apply mono_bind; [assumption | | intros ?]
  | |- mono _ (forM_ _ _) => apply mono_forM; [assumption.. | intros ?]
  | |- mono _ (foldS _ _ _) => apply mono_foldS; [assumption.. | intros ? ?]
  | |- mono _ (modify _) => apply mono_modify
  | |- mono _ (if ?b then _ else _) => destruct b
  | |- mono _ (let _ := _ in _) => cbv zeta
  | |- mono _ (match ?x with _ => _ end) => destruct x
  end.

Ltac unfold_members :=
  unfold cornersAsPrimals, interfaceAveragesAsPrimals,
    customPrimalConstraints, computeJumpMatrices, skeletonDofs,
    constructGlobalSolutionFromLocalSolutions, corners_create_data,
    constraints_construct_data, assert_initialized, m_push_back, m_put, m_get.

(** ** The status flags *)

Lemma has_flag_lor_keep st g f :
  has_flag st f = true -> has_flag (Z.lor st g) f = true.
Proof.
  unfold has_flag. rewrite !negb_true_iff, !Z.eqb_neq.
  intros Hf Hz. apply Hf. rewrite Z.land_lor_distr_l in Hz.
  apply Z.lor_eq_0_iff in Hz. tauto.
Qed.

Lemma has_flag_lor_set st f : f <> 0%Z -> has_flag (Z.lor st f) f = true.
Proof.
  unfold has_flag. rewrite negb_true_iff, Z.eqb_neq.
  intros Hf Hz. apply Hf. rewrite Z.land_lor_distr_l, Z.land_diag in Hz.
  apply Z.lor_eq_0_iff in Hz. tauto.
Qed.

Lemma interface_flag_nonzero d : (0 < d)%Z -> Z.shiftl 1 (3 + d) <> 0%Z.
Proof.
  intros Hd. rewrite Z.shiftl_1_l. apply Z.pow_nonzero; lia.
Qed.

Lemma flags_disjoint k b :
  (0 <= k)%Z -> (0 <= b)%Z -> k <> b ->
  Z.land (Z.shiftl 1 k) (Z.shiftl 1 b) = 0%Z.
Proof.
  intros Hk Hb Hne. rewrite !Z.shiftl_1_l. apply Z.bits_inj'. intros n Hn.
  rewrite Z.land_spec, Z.bits_0, !Z.pow2_bits_eqb by done.
  destruct (Z.eqb_spec k n), (Z.eqb_spec b n); try done. lia.
Qed.

(** ** Sequencing of the phases *)

Section Sequencing.
Context `{Scalar T}.
Variable assembleAverage :
  gsMultiPatch -> gsMultiBasis -> nat -> gsDofMapperLocal -> patchComponent ->
  SparseVector T.
Implicit Types s : gsIetiMapper T.

#[local] Abbreviation run_builder' := (run_builder assembleAverage).
#[local] Abbreviation run_phase' := (run_phase assembleAverage).

Lemma phase_kept_refl s : phase_kept s s.
Proof. split; auto. Qed.

Lemma phase_kept_trans s1 s2 s3 :
  phase_kept s1 s2 -> phase_kept s2 s3 -> phase_kept s1 s3.
Proof. intros [E1 F1] [E2 F2]. split; [congruence | auto]. Qed.

Lemma run_phase_kept c : mono phase_kept (run_phase' c).
Proof.
  pose proof phase_kept_refl as Hr. pose proof phase_kept_trans as Ht.
  destruct c as [[| |]| | |]; unfold run_phase, run_builder; unfold_members.
  all: repeat mono_step.
  all: intros s; split; simpl; auto using has_flag_lor_keep.
Qed.

Lemma not_initialized_fails {A} (k : unit -> M (gsIetiMapper T) A) s :
  has_flag (m_status s) 1 = false ->
  (assert_initialized ≫= k) s = (Err SequencingError, s).
Proof.
  intros Hs. unfold assert_initialized.
  rewrite bind_assoc, bind_gets, Hs. reflexivity.
Qed.

Lemma run_phase_not_initialized c s :
  has_flag (m_status s) 1 = false ->
  run_phase' c s = (Err SequencingError, s).
Proof.
  intros Hs.
  destruct c as [[| |]| | |]; unfold run_phase, run_builder; unfold_members;
    fold (@assert_initialized T);
    rewrite ?bind_assoc; apply (not_initialized_fails _ _ Hs).
Qed.

(** After the guards of a member function: whatever the rest of the body
    does, it keeps the flags. *)
Ltac rest_keeps_flags Hrun :=
  match type of Hrun with
  | ?m ?s0 = _ =>
      let Hm := fresh "Hm" in
      assert (Hm : mono phase_kept m);
      [ pose proof phase_kept_refl as Hr;
        pose proof phase_kept_trans as Ht;
        unfold_members; repeat mono_step;
        intros ?; split; simpl; auto using has_flag_lor_keep
      | specialize (Hm s0); rewrite Hrun in Hm; exact Hm ]
  end.

Lemma cornersAsPrimals_flag s s' :
  cornersAsPrimals s = (Ok tt, s') ->
  phase_kept (set_status (Z.lor (m_status s) 8) s) s'.
Proof.
  intros Hrun. unfold cornersAsPrimals in Hrun.
  destruct (has_flag (m_status s) 1) eqn:E1;
    [|rewrite (not_initialized_fails _ _ E1) in Hrun; discriminate].
  unfold assert_initialized in Hrun.
  rewrite bind_assoc, bind_gets, E1, bind_assert_true, bind_gets in Hrun.
  destruct (has_flag (m_status s) 8) eqn:E8; simpl negb in Hrun;
    [rewrite bind_assert_false in Hrun; discriminate|].
  rewrite bind_assert_true, bind_modify in Hrun.
  rest_keeps_flags Hrun.
Qed.

Lemma computeJumpMatrices_flag fr ec s s' :
  computeJumpMatrices fr ec s = (Ok tt, s') ->
  phase_kept (set_status (Z.lor (m_status s) 4) s) s'.
Proof.
  intros Hrun. unfold computeJumpMatrices in Hrun.
  destruct (has_flag (m_status s) 1) eqn:E1;
    [|rewrite (not_initialized_fails _ _ E1) in Hrun; discriminate].
  unfold assert_initialized in Hrun.
  rewrite bind_assoc, bind_gets, E1, bind_assert_true, bind_gets in Hrun.
  destruct (has_flag (m_status s) 4) eqn:E4; simpl negb in Hrun;
    [rewrite bind_assert_false in Hrun; discriminate|].
  rewrite bind_assert_true, bind_modify in Hrun.
  rest_keeps_flags Hrun.
Qed.

(** The checks of the arguments of [interfaceAveragesAsPrimals]. *)
Lemma interfaceAveragesAsPrimals_flag geo d s s' :
  interfaceAveragesAsPrimals assembleAverage geo d s = (Ok tt, s') ->
  interface_args_ok (m_multiBasis s) geo d = true /\
  phase_kept (set_status (Z.lor (m_status s) (Z.shiftl 1 (3 + d))) s) s'.
Proof.
  intros Hrun. unfold interfaceAveragesAsPrimals in Hrun.
  destruct (has_flag (m_status s) 1) eqn:E1;
    [|rewrite (not_initialized_fails _ _ E1) in Hrun; discriminate].
  unfold assert_initialized in Hrun.
  rewrite bind_assoc, bind_gets, E1, bind_assert_true, bind_gets in Hrun.
  unfold interface_args_ok.
  destruct (0 <? d)%Z;
    [rewrite bind_assert_true in Hrun
    |rewrite bind_assert_false in Hrun; discriminate].
  destruct (d <=? mb_dim (m_multiBasis s))%Z;
    [rewrite bind_assert_true in Hrun
    |rewrite bind_assert_false in Hrun; discriminate].
  destruct (mp_nPatches geo =? mb_nBases (m_multiBasis s));
    [rewrite bind_assert_true in Hrun
    |rewrite bind_assert_false in Hrun; discriminate].
  destruct (mp_parDim geo =? mb_dim (m_multiBasis s))%Z;
    [rewrite bind_assert_true in Hrun
    |rewrite bind_assert_false in Hrun; discriminate].
  split; [reflexivity|].
  cbv zeta in Hrun. rewrite bind_gets in Hrun.
  destruct (has_flag (m_status s) (Z.shiftl 1 (3 + d))) eqn:Ed;
    simpl negb in Hrun; [rewrite bind_assert_false in Hrun; discriminate|].
  rewrite bind_assert_true, bind_modify in Hrun.
  rest_keeps_flags Hrun.
Qed.

Lemma cornersAsPrimals_again s :
  has_flag (m_status s) 8 = true ->
  cornersAsPrimals s = (Err SequencingError, s).
Proof.
  intros E8. unfold cornersAsPrimals.
  destruct (has_flag (m_status s) 1) eqn:E1;
    [|apply (not_initialized_fails _ _ E1)].
  unfold assert_initialized.
  rewrite bind_assoc, bind_gets, E1, bind_assert_true, bind_gets, E8.
  reflexivity.
Qed.

Lemma computeJumpMatrices_again fr ec s :
  has_flag (m_status s) 4 = true ->
  computeJumpMatrices fr ec s = (Err SequencingError, s).
Proof.
  intros E4. unfold computeJumpMatrices.
  destruct (has_flag (m_status s) 1) eqn:E1;
    [|apply (not_initialized_fails _ _ E1)].
  unfold assert_initialized.
  rewrite bind_assoc, bind_gets, E1, bind_assert_true, bind_gets, E4.
  reflexivity.
Qed.

Lemma interfaceAveragesAsPrimals_again geo d s :
  interface_args_ok (m_multiBasis s) geo d = true ->
  has_flag (m_status s) (Z.shiftl 1 (3 + d)) = true ->
  interfaceAveragesAsPrimals assembleAverage geo d s
  = (Err SequencingError, s).
Proof.
  intros Hargs Ed. unfold interfaceAveragesAsPrimals.
  destruct (has_flag (m_status s) 1) eqn:E1;
    [|apply (not_initialized_fails _ _ E1)].
  unfold assert_initialized.
  rewrite bind_assoc, bind_gets, E1, bind_assert_true, bind_gets.
  unfold interface_args_ok in Hargs.
  apply andb_true_iff in Hargs as [Hargs H4].
  apply andb_true_iff in Hargs as [Hargs H3].
  apply andb_true_iff in Hargs as [H1 H2].
  rewrite H1, bind_assert_true, H2, bind_assert_true, H3, bind_assert_true,
    H4, bind_assert_true.
  cbv zeta. rewrite bind_gets, Ed. reflexivity.
Qed.

Lemma after_phase_kept cs s : phase_kept s (after run_phase' cs s).
Proof.
  unfold after.
  apply (mono_after phase_kept phase_kept_refl phase_kept_trans).
  apply run_phase_kept.
Qed.

(** C5 (as amended). Every member function but [init] fails with a
    sequencing error, and leaves the object as it is, when [init] has not
    run.  Each of the one-shot phases other than [init] (corners,
    interface averages of a dimension [d], jump matrices) fails with a
    sequencing error, before it changes anything, when it is called again
    after it succeeded once, whatever other calls (none of them [init])
    came in between. *)
Theorem C5_sequencing :
  (forall (c : phase_call T) s,
     has_flag (m_status s) 1 = false ->
     run_phase' c s = (Err SequencingError, s)) /\
  (forall s s' (cs : list (phase_call T)),
     cornersAsPrimals s = (Ok tt, s') ->
     cornersAsPrimals (after run_phase' cs s')
     = (Err SequencingError, after run_phase' cs s')) /\
  (forall fr ec fr' ec' s s' (cs : list (phase_call T)),
     computeJumpMatrices fr ec s = (Ok tt, s') ->
     computeJumpMatrices fr' ec' (after run_phase' cs s')
     = (Err SequencingError, after run_phase' cs s')) /\
  (forall geo d s s' (cs : list (phase_call T)),
     interfaceAveragesAsPrimals assembleAverage geo d s = (Ok tt, s') ->
     interfaceAveragesAsPrimals assembleAverage geo d (after run_phase' cs s')
     = (Err SequencingError, after run_phase' cs s')).
Proof.
  split; [exact run_phase_not_initialized|].
  split; [|split].
  - intros s s' cs Hrun. apply cornersAsPrimals_again.
    apply after_phase_kept.
    apply (cornersAsPrimals_flag _ _ Hrun). simpl.
    apply has_flag_lor_set. discriminate.
  - intros fr ec fr' ec' s s' cs Hrun. apply computeJumpMatrices_again.
    apply after_phase_kept.
    apply (computeJumpMatrices_flag _ _ _ _ Hrun). simpl.
    apply has_flag_lor_set. discriminate.
  - intros geo d s s' cs Hrun.
    destruct (interfaceAveragesAsPrimals_flag _ _ _ _ Hrun) as [Hargs Hk].
    destruct (after_phase_kept cs s') as [Emb Hflags].
    destruct Hk as [Emb' Hflags'].
    apply interfaceAveragesAsPrimals_again.
    + rewrite Emb, Emb'. exact Hargs.
    + apply Hflags, Hflags'. simpl. apply has_flag_lor_set.
      apply interface_flag_nonzero.
      unfold interface_args_ok in Hargs.
      rewrite !andb_true_iff in Hargs.
      destruct Hargs as [[[Hd _] _] _]. lia.
Qed.
End Sequencing.

(** ** The result monad and successful runs *)

Lemma rbind_Ok {A B} (r : result A) (f : A -> result B) b :
  r ≫= f = Ok b -> exists a, r = Ok a /\ f a = Ok b.
Proof. destruct r as [a|e]; [eauto | discriminate]. Qed.

Lemma rbind_ret {A B} (a : A) (f : A -> result B) : Ok a ≫= f = f a.
Proof. reflexivity. Qed.

Lemma rbind_err {A B} e (f : A -> result B) : Err e ≫= f = Err e.
Proof. reflexivity. Qed.

Lemma get_Ok {A} (l : list A) i x : get l i = Ok x <-> l !! i = Some x.
Proof. unfold get. destruct (l !! i); split; congruence. Qed.

Lemma put_Ok {A} (l : list A) i x l' :
  put l i x = Ok l' <-> i < length l /\ l' = <[i:=x]> l.
Proof.
  unfold put. destruct (decide (i < length l)); split.
  - intros [= <-]. auto.
  - intros [_ ->]. reflexivity.
  - discriminate.
  - intros [? _]. lia.
Qed.

Lemma check_Ok b e : check b e = Ok tt <-> b = true.
Proof. destruct b; simpl; split; congruence. Qed.

(** One step through a successful run [H : m s = (Ok a, s')]. *)
Ltac run_step H :=
  match type of H with
  | (gets _ ≫= _) _ = _ => rewrite bind_gets in H
  | (modify _ ≫= _) _ = _ => rewrite bind_modify in H
  | (mret _ ≫= _) _ = _ => rewrite bind_ret in H
  | ((_ ≫= _) ≫= _) _ = _ => rewrite bind_assoc in H
  | (assert_ ?b _ ≫= _) _ = (Ok _, _) =>
      let E := fresh "Hassert" in
      destruct b eqn:E;
      [rewrite bind_assert_true in H
      |rewrite bind_assert_false in H; discriminate H]
  | (lift ?r ≫= _) _ = (Ok _, _) =>
      let E := fresh "Hlift" in
      destruct r eqn:E;
      [rewrite bind_lift_Ok in H
      |rewrite bind_lift_Err in H; discriminate H]
  | ((let _ := _ in _) ≫= _) _ = _ => cbv zeta in H
  | (let _ := _ in _) _ = _ => cbv zeta in H
  end.

Ltac run_steps H := repeat run_step H.

Section ForLoops.
Context {St : Type}.

(** An invariant of a loop that runs to its end: [I pre s] is stated of
    the elements handled so far. *)
Lemma forM_invariant {A} (I : list A -> St -> Prop) (body : A -> M St unit)
    (l : list A) :
  (forall pre x s s',
     I pre s -> body x s = (Ok tt, s') -> I (pre ++ [x]) s') ->
  forall pre s s',
    I pre s -> forM_ l body s = (Ok tt, s') -> I (pre ++ l) s'.
Proof.
  intros Hbody. induction l as [|x l IH]; intros pre s s' HI Hrun.
  - simpl in Hrun. injection Hrun as <-. rewrite app_nil_r. exact HI.
  - simpl in Hrun. apply bind_Ok in Hrun as ([] & s1 & Hx & Hrest).
    replace (pre ++ x :: l) with ((pre ++ [x]) ++ l)
      by (rewrite <- app_assoc; reflexivity).
    eapply IH; [|exact Hrest]. eapply Hbody; eauto.
Qed.

Lemma foldM_invariant {A S} (I : list A -> S -> Prop)
    (f : S -> A -> result S) (l : list A) :
  (forall pre x s s', I pre s -> f s x = Ok s' -> I (pre ++ [x]) s') ->
  forall pre s s', I pre s -> foldM f l s = Ok s' -> I (pre ++ l) s'.
Proof.
  intros Hf. induction l as [|x l IH]; intros pre s s' HI Hrun.
  - simpl in Hrun. injection Hrun as <-. rewrite app_nil_r. exact HI.
  - simpl in Hrun. destruct (f s x) as [s1|e] eqn:Hx; [|discriminate].
    replace (pre ++ x :: l) with ((pre ++ [x]) ++ l)
      by (rewrite <- app_assoc; reflexivity).
    eapply IH; [|exact Hrun]. eapply Hf; eauto.
Qed.

(** The same, with the step taken at an element of the list only. *)
Lemma foldM_invariant_in {A S} (I : list A -> S -> Prop)
    (f : S -> A -> result S) (l : list A) :
  (forall pre x s s',
     x ∈ l -> I pre s -> f s x = Ok s' -> I (pre ++ [x]) s') ->
  forall s s', I [] s -> foldM f l s = Ok s' -> I l s'.
Proof.
  intros Hf.
  assert (Hgen : forall suf pre s s',
             l = pre ++ suf -> I pre s -> foldM f suf s = Ok s' -> I l s').
  { induction suf as [|x suf IH]; intros pre s s' Hl HI Hrun.
    - injection Hrun as <-. by rewrite Hl, app_nil_r.
    - simpl in Hrun. destruct (f s x) as [s1|e] eqn:Hx; [|discriminate].
      apply (IH (pre ++ [x]) s1 s'); [by rewrite <- app_assoc| |done].
      eapply Hf; eauto. rewrite Hl. apply elem_of_app. right. by left. }
  intros s s'. by apply (Hgen l []).
Qed.

Lemma foldM_preserves {A S} (J : S -> Prop) (f : S -> A -> result S)
    (l : list A) :
  (forall x s s', J s -> f s x = Ok s' -> J s') ->
  forall s s', J s -> foldM f l s = Ok s' -> J s'.
Proof.
  intros Hf s s' HJ Hrun.
  exact (foldM_invariant (fun _ => J) f l
           (fun _ x s s' => Hf x s s') [] s s' HJ Hrun).
Qed.

Lemma foldM_app {A S} (f : S -> A -> result S) (l1 l2 : list A) s :
  foldM f (l1 ++ l2) s = foldM f l1 s ≫= foldM f l2.
Proof.
  revert s. induction l1 as [|x l1 IH]; intros s; simpl; [reflexivity|].
  destruct (f s x); simpl; [apply IH | reflexivity].
Qed.

Lemma foldM_ext {A S} (f g : S -> A -> result S) (l : list A) s :
  (forall x s, x ∈ l -> f s x = g s x) -> foldM f l s = foldM g l s.
Proof.
  revert s. induction l as [|x l IH]; intros s Hfg; simpl; [reflexivity|].
  rewrite Hfg by left. destruct (g s x); [|reflexivity].
  apply IH. intros y s' Hy. apply Hfg. by right.
Qed.
End ForLoops.

(** ** Local mappers *)

Lemma count_free_le marks : count_free marks <= length marks.
Proof. unfold count_free. apply length_filter. Qed.

Lemma local_marks_lookup dm k i :
  i < dm_patchSize dm k ->
  local_marks dm k !! i
  = Some (dm_is_boundary_index dm (dm_index dm i k)).
Proof.
  unfold local_marks, setIdentity, eliminateDof.
  set (bnd j := dm_is_boundary_index dm (dm_index dm j k)).
  set (n := dm_patchSize dm k). intros Hi.
  assert (Hgen : forall l marks,
             length marks = n -> NoDup l ->
             fold_left (fun marks j => if bnd j then <[j:=true]> marks else marks)
                       l marks !! i
             = if decide (i ∈ l) then
                 (if bnd i then Some true else marks !! i)
               else marks !! i).
  { induction l as [|j l IH]; intros marks Hlen Hnd; simpl.
    - reflexivity.
    - apply NoDup_cons in Hnd as [Hj Hnd]. rewrite IH; [|by destruct (bnd j); rewrite ?length_insert|done].
      destruct (decide (i = j)) as [->|Hne].
      + rewrite decide_False by done. rewrite decide_True by left.
        destruct (bnd j); [|done]. apply list_lookup_insert_eq. lia.
      + destruct (decide (i ∈ l)) as [Hin|Hnin].
        * rewrite decide_True by (by right). destruct (bnd i); [done|].
          destruct (bnd j); [|done]. by rewrite list_lookup_insert_ne.
        * rewrite decide_False by (intros [?|?]%elem_of_cons; done).
          destruct (bnd j); [|done]. by rewrite list_lookup_insert_ne. }
  rewrite Hgen; [|apply length_replicate|apply NoDup_seq].
  rewrite decide_True by (apply elem_of_seq; lia).
  change (dm_is_boundary_index dm (dm_index dm i k)) with (bnd i).
  destruct (bnd i); [done|]. apply lookup_replicate_2. exact Hi.
Qed.

Lemma local_marks_length dm k : length (local_marks dm k) = dm_patchSize dm k.
Proof.
  unfold local_marks, setIdentity, eliminateDof.
  generalize (seq 0 (dm_patchSize dm k)). intros l.
  rewrite <- (length_replicate (dm_patchSize dm k) false) at 2.
  generalize (replicate (dm_patchSize dm k) false).
  induction l as [|j l IH]; intros marks; simpl; [reflexivity|].
  rewrite IH. destruct (dm_is_boundary_index _ _); [apply length_insert|done].
Qed.

Lemma local_marks_eq dm k :
  local_marks dm k
  = map (fun i => dm_is_boundary_index dm (dm_index dm i k))
        (seq 0 (dm_patchSize dm k)).
Proof.
  apply list_eq. intros i.
  destruct (decide (i < dm_patchSize dm k)) as [Hi|Hi].
  - rewrite local_marks_lookup by done.
    rewrite list_lookup_fmap, lookup_seq_lt by done. reflexivity.
  - rewrite !lookup_ge_None_2; [done| |].
    + rewrite length_map, length_seq. lia.
    + rewrite local_marks_length. lia.
Qed.

Lemma local_mapper_freeSize_le dm k :
  lm_freeSize (local_mapper dm k) <= dm_patchSize dm k.
Proof.
  unfold local_mapper, finalize, lm_freeSize. simpl.
  rewrite <- (local_marks_length dm k). apply count_free_le.
Qed.

(** ** init *)

Section Init.
Context `{Scalar T}.
Implicit Types s : gsIetiMapper T.

Lemma m_put_Ok {A} (f : gsIetiMapper T -> list A)
    (g : list A -> gsIetiMapper T -> gsIetiMapper T) k x s s' :
  m_put f g k x s = (Ok tt, s') ->
  k < length (f s) /\ s' = g (<[k:=x]> (f s)) s.
Proof.
  unfold m_put. intros Hrun. run_steps Hrun.
  apply put_Ok in Hlift as [Hk ->]. unfold modify in Hrun.
  injection Hrun as <-. auto.
Qed.

Lemma m_get_Ok {A} (f : gsIetiMapper T -> list A) k x s s' :
  m_get f k s = (Ok x, s') -> f s !! k = Some x /\ s' = s.
Proof.
  unfold m_get. intros Hrun. rewrite bind_gets in Hrun.
  unfold lift in Hrun. injection Hrun as Hget <-.
  apply get_Ok in Hget. auto.
Qed.

(** The fields that only [init] writes. *)
Lemma init_artificial_core mb dm dofs : mono core_kept (init_artificial (T:=T) mb dm dofs).
Proof.
  assert (Hr : forall s, core_kept s s) by (intros s; repeat split).
  assert (Ht : forall s1 s2 s3,
             core_kept s1 s2 -> core_kept s2 s3 -> core_kept s1 s3).
  { unfold core_kept. intros s1 s2 s3 ? ?. intuition congruence. }
  unfold init_artificial, m_put, m_get. repeat mono_step.
  all: intros s; repeat split.
Qed.

Lemma init_Ok mb dm fp s s' :
  init mb dm fp s = (Ok tt, s') ->
  m_multiBasis s' = mb /\ m_dofMapperGlobal s' = dm /\ consistent s' /\
  has_flag (m_status s') 1 = true /\ m_nPrimalDofs s' = 0%Z /\
  dm_componentsSize dm = 1 /\ dm_numPatches dm = mb_nBases mb.
Proof.
  intros Hrun. unfold init in Hrun. run_steps Hrun.
  apply bind_Ok in Hrun as ([] & s1 & Hloop & Hrest).
  set (nP := dm_numPatches dm) in *.
  pose (I := fun (pre : list nat) (st : gsIetiMapper T) =>
    m_multiBasis st = mb /\ m_dofMapperGlobal st = dm /\
    length (m_dofMapperLocal st) = nP /\
    (forall k, k ∈ pre -> m_dofMapperLocal st !! k = Some (local_mapper dm k)) /\
    length (m_primalConstraints st) = nP /\
    length (m_primalDofIndices st) = nP /\
    (forall k, k ∈ pre -> mb_size mb k <= dm_patchSize dm k) /\
    has_flag (m_status st) 1 = true /\ m_nPrimalDofs st = 0%Z).
  assert (HI : I (seq 0 nP) s1).
  { change (seq 0 nP) with ([] ++ seq 0 nP).
    eapply (forM_invariant I); [|idtac|exact Hloop].
    - clear. intros pre k st st' HI Hbody.
      destruct HI as (Emb & Edm & Hlen & Hloc & Hpc & Hpd & Hsz & Hfl & Hn).
      cbv beta in Hbody. run_steps Hbody.
      apply Nat.leb_le in Hassert.
      assert (exists st0, I pre st0 /\ 
        (m_put m_dofMapperLocal set_dofMapperLocal k (local_mapper dm k) ≫= (fun _ => 
           m_get m_dofMapperLocal k ≫= (fun lm => lift (init_fixedPart dm lm fp k) ≫= (fun fp0 =>
            m_put m_fixedPart set_fixedPart k fp0)))) st0 = (Ok tt, st')) as (st0 & HI0 & Hrun0).
      { destruct (mb_size mb k <? dm_patchSize dm k).
        - rewrite bind_modify in Hbody. eexists; split; [|exact Hbody].
          repeat split; simpl; auto using has_flag_lor_keep.
        - rewrite bind_ret in Hbody. eexists; split; [|exact Hbody].
          repeat split; auto. }
      clear Hbody Emb Edm Hlen Hloc Hpc Hpd Hsz Hfl Hn st.
      destruct HI0 as (Emb & Edm & Hlen & Hloc & Hpc & Hpd & Hsz & Hfl & Hn).
      apply bind_Ok in Hrun0 as ([] & st1 & Hput & Hrun0).
      apply m_put_Ok in Hput as [Hk ->].
      apply bind_Ok in Hrun0 as (lm & st2 & Hget & Hrun0).
      apply m_get_Ok in Hget as [Hlm ->].
      run_steps Hrun0. apply m_put_Ok in Hrun0 as [Hk' ->].
      repeat split; simpl; auto.
      + by rewrite length_insert.
      + intros k' [Hk0| ->%list_elem_of_singleton]%elem_of_app.
        * destruct (decide (k' = k)) as [->|Hne].
          -- by apply list_lookup_insert_eq.
          -- rewrite list_lookup_insert_ne by done. auto.
        * by apply list_lookup_insert_eq.
      + intros k' [Hk0| ->%list_elem_of_singleton]%elem_of_app; auto.
    - unfold I, resize; simpl. rewrite !take_nil, !app_nil_l, !length_replicate.
      repeat split; try done; try lia;
        intros k Hk; by apply elem_of_nil in Hk. }
  assert (Hcore : core_kept s1 s').
  { rewrite bind_gets in Hrest.
    destruct (has_flag (m_status s1) 2).
    - rewrite bind_gets in Hrest.
      destruct (init_owners mb dm (m_dofMapperLocal s1)) as [dofs|e];
        [rewrite bind_lift_Ok in Hrest
        |rewrite bind_lift_Err in Hrest; discriminate].
      pose proof (init_artificial_core mb dm dofs s1) as Hc.
      rewrite Hrest in Hc. exact Hc.
    - injection Hrest as <-. repeat split. }
  destruct HI as (Emb & Edm & Hlen & Hloc & Hpc & Hpd & Hsz & Hfl & Hn).
  destruct Hcore as (C1 & C2 & C3 & C4 & C5 & C6 & C7 & C8 & C9).
  apply Nat.eqb_eq in Hassert, Hassert0.
  split; [congruence|]. split; [congruence|]. split.
  - unfold consistent. cbv zeta. rewrite C2, C3, C6, C7, C1, Edm. fold nP.
    repeat split; try congruence.
    + apply list_eq. intros k.
      destruct (decide (k < nP)) as [Hk|Hk].
      * rewrite Hloc by (apply elem_of_seq; lia).
        rewrite list_lookup_fmap, lookup_seq_lt by done. reflexivity.
      * rewrite !lookup_ge_None_2; [done| |lia].
        rewrite length_map, length_seq. lia.
    + intros k Hk. rewrite Emb. apply Hsz, elem_of_seq. lia.
  - repeat split; congruence.
Qed.
End Init.

(** ** Local free sizes *)

Lemma length_filter_fmap {A B} (P : B -> Prop) `{forall y, Decision (P y)}
    (f : A -> B) (l : list A) :
  length (filter P (f <$> l)) = length (filter (fun x => P (f x)) l).
Proof.
  induction l as [|x l IH]; [reflexivity|]. csimpl.
  rewrite !filter_cons. destruct (decide (P (f x))); simpl; congruence.
Qed.

Lemma local_mapper_freeSize dm k :
  lm_freeSize (local_mapper dm k)
  = length (filter (locally_free dm)
                   ((fun i => (k, i)) <$> seq 0 (dm_patchSize dm k))).
Proof.
  unfold local_mapper, finalize, lm_freeSize, count_free. simpl.
  rewrite local_marks_eq.
  change (map ?f ?l) with (f <$> l). rewrite !length_filter_fmap.
  reflexivity.
Qed.

Lemma sum_local_free dm (l : list nat) :
  sum_list_with lm_freeSize (local_mapper dm <$> l)
  = length (filter (locally_free dm)
      (l ≫= fun k => (fun i => (k, i)) <$> seq 0 (dm_patchSize dm k))).
Proof.
  induction l as [|k l IH]; [reflexivity|].
  rewrite fmap_cons. cbn [sum_list_with].
  rewrite local_mapper_freeSize, IH, bind_cons, filter_app, length_app.
  reflexivity.
Qed.

Lemma NoDup_all_dofs dm : NoDup (all_dofs dm).
Proof.
  unfold all_dofs. apply NoDup_bind.
  - intros k1 k2 [k i] _ _ (i1 & [= -> ->] & _)%list_elem_of_fmap
      (i2 & [= -> _] & _)%list_elem_of_fmap. reflexivity.
  - intros k _. apply NoDup_fmap_2; [|apply NoDup_seq].
    intros i1 i2 [= ->]. reflexivity.
  - apply NoDup_seq.
Qed.

Lemma elem_of_all_dofs dm k i :
  (k, i) ∈ all_dofs dm <-> k < dm_numPatches dm /\ i < dm_patchSize dm k.
Proof.
  unfold all_dofs. rewrite list_elem_of_bind. split.
  - intros (k' & (i' & [= -> ->] & Hi)%list_elem_of_fmap & Hk).
    apply elem_of_seq in Hi, Hk. lia.
  - intros [Hk Hi]. exists k. split.
    + apply list_elem_of_fmap. exists i. split; [done|].
      apply elem_of_seq. lia.
    + apply elem_of_seq. lia.
Qed.

Section FreeSizes.
Context `{Scalar T}.
Implicit Types s : gsIetiMapper T.

(** C7 (as amended). After [init], the free size of every local mapper is
    at most the size of its patch in the global mapper, and the sum of the
    local free sizes is the number of pairs (subdomain, local index) whose
    global image is not eliminated.  When no subdomain declares artificial
    dofs and, in addition, no free global dof is shared between two such
    pairs, that sum is the number of free dofs of the global mapper. *)
Theorem C7_local_free_sizes mb dm fp s s' :
  init mb dm fp s = (Ok tt, s') ->
  (forall k lm,
     m_dofMapperLocal s' !! k = Some lm ->
     lm_freeSize lm <= dm_patchSize dm k) /\
  total_local_free s' = length (filter (locally_free dm) (all_dofs dm)) /\
  ((forall k, k < dm_numPatches dm -> dm_patchSize dm k = mb_size mb k) ->
   (forall ki, ki ∈ all_dofs dm ->
      (locally_free dm ki <-> global_index dm ki < dm_freeSize dm)) ->
   (forall g, g < dm_freeSize dm ->
      exists ki, ki ∈ all_dofs dm /\ global_index dm ki = g) ->
   (forall ki ki', ki ∈ all_dofs dm -> ki' ∈ all_dofs dm ->
      locally_free dm ki ->
      global_index dm ki = global_index dm ki' -> ki = ki') ->
   total_local_free s' = dm_freeSize dm).
Proof.
  intros Hinit.
  destruct (init_Ok _ _ _ _ _ Hinit) as (Emb & Edm & Hcons & _).
  destruct Hcons as (Hloc & _). rewrite Edm in Hloc.
  assert (Htotal : total_local_free s'
                   = length (filter (locally_free dm) (all_dofs dm))).
  { unfold total_local_free. rewrite Hloc.
    change (map ?f ?l) with (f <$> l). apply sum_local_free. }
  split; [|split; [exact Htotal|]].
  - intros k lm Hk. rewrite Hloc in Hk.
    change (map ?f ?l) with (f <$> l) in Hk.
    apply list_lookup_fmap_Some in Hk as (k' & -> & Hk').
    apply lookup_seq in Hk' as [-> _]. apply local_mapper_freeSize_le.
  - intros _ Hfree Honto Hinj. rewrite Htotal.
    transitivity (length (global_index dm
                            <$> filter (locally_free dm) (all_dofs dm)));
      [by rewrite length_fmap|].
    transitivity (length (seq 0 (dm_freeSize dm))); [|by rewrite length_seq].
    apply Permutation_length, NoDup_Permutation.
    + apply NoDup_fmap_2_strong.
      * intros ki ki' [Hf Hin]%list_elem_of_filter
          [Hf' Hin']%list_elem_of_filter. by apply Hinj.
      * apply NoDup_filter, NoDup_all_dofs.
    + apply NoDup_seq.
    + intros g. rewrite list_elem_of_fmap, elem_of_seq. split.
      * intros (ki & -> & [Hf Hin]%list_elem_of_filter).
        apply Hfree in Hf; [lia|done].
      * intros [_ Hg]. destruct (Honto g) as (ki & Hin & <-); [lia|].
        exists ki. split; [done|]. apply list_elem_of_filter.
        split; [|done]. by apply Hfree.
Qed.
End FreeSizes.

(** ** The numbering of a local mapper *)

Lemma number_dofs_length marks nf ne total :
  length (number_dofs marks nf ne total) = length marks.
Proof.
  revert nf ne. induction marks as [|[] marks IH]; intros nf ne; simpl;
    [reflexivity|..]; by rewrite IH.
Qed.

Lemma count_free_cons (b : bool) marks :
  count_free (b :: marks) = (if b then 0 else 1) + count_free marks.
Proof. unfold count_free. rewrite filter_cons. by destruct b. Qed.

Lemma number_dofs_lookup marks nf ne total i (b : bool) :
  marks !! i = Some b ->
  number_dofs marks nf ne total !! i
  = Some (if b then total + ne + (i - count_free (take i marks))
          else nf + count_free (take i marks)).
Proof.
  revert nf ne i. induction marks as [|b0 marks IH]; intros nf ne i Hi;
    [done|].
  destruct i as [|i].
  - injection Hi as ->. destruct b; simpl; f_equal; unfold count_free; simpl; lia.
  - simpl in Hi. destruct b0; simpl; rewrite (IH _ _ _ Hi);
      rewrite count_free_cons; destruct b; f_equal; try lia.
    pose proof (count_free_le (take i marks)) as Hle.
    rewrite length_take in Hle. lia.
Qed.

Lemma count_free_take_lt marks i :
  marks !! i = Some false -> count_free (take i marks) < count_free marks.
Proof.
  revert i. induction marks as [|b marks IH]; intros i Hi; [done|].
  destruct i as [|i].
  - injection Hi as ->. rewrite count_free_cons. simpl.
    unfold count_free. simpl. lia.
  - simpl in Hi. simpl take. rewrite !count_free_cons.
    specialize (IH _ Hi). lia.
Qed.

Lemma count_free_app l1 l2 :
  count_free (l1 ++ l2) = count_free l1 + count_free l2.
Proof. unfold count_free. by rewrite filter_app, length_app. Qed.

Lemma count_free_take_S marks i (b : bool) :
  marks !! i = Some b ->
  count_free (take (S i) marks)
  = count_free (take i marks) + (if b then 0 else 1).
Proof.
  intros Hi. rewrite (take_S_r _ _ _ Hi), count_free_app.
  f_equal. rewrite count_free_cons. unfold count_free. simpl. lia.
Qed.

(** Among the dofs before [j] there are more free ones, and more
    eliminated ones, than among those before [i <= j]. *)
Lemma count_free_take_mono marks i j :
  i <= j -> j <= length marks ->
  count_free (take i marks) <= count_free (take j marks) /\
  i - count_free (take i marks) <= j - count_free (take j marks).
Proof.
  induction 1 as [|j Hij IH]; intros Hj; [lia|].
  destruct (lookup_lt_is_Some_2 marks j) as [b Hb]; [lia|].
  rewrite (count_free_take_S _ _ _ Hb).
  pose proof (count_free_le (take j marks)) as Hle.
  rewrite length_take in Hle.
  destruct IH as [IH1 IH2]; [lia|]. destruct b; lia.
Qed.

Lemma number_dofs_inj marks i j x :
  number_dofs marks 0 0 (count_free marks) !! i = Some x ->
  number_dofs marks 0 0 (count_free marks) !! j = Some x ->
  i = j.
Proof.
  assert (Hlt : forall i j x, i < j ->
    number_dofs marks 0 0 (count_free marks) !! i = Some x ->
    number_dofs marks 0 0 (count_free marks) !! j = Some x -> False).
  { clear. intros i j x Hij Hi Hj.
    assert (Hjlen : j < length marks).
    { apply lookup_lt_Some in Hj. by rewrite number_dofs_length in Hj. }
    destruct (lookup_lt_is_Some_2 marks i) as [bi Hbi]; [lia|].
    destruct (lookup_lt_is_Some_2 marks j) as [bj Hbj]; [lia|].
    rewrite (number_dofs_lookup _ _ _ _ _ _ Hbi) in Hi.
    rewrite (number_dofs_lookup _ _ _ _ _ _ Hbj) in Hj.
    injection Hi as <-. injection Hj as Hj.
    pose proof (count_free_take_S _ _ _ Hbi) as HS.
    destruct (count_free_take_mono marks (S i) j) as [M1 M2]; [lia..|].
    pose proof (count_free_le (take i marks)) as Li.
    pose proof (count_free_le (take j marks)) as Lj.
    rewrite length_take in Li, Lj.
    destruct bi, bj.
    - lia.
    - pose proof (count_free_take_lt _ _ Hbj). lia.
    - pose proof (count_free_take_lt _ _ Hbi). lia.
    - lia. }
  intros Hi Hj. destruct (Nat.lt_trichotomy i j) as [?|[?|?]]; [|done|];
    exfalso; eauto.
Qed.

Lemma local_index_inj dm k i j :
  i < dm_patchSize dm k -> j < dm_patchSize dm k ->
  local_index dm k i = local_index dm k j -> i = j.
Proof.
  intros Hi Hj Heq.
  pose proof (local_marks_length dm k) as Hlen.
  destruct (lookup_lt_is_Some_2 (lm_dofs (local_mapper dm k)) i) as [x Hx].
  { simpl. rewrite number_dofs_length. lia. }
  destruct (lookup_lt_is_Some_2 (lm_dofs (local_mapper dm k)) j) as [y Hy].
  { simpl. rewrite number_dofs_length. lia. }
  unfold local_index in Heq. rewrite Hx, Hy in Heq. simpl in Heq. subst y.
  exact (number_dofs_inj _ _ _ _ Hx Hy).
Qed.

(** The local index of a dof of the patch exists; it is below the free
    size exactly when the dof was not eliminated. *)
Lemma local_mapper_index dm k i :
  i < dm_patchSize dm k ->
  lm_index (local_mapper dm k) i = Ok (local_index dm k i) /\
  (local_index dm k i <? lm_numFree (local_mapper dm k))
  = negb (dm_is_boundary_index dm (dm_index dm i k)).
Proof.
  intros Hi. unfold local_index, lm_index, get, local_mapper, finalize.
  simpl. pose proof (local_marks_lookup dm k i Hi) as Hm.
  rewrite (number_dofs_lookup _ _ _ _ _ _ Hm). simpl. split; [done|].
  destruct (dm_is_boundary_index dm (dm_index dm i k)); simpl.
  - apply Nat.ltb_ge. lia.
  - apply Nat.ltb_lt. by apply count_free_take_lt.
Qed.

Lemma local_mapper_is_free dm k i :
  i < dm_patchSize dm k ->
  lm_is_free (local_mapper dm k) i
  = Ok (negb (dm_is_boundary_index dm (dm_index dm i k))).
Proof.
  intros Hi. destruct (local_mapper_index dm k i Hi) as [Hidx Hfree].
  unfold lm_is_free. rewrite Hidx, rbind_ret, Hfree. reflexivity.
Qed.

(** ** Reconstruction of the global solution *)

Lemma foldM_fmap {A B S} (f : S -> B -> result S) (g : A -> B) l s :
  foldM f (g <$> l) s = foldM (fun s x => f s (g x)) l s.
Proof.
  revert s. induction l as [|x l IH]; intros s; [reflexivity|].
  csimpl. destruct (f s (g x)); [apply IH | reflexivity].
Qed.

(** Two nested loops over patches and dofs are one loop over the pairs. *)
Lemma foldM_nested {S} (f : S -> nat * nat -> result S) (sz : nat -> nat)
    (ks : list nat) s :
  foldM (fun s k => foldM (fun s i => f s (k, i)) (seq 0 (sz k)) s) ks s
  = foldM f (ks ≫= fun k => (fun i => (k, i)) <$> seq 0 (sz k)) s.
Proof.
  revert s. induction ks as [|k ks IH]; intros s; [reflexivity|].
  rewrite bind_cons, foldM_app, foldM_fmap. simpl.
  destruct (foldM _ (seq 0 (sz k)) s); simpl; [apply IH | reflexivity].
Qed.

Section Reconstruct.
Context `{Scalar T}.
Implicit Types (s : gsIetiMapper T) (R : Matrix T) (lc : list (Matrix T)).

Lemma mat_set_row_Ok R g row R' :
  mat_set_row R g row = Ok R' <->
  length row = mat_cols R /\ g < length (mat_data R) /\
  R' = {| mat_cols := mat_cols R; mat_data := <[g:=row]> (mat_data R) |}.
Proof.
  unfold mat_set_row, check.
  destruct (length row =? mat_cols R) eqn:E; simpl.
  - apply Nat.eqb_eq in E. unfold put.
    destruct (decide (g < length (mat_data R))); simpl; split.
    + intros [= <-]. auto.
    + intros (_ & _ & ->). reflexivity.
    + discriminate.
    + intros (_ & ? & _). lia.
  - apply Nat.eqb_neq in E. split; [discriminate|]. intros (? & _). lia.
Qed.

Lemma elem_of_basis_dofs mb dm k i :
  (k, i) ∈ basis_dofs mb dm <-> k < dm_numPatches dm /\ i < mb_size mb k.
Proof.
  unfold basis_dofs. rewrite list_elem_of_bind. split.
  - intros (k' & (i' & [= -> ->] & Hi)%list_elem_of_fmap & Hk).
    apply elem_of_seq in Hi, Hk. lia.
  - intros [Hk Hi]. exists k. split.
    + apply list_elem_of_fmap. exists i. split; [done|].
      apply elem_of_seq. lia.
    + apply elem_of_seq. lia.
Qed.

(** In a consistent object the step for a pair of the bases proper copies
    the row of the pair, or leaves the result alone. *)
Lemma reconstruct_step_eq s lc R ki :
  consistent s ->
  ki ∈ basis_dofs (m_multiBasis s) (m_dofMapperGlobal s) ->
  reconstruct_step (m_dofMapperGlobal s) (m_dofMapperLocal s) lc R ki
  = if copied (m_dofMapperGlobal s) ki then
      match contrib_row (m_dofMapperGlobal s) lc ki with
      | Some row => mat_set_row R (global_index (m_dofMapperGlobal s) ki) row
      | None => Err OutOfRange
      end
    else Ok R.
Proof.
  intros (Hloc & _ & _ & Hsz) Hin. destruct ki as [k i].
  apply elem_of_basis_dofs in Hin as [Hk Hi].
  specialize (Hsz k Hk). set (dm := m_dofMapperGlobal s) in *.
  destruct (local_mapper_index dm k i) as [Hidx Hfree]; [lia|].
  assert (Hget : get (m_dofMapperLocal s) k = Ok (local_mapper dm k)).
  { apply get_Ok. rewrite Hloc. change (map ?f ?l) with (f <$> l).
    rewrite list_lookup_fmap, lookup_seq_lt by done. reflexivity. }
  unfold reconstruct_step, contrib_row, copied, global_index, dm_is_free.
  cbn [fst snd]. rewrite Hget, rbind_ret.
  rewrite local_mapper_is_free, rbind_ret by lia.
  destruct (negb _ && _); [|reflexivity].
  unfold get at 1. destruct (lc !! k) as [m|]; [|reflexivity].
  rewrite rbind_ret, Hidx, rbind_ret. unfold mat_row, get. simpl.
  destruct (mat_data m !! local_index dm k i); reflexivity.
Qed.

(** The rows of the result of the loop over a list of pairs: the row of
    the last pair of the list that writes there. *)
Lemma reconstruct_fold_rows dm lc (l : list (nat * nat)) R R' :
  foldM
    (fun R ki =>
       if copied dm ki then
         match contrib_row dm lc ki with
         | Some row => mat_set_row R (global_index dm ki) row
         | None => Err OutOfRange
         end
       else Ok R) l R = Ok R' ->
  mat_cols R' = mat_cols R /\
  length (mat_data R') = length (mat_data R) /\
  forall g, g < length (mat_data R) ->
    mat_data R' !! g
    = match last (filter (fun ki => copied dm ki = true
                                    /\ global_index dm ki = g) l) with
      | Some ki => contrib_row dm lc ki
      | None => mat_data R !! g
      end.
Proof.
  revert R. induction l as [|ki l IH]; intros R Hrun.
  - injection Hrun as <-. auto.
  - simpl in Hrun.
    destruct (copied dm ki) eqn:Hc.
    + destruct (contrib_row dm lc ki) as [row|] eqn:Hrow; [|discriminate].
      destruct (mat_set_row R (global_index dm ki) row) as [R1|] eqn:Hset;
        [|discriminate].
      apply mat_set_row_Ok in Hset as (Hlen & Hg & ->).
      destruct (IH _ Hrun) as (Hcols & Hrows & Hget). simpl in *.
      rewrite length_insert in Hrows, Hget.
      split; [done|]. split; [done|]. intros g Hglt.
      rewrite (Hget g Hglt), filter_cons.
      destruct (decide (copied dm ki = true /\ global_index dm ki = g))
        as [[_ <-]|Hne].
      * rewrite last_cons.
        destruct (last (filter _ l)); [done|].
        rewrite list_lookup_insert_eq by done. by rewrite Hrow.
      * destruct (last (filter _ l)); [done|].
        apply list_lookup_insert_ne. intros <-. apply Hne. auto.
    + destruct (IH _ Hrun) as (Hcols & Hrows & Hget).
      split; [done|]. split; [done|]. intros g Hglt.
      rewrite (Hget g Hglt), filter_cons.
      rewrite decide_False; [done|]. intros [? _]. congruence.
Qed.

(** The loop runs to its end when every row it has to copy exists, has
    the width of the result and goes to a row of the result. *)
Lemma reconstruct_fold_total dm lc (l : list (nat * nat)) R :
  (forall ki, ki ∈ l -> copied dm ki = true ->
     global_index dm ki < length (mat_data R) /\
     exists row, contrib_row dm lc ki = Some row /\ length row = mat_cols R) ->
  exists R',
    foldM
      (fun R ki =>
         if copied dm ki then
           match contrib_row dm lc ki with
           | Some row => mat_set_row R (global_index dm ki) row
           | None => Err OutOfRange
           end
         else Ok R) l R = Ok R'.
Proof.
  revert R. induction l as [|ki l IH]; intros R Hgood; [by eexists|].
  simpl. destruct (copied dm ki) eqn:Hc.
  - destruct (Hgood ki) as (Hg & row & Hrow & Hlen); [by left|done|].
    rewrite Hrow.
    destruct (mat_set_row R (global_index dm ki) row) as [R1|] eqn:Hset.
    + apply mat_set_row_Ok in Hset as (_ & _ & ->). apply IH.
      intros ki' Hin' Hc'. simpl. rewrite length_insert.
      apply Hgood; [by right|done].
    + exfalso. 
      assert (is_ok : exists R1, mat_set_row R (global_index dm ki) row = Ok R1)
        by (eexists; apply mat_set_row_Ok; eauto).
      destruct is_ok as [R1 HR1]. congruence.
  - apply IH. intros ki' Hin' Hc'. apply Hgood; [by right|done].
Qed.

(** The member function on an initialised object: the checks, then one
    loop over the pairs of the bases proper. *)
Lemma construct_unfold s lc :
  has_flag (m_status s) 1 = true ->
  constructGlobalSolutionFromLocalSolutions lc s
  = (check (dm_numPatches (m_dofMapperGlobal s) =? length lc)
           ConfigurationError ≫= fun _ =>
     get lc 0 ≫= fun m0 =>
     foldM (reconstruct_step (m_dofMapperGlobal s) (m_dofMapperLocal s) lc)
           (basis_dofs (m_multiBasis s) (m_dofMapperGlobal s))
           (mat_zero (dm_freeSize (m_dofMapperGlobal s)) (mat_cols m0)),
     s).
Proof.
  intros Hinit. unfold constructGlobalSolutionFromLocalSolutions.
  unfold assert_initialized.
  rewrite bind_assoc, bind_gets, Hinit, bind_assert_true.
  rewrite !bind_gets. cbv zeta.
  destruct (dm_numPatches (m_dofMapperGlobal s) =? length lc);
    [rewrite bind_assert_true | reflexivity].
  destruct (get lc 0) as [m0|e]; [rewrite bind_lift_Ok | reflexivity].
  unfold lift. f_equal. simpl.
  unfold basis_dofs. rewrite <- foldM_nested. reflexivity.
Qed.

(** C6. On an initialised, consistent object the reconstruction leaves
    the object alone and, when it succeeds, row [g] of its result is the
    row of the last pair (patch, basis function) in the order of the two
    loops that is copied to [g], and a zero row if there is none: the last
    writer wins.  Round trip: let [u] have one row for every free global
    dof, and let the local contributions hold, for every pair that is
    copied, the row of [u] at the global index of the pair (so a coupled
    dof has the same row on every patch that has it); when every row of
    [u] belongs to some pair, the reconstruction returns exactly [u]. *)
Theorem C6_reconstruction s lc :
  has_flag (m_status s) 1 = true ->
  consistent s ->
  (forall R s',
     constructGlobalSolutionFromLocalSolutions lc s = (Ok R, s') ->
     s' = s /\
     length (mat_data R) = dm_freeSize (m_dofMapperGlobal s) /\
     forall g, g < dm_freeSize (m_dofMapperGlobal s) ->
       mat_data R !! g
       = match last (writers (m_multiBasis s) (m_dofMapperGlobal s) g) with
         | Some ki => contrib_row (m_dofMapperGlobal s) lc ki
         | None => Some (replicate (mat_cols R) T0)
         end) /\
  (forall u : Matrix T,
     length (mat_data u) = dm_freeSize (m_dofMapperGlobal s) ->
     (forall row, row ∈ mat_data u -> length row = mat_cols u) ->
     length lc = dm_numPatches (m_dofMapperGlobal s) ->
     (exists m0, lc !! 0 = Some m0 /\ mat_cols m0 = mat_cols u) ->
     (forall ki, ki ∈ basis_dofs (m_multiBasis s) (m_dofMapperGlobal s) ->
        copied (m_dofMapperGlobal s) ki = true ->
        global_index (m_dofMapperGlobal s) ki
          < dm_freeSize (m_dofMapperGlobal s) /\
        contrib_row (m_dofMapperGlobal s) lc ki
        = mat_data u !! global_index (m_dofMapperGlobal s) ki) ->
     (forall g, g < dm_freeSize (m_dofMapperGlobal s) ->
        exists ki, ki ∈ basis_dofs (m_multiBasis s) (m_dofMapperGlobal s) /\
                   copied (m_dofMapperGlobal s) ki = true /\
                   global_index (m_dofMapperGlobal s) ki = g) ->
     constructGlobalSolutionFromLocalSolutions lc s = (Ok u, s)).
Proof.
  intros Hinit Hcons.
  set (dm := m_dofMapperGlobal s). set (mb := m_multiBasis s).
  assert (Hstep : forall R0,
    foldM (reconstruct_step dm (m_dofMapperLocal s) lc) (basis_dofs mb dm) R0
    = foldM (fun R ki =>
               if copied dm ki then
                 match contrib_row dm lc ki with
                 | Some row => mat_set_row R (global_index dm ki) row
                 | None => Err OutOfRange
                 end
               else Ok R) (basis_dofs mb dm) R0).
  { intros R0. apply foldM_ext. intros ki R Hki.
    by apply reconstruct_step_eq. }
  split.
  - intros R s' Hrun. rewrite (construct_unfold _ _ Hinit) in Hrun.
    injection Hrun as Hrun <-. split; [done|].
    apply rbind_Ok in Hrun as ([] & _ & Hrun).
    apply rbind_Ok in Hrun as (m0 & _ & Hrun).
    fold dm mb in Hrun. rewrite Hstep in Hrun.
    apply reconstruct_fold_rows in Hrun as (Hcols & Hlen & Hrows).
    simpl in Hcols, Hlen, Hrows. rewrite length_replicate in Hlen, Hrows.
    split; [done|]. intros g Hg. rewrite (Hrows g Hg). unfold writers.
    destruct (last _); [done|].
    rewrite Hcols. by apply lookup_replicate_2.
  - intros u Hu Hwidth Hlc (m0 & Hm0 & Hcols0) Hsplit Honto.
    rewrite (construct_unfold _ _ Hinit). f_equal. fold dm mb.
    rewrite Hlc, Nat.eqb_refl. simpl check. rewrite rbind_ret.
    unfold get at 1. rewrite Hm0, rbind_ret, Hstep.
    destruct (reconstruct_fold_total dm lc (basis_dofs mb dm)
                (mat_zero (dm_freeSize dm) (mat_cols m0))) as [R HR].
    { intros ki Hki Hc. destruct (Hsplit ki Hki Hc) as [Hg Hrow].
      simpl. rewrite length_replicate. split; [done|].
      destruct (mat_data u !! global_index dm ki) as [row|] eqn:Hu_g.
      - exists row. split; [done|]. rewrite Hcols0. apply Hwidth.
        by eapply list_elem_of_lookup_2.
      - apply lookup_ge_None in Hu_g. lia. }
    rewrite HR. f_equal.
    apply reconstruct_fold_rows in HR as (Hcols & Hlen & Hrows).
    simpl in Hcols, Hlen, Hrows. rewrite length_replicate in Hlen, Hrows.
    destruct R as [c data], u as [cu datau]. simpl in *. f_equal.
    + congruence.
    + apply list_eq. intros g.
      destruct (decide (g < dm_freeSize dm)) as [Hg|Hg].
      * rewrite (Hrows g Hg).
        destruct (Honto g Hg) as (ki & Hki & Hc & Hgi).
        destruct (last _) as [ki'|] eqn:Hlast.
        -- apply last_Some_elem_of, list_elem_of_filter in Hlast
             as [[Hc' Hg'] Hin'].
           destruct (Hsplit ki' Hin' Hc') as [_ ->]. by rewrite Hg'.
        -- apply last_None in Hlast.
           assert (Hin : ki ∈ filter (fun ki => copied dm ki = true
                           /\ global_index dm ki = g) (basis_dofs mb dm))
             by (apply list_elem_of_filter; auto).
           rewrite Hlast in Hin. by apply elem_of_nil in Hin.
      * rewrite !lookup_ge_None_2; [done|lia|lia].
Qed.

(** C10. The reconstruction reads of the local contributions only the
    rows of the pairs it copies: basis functions proper (below the size of
    the basis) that are free in the local and the global mapper.  Two
    inputs of the same shape that agree on these rows give the same
    outcome, whatever the rows of the artificial dofs hold; and the rows of
    artificial dofs (declared indices from the size of the basis on) are
    never rows of basis functions proper. *)
Theorem C10_artificial_rows_not_read s lc1 lc2 :
  consistent s ->
  length lc1 = length lc2 ->
  mat_cols <$> lc1 !! 0 = mat_cols <$> lc2 !! 0 ->
  (forall ki, ki ∈ basis_dofs (m_multiBasis s) (m_dofMapperGlobal s) ->
     copied (m_dofMapperGlobal s) ki = true ->
     contrib_row (m_dofMapperGlobal s) lc1 ki
     = contrib_row (m_dofMapperGlobal s) lc2 ki) ->
  constructGlobalSolutionFromLocalSolutions lc1 s
  = constructGlobalSolutionFromLocalSolutions lc2 s /\
  (forall k i i',
     i < mb_size (m_multiBasis s) k -> mb_size (m_multiBasis s) k <= i' ->
     i' < dm_patchSize (m_dofMapperGlobal s) k ->
     local_index (m_dofMapperGlobal s) k i
     <> local_index (m_dofMapperGlobal s) k i').
Proof.
  intros Hcons Hlen Hcols Hrows. split.
  - destruct (has_flag (m_status s) 1) eqn:Hinit.
    + rewrite !(construct_unfold _ _ Hinit), Hlen. f_equal.
      destruct (check _ _) as [[]|e]; [rewrite !rbind_ret|reflexivity].
      unfold get at 1 2.
      destruct (lc1 !! 0) as [m1|], (lc2 !! 0) as [m2|]; try discriminate;
        [|reflexivity].
      injection Hcols as Hcols. rewrite !rbind_ret, Hcols.
      apply foldM_ext. intros ki R Hki. rewrite !reconstruct_step_eq by done.
      destruct (copied _ ki) eqn:Hc; [|reflexivity].
      by rewrite Hrows.
    + unfold constructGlobalSolutionFromLocalSolutions.
      by rewrite !(not_initialized_fails _ _ Hinit).
  - intros k i i' Hi Hi' Hpatch Heq.
    apply local_index_inj in Heq; lia.
Qed.
End Reconstruct.

(** ** Jump matrices *)

Lemma foldM_bind {A B S} (f : S -> B -> result S) (g : A -> list B)
    (l : list A) s :
  foldM (fun s x => foldM f (g x) s) l s = foldM f (l ≫= g) s.
Proof.
  revert s. induction l as [|x l IH]; intros s; [reflexivity|].
  rewrite bind_cons, foldM_app. simpl.
  destruct (foldM f (g x) s); simpl; [apply IH | reflexivity].
Qed.

Lemma foldM_omap {A B S} (f : S -> B -> result S) (g : A -> option B)
    (l : list A) s :
  (forall x, x ∈ l -> is_Some (g x)) ->
  foldM (fun s x => match g x with Some y => f s y | None => Err OutOfRange end)
        l s
  = foldM f (omap g l) s.
Proof.
  revert s. induction l as [|x l IH]; intros s Hg; [reflexivity|].
  simpl. destruct (Hg x) as [y Hy]; [by left|]. rewrite Hy. simpl.
  destruct (f s y); [|reflexivity]. apply IH. intros x' Hx'. apply Hg.
  by right.
Qed.

(** *** The rows of one group *)

Lemma elem_of_pair_positions fr n j1 j2 :
  (j1, j2) ∈ pair_positions fr n <->
  j1 < j2 < n /\ (fr = false -> j1 = 0).
Proof.
  unfold pair_positions. rewrite list_elem_of_bind. split.
  - intros (j & (j' & [= -> ->] & Hj')%list_elem_of_fmap & Hj).
    apply elem_of_seq in Hj, Hj'.
    destruct fr; (split; [lia|]); intros; try done; lia.
  - intros [Hlt Hfr]. exists j1. split.
    + apply list_elem_of_fmap. exists j2. split; [done|].
      apply elem_of_seq. lia.
    + apply elem_of_seq. destruct fr; [lia|]. rewrite Hfr by done. lia.
Qed.

Lemma NoDup_pair_positions fr n : NoDup (pair_positions fr n).
Proof.
  unfold pair_positions. apply NoDup_bind.
  - intros j1 j1' [a b] _ _ (? & [= -> ->] & _)%list_elem_of_fmap
      (? & [= -> _] & _)%list_elem_of_fmap. reflexivity.
  - intros j1 _. apply NoDup_fmap_2; [|apply NoDup_seq].
    intros a b [= ->]. reflexivity.
  - apply NoDup_seq.
Qed.

(** The minimal rows: the first occurrence against every other one. *)
Lemma pair_positions_minimal n :
  pair_positions false n = (fun j2 => (0, j2)) <$> seq 1 (n - 1).
Proof.
  unfold pair_positions. change (Z.to_nat 1) with 1. simpl seq.
  rewrite bind_singleton. reflexivity.
Qed.

Lemma length_pair_positions_minimal n :
  length (pair_positions false n) = n - 1.
Proof. by rewrite pair_positions_minimal, length_fmap, length_seq. Qed.

Lemma length_bind_seq (f : nat -> list (nat * nat)) (g : nat -> nat) a m :
  (forall j, length (f j) = g j) ->
  length (seq a m ≫= f) = sum_list_with g (seq a m).
Proof.
  intros Hf. revert a. induction m as [|m IH]; intros a; [reflexivity|].
  simpl seq. rewrite bind_cons, length_app, Hf, IH. reflexivity.
Qed.

(** [2 * ((n-1) + (n-2) + ... + (n-m)) = m * (2n - m - 1)] *)
Lemma sum_descending n m :
  m <= n ->
  2 * sum_list_with (fun j1 => n - (j1 + 1)) (seq 0 m) = m * (2 * n - m - 1).
Proof.
  induction m as [|m IH]; intros Hm; [reflexivity|].
  rewrite seq_S, sum_list_with_app. simpl. nia.
Qed.

(** The fully redundant rows: one for each of the [n (n-1) / 2] pairs. *)
Lemma length_pair_positions_redundant n :
  Z.of_nat (length (pair_positions true n))
  = Z.quot (Z.of_nat n * (Z.of_nat n - 1)) 2.
Proof.
  unfold pair_positions.
  rewrite (length_bind_seq _ (fun j1 => n - (j1 + 1)))
    by (intros j; by rewrite length_fmap, length_seq).
  destruct n as [|n]; [reflexivity|].
  replace (Z.to_nat (Z.of_nat (S n) - 1)) with n by lia.
  pose proof (sum_descending (S n) n) as Hsum.
  set (x := sum_list_with _ _) in *.
  assert (Hx : 2 * x = n * (n + 1)) by lia.
  apply Z.quot_unique with (r := 0%Z); nia.
Qed.

Lemma group_pairs_length fr group :
  length (group_pairs fr group) = length (pair_positions fr (length group)).
Proof.
  unfold group_pairs.
  assert (Hall : forall j, j ∈ pair_positions fr (length group) ->
             is_Some (o1 ← group !! j.1; o2 ← group !! j.2; Some (o1, o2))).
  { intros [j1 j2] [Hlt _]%elem_of_pair_positions. simpl.
    destruct (lookup_lt_is_Some_2 group j1) as [o1 ->]; [lia|].
    destruct (lookup_lt_is_Some_2 group j2) as [o2 ->]; [lia|].
    by eexists. }
  induction (pair_positions fr (length group)) as [|j l IH]; [reflexivity|].
  simpl. destruct (Hall j) as [p Hp]; [by left|].
  simpl in Hp. rewrite Hp. simpl. f_equal. apply IH.
  intros j' Hj'. apply Hall. by right.
Qed.

Lemma foldM_pairs {S} (f : S -> nat * nat -> result S)
    (inner : nat -> list nat) (ks : list nat) s :
  foldM (fun s k => foldM (fun s i => f s (k, i)) (inner k) s) ks s
  = foldM f (ks ≫= fun k => (fun i => (k, i)) <$> inner k) s.
Proof.
  rewrite <- foldM_bind. apply foldM_ext. intros k s' _.
  by rewrite foldM_fmap.
Qed.

Lemma lookup_unique {A} (l : list A) i x y :
  l !! i = Some x -> l !! i = Some y -> x = y.
Proof. congruence. Qed.

Section Jump.
Context `{Scalar T}.
Implicit Types (s : gsIetiMapper T) (se : list (gsSparseEntries T)).

Lemma assemble_group_eq fr group (st : list (gsSparseEntries T) * Z) :
  assemble_group fr group st = foldM emit_pair (group_pairs fr group) st.
Proof.
  unfold assemble_group, group_pairs. cbv zeta.
  rewrite (foldM_pairs
    (fun (st : list (gsSparseEntries T) * Z) (j : nat * nat) =>
       o1 ← get group j.1; o2 ← get group j.2;
       se1 ← se_add st.1 o1.1 st.2 o1.2 T1;
       se2 ← se_add se1 o2.1 st.2 o2.2 Tm1;
       mret (se2, (st.2 + 1)%Z))
    (fun j1 => seq (j1 + 1) (length group - (j1 + 1)))).
  fold (pair_positions fr (length group)).
  rewrite <- foldM_omap.
  - apply foldM_ext. intros [j1 j2] st' _. unfold get. simpl.
    destruct (group !! j1); [|reflexivity]. simpl.
    destruct (group !! j2); reflexivity.
  - intros [j1 j2] [Hlt _]%elem_of_pair_positions. simpl.
    destruct (lookup_lt_is_Some_2 group j1) as [o1 ->]; [lia|].
    destruct (lookup_lt_is_Some_2 group j2) as [o2 ->]; [lia|].
    by eexists.
Qed.

Lemma assemble_jumps_eq fr nPatches coupling :
  assemble_jumps fr nPatches coupling
  = foldM emit_pair (all_pairs fr coupling) (replicate nPatches [], 0%Z).
Proof.
  unfold assemble_jumps, all_pairs. rewrite <- foldM_bind.
  apply foldM_ext. intros group st _. apply assemble_group_eq.
Qed.

Lemma se_add_Ok se patch row col (v : T) se' :
  se_add se patch row col v = Ok se' <->
  exists e, se !! patch = Some e /\ se' = <[patch := e ++ [(row, col, v)]]> se.
Proof.
  unfold se_add, get. destruct (se !! patch) as [e|] eqn:He.
  - rewrite rbind_ret, put_Ok. split.
    + intros [_ ->]. eauto.
    + intros (e' & [= <-] & ->). split; [|done]. by eapply lookup_lt_Some.
  - split; [discriminate|]. intros (e & ? & _). discriminate.
Qed.

(** What the rows of a list of pairs, numbered from [m] on, add to the
    entries of the patches. *)
Lemma emit_fold pairs se m se' m' :
  foldM emit_pair pairs (se, m) = Ok (se', m') ->
  m' = (m + Z.of_nat (length pairs))%Z /\
  length se' = length se /\
  (forall p, p ∈ pairs -> p.1.1 < length se /\ p.2.1 < length se) /\
  forall k e, se !! k = Some e ->
              se' !! k = Some (e ++ entries_from m pairs k).
Proof.
  revert se m. induction pairs as [|p pairs IH]; intros se m Hrun.
  - injection Hrun as <- <-. split; [simpl; lia|]. split; [done|].
    split; [intros p Hp; by apply elem_of_nil in Hp|].
    intros k e He. by rewrite app_nil_r.
  - simpl in Hrun. unfold emit_pair at 1 in Hrun. simpl in Hrun.
    destruct (se_add se _ _ _ _) as [se1|] eqn:H1; [|discriminate].
    rewrite rbind_ret in Hrun.
    destruct (se_add se1 _ _ _ _) as [se2|] eqn:H2; [|discriminate].
    rewrite rbind_ret in Hrun. simpl in Hrun.
    apply se_add_Ok in H1 as (e1 & He1 & ->).
    apply se_add_Ok in H2 as (e2 & He2 & ->).
    apply IH in Hrun as (-> & Hlen & Hrange & Hent).
    rewrite !length_insert in Hlen, Hrange.
    apply lookup_lt_Some in He1 as Hlt1.
    apply lookup_lt_Some in He2 as Hlt2. rewrite length_insert in Hlt2.
    split; [rewrite length_cons; lia|]. split; [done|]. split.
    + intros p' [->|Hp']%elem_of_cons; auto.
    + intros k e He. simpl entries_from. unfold pair_entries.
      rewrite app_assoc. apply Hent.
      destruct (decide (p.2.1 = k)) as [<-|Hne2].
      * rewrite list_lookup_insert_eq by (by rewrite length_insert).
        f_equal.
        destruct (decide (p.1.1 = p.2.1)) as [Heq|Hne1].
        -- rewrite Heq in He2. rewrite list_lookup_insert_eq in He2 by lia.
           injection He2 as <-. rewrite Heq in He1.
           rewrite <- app_assoc. by rewrite (lookup_unique _ _ _ _ He1 He).
        -- rewrite list_lookup_insert_ne in He2 by done.
           rewrite app_nil_l. by rewrite (lookup_unique _ _ _ _ He2 He).
      * rewrite list_lookup_insert_ne by done. rewrite app_nil_r.
        destruct (decide (p.1.1 = k)) as [<-|Hne1].
        -- rewrite list_lookup_insert_eq by done.
           by rewrite (lookup_unique _ _ _ _ He1 He).
        -- rewrite list_lookup_insert_ne by done. by rewrite app_nil_r.
Qed.

(** *** The coefficient of a jump matrix *)

Lemma coeff_pair_entries_other (m r : Z) p k c (acc : T) :
  m <> r ->
  fold_left
    (fun acc (t : Z * nat * T) =>
       if (t.1.1 =? r)%Z && (t.1.2 =? c) then Tadd acc t.2 else acc)
    (pair_entries m p k) acc = acc.
Proof.
  intros Hm. unfold pair_entries.
  assert (Hneq : (m =? r)%Z = false) by (by apply Z.eqb_neq).
  repeat case_decide; simpl; rewrite ?Hneq; reflexivity.
Qed.

Lemma coeff_entries_from_before pairs (m r : Z) k c (acc : T) :
  (r < m)%Z ->
  fold_left
    (fun acc (t : Z * nat * T) =>
       if (t.1.1 =? r)%Z && (t.1.2 =? c) then Tadd acc t.2 else acc)
    (entries_from m pairs k) acc = acc.
Proof.
  revert m. induction pairs as [|p pairs IH]; intros m Hr; [reflexivity|].
  simpl. rewrite fold_left_app, coeff_pair_entries_other by lia.
  apply IH. lia.
Qed.

(** Only the pair with number [r] contributes to row [r]. *)
Lemma coeff_entries_from pairs (m r : Z) t p k c (acc : T) :
  pairs !! t = Some p -> r = (m + Z.of_nat t)%Z ->
  fold_left
    (fun acc (t : Z * nat * T) =>
       if (t.1.1 =? r)%Z && (t.1.2 =? c) then Tadd acc t.2 else acc)
    (entries_from m pairs k) acc
  = fold_left
      (fun acc (t : Z * nat * T) =>
         if (t.1.1 =? r)%Z && (t.1.2 =? c) then Tadd acc t.2 else acc)
      (pair_entries r p k) acc.
Proof.
  revert m t. induction pairs as [|p0 pairs IH]; intros m t Ht Hr; [done|].
  simpl. rewrite fold_left_app. destruct t as [|t].
  - injection Ht as ->. replace r with m by lia.
    apply coeff_entries_from_before. lia.
  - rewrite coeff_pair_entries_other by lia.
    apply (IH (m + 1)%Z t); [done|lia].
Qed.

(** The entries of row [r] that a pair of distinct occurrences leaves. *)
Lemma coeff_pair_entries (r : Z) (o1 o2 : nat * nat) k c :
  (forall x : T, Tadd T0 x = x) -> o1 <> o2 ->
  fold_left
    (fun acc (t : Z * nat * T) =>
       if (t.1.1 =? r)%Z && (t.1.2 =? c) then Tadd acc t.2 else acc)
    (pair_entries r (o1, o2) k) T0
  = if decide ((k, c) = o1) then T1
    else if decide ((k, c) = o2) then Tm1 else T0.
Proof.
  intros Hadd Hne. unfold pair_entries. destruct o1 as [k1 c1], o2 as [k2 c2].
  cbn [fst snd].
  destruct (decide (k1 = k)) as [->|N1], (decide (k2 = k)) as [->|N2];
    simpl; rewrite ?Z.eqb_refl; simpl;
    repeat match goal with
      | |- context [?a =? ?b] => destruct (Nat.eqb_spec a b)
      | |- context [decide ?P] => destruct (decide P)
      end; simplify_eq; simpl; rewrite ?Hadd; done.
Qed.

(** *** The groups of coupled dofs *)

Lemma find_coupling_eq dm locals cS :
  find_coupling dm locals (dm_numPatches dm) cS
  = foldM (coupling_step dm locals) (all_dofs dm) (replicate cS []).
Proof.
  unfold find_coupling, all_dofs.
  rewrite <- (foldM_pairs (coupling_step dm locals)). reflexivity.
Qed.

Lemma consistent_local s k :
  consistent s -> k < dm_numPatches (m_dofMapperGlobal s) ->
  m_dofMapperLocal s !! k = Some (local_mapper (m_dofMapperGlobal s) k).
Proof.
  intros (Hloc & _) Hk. rewrite Hloc. change (map ?f ?l) with (f <$> l).
  by rewrite list_lookup_fmap, lookup_seq_lt.
Qed.

(** The groups found: for every coupled index, its occurrences. *)
Lemma find_coupling_Ok s coupling :
  consistent s ->
  find_coupling (m_dofMapperGlobal s) (m_dofMapperLocal s)
    (dm_numPatches (m_dofMapperGlobal s))
    (dm_coupledSize (m_dofMapperGlobal s)) = Ok coupling ->
  length coupling = dm_coupledSize (m_dofMapperGlobal s) /\
  forall c, c < dm_coupledSize (m_dofMapperGlobal s) ->
            coupling !! c = Some (occurrences (m_dofMapperGlobal s) c).
Proof.
  intros Hcons. set (dm := m_dofMapperGlobal s).
  set (cS := dm_coupledSize dm). rewrite find_coupling_eq. fold dm.
  apply (foldM_invariant_in
    (fun pre (coupling : list (list (nat * nat))) =>
       length coupling = cS /\
       forall c, c < cS -> coupling !! c = Some (occurrences_in dm pre c))).
  - intros pre [k i] cp cp' [Hk Hi]%elem_of_all_dofs [Hlen Hgrp] Hstep.
    unfold coupling_step in Hstep. cbn [fst snd] in Hstep.
    unfold occurrences_in.
    destruct (dm_is_coupled_index dm (dm_index dm i k)) eqn:Hc.
    + assert (Hg : get (m_dofMapperLocal s) k = Ok (local_mapper dm k))
        by (by apply get_Ok, consistent_local).
      rewrite Hg, rbind_ret in Hstep.
      destruct (local_mapper_index dm k i Hi) as [Hidx _].
      rewrite Hidx, rbind_ret in Hstep.
      apply rbind_Ok in Hstep as (grp & Hget%get_Ok & Hput%put_Ok).
      destruct Hput as [Hc0 ->]. split; [by rewrite length_insert|].
      intros c Hclt. rewrite filter_app, fmap_app, filter_cons, filter_nil.
      unfold global_index. cbn [fst snd].
      destruct (decide (dm_cindex dm i k = c)) as [<-|Hne].
      * rewrite list_lookup_insert_eq by done.
        rewrite decide_True by done. f_equal.
        rewrite (Hgrp _ Hclt) in Hget. by injection Hget as <-.
      * rewrite list_lookup_insert_ne by done.
        rewrite decide_False by (intros [_ ?]; done).
        rewrite app_nil_r. by apply Hgrp.
    + injection Hstep as <-. split; [done|]. intros c Hclt.
      rewrite filter_app, fmap_app, filter_cons, filter_nil.
      unfold global_index. cbn [fst snd].
      rewrite decide_False by (intros [? _]; congruence).
      rewrite app_nil_r. by apply Hgrp.
  - split; [apply length_replicate|]. intros c Hc.
    by apply lookup_replicate_2.
Qed.

Lemma NoDup_occurrences dm c : NoDup (occurrences dm c).
Proof.
  unfold occurrences, occurrences_in. apply NoDup_fmap_2_strong.
  - intros [k i] [k' i'] [_ [_ Hi]%elem_of_all_dofs]%list_elem_of_filter
      [_ [_ Hi']%elem_of_all_dofs]%list_elem_of_filter. cbn [fst snd].
    intros [= <- Heq]. f_equal. by eapply local_index_inj.
  - apply NoDup_filter, NoDup_all_dofs.
Qed.

(** Erasing leaves a group as it is or empties it. *)
Lemma erase_corners_Ok mb dm nPatches coupling coupling' :
  erase_corners mb dm nPatches coupling = Ok coupling' ->
  length coupling' = length coupling /\
  forall c, coupling' !! c = coupling !! c \/ coupling' !! c = Some [].
Proof.
  unfold erase_corners.
  apply (foldM_preserves
    (fun cp => length cp = length coupling /\
               forall c, cp !! c = coupling !! c \/ cp !! c = Some []));
    [|auto].
  intros k cp cp' HJ.
  apply (foldM_preserves
    (fun cp => length cp = length coupling /\
               forall c, cp !! c = coupling !! c \/ cp !! c = Some []));
    [|done].
  clear. intros it cp cp' [Hlen Hgrp] Hstep. cbv zeta in Hstep.
  destruct (dm_is_coupled_index _ _).
  - apply put_Ok in Hstep as [Hc ->]. split; [by rewrite length_insert|].
    intros c. destruct (decide (dm_cindex dm (mb_functionAtCorner mb k it) k = c))
      as [<-|Hne].
    + right. by apply list_lookup_insert_eq.
    + rewrite list_lookup_insert_ne by done. apply Hgrp.
  - injection Hstep as <-. auto.
Qed.

Lemma count_multipliers_Ok fr ec coupling N :
  count_multipliers fr ec coupling = Ok N ->
  N = expected_total fr coupling /\
  forall group, group ∈ coupling -> 1 < length group \/ ec = true.
Proof.
  unfold count_multipliers.
  assert (Hgen : forall n0,
    foldM (fun numLagrangeMult (group : list (nat * nat)) =>
             let n := Z.of_nat (length group) in
             check ((1 <? n)%Z || ec) InternalInvariantViolation ≫= fun _ =>
             mret (if fr then numLagrangeMult + Z.quot (n * (n - 1)) 2
                   else numLagrangeMult + (n - 1))%Z) coupling n0 = Ok N ->
    N = (n0 + expected_total fr coupling)%Z /\
    forall group, group ∈ coupling -> 1 < length group \/ ec = true).
  { induction coupling as [|group coupling IH]; intros n0 Hrun.
    - injection Hrun as <-. simpl. split; [lia|].
      intros g Hg. by apply elem_of_nil in Hg.
    - simpl in Hrun.
      destruct ((1 <? Z.of_nat (length group))%Z || ec) eqn:Hchk;
        [|discriminate].
      simpl in Hrun. apply IH in Hrun as [-> Hall]. split.
      + simpl. unfold expected_rows. destruct fr; lia.
      + intros g [->|Hg]%elem_of_cons; [|auto].
        apply orb_true_iff in Hchk as [Hlt%Z.ltb_lt| ->]; [left; lia|by right]. }
  intros Hrun. apply Hgen in Hrun as [-> Hall]. split; [lia|done].
Qed.

(** A completed run of [computeJumpMatrices] on a consistent object. *)
Lemma computeJumpMatrices_Ok fr ec s s' :
  consistent s ->
  computeJumpMatrices fr ec s = (Ok tt, s') ->
  exists coupling se N,
    length coupling = dm_coupledSize (m_dofMapperGlobal s) /\
    (forall c group, coupling !! c = Some group ->
       group = occurrences (m_dofMapperGlobal s) c \/
       (ec = true /\ group = [])) /\
    (forall group, group ∈ coupling -> 1 < length group \/ ec = true) /\
    N = expected_total fr coupling /\
    foldM emit_pair (all_pairs fr coupling)
          (replicate (dm_numPatches (m_dofMapperGlobal s)) [], 0%Z)
    = Ok (se, N) /\
    Forall2 (is_jump_matrix (m_dofMapperGlobal s) se N)
            (seq 0 (dm_numPatches (m_dofMapperGlobal s)))
            (m_jumpMatrices s').
Proof.
  intros Hcons Hrun. unfold computeJumpMatrices, assert_initialized in Hrun.
  run_steps Hrun.
  cbn [m_dofMapperGlobal m_dofMapperLocal m_multiBasis set_status]
    in Hlift, Hrun.
  set (dm := m_dofMapperGlobal s) in *.
  apply find_coupling_Ok in Hlift as [Hlen Hgrp]; [|done]. fold dm in Hlen, Hgrp.
  apply bind_Ok in Hrun as (coupling & s1 & Hec & Hrun).
  assert (Hcp : s1 = set_status (Z.lor (m_status s) 4) s /\
                length coupling = dm_coupledSize dm /\
                forall c group, coupling !! c = Some group ->
                  group = occurrences dm c \/ (ec = true /\ group = [])).
  { destruct ec.
    - unfold lift in Hec. injection Hec as Herase <-.
      apply erase_corners_Ok in Herase as [Hl Hg].
      split; [done|]. split; [congruence|]. intros c group Hc.
      destruct (Hg c) as [E|E]; rewrite Hc in E.
      + left. symmetry in E. apply lookup_lt_Some in E as Hlt.
        rewrite Hlen in Hlt. rewrite (Hgrp c Hlt) in E. congruence.
      + right. split; congruence.
    - injection Hec as <- <-. split; [done|]. split; [done|].
      intros c group Hc. left. apply lookup_lt_Some in Hc as Hlt.
      rewrite Hlen in Hlt. rewrite Hgrp in Hc by done. congruence. }
  destruct Hcp as (-> & Hlen' & Hgrp'). clear Hec.
  destruct (count_multipliers fr ec coupling) as [N|] eqn:Hcount;
    [rewrite bind_lift_Ok in Hrun|rewrite bind_lift_Err in Hrun; discriminate].
  cbn [m_dofMapperGlobal set_status] in Hrun. fold dm in Hrun.
  destruct (assemble_jumps fr (dm_numPatches dm) coupling) as [[se m]|]
    eqn:Hasm;
    [rewrite bind_lift_Ok in Hrun|rewrite bind_lift_Err in Hrun; discriminate].
  cbn [fst snd] in Hrun.
  destruct (m =? N)%Z eqn:HmN;
    [rewrite bind_assert_true in Hrun
    |rewrite bind_assert_false in Hrun; discriminate].
  apply Z.eqb_eq in HmN as ->. rewrite bind_modify in Hrun.
  apply count_multipliers_Ok in Hcount as [HN Hsizes].
  rewrite assemble_jumps_eq in Hasm.
  exists coupling, se, N. do 5 (split; [done|]).
  pose (I := fun (pre : list nat) (st : gsIetiMapper T) =>
    Forall2 (is_jump_matrix dm se N) pre (m_jumpMatrices st) /\
    m_dofMapperLocal st = m_dofMapperLocal s).
  assert (HI : I (seq 0 (dm_numPatches dm)) s').
  { change (seq 0 (dm_numPatches dm)) with ([] ++ seq 0 (dm_numPatches dm)).
    eapply (forM_invariant I); [|idtac|exact Hrun].
    - clear Hrun. intros pre k st st' [HF Hloc] Hbody. cbv beta in Hbody.
      apply bind_Ok in Hbody as (lm & st0 & Hget & Hbody).
      apply m_get_Ok in Hget as [Hlm ->].
      run_steps Hbody. unfold modify in Hbody. injection Hbody as <-.
      rewrite Hloc in Hlm. destruct Hcons as (Hlocs & _).
      fold dm in Hlocs. rewrite Hlocs in Hlm.
      change (map ?f ?l) with (f <$> l) in Hlm.
      apply list_lookup_fmap_Some in Hlm as (k' & -> & Hk').
      apply lookup_seq in Hk' as [-> _]. simpl in Hlift.
      apply get_Ok in Hlift.
      unfold jm_setFrom in Hlift0. apply rbind_Ok in Hlift0 as ([] & Hchk & Hjm).
      apply check_Ok in Hchk. injection Hjm as <-.
      split; [|done]. simpl. apply Forall2_app; [done|].
      constructor; [|constructor].
      eexists. split; [exact Hlift|]. split; [reflexivity|exact Hchk].
    - split; [constructor|done]. }
  apply HI.
Qed.

Lemma elem_of_group_pairs fr group o1 o2 :
  (o1, o2) ∈ group_pairs fr group ->
  exists j1 j2, j1 < j2 /\ group !! j1 = Some o1 /\ group !! j2 = Some o2.
Proof.
  unfold group_pairs. intros ([j1 j2] & Hj & Hp)%list_elem_of_omap.
  apply elem_of_pair_positions in Hj as [Hlt _]. simpl in Hp.
  destruct (group !! j1) as [x|] eqn:H1; [|done]. simpl in Hp.
  destruct (group !! j2) as [y|] eqn:H2; [|done]. simpl in Hp.
  injection Hp as -> ->. exists j1, j2. split; [lia|done].
Qed.

Lemma entries_from_elem pairs (m : Z) t p k (e : Z * nat * T) :
  pairs !! t = Some p -> e ∈ pair_entries (m + Z.of_nat t) p k ->
  e ∈ entries_from m pairs k.
Proof.
  revert m t. induction pairs as [|p0 pairs IH]; intros m t Ht He; [done|].
  simpl. apply elem_of_app. destruct t as [|t].
  - injection Ht as ->. left.
    by replace (m + Z.of_nat 0)%Z with m in He by lia.
  - right. apply (IH (m + 1)%Z t); [done|].
    by replace (m + 1 + Z.of_nat t)%Z with (m + Z.of_nat (S t))%Z by lia.
Qed.

(** C2. Every row of the jump matrices of a completed run on a consistent
    object has exactly two entries that are not zero, a +1 and a -1, at
    two different places (patch, column) of at most two of the matrices;
    the entries of a row add up to zero; and every matrix has as many rows
    as there are multipliers and as many columns as its patch has free
    local dofs.  The scalars are only asked to satisfy [0 + x = x],
    [1 + (-1) = 0], [1 <> 0] and [-1 <> 0]. *)
Theorem C2_jump_matrix_rows fr ec s s' :
  (forall x : T, Tadd T0 x = x) -> Tadd T1 Tm1 = T0 ->
  T1 <> T0 -> Tm1 <> T0 ->
  consistent s ->
  computeJumpMatrices fr ec s = (Ok tt, s') ->
  exists numLagrangeMult : Z,
    length (m_jumpMatrices s') = dm_numPatches (m_dofMapperGlobal s) /\
    (forall k jm,
       m_jumpMatrices s' !! k = Some jm ->
       jm_rows jm = numLagrangeMult /\
       jm_cols jm = lm_freeSize (local_mapper (m_dofMapperGlobal s) k)) /\
    forall r, (0 <= r < numLagrangeMult)%Z ->
      exists k1 c1 k2 c2,
        (k1, c1) <> (k2, c2) /\
        k1 < dm_numPatches (m_dofMapperGlobal s) /\
        k2 < dm_numPatches (m_dofMapperGlobal s) /\
        c1 < lm_freeSize (local_mapper (m_dofMapperGlobal s) k1) /\
        c2 < lm_freeSize (local_mapper (m_dofMapperGlobal s) k2) /\
        jump_entry s' k1 r c1 = T1 /\
        jump_entry s' k2 r c2 = Tm1 /\
        (forall k c, (k, c) <> (k1, c1) -> (k, c) <> (k2, c2) ->
                     jump_entry s' k r c = T0) /\
        jump_entry s' k1 r c1 <> T0 /\
        jump_entry s' k2 r c2 <> T0 /\
        Tadd (jump_entry s' k1 r c1) (jump_entry s' k2 r c2) = T0.
Proof.
  intros Hadd Hsum H1 Hm1 Hcons Hrun.
  destruct (computeJumpMatrices_Ok _ _ _ _ Hcons Hrun)
    as (coupling & se & N & Hlen & Hgrp & _ & _ & Hemit & HF).
  set (dm := m_dofMapperGlobal s) in *.
  set (nP := dm_numPatches dm) in *.
  set (pairs := all_pairs fr coupling) in *.
  apply emit_fold in Hemit as (HN & Hse & Hrange & Hent).
  rewrite length_replicate in Hse, Hrange.
  assert (Hjm : forall k, k < nP ->
    exists jm, m_jumpMatrices s' !! k = Some jm /\
               jm_rows jm = N /\
               jm_cols jm = lm_freeSize (local_mapper dm k) /\
               jm_entries jm = entries_from 0 pairs k /\
               forallb (triplet_in_range N (lm_freeSize (local_mapper dm k)))
                       (entries_from 0 pairs k) = true).
  { intros k Hk.
    destruct (Forall2_lookup_l _ _ _ k k HF) as (jm & Hjm & e & He & -> & Hin).
    { by apply lookup_seq_lt. }
    pose proof (Hent k [] (lookup_replicate_2 _ _ _ Hk)) as He'.
    pose proof (lookup_unique _ _ _ _ He He') as ->. simpl. exists {| jm_rows := N;
      jm_cols := lm_freeSize (local_mapper dm k);
      jm_entries := entries_from 0 pairs k |}. auto. }
  assert (HlenJ : length (m_jumpMatrices s') = nP).
  { apply Forall2_length in HF. by rewrite length_seq in HF. }
  exists N. split; [done|]. split.
  { intros k jm Hk. apply lookup_lt_Some in Hk as Hlt. rewrite HlenJ in Hlt.
    destruct (Hjm k Hlt) as (jm' & Hjm' & ? & ? & _).
    rewrite Hk in Hjm'. injection Hjm' as <-. auto. }
  intros r Hr.
  destruct (lookup_lt_is_Some_2 pairs (Z.to_nat r)) as [[o1 o2] Hp]; [lia|].
  assert (Hne : o1 <> o2).
  { apply list_elem_of_lookup_2 in Hp. unfold pairs, all_pairs in Hp.
    apply list_elem_of_bind in Hp as (group & Hp & Hgroup).
    apply elem_of_group_pairs in Hp as (j1 & j2 & Hlt & Hj1 & Hj2).
    apply list_elem_of_lookup in Hgroup as [c Hc].
    assert (Hnd : NoDup group).
    { destruct (Hgrp c group Hc) as [->|[_ ->]];
        [apply NoDup_occurrences|constructor]. }
    intros <-. pose proof (NoDup_lookup _ _ _ _ Hnd Hj1 Hj2). lia. }
  destruct (Hrange (o1, o2)) as [Hk1 Hk2];
    [by eapply list_elem_of_lookup_2|]. simpl in Hk1, Hk2.
  assert (Hentry : forall k c,
    jump_entry s' k r c
    = if decide ((k, c) = o1) then T1
      else if decide ((k, c) = o2) then Tm1 else T0).
  { intros k c. unfold jump_entry.
    destruct (decide (k < nP)) as [Hk|Hk].
    - destruct (Hjm k Hk) as (jm & -> & _ & _ & Hentries & _).
      unfold jm_coeff. rewrite Hentries.
      rewrite (coeff_entries_from _ 0%Z r (Z.to_nat r) (o1, o2)) by (done || lia).
      by apply coeff_pair_entries.
    - rewrite lookup_ge_None_2 by lia.
      rewrite !decide_False; [done|intros <-; simpl in *; lia
                             |intros <-; simpl in *; lia]. }
  assert (Hcol : forall (o : nat * nat) (v : T),
    o.1 < nP -> (r, o.2, v) ∈ pair_entries r (o1, o2) o.1 ->
    o.2 < lm_freeSize (local_mapper dm o.1)).
  { intros o v Ho Hin. destruct (Hjm _ Ho) as (_ & _ & _ & _ & _ & Hall).
    rewrite forallb_forall in Hall.
    assert (Hin' : (r, o.2, v) ∈ entries_from 0 pairs o.1).
    { apply (entries_from_elem _ _ (Z.to_nat r) (o1, o2)); [done|].
      by replace (0 + Z.of_nat (Z.to_nat r))%Z with r by lia. }
    apply list_elem_of_In, Hall in Hin'. unfold triplet_in_range in Hin'.
    simpl in Hin'. apply andb_true_iff in Hin' as [_ Hc].
    by apply Nat.ltb_lt in Hc. }
  exists o1.1, o1.2, o2.1, o2.2.
  rewrite <- !surjective_pairing.
  assert (E1 : jump_entry s' o1.1 r o1.2 = T1).
  { rewrite Hentry, <- surjective_pairing. by rewrite decide_True. }
  assert (E2 : jump_entry s' o2.1 r o2.2 = Tm1).
  { rewrite Hentry, <- surjective_pairing.
    rewrite decide_False by done. by rewrite decide_True. }
  rewrite E1, E2. split_and!; try done.
  - apply (Hcol o1 T1 Hk1). unfold pair_entries. simpl.
    rewrite decide_True by done. apply elem_of_app. left. by left.
  - apply (Hcol o2 Tm1 Hk2). unfold pair_entries. simpl.
    rewrite (decide_True (P := o2.1 = o2.1)) by done.
    apply elem_of_app. right. by left.
  - intros k c N1 N2. rewrite Hentry. by rewrite !decide_False.
Qed.
End Jump.

(** ** Sorting and registering *)

Section Sort.
Context {A : Type} (lt : A -> A -> bool).
Hypothesis lt_asym : forall a b, lt a b = true -> lt b a = false.
Hypothesis le_trans :
  forall a b c, lt b a = false -> lt c b = false -> lt c a = false.

Lemma sort_insert_perm x l : sort_insert lt x l ≡ₚ x :: l.
Proof.
  induction l as [|y l IH]; simpl; [done|].
  destruct (lt y x); [|done]. rewrite IH. apply Permutation_swap.
Qed.

Lemma std_sort_perm l : std_sort lt l ≡ₚ l.
Proof.
  induction l as [|x l IH]; simpl; [done|].
  rewrite sort_insert_perm. by constructor.
Qed.

Lemma sort_insert_sorted x l :
  StronglySorted (not_after lt) l ->
  StronglySorted (not_after lt) (sort_insert lt x l).
Proof.
  induction 1 as [|y l Hs IH Hy]; simpl.
  - repeat constructor.
  - destruct (lt y x) eqn:Hyx.
    + constructor; [done|].
      apply Forall_forall. intros z Hz.
      rewrite sort_insert_perm in Hz.
      apply elem_of_cons in Hz as [->|Hz].
      * by apply lt_asym.
      * rewrite Forall_forall in Hy. by apply Hy.
    + constructor; [by constructor|].
      constructor; [exact Hyx|].
      apply Forall_forall. intros z Hz. rewrite Forall_forall in Hy.
      unfold not_after in *. eapply le_trans; [exact Hyx|]. by apply Hy.
Qed.

Lemma std_sort_sorted l : StronglySorted (not_after lt) (std_sort lt l).
Proof.
  induction l as [|x l IH]; simpl; [constructor|].
  by apply sort_insert_sorted.
Qed.
End Sort.

Lemma register_app {A} (v : list (list A)) items1 items2 :
  register v (items1 ++ items2) = register (register v items1) items2.
Proof. unfold register. apply fold_left_app. Qed.

Lemma register_length {A} (v : list (list A)) items :
  length (register v items) = length v.
Proof.
  revert v. induction items as [|it items IH]; intros v; [done|].
  change (register v (it :: items))
    with (register (alter (fun l => l ++ [it.2]) it.1 v) items).
  rewrite IH. apply length_alter.
Qed.

(** What registering adds to the list of patch [p]. *)
Lemma register_lookup {A} (v : list (list A)) items p :
  register v items !! p
  = (fun old => old ++ (snd <$> filter (fun it => it.1 = p) items))
      <$> v !! p.
Proof.
  revert v. induction items as [|it items IH]; intros v.
  - simpl. destruct (v !! p); simpl; [|done]. by rewrite app_nil_r.
  - change (register v (it :: items))
      with (register (alter (fun l => l ++ [it.2]) it.1 v) items).
    rewrite IH, filter_cons.
    destruct (decide (it.1 = p)) as [<-|Hne].
    + rewrite list_lookup_alter_eq. destruct (v !! it.1); simpl; [|done].
      by rewrite <- app_assoc.
    + by rewrite list_lookup_alter_ne.
Qed.

(** ** Corners as primal dofs *)

Lemma corner_ids_length lastIndex n cs :
  length (corner_ids lastIndex n cs) = length cs.
Proof.
  revert lastIndex n. induction cs as [|c cs IH]; intros lastIndex n;
    simpl; [done|]. by rewrite IH.
Qed.

(** The ids of a list of tuples sorted by global index, none of them below
    [lastIndex]: a tuple gets the id [n - 1] of the run before when it
    continues that run, and a later id otherwise; two tuples get the same
    id exactly when they have the same global index; and every id from [n]
    up to the final counter is given to some tuple. *)
Lemma corner_ids_spec cs :
  forall lastIndex n,
    StronglySorted (fun a b => dh_globalIndex a <= dh_globalIndex b) cs ->
    (forall c, c ∈ cs -> (lastIndex <= Z.of_nat (dh_globalIndex c))%Z) ->
    (n <= corner_count lastIndex n cs)%Z /\
    (forall i c z,
       cs !! i = Some c -> corner_ids lastIndex n cs !! i = Some z ->
       (n - 1 <= z < corner_count lastIndex n cs)%Z /\
       (z = (n - 1)%Z <-> Z.of_nat (dh_globalIndex c) = lastIndex)) /\
    (forall i j ci cj zi zj,
       cs !! i = Some ci -> cs !! j = Some cj ->
       corner_ids lastIndex n cs !! i = Some zi ->
       corner_ids lastIndex n cs !! j = Some zj ->
       (zi = zj <-> dh_globalIndex ci = dh_globalIndex cj)) /\
    (forall z, (n <= z < corner_count lastIndex n cs)%Z ->
               z ∈ corner_ids lastIndex n cs).
Proof.
  induction cs as [|c cs IH]; intros lastIndex n Hsorted Hlow.
  - simpl. split; [lia|]. split; [done|]. split; [done|]. intros z Hz. lia.
  - apply StronglySorted_inv in Hsorted as [Hsorted Hc].
    rewrite Forall_forall in Hc.
    set (g := Z.of_nat (dh_globalIndex c)).
    assert (Hg : (lastIndex <= g)%Z) by (apply Hlow; by left).
    set (n' := if decide (lastIndex = g) then n else (n + 1)%Z).
    assert (Hn' : (n <= n' <= n + 1)%Z) by (unfold n'; case_decide; lia).
    assert (Hn'eq : n' = n <-> lastIndex = g) by (unfold n'; case_decide; lia).
    destruct (IH g n' Hsorted) as (Hd & Ha & Hb & Hcv).
    { intros c' Hc'. specialize (Hc c' Hc'). lia. }
    change (corner_count lastIndex n (c :: cs)) with (corner_count g n' cs).
    change (corner_ids lastIndex n (c :: cs))
      with ((n' - 1)%Z :: corner_ids g n' cs).
    split; [lia|]. split; [|split].
    + intros [|i] c' z Hi Hz; simpl in Hi, Hz.
      * injection Hi as <-. injection Hz as <-. fold g. split; [lia|].
        split; intros; [symmetry; apply Hn'eq|]; lia.
      * destruct (Ha i c' z Hi Hz) as [Hr Heq].
        assert (Hge : (g <= Z.of_nat (dh_globalIndex c'))%Z).
        { apply list_elem_of_lookup_2 in Hi. specialize (Hc c' Hi). lia. }
        split; [lia|]. split; intros Hz'.
        -- assert (n' = n) by lia. assert (lastIndex = g) by (by apply Hn'eq).
           assert (z = (n' - 1)%Z) by lia. apply Heq in H1. lia.
        -- assert (Z.of_nat (dh_globalIndex c') = g) by lia.
           apply Heq in H. assert (lastIndex = g) by lia.
           apply Hn'eq in H0. lia.
    + intros [|i] [|j] ci cj zi zj Hi Hj Hzi Hzj; simpl in Hi, Hj, Hzi, Hzj.
      * simplify_eq. done.
      * injection Hi as <-. injection Hzi as <-.
        destruct (Ha j cj zj Hj Hzj) as [_ Heq]. fold g in Heq |- *.
        split; intros E.
        -- symmetry in E. apply Heq in E. unfold g in E. lia.
        -- symmetry. apply Heq. unfold g. lia.
      * injection Hj as <-. injection Hzj as <-.
        destruct (Ha i ci zi Hi Hzi) as [_ Heq].
        split; intros E.
        -- apply Heq in E. unfold g in E. lia.
        -- apply Heq. unfold g. lia.
      * by eapply Hb.
    + intros z Hz. destruct (decide (z = (n' - 1)%Z)) as [->|Hne];
        [by left|]. right. apply Hcv. lia.
Qed.

Lemma filter_all {A} (P : A -> Prop) `{!forall x, Decision (P x)}
    (l : list A) :
  Forall P l -> filter P l = l.
Proof.
  induction 1 as [|x l Hx Hl IH]; [done|].
  by rewrite filter_cons_True, IH.
Qed.

Lemma length_remove_dups_perm (l k : list nat) :
  l ≡ₚ k -> length (remove_dups l) = length (remove_dups k).
Proof.
  intros Hp. apply Permutation_length, NoDup_Permutation;
    [apply NoDup_remove_dups..|].
  intros x. rewrite !elem_of_remove_dups. by rewrite Hp.
Qed.

Lemma length_remove_dups_cons (x : nat) (l : list nat) :
  length (remove_dups (x :: l))
  = S (length (remove_dups (filter (fun y => y <> x) l))).
Proof.
  change (S (length ?k)) with (length (x :: k)).
  apply Permutation_length, NoDup_Permutation.
  - apply NoDup_remove_dups.
  - constructor; [|apply NoDup_remove_dups].
    rewrite elem_of_remove_dups, list_elem_of_filter. tauto.
  - intros y. rewrite elem_of_remove_dups, !elem_of_cons, elem_of_remove_dups,
      list_elem_of_filter.
    destruct (decide (y = x)); tauto.
Qed.

(** The pass of lines 244-262 over sorted tuples counts the global
    indices that occur, apart from the one it starts with. *)
Lemma corner_count_distinct (cs : list dof_helper) (lastIndex n : Z) :
  StronglySorted (fun a b => dh_globalIndex a <= dh_globalIndex b) cs ->
  (forall c, c ∈ cs -> (lastIndex <= Z.of_nat (dh_globalIndex c))%Z) ->
  corner_count lastIndex n cs
  = (n + Z.of_nat
           (length (remove_dups
                      (filter (fun g => Z.of_nat g <> lastIndex)
                              (dh_globalIndex <$> cs)))))%Z.
Proof.
  intros Hs. revert lastIndex n.
  induction Hs as [|c cs Hs IH Hc]; intros lastIndex n Hlast.
  - simpl. lia.
  - simpl corner_count. rewrite fmap_cons, filter_cons.
    assert (Hrest : forall c', c' ∈ cs ->
              (Z.of_nat (dh_globalIndex c) <= Z.of_nat (dh_globalIndex c'))%Z).
    { intros c' Hc'. rewrite Forall_forall in Hc. specialize (Hc c' Hc'). lia. }
    rewrite (IH _ _ Hrest).
    assert (Hsame : filter (fun g => Z.of_nat g <> Z.of_nat (dh_globalIndex c))
                           (dh_globalIndex <$> cs)
                    = filter (fun g => g <> dh_globalIndex c)
                             (dh_globalIndex <$> cs)).
    { apply list_filter_iff. intros g. lia. }
    rewrite Hsame.
    destruct (decide (lastIndex = Z.of_nat (dh_globalIndex c))) as [->|Hne].
    + rewrite decide_False by (intros E; by apply E). by rewrite Hsame.
    + rewrite decide_True by (intros E; by apply Hne).
      assert (Hall : filter (fun g => Z.of_nat g <> lastIndex)
                            (dh_globalIndex <$> cs)
                     = dh_globalIndex <$> cs).
      { apply filter_all, Forall_forall.
        intros g (c' & -> & Hc')%list_elem_of_fmap.
        specialize (Hrest c' Hc'). specialize (Hlast c ltac:(left)). lia. }
      rewrite Hall, length_remove_dups_cons. lia.
Qed.

(** Counting from two values that are stored as the same [index_t]. *)
Lemma wrap_index_congr n m c :
  wrap_index n = wrap_index m -> wrap_index (n + c) = wrap_index (m + c).
Proof.
  intros E. by rewrite <- (wrap_index_add n), <- (wrap_index_add m), E.
Qed.

Lemma corner_ids_wrap cs :
  forall lastIndex n m,
    wrap_index n = wrap_index m ->
    wrap_index <$> corner_ids lastIndex n cs
    = wrap_index <$> corner_ids lastIndex m cs /\
    wrap_index (corner_count lastIndex n cs)
    = wrap_index (corner_count lastIndex m cs).
Proof.
  induction cs as [|c cs IH]; intros lastIndex n m E; [done|].
  simpl corner_ids. simpl corner_count. rewrite !fmap_cons.
  set (g := Z.of_nat (dh_globalIndex c)).
  assert (E' : wrap_index (if decide (lastIndex = g) then n else (n + 1)%Z)
               = wrap_index (if decide (lastIndex = g) then m else (m + 1)%Z)).
  { case_decide; [done|]. by apply wrap_index_congr. }
  destruct (IH g _ _ E') as [-> ->]. split; [|done]. f_equal.
  replace ((if decide (lastIndex = g) then n else (n + 1)) - 1)%Z
    with ((if decide (lastIndex = g) then n else (n + 1)) + -1)%Z by lia.
  replace ((if decide (lastIndex = g) then m else (m + 1)) - 1)%Z
    with ((if decide (lastIndex = g) then m else (m + 1)) + -1)%Z by lia.
  by apply wrap_index_congr.
Qed.

Lemma fmap_wrap_index_id (l : list Z) :
  Forall index_range l -> wrap_index <$> l = l.
Proof.
  induction 1 as [|z l Hz Hl IH]; [done|].
  by rewrite fmap_cons, IH, wrap_index_id.
Qed.

Section Corners.
Context `{Scalar T}.
Implicit Types s : gsIetiMapper T.

Lemma corners_create_data_eq (cs : list dof_helper) :
  corners_create_data (T:=T) cs = (foldS corner_step cs (-1)%Z;; mret tt).
Proof. reflexivity. Qed.

Lemma insert_push_back {A} (v : list (list A)) k l x :
  v !! k = Some l -> <[k:=l ++ [x]]> v = alter (fun l => l ++ [x]) k v.
Proof.
  intros Hk. apply list_eq. intros i. destruct (decide (i = k)) as [->|Hne].
  - rewrite list_lookup_insert_eq by (by eapply lookup_lt_Some).
    by rewrite list_lookup_alter_eq, Hk.
  - by rewrite list_lookup_insert_ne, list_lookup_alter_ne.
Qed.

Lemma m_push_back_Ok {A} (f : gsIetiMapper T -> list (list A))
    (g : list (list A) -> gsIetiMapper T -> gsIetiMapper T) k x s s' :
  m_push_back f g k x s = (Ok tt, s') ->
  k < length (f s) /\ s' = g (alter (fun l => l ++ [x]) k (f s)) s.
Proof.
  unfold m_push_back. intros Hrun.
  apply bind_Ok in Hrun as (l & s0 & Hget & Hput).
  apply m_get_Ok in Hget as [Hl ->].
  apply m_put_Ok in Hput as [Hk ->]. split; [done|].
  by rewrite (insert_push_back _ _ _ _ Hl).
Qed.

Lemma primal_only_refl s : primal_only s s.
Proof. by repeat split. Qed.

Lemma primal_only_trans s1 s2 s3 :
  primal_only s1 s2 -> primal_only s2 s3 -> primal_only s1 s3.
Proof. unfold primal_only. intros ? ?. intuition congruence. Qed.

(** One tuple: its id, its unit row, and where they are registered. *)
Lemma corner_step_Ok lastIndex c s lastIndex' s' :
  consistent s ->
  corner_step lastIndex c s = (Ok lastIndex', s') ->
  let n' := if decide (lastIndex = Z.of_nat (dh_globalIndex c))
            then m_nPrimalDofs s else wrap_index (m_nPrimalDofs s + 1) in
  lastIndex' = Z.of_nat (dh_globalIndex c) /\
  m_nPrimalDofs s' = n' /\
  m_primalConstraints s'
  = alter (fun l => l ++ [unit_row (m_dofMapperGlobal s) c]) (dh_patch c)
          (m_primalConstraints s) /\
  m_primalDofIndices s'
  = alter (fun l => l ++ [wrap_index (n' - 1)]) (dh_patch c)
          (m_primalDofIndices s) /\
  dh_patch c < dm_numPatches (m_dofMapperGlobal s) /\
  dh_localIndex c
    < lm_freeSize (local_mapper (m_dofMapperGlobal s) (dh_patch c)) /\
  primal_only s s'.
Proof.
  intros Hcons Hrun. unfold corner_step in Hrun.
  apply bind_Ok in Hrun as (last1 & s1 & Hfirst & Hrun).
  assert (Hs1 : last1 = Z.of_nat (dh_globalIndex c) /\
    s1 = set_nPrimalDofs
           (if decide (lastIndex = Z.of_nat (dh_globalIndex c))
            then m_nPrimalDofs s else wrap_index (m_nPrimalDofs s + 1)) s).
  { destruct (Z.eqb_spec lastIndex (Z.of_nat (dh_globalIndex c))) as [E|E];
      simpl in Hfirst.
    - injection Hfirst as <- <-. rewrite decide_True by done.
      split; [done|]. by destruct s.
    - rewrite bind_modify in Hfirst. injection Hfirst as <- <-.
      by rewrite decide_False. }
  destruct Hs1 as [-> ->]. clear Hfirst.
  set (n' := if decide _ then _ else _) in *.
  rewrite bind_gets in Hrun. cbv zeta in Hrun.
  apply bind_Ok in Hrun as (lm & s2 & Hget & Hrun).
  apply m_get_Ok in Hget as [Hlm ->]. cbn [m_dofMapperLocal set_nPrimalDofs] in Hlm.
  assert (Hp : dh_patch c < dm_numPatches (m_dofMapperGlobal s)).
  { apply lookup_lt_Some in Hlm. destruct Hcons as (Hloc & _).
    rewrite Hloc, length_map, length_seq in Hlm. done. }
  rewrite (consistent_local s _ Hcons Hp) in Hlm. injection Hlm as <-.
  run_steps Hrun. unfold sv_set in Hlift.
  apply rbind_Ok in Hlift as ([] & Hchk%check_Ok & Hsv).
  apply Nat.ltb_lt in Hchk. injection Hsv as <-. simpl in Hchk.
  apply bind_Ok in Hrun as ([] & s3 & Hpc & Hrun).
  apply m_push_back_Ok in Hpc as [_ ->].
  apply bind_Ok in Hrun as ([] & s4 & Hpd & Hrun).
  apply m_push_back_Ok in Hpd as [_ ->].
  injection Hrun as <- <-. simpl. repeat split; done.
Qed.

(** The pass over a list of tuples, from [lastIndex] on. *)
Lemma corner_fold_Ok cs :
  forall lastIndex s lastIndex' s',
    consistent s -> index_range (m_nPrimalDofs s) ->
    foldS corner_step cs lastIndex s = (Ok lastIndex', s') ->
    m_nPrimalDofs s'
    = wrap_index (corner_count lastIndex (m_nPrimalDofs s) cs) /\
    m_primalConstraints s'
    = register (m_primalConstraints s)
        ((fun c => (dh_patch c, unit_row (m_dofMapperGlobal s) c)) <$> cs) /\
    m_primalDofIndices s'
    = register (m_primalDofIndices s)
        (zip (dh_patch <$> cs)
             (wrap_index <$> corner_ids lastIndex (m_nPrimalDofs s) cs)) /\
    (forall c, c ∈ cs ->
       dh_patch c < dm_numPatches (m_dofMapperGlobal s) /\
       dh_localIndex c
         < lm_freeSize (local_mapper (m_dofMapperGlobal s) (dh_patch c))) /\
    primal_only s s'.
Proof.
  induction cs as [|c cs IH];
    intros lastIndex s lastIndex' s' Hcons Hin Hrun.
  - injection Hrun as <- <-. simpl.
    split; [by rewrite wrap_index_id|]. split; [done|]. split; [done|].
    split; [|apply primal_only_refl].
    intros c Hc. by apply elem_of_nil in Hc.
  - simpl in Hrun. apply bind_Ok in Hrun as (last1 & s1 & Hstep & Hrun).
    apply corner_step_Ok in Hstep as (-> & Hn & Hpc & Hpd & Hp & Hli & Hk);
      [|done].
    assert (Hcons1 : consistent s1).
    { destruct Hk as (E1 & E2 & E3 & _).
      destruct Hcons as (C1 & C2 & C3 & C4). unfold consistent.
      rewrite E1, E2, E3, Hpc, Hpd, !length_alter. done. }
    assert (Hin1 : index_range (m_nPrimalDofs s1)).
    { rewrite Hn. case_decide; [done|apply wrap_index_range]. }
    apply IH in Hrun as (Hn' & Hpc' & Hpd' & Hrange & Hk'); [|done..].
    assert (Edm : m_dofMapperGlobal s1 = m_dofMapperGlobal s) by apply Hk.
    rewrite Edm in *. rewrite Hpc in Hpc'. rewrite Hpd in Hpd'.
    set (g := Z.of_nat (dh_globalIndex c)) in *.
    set (n := m_nPrimalDofs s) in *.
    assert (E : wrap_index (m_nPrimalDofs s1)
                = wrap_index (if decide (lastIndex = g) then n
                              else (n + 1)%Z)).
    { rewrite Hn. case_decide; [done|].
      by rewrite wrap_index_id by apply wrap_index_range. }
    destruct (corner_ids_wrap cs g _ _ E) as [Eids Ecount].
    split; [by rewrite Hn', Ecount|]. split; [exact Hpc'|]. split.
    + rewrite Hpd', Eids. simpl corner_ids. fold g. rewrite !fmap_cons.
      cbn [zip_with].
      change (register ?v (?it :: ?its))
        with (register (alter (fun l => l ++ [it.2]) it.1 v) its).
      cbn [fst snd].
      assert (Eid : wrap_index (m_nPrimalDofs s1 - 1)
                    = wrap_index ((if decide (lastIndex = g) then n
                                   else (n + 1)%Z) - 1)).
      { replace (m_nPrimalDofs s1 - 1)%Z with (m_nPrimalDofs s1 + -1)%Z
          by lia.
        by rewrite (wrap_index_congr _ _ (-1) E). }
      rewrite Hn in Eid. by rewrite Eid.
    + split.
      * intros c' [->|Hc']%elem_of_cons; auto.
      * by eapply primal_only_trans.
Qed.

(** A loop that appends to a list. *)
Lemma foldM_acc {A B} (f : list B -> A -> result (list B)) (g : A -> list B)
    (l : list A) :
  (forall acc x r, x ∈ l -> f acc x = Ok r -> r = acc ++ g x) ->
  forall acc r, foldM f l acc = Ok r -> r = acc ++ (l ≫= g).
Proof.
  intros Hf acc r Hrun.
  refine (foldM_invariant_in (fun pre acc' => acc' = acc ++ (pre ≫= g))
            f l _ acc r _ Hrun).
  - intros pre x a a' Hx -> Hstep. apply Hf in Hstep; [|done].
    by rewrite Hstep, bind_app, bind_singleton, app_assoc.
  - by rewrite app_nil_r.
Qed.

Lemma bind_fmap_singleton {A B} (f : A -> B) (l : list A) :
  l ≫= (fun x => [f x]) = f <$> l.
Proof. induction l as [|x l IH]; [done|]. rewrite bind_cons, IH. done. Qed.

Lemma lm_index_local s k i li lm :
  consistent s ->
  m_dofMapperLocal s !! k = Some lm -> lm_index lm i = Ok li ->
  k < dm_numPatches (m_dofMapperGlobal s) /\
  lm = local_mapper (m_dofMapperGlobal s) k /\
  li = local_index (m_dofMapperGlobal s) k i.
Proof.
  intros Hcons Hlm Hli.
  assert (Hk : k < dm_numPatches (m_dofMapperGlobal s)).
  { apply lookup_lt_Some in Hlm. destruct Hcons as (Hloc & _).
    by rewrite Hloc, length_map, length_seq in Hlm. }
  rewrite (consistent_local s k Hcons Hk) in Hlm. injection Hlm as <-.
  split; [done|]. split; [done|].
  unfold lm_index in Hli. apply get_Ok in Hli. unfold local_index.
  by rewrite Hli.
Qed.

(** The tuples collected in a consistent object. *)
Lemma collect_corners_Ok s status corners :
  consistent s ->
  collect_corners (m_multiBasis s) (m_dofMapperGlobal s)
    (m_dofMapperLocal s) status (dm_numPatches (m_dofMapperGlobal s))
  = Ok corners ->
  corners = corner_tuples (m_multiBasis s) (m_dofMapperGlobal s) status.
Proof.
  intros Hcons Hrun. unfold collect_corners in Hrun.
  set (dm := m_dofMapperGlobal s) in *. set (mb := m_multiBasis s) in *.
  pose (tuples := fun k it =>
    let idx := mb_functionAtCorner mb k it in
    let globalIndex := dm_index dm idx k in
    if dm_is_free_index dm globalIndex then
      if has_flag status 2 then
        (fun pre : nat * nat =>
           {| dh_globalIndex := globalIndex; dh_patch := pre.1;
              dh_localIndex := local_index dm pre.1 pre.2 |})
          <$> dm_preImage dm globalIndex
      else [{| dh_globalIndex := globalIndex; dh_patch := k;
               dh_localIndex := local_index dm k idx |}]
    else []).
  apply (foldM_acc _ (fun k => boxCorners (mb_dim mb) ≫= tuples k)) in Hrun.
  { by rewrite Hrun. }
  clear Hrun corners. intros acc k r Hk.
  apply (foldM_acc _ (tuples k)). clear acc r.
  intros acc it r _ Hstep. cbv zeta in Hstep. unfold tuples. cbv zeta.
  apply rbind_Ok in Hstep as (lm & Hlm%get_Ok & Hstep).
  apply rbind_Ok in Hstep as (li & Hli & Hstep).
  destruct (lm_index_local s _ _ _ _ Hcons Hlm Hli) as (_ & -> & ->).
  fold dm in Hstep |- *.
  destruct (dm_is_free_index dm _); [|injection Hstep as <-; by rewrite app_nil_r].
  destruct (has_flag status 2); [|by injection Hstep as <-].
  rewrite <- bind_fmap_singleton.
  revert Hstep. apply foldM_acc. clear acc r.
  intros acc pre r _ Hpre.
  apply rbind_Ok in Hpre as (lm2 & Hlm2%get_Ok & Hpre).
  apply rbind_Ok in Hpre as (li2 & Hli2 & Hpre).
  destruct (lm_index_local s _ _ _ _ Hcons Hlm2 Hli2) as (_ & -> & ->).
  by injection Hpre as <-.
Qed.

Lemma has_flag_lor_other st f g :
  Z.land g f = 0%Z -> has_flag (Z.lor st g) f = has_flag st f.
Proof.
  intros Hgf. unfold has_flag.
  by rewrite Z.land_lor_distr_l, Hgf, Z.lor_0_r.
Qed.

Lemma corner_tuples_status mb dm st st' :
  has_flag st 2 = has_flag st' 2 ->
  corner_tuples mb dm st = corner_tuples mb dm st'.
Proof. intros E. unfold corner_tuples. by rewrite E. Qed.

Lemma StronglySorted_by_key cs :
  StronglySorted (not_after dof_helper_lt) cs ->
  StronglySorted (fun a b => dh_globalIndex a <= dh_globalIndex b) cs.
Proof.
  induction 1 as [|c cs Hs IH Hc]; constructor; [done|].
  eapply Forall_impl; [exact Hc|]. intros c'. unfold not_after, dof_helper_lt.
  intros Hlt%Nat.ltb_ge. done.
Qed.

Lemma filter_register_rows {A} (f : dof_helper -> A)
    (cs : list dof_helper) p :
  (snd <$> filter (fun it : nat * A => it.1 = p)
                  ((fun c => (dh_patch c, f c)) <$> cs))
  = f <$> filter (fun c => dh_patch c = p) cs.
Proof.
  induction cs as [|c cs IH]; [done|]. csimpl.
  rewrite !filter_cons. simpl.
  destruct (decide (dh_patch c = p)); csimpl; by rewrite IH.
Qed.

Lemma filter_register_ids (cs : list dof_helper) (ids : list Z) p :
  (snd <$> filter (fun it : nat * Z => it.1 = p) (zip (dh_patch <$> cs) ids))
  = snd <$> filter (fun cz : dof_helper * Z => dh_patch cz.1 = p)
                   (zip cs ids).
Proof.
  revert ids. induction cs as [|c cs IH]; intros [|z ids]; try done.
  csimpl. rewrite !filter_cons. simpl.
  destruct (decide (dh_patch c = p)); csimpl; by rewrite IH.
Qed.

(** What a completed [cornersAsPrimals] has done, in terms of the pass
    over the sorted tuples. *)
Lemma cornersAsPrimals_Ok s s' :
  consistent s -> index_range (m_nPrimalDofs s) ->
  cornersAsPrimals s = (Ok tt, s') ->
  let corners :=
    std_sort dof_helper_lt
      (corner_tuples (m_multiBasis s) (m_dofMapperGlobal s) (m_status s)) in
  StronglySorted (fun a b => dh_globalIndex a <= dh_globalIndex b) corners /\
  corner_count (-1) (m_nPrimalDofs s) corners
  = (m_nPrimalDofs s
     + corner_dofs (m_multiBasis s) (m_dofMapperGlobal s) (m_status s))%Z /\
  m_nPrimalDofs s'
  = wrap_index (corner_count (-1) (m_nPrimalDofs s) corners) /\
  m_primalConstraints s'
  = register (m_primalConstraints s)
      ((fun c => (dh_patch c, unit_row (m_dofMapperGlobal s) c))
         <$> corners) /\
  m_primalDofIndices s'
  = register (m_primalDofIndices s)
      (zip (dh_patch <$> corners)
           (wrap_index <$> corner_ids (-1) (m_nPrimalDofs s) corners)) /\
  (forall c, c ∈ corners ->
     dh_patch c < dm_numPatches (m_dofMapperGlobal s) /\
     dh_localIndex c
       < lm_freeSize (local_mapper (m_dofMapperGlobal s) (dh_patch c))).
Proof.
  intros Hcons Hin Hrun. unfold cornersAsPrimals, assert_initialized in Hrun.
  run_steps Hrun.
  cbn [m_dofMapperGlobal m_dofMapperLocal m_multiBasis m_status set_status]
    in Hlift, Hrun.
  assert (Hlen : length (m_dofMapperLocal s)
                 = dm_numPatches (m_dofMapperGlobal s)).
  { destruct Hcons as (-> & _). by rewrite length_map, length_seq. }
  rewrite Hlen in Hlift. apply collect_corners_Ok in Hlift; [|done].
  rewrite (corner_tuples_status _ _ _ (m_status s)) in Hlift
    by (by apply has_flag_lor_other).
  set (tuples := corner_tuples _ _ _) in *. subst a.
  set (corners := std_sort dof_helper_lt tuples) in *.
  rewrite corners_create_data_eq in Hrun.
  apply bind_Ok in Hrun as (last & s1 & Hfold & Hret).
  injection Hret as <-.
  set (s0 := set_status (Z.lor (m_status s) 8) s) in *.
  assert (Hcons0 : consistent s0) by exact Hcons.
  apply corner_fold_Ok in Hfold as (Hn & Hpc & Hpd & Hrange & Hk);
    [|done|exact Hin].
  change (m_dofMapperGlobal s0) with (m_dofMapperGlobal s) in *.
  change (m_nPrimalDofs s0) with (m_nPrimalDofs s) in *.
  change (m_primalConstraints s0) with (m_primalConstraints s) in *.
  change (m_primalDofIndices s0) with (m_primalDofIndices s) in *.
  assert (Hsorted : StronglySorted
            (fun a b => dh_globalIndex a <= dh_globalIndex b) corners).
  { apply StronglySorted_by_key, std_sort_sorted.
    - unfold dof_helper_lt. intros a b Hab%Nat.ltb_lt. apply Nat.ltb_ge. lia.
    - unfold dof_helper_lt. intros a b c Hab%Nat.ltb_ge Hbc%Nat.ltb_ge.
      apply Nat.ltb_ge. lia. }
  split; [done|]. split.
  { rewrite (corner_count_distinct _ _ _ Hsorted) by (intros; lia).
    rewrite filter_all by (apply Forall_forall; intros; lia).
    unfold corner_dofs. fold tuples. do 2 f_equal.
    apply length_remove_dups_perm, fmap_Permutation, std_sort_perm. }
  do 3 (split; [done|]). done.
Qed.

(** The same when the counter has room for the primal dofs of the
    corners: the ids are the new values of the counter. *)
Lemma cornersAsPrimals_fits s s' :
  consistent s ->
  counter_fits (m_nPrimalDofs s)
    (corner_dofs (m_multiBasis s) (m_dofMapperGlobal s) (m_status s)) ->
  cornersAsPrimals s = (Ok tt, s') ->
  let corners :=
    std_sort dof_helper_lt
      (corner_tuples (m_multiBasis s) (m_dofMapperGlobal s) (m_status s)) in
  let ids := corner_ids (-1) (m_nPrimalDofs s) corners in
  StronglySorted (fun a b => dh_globalIndex a <= dh_globalIndex b) corners /\
  m_nPrimalDofs s'
  = (m_nPrimalDofs s
     + corner_dofs (m_multiBasis s) (m_dofMapperGlobal s) (m_status s))%Z /\
  (forall z, z ∈ ids <-> (m_nPrimalDofs s <= z < m_nPrimalDofs s')%Z) /\
  m_primalConstraints s'
  = register (m_primalConstraints s)
      ((fun c => (dh_patch c, unit_row (m_dofMapperGlobal s) c))
         <$> corners) /\
  m_primalDofIndices s'
  = register (m_primalDofIndices s) (zip (dh_patch <$> corners) ids) /\
  (forall c, c ∈ corners ->
     dh_patch c < dm_numPatches (m_dofMapperGlobal s) /\
     dh_localIndex c
       < lm_freeSize (local_mapper (m_dofMapperGlobal s) (dh_patch c))).
Proof.
  intros Hcons [Hlo Hhi] Hrun.
  assert (Hk0 : (0 <= corner_dofs (m_multiBasis s) (m_dofMapperGlobal s)
                        (m_status s))%Z) by (unfold corner_dofs; lia).
  assert (Hin : index_range (m_nPrimalDofs s)) by (split; lia).
  destruct (cornersAsPrimals_Ok s s' Hcons Hin Hrun)
    as (Hsorted & Hcount & Hn & Hpc & Hpd & Hrange).
  cbv zeta. set (corners := std_sort dof_helper_lt _) in *.
  destruct (corner_ids_spec corners (-1)%Z (m_nPrimalDofs s) Hsorted)
    as (Hd & Ha & Hb & Hcv); [intros; lia|].
  assert (Hnew : forall z, z ∈ corner_ids (-1) (m_nPrimalDofs s) corners ->
            (m_nPrimalDofs s <= z
             < corner_count (-1) (m_nPrimalDofs s) corners)%Z).
  { intros z [i Hi]%list_elem_of_lookup.
    destruct (lookup_lt_is_Some_2 corners i) as [c Hc].
    { apply lookup_lt_Some in Hi. by rewrite corner_ids_length in Hi. }
    destruct (Ha i c z Hc Hi) as [Hr Heq].
    assert (z <> (m_nPrimalDofs s - 1)%Z) by (intros E; apply Heq in E; lia).
    lia. }
  rewrite wrap_index_id in Hn by (split; lia).
  rewrite fmap_wrap_index_id in Hpd.
  2:{ apply Forall_forall. intros z Hz%Hnew. split; lia. }
  split; [done|]. split; [by rewrite Hn|]. split; [|done].
  intros z. rewrite Hn. split; [apply Hnew|apply Hcv].
Qed.

(** C3. On a consistent object whose counter has room for the primal
    dofs of the corners, a completed [cornersAsPrimals] has
    collected, for every patch and every corner whose basis function has a
    free global index, the tuple (patch, local index, global index) - with
    artificial dofs, one tuple for every pre-image of that global index -
    and has gone through them sorted by global index.  Tuples get the same
    primal id exactly when they have the same global index; the ids given
    are exactly the new ones, from the old to the new value of the counter,
    so every run of equal global index is one new primal dof.  Every tuple
    adds one row to the constraints of its patch, the unit vector over the
    free dofs of the patch with its single 1 at the local index of the
    tuple, and its id to the primal indices of the patch. *)
Theorem C3_corner_primals s s' :
  consistent s ->
  counter_fits (m_nPrimalDofs s)
    (corner_dofs (m_multiBasis s) (m_dofMapperGlobal s) (m_status s)) ->
  cornersAsPrimals s = (Ok tt, s') ->
  exists (corners : list dof_helper) (ids : list Z),
    corners ≡ₚ corner_tuples (m_multiBasis s) (m_dofMapperGlobal s)
                 (m_status s) /\
    StronglySorted (fun a b => dh_globalIndex a <= dh_globalIndex b)
                   corners /\
    length ids = length corners /\
    (forall i j ci cj zi zj,
       corners !! i = Some ci -> corners !! j = Some cj ->
       ids !! i = Some zi -> ids !! j = Some zj ->
       (zi = zj <-> dh_globalIndex ci = dh_globalIndex cj)) /\
    (forall z, z ∈ ids <-> (m_nPrimalDofs s <= z < m_nPrimalDofs s')%Z) /\
    (forall c, c ∈ corners ->
       dh_patch c < dm_numPatches (m_dofMapperGlobal s) /\
       dh_localIndex c
         < lm_freeSize (local_mapper (m_dofMapperGlobal s) (dh_patch c))) /\
    forall p,
      m_primalConstraints s' !! p
      = (fun old => old ++ (unit_row (m_dofMapperGlobal s)
                              <$> filter (fun c => dh_patch c = p) corners))
          <$> m_primalConstraints s !! p /\
      m_primalDofIndices s' !! p
      = (fun old => old ++ (snd <$> filter
                              (fun cz : dof_helper * Z => dh_patch cz.1 = p)
                              (zip corners ids)))
          <$> m_primalDofIndices s !! p.
Proof.
  intros Hcons Hfits Hrun.
  destruct (cornersAsPrimals_fits s s' Hcons Hfits Hrun)
    as (Hsorted & _ & Hids & Hpc & Hpd & Hrange).
  set (corners := std_sort dof_helper_lt _) in *.
  destruct (corner_ids_spec corners (-1)%Z (m_nPrimalDofs s) Hsorted)
    as (_ & _ & Hb & _); [intros; lia|].
  exists corners, (corner_ids (-1) (m_nPrimalDofs s) corners).
  split; [apply std_sort_perm|]. split; [done|].
  split; [apply corner_ids_length|]. split; [exact Hb|].
  split; [exact Hids|]. split; [exact Hrange|].
  intros p. rewrite Hpc, Hpd, !register_lookup.
  by rewrite filter_register_rows, filter_register_ids.
Qed.
End Corners.

(** ** Interface averages as primal dofs *)

(** *** The order of the signatures *)

Lemma first_diff_lt_irrefl a : first_diff_lt a a = false.
Proof. induction a as [|x a IH]; simpl; [done|]. by rewrite Nat.eqb_refl. Qed.

Lemma first_diff_lt_trans a b c :
  length a = length b -> length b = length c ->
  first_diff_lt a b = true -> first_diff_lt b c = true ->
  first_diff_lt a c = true.
Proof.
  revert b c. induction a as [|x a IH]; intros [|y b] [|z c]; simpl;
    try done.
  intros [= Hab] [= Hbc].
  destruct (Nat.eqb_spec x y) as [->|Hxy]; simpl.
  - destruct (Nat.eqb_spec y z) as [->|Hyz]; simpl; [by apply IH|done].
  - intros Hlt%Nat.ltb_lt.
    destruct (Nat.eqb_spec y z) as [->|Hyz]; simpl.
    + intros _. destruct (Nat.eqb_spec x z); simpl; [lia|].
      apply Nat.ltb_lt. lia.
    + intros Hlt'%Nat.ltb_lt. destruct (Nat.eqb_spec x z); simpl; [lia|].
      apply Nat.ltb_lt. lia.
Qed.

Lemma first_diff_lt_total a b :
  length a = length b ->
  first_diff_lt a b = false -> first_diff_lt b a = false -> a = b.
Proof.
  revert b. induction a as [|x a IH]; intros [|y b]; simpl; try done.
  intros [= Hab].
  destruct (Nat.eqb_spec x y) as [->|Hxy]; simpl.
  - rewrite Nat.eqb_refl. simpl. intros ? ?. f_equal. by apply IH.
  - destruct (Nat.eqb_spec y x); simpl; [lia|].
    intros ?%Nat.ltb_ge ?%Nat.ltb_ge. lia.
Qed.

Lemma signature_lt_irrefl a : signature_lt a a = false.
Proof.
  unfold signature_lt. rewrite Nat.eqb_refl. simpl.
  apply first_diff_lt_irrefl.
Qed.

Lemma signature_lt_trans a b c :
  signature_lt a b = true -> signature_lt b c = true ->
  signature_lt a c = true.
Proof.
  unfold signature_lt.
  destruct (Nat.eqb_spec (length a) (length b)) as [Hab|Hab];
    destruct (Nat.eqb_spec (length b) (length c)) as [Hbc|Hbc];
    destruct (Nat.eqb_spec (length a) (length c)) as [Hac|Hac]; simpl;
    rewrite ?Nat.ltb_lt; try lia.
  by apply first_diff_lt_trans.
Qed.

Lemma signature_lt_total a b :
  signature_lt a b = false -> signature_lt b a = false -> a = b.
Proof.
  unfold signature_lt.
  destruct (Nat.eqb_spec (length a) (length b)) as [Hab|Hab];
    destruct (Nat.eqb_spec (length b) (length a)) as [Hba|Hba]; simpl;
    rewrite ?Nat.ltb_ge; try lia.
  by apply first_diff_lt_total.
Qed.

Lemma signature_lt_asym a b :
  signature_lt a b = true -> signature_lt b a = false.
Proof.
  intros Hab. destruct (signature_lt b a) eqn:Hba; [|done].
  pose proof (signature_lt_trans _ _ _ Hab Hba) as Haa.
  by rewrite signature_lt_irrefl in Haa.
Qed.

Lemma signature_le_trans a b c :
  signature_lt b a = false -> signature_lt c b = false ->
  signature_lt c a = false.
Proof.
  intros Hba Hcb. destruct (signature_lt c a) eqn:Hca; [|done].
  destruct (signature_lt b c) eqn:Hbc.
  - by rewrite (signature_lt_trans _ _ _ Hbc Hca) in Hba.
  - rewrite (signature_lt_total _ _ Hbc Hcb) in Hba. congruence.
Qed.

(** Counting from two values that are stored as the same [index_t]. *)
Lemma constraint_ids_wrap {T} whole (cs : list (constr_helper T)) :
  forall prev n m,
    wrap_index n = wrap_index m ->
    wrap_id <$> constraint_ids whole prev n cs
    = wrap_id <$> constraint_ids whole prev m cs /\
    wrap_index (constraint_count whole prev n cs)
    = wrap_index (constraint_count whole prev m cs).
Proof.
  induction cs as [|c cs IH]; intros prev n m E; [done|].
  simpl constraint_ids. simpl constraint_count.
  pose proof (wrap_index_congr n m 1 E) as E1.
  pose proof (wrap_index_congr n m (-1) E) as Em.
  destruct (match prev with Some _ => _ | None => _ end);
    [destruct (_ || _)|]; rewrite !fmap_cons; simpl.
  - destruct (IH (Some c) _ _ E1) as [-> ->]. by rewrite E.
  - destruct (IH (Some c) _ _ E) as [-> ->]. done.
  - destruct (IH (Some c) _ _ E) as [-> ->].
    change (n - 1)%Z with (n + -1)%Z. change (m - 1)%Z with (m + -1)%Z.
    by rewrite Em.
Qed.

Lemma kept_rows_wrap {T} (cs : list (constr_helper T))
    (ids : list (option Z)) :
  kept_rows cs (wrap_id <$> ids) = kept_rows cs ids.
Proof.
  unfold kept_rows. revert ids.
  induction cs as [|c cs IH]; intros [|[z|] ids]; try done; simpl;
    by rewrite IH.
Qed.

Lemma kept_ids_wrap {T} (cs : list (constr_helper T))
    (ids : list (option Z)) :
  Forall (fun o => forall z, o = Some z -> index_range z) ids ->
  kept_ids cs (wrap_id <$> ids) = kept_ids cs ids.
Proof.
  unfold kept_ids. intros Hids. revert cs.
  induction Hids as [|[z|] ids Hz Hids IH]; intros [|c cs]; try done; simpl.
  - by rewrite IH, wrap_index_id by by apply Hz.
  - apply IH.
Qed.

Section Interfaces.
Context `{Scalar T}.
Implicit Types (s : gsIetiMapper T) (c p : constr_helper T).

Lemma constr_helper_lt_signature c1 c2 :
  constr_helper_lt c1 c2
  = signature_lt (ch_globalIndices c1) (ch_globalIndices c2).
Proof. reflexivity. Qed.

(** Neither of two constraints is before the other exactly when they have
    the same signature. *)
Lemma same_signature c1 c2 :
  constr_helper_lt c2 c1 = false ->
  (constr_helper_lt c1 c2 = false <->
   ch_globalIndices c1 = ch_globalIndices c2).
Proof.
  rewrite !constr_helper_lt_signature. intros H21. split.
  - intros H12. by apply signature_lt_total.
  - intros ->. apply signature_lt_irrefl.
Qed.

Lemma constraints_sorted (cs : list (constr_helper T)) :
  StronglySorted (not_after constr_helper_lt)
                 (std_sort constr_helper_lt cs).
Proof.
  apply std_sort_sorted.
  - intros a b. rewrite !constr_helper_lt_signature.
    apply signature_lt_asym.
  - intros a b c. rewrite !constr_helper_lt_signature.
    apply signature_le_trans.
Qed.

Lemma constraint_ids_length whole prev n (cs : list (constr_helper T)) :
  length (constraint_ids whole prev n cs) = length cs.
Proof.
  revert prev n. induction cs as [|c cs IH]; intros prev n; [done|].
  simpl. destruct (match prev with Some _ => _ | None => _ end);
    [destruct (_ || _)|]; simpl; by rewrite IH.
Qed.

Lemma lt_same_signature_l c1 c1' c2 :
  ch_globalIndices c1 = ch_globalIndices c1' ->
  constr_helper_lt c1 c2 = constr_helper_lt c1' c2.
Proof. rewrite !constr_helper_lt_signature. by intros ->. Qed.

Lemma lt_differs c1 c2 :
  constr_helper_lt c1 c2 = true ->
  ch_globalIndices c1 <> ch_globalIndices c2.
Proof.
  rewrite constr_helper_lt_signature. intros Hlt E. rewrite E in Hlt.
  by rewrite signature_lt_irrefl in Hlt.
Qed.

(** The outcome of the pass on a sorted list of constraints, none of them
    before [prev]. *)
Lemma constraint_ids_spec whole (cs : list (constr_helper T)) :
  forall prev n,
    StronglySorted (not_after constr_helper_lt) cs ->
    (forall p, prev = Some p ->
       forall c, c ∈ cs -> constr_helper_lt c p = false) ->
    (n <= constraint_count whole prev n cs)%Z /\
    (forall i c z,
       cs !! i = Some c ->
       constraint_ids whole prev n cs !! i = Some (Some z) ->
       (n - 1 <= z < constraint_count whole prev n cs)%Z /\
       (z = (n - 1)%Z <->
        exists p, prev = Some p /\
                  ch_globalIndices c = ch_globalIndices p)) /\
    (forall i c,
       cs !! i = Some c ->
       (constraint_ids whole prev n cs !! i = Some None <->
        whole = false /\
        (forall j c', j <> i -> cs !! j = Some c' ->
                      ch_globalIndices c' <> ch_globalIndices c) /\
        (forall p, prev = Some p ->
                   ch_globalIndices p <> ch_globalIndices c))) /\
    (forall i j ci cj zi zj,
       cs !! i = Some ci -> cs !! j = Some cj ->
       constraint_ids whole prev n cs !! i = Some (Some zi) ->
       constraint_ids whole prev n cs !! j = Some (Some zj) ->
       (zi = zj <-> ch_globalIndices ci = ch_globalIndices cj)) /\
    (forall z, (n <= z < constraint_count whole prev n cs)%Z ->
               Some z ∈ constraint_ids whole prev n cs).
Proof.
  induction cs as [|c rest IH]; intros prev n Hsorted Hprev.
  - simpl. split; [lia|]. repeat split; try done. intros z Hz. lia.
  - apply StronglySorted_inv in Hsorted as [Hsorted Hc].
    rewrite Forall_forall in Hc. unfold not_after in Hc.
    set (first := match prev with
                  | None => true
                  | Some p => constr_helper_lt p c
                  end).
    set (shared := match rest with
                   | c' :: _ => negb (constr_helper_lt c c')
                   | [] => false
                   end).
    assert (K1 : first = true -> forall p, prev = Some p ->
              forall x, x ∈ c :: rest ->
                        ch_globalIndices x <> ch_globalIndices p).
    { unfold first. intros Hf p -> x Hx E.
      apply elem_of_cons in Hx as [->|Hx].
      - by apply lt_differs in Hf.
      - specialize (Hc x Hx). rewrite (lt_same_signature_l _ _ _ E) in Hc.
        congruence. }
    assert (K2 : first = false ->
              exists p, prev = Some p /\
                        ch_globalIndices c = ch_globalIndices p).
    { unfold first. destruct prev as [p|]; [|done]. intros Hf.
      exists p. split; [done|]. symmetry. apply same_signature; [|done].
      apply (Hprev p); [done|by left]. }
    assert (K3 : shared = true ->
              exists c', rest !! 0 = Some c' /\
                         ch_globalIndices c' = ch_globalIndices c).
    { unfold shared. destruct rest as [|c' r]; [done|].
      intros Hs%negb_true_iff. exists c'. split; [done|]. symmetry.
      apply same_signature; [|done]. apply Hc. by left. }
    assert (K4 : shared = false -> forall x, x ∈ rest ->
              ch_globalIndices x <> ch_globalIndices c).
    { unfold shared. destruct rest as [|c' r]; [intros _ x Hx; by apply elem_of_nil in Hx|].
      intros Hs%negb_false_iff x Hx E.
      assert (Hxc' : constr_helper_lt x c' = false).
      { apply elem_of_cons in Hx as [->|Hx].
        - rewrite constr_helper_lt_signature. apply signature_lt_irrefl.
        - apply StronglySorted_inv in Hsorted as [_ Hc'].
          rewrite Forall_forall in Hc'. by apply Hc'. }
      rewrite (lt_same_signature_l _ _ _ E) in Hxc'. congruence. }
    assert (Hprev' : forall p, Some c = Some p ->
              forall x, x ∈ rest -> constr_helper_lt x p = false).
    { intros p [= <-] x Hx. by apply Hc. }
    assert (Hstep : forall n',
      (forall i ci, rest !! i = Some ci ->
         (constraint_ids whole (Some c) n' rest !! i = Some None <->
          whole = false /\
          (forall j c', j <> i -> rest !! j = Some c' ->
                        ch_globalIndices c' <> ch_globalIndices ci) /\
          (forall p, Some c = Some p ->
                     ch_globalIndices p <> ch_globalIndices ci))) ->
      forall i ci, rest !! i = Some ci ->
        (constraint_ids whole (Some c) n' rest !! i = Some None <->
         whole = false /\
         (forall j c', j <> S i -> (c :: rest) !! j = Some c' ->
                       ch_globalIndices c' <> ch_globalIndices ci) /\
         (forall p, prev = Some p ->
                    ch_globalIndices p <> ch_globalIndices ci))).
    { intros n' Ha' i ci Hi. rewrite (Ha' i ci Hi). split.
      - intros (Hw & Hothers & Hp). split; [done|]. split.
        + intros [|j] c' Hj Hc'; simpl in Hc'.
          * injection Hc' as <-. by apply Hp.
          * apply (Hothers j); [lia|done].
        + intros p Hpp E. destruct (bool_decide (first = true)) eqn:Hf.
          * apply bool_decide_eq_true in Hf.
            apply (K1 Hf p Hpp ci); [|done]. right.
            by eapply list_elem_of_lookup_2.
          * apply bool_decide_eq_false in Hf.
            destruct (K2 ltac:(by destruct first)) as (p' & Hp' & Ecp).
            simplify_eq. apply (Hp c); [done|]. congruence.
      - intros (Hw & Hothers & Hp). split; [done|]. split.
        + intros j c' Hj Hc'. apply (Hothers (S j)); [lia|done].
        + intros p [= <-]. by apply (Hothers 0). }
    simpl constraint_ids. simpl constraint_count. fold first shared.
    destruct first eqn:Hfirst; [destruct (shared || whole) eqn:Hsw|].
    + (* a new run that is kept *)
      destruct (IH (Some c) (n + 1)%Z Hsorted Hprev')
        as (Hd & Ha & Ha' & Hb & Hcv).
      split; [lia|]. split; [|split; [|split]].
      * intros [|i] ci z Hi Hz; simpl in Hi, Hz.
        -- injection Hi as <-. injection Hz as <-. split; [lia|].
           split; [lia|]. intros (p & Hp & E).
           exfalso. apply (K1 eq_refl p Hp c); [by left|done].
        -- destruct (Ha i ci z Hi Hz) as [Hr _]. split; [lia|].
           split; [lia|]. intros (p & Hp & E).
           exfalso. apply (K1 eq_refl p Hp ci); [|done].
           right. by eapply list_elem_of_lookup_2.
      * intros [|i] ci Hi; simpl in Hi.
        -- injection Hi as <-. simpl. split; [done|].
           intros (Hw & Hothers & _). subst whole.
           rewrite orb_false_r in Hsw.
           destruct (K3 Hsw) as (c' & Hc' & E).
           exfalso. by apply (Hothers 1 c').
        -- simpl. by apply Hstep.
      * intros [|i] [|j] ci cj zi zj Hi Hj Hzi Hzj;
          simpl in Hi, Hj, Hzi, Hzj.
        -- by simplify_eq.
        -- injection Hi as <-. injection Hzi as <-.
           destruct (Ha j cj zj Hj Hzj) as [_ Heq].
           replace (n + 1 - 1)%Z with n in Heq by lia. split.
           ++ intros E. symmetry in E. apply Heq in E as (p & [= <-] & E).
              done.
           ++ intros E. symmetry. apply Heq. by exists c.
        -- injection Hj as <-. injection Hzj as <-.
           destruct (Ha i ci zi Hi Hzi) as [_ Heq].
           replace (n + 1 - 1)%Z with n in Heq by lia. split.
           ++ intros E. apply Heq in E as (p & [= <-] & E). done.
           ++ intros E. apply Heq. by exists c.
        -- by eapply Hb.
      * intros z Hz. destruct (decide (z = n)) as [->|Hne]; [by left|].
        right. apply Hcv. lia.
    + (* a run of one constraint that is ignored *)
      apply orb_false_iff in Hsw as [Hs Hw].
      destruct (IH (Some c) n Hsorted Hprev') as (Hd & Ha & Ha' & Hb & Hcv).
      split; [lia|]. split; [|split; [|split]].
      * intros [|i] ci z Hi Hz; simpl in Hi, Hz; [done|].
        destruct (Ha i ci z Hi Hz) as [Hr Heq].
        assert (Hin : ci ∈ rest) by (by eapply list_elem_of_lookup_2).
        assert (z <> (n - 1)%Z).
        { intros E. apply Heq in E as (p & [= <-] & E). by apply (K4 Hs ci). }
        split; [lia|]. split; [lia|]. intros (p & Hp & E).
        exfalso. apply (K1 eq_refl p Hp ci); [by right|done].
      * intros [|i] ci Hi; simpl in Hi.
        -- injection Hi as <-. simpl. split; [|done]. intros _.
           split; [done|]. split.
           ++ intros [|j] c' Hj Hc'; [done|]. simpl in Hc'.
              apply (K4 Hs). by eapply list_elem_of_lookup_2.
           ++ intros p Hp E. apply (K1 eq_refl p Hp c); [by left|done].
        -- simpl. by apply Hstep.
      * intros [|i] [|j] ci cj zi zj Hi Hj Hzi Hzj;
          simpl in Hi, Hj, Hzi, Hzj; try done.
        by eapply Hb.
      * intros z Hz. right. by apply Hcv.
    + (* the run of [prev] goes on *)
      destruct (K2 eq_refl) as (p & Hp & Ecp).
      destruct (IH (Some c) n Hsorted Hprev') as (Hd & Ha & Ha' & Hb & Hcv).
      split; [lia|]. split; [|split; [|split]].
      * intros [|i] ci z Hi Hz; simpl in Hi, Hz.
        -- injection Hi as <-. injection Hz as <-. split; [lia|].
           split; [|done]. intros _. by exists p.
        -- destruct (Ha i ci z Hi Hz) as [Hr Heq]. split; [lia|].
           rewrite Heq. split.
           ++ intros (p' & [= <-] & E). exists p. split; [done|]. congruence.
           ++ intros (p' & Hp' & E). exists c. split; [done|].
              simplify_eq. congruence.
      * intros [|i] ci Hi; simpl in Hi.
        -- injection Hi as <-. simpl. split; [done|].
           intros (_ & _ & Hn). exfalso. by apply (Hn p).
        -- simpl. by apply Hstep.
      * intros [|i] [|j] ci cj zi zj Hi Hj Hzi Hzj;
          simpl in Hi, Hj, Hzi, Hzj.
        -- by simplify_eq.
        -- injection Hi as <-. injection Hzi as <-.
           destruct (Ha j cj zj Hj Hzj) as [_ Heq]. split.
           ++ intros E. symmetry in E. apply Heq in E as (p' & [= <-] & E).
              done.
           ++ intros E. symmetry. apply Heq. by exists c.
        -- injection Hj as <-. injection Hzj as <-.
           destruct (Ha i ci zi Hi Hzi) as [_ Heq]. split.
           ++ intros E. apply Heq in E as (p' & [= <-] & E). done.
           ++ intros E. apply Heq. by exists c.
        -- by eapply Hb.
      * intros z Hz. right. by apply Hcv.
Qed.

Lemma constraints_construct_data_eq whole (cs : list (constr_helper T)) :
  constraints_construct_data whole cs
  = forM_ (seq 0 (length cs)) (constraint_step whole cs).
Proof. reflexivity. Qed.

(** One position of the pass. *)
Lemma constraint_step_Ok whole (cs : list (constr_helper T)) a c rest prev
    s s' :
  drop a cs = c :: rest ->
  prev = match a with 0 => None | S a' => cs !! a' end ->
  constraint_step whole cs a s = (Ok tt, s') ->
  let first :=
    match prev with None => true | Some p => constr_helper_lt p c end in
  let shared :=
    match rest with
    | c' :: _ => negb (constr_helper_lt c c')
    | [] => false
    end in
  primal_only s s' /\
  if first then
    if shared || whole then
      m_nPrimalDofs s' = wrap_index (m_nPrimalDofs s + 1) /\
      m_primalConstraints s'
      = alter (fun l => l ++ [ch_vector c]) (ch_patch c)
              (m_primalConstraints s) /\
      m_primalDofIndices s'
      = alter (fun l => l ++ [wrap_index (m_nPrimalDofs s)]) (ch_patch c)
              (m_primalDofIndices s)
    else s' = s
  else
    m_nPrimalDofs s' = m_nPrimalDofs s /\
    m_primalConstraints s'
    = alter (fun l => l ++ [ch_vector c]) (ch_patch c)
            (m_primalConstraints s) /\
    m_primalDofIndices s'
    = alter (fun l => l ++ [wrap_index (m_nPrimalDofs s - 1)]) (ch_patch c)
            (m_primalDofIndices s).
Proof.
  intros Hdrop Hprev Hrun. cbv zeta.
  assert (Ha : cs !! a = Some c).
  { rewrite <- (Nat.add_0_r a), <- lookup_drop, Hdrop. done. }
  assert (Hnext : cs !! (a + 1) = rest !! 0).
  { by rewrite <- lookup_drop, Hdrop. }
  assert (Hlen : length cs = a + S (length rest)).
  { rewrite <- (take_drop a cs) at 1. rewrite length_app, Hdrop.
    apply lookup_lt_Some in Ha. rewrite length_take. simpl. lia. }
  unfold constraint_step in Hrun. cbv zeta in Hrun.
  apply get_Ok in Ha. rewrite Ha, bind_lift_Ok in Hrun.
  apply bind_Ok in Hrun as (first & s1 & Hfirst & Hrun).
  assert (Hf : first = match prev with
                       | None => true
                       | Some p => constr_helper_lt p c
                       end /\ s1 = s).
  { destruct a as [|a']; simpl in Hfirst.
    - injection Hfirst as <- <-. by rewrite Hprev.
    - rewrite Nat.sub_0_r in Hfirst.
      destruct (lookup_lt_is_Some_2 cs a') as [p Hp]; [lia|].
      rewrite Hp in Hprev. apply get_Ok in Hp.
      rewrite Hp, bind_lift_Ok in Hfirst. injection Hfirst as <- <-.
      by rewrite Hprev. }
  destruct Hf as [-> ->]. clear Hfirst.
  set (first := match prev with None => true | Some p => _ end) in *.
  apply bind_Ok in Hrun as (ignore & s2 & Hign & Hrun).
  destruct first.
  - apply bind_Ok in Hign as (shared & s3 & Hshared & Hign).
    assert (Hs : shared = match rest with
                          | c' :: _ => negb (constr_helper_lt c c')
                          | [] => false
                          end /\ s3 = s).
    { destruct rest as [|c' r]; simpl in Hlen.
      - replace (Z.of_nat a <? Z.of_nat (length cs) - 1)%Z with false
          in Hshared by (symmetry; apply Z.ltb_ge; lia).
        by injection Hshared as <- <-.
      - replace (Z.of_nat a <? Z.of_nat (length cs) - 1)%Z with true
          in Hshared by (symmetry; apply Z.ltb_lt; lia).
        simpl in Hnext. apply get_Ok in Hnext.
        rewrite Hnext, bind_lift_Ok in Hshared.
        by injection Hshared as <- <-. }
    destruct Hs as [-> ->]. clear Hshared.
    set (shared := match rest with [] => false | _ => _ end) in *.
    destruct (shared || whole).
    + rewrite bind_modify in Hign. injection Hign as <- <-.
      cbv beta in Hrun. change (negb false) with true in Hrun.
      cbv iota zeta in Hrun. rewrite bind_gets in Hrun.
      apply bind_Ok in Hrun as ([] & s4 & Hpc & Hpd).
      apply m_push_back_Ok in Hpc as [_ ->].
      apply m_push_back_Ok in Hpd as [_ ->]. simpl.
      rewrite wrap_index_succ_pred. by repeat split.
    + injection Hign as <- <-. simpl in Hrun. injection Hrun as <-.
      split; [apply primal_only_refl|done].
  - injection Hign as <- <-.
    cbv beta in Hrun. change (negb false) with true in Hrun.
    cbv iota zeta in Hrun. rewrite bind_gets in Hrun.
    apply bind_Ok in Hrun as ([] & s4 & Hpc & Hpd).
    apply m_push_back_Ok in Hpc as [_ ->].
    apply m_push_back_Ok in Hpd as [_ ->]. simpl. by repeat split.
Qed.

(** The pass from position [a] on. *)
Lemma constraint_fold_Ok whole (cs : list (constr_helper T)) :
  forall m a s s',
    a + m = length cs ->
    index_range (m_nPrimalDofs s) ->
    forM_ (seq a m) (constraint_step whole cs) s = (Ok tt, s') ->
    let prev := match a with 0 => None | S a' => cs !! a' end in
    let ids :=
      wrap_id <$> constraint_ids whole prev (m_nPrimalDofs s) (drop a cs) in
    m_nPrimalDofs s'
    = wrap_index
        (constraint_count whole prev (m_nPrimalDofs s) (drop a cs)) /\
    m_primalConstraints s'
    = register (m_primalConstraints s) (kept_rows (drop a cs) ids) /\
    m_primalDofIndices s'
    = register (m_primalDofIndices s) (kept_ids (drop a cs) ids) /\
    primal_only s s'.
Proof.
  induction m as [|m IH]; intros a s s' Hlen Hin Hrun; cbv zeta.
  - injection Hrun as <-. rewrite drop_ge by lia. simpl.
    rewrite wrap_index_id by done. repeat split; done.
  - simpl in Hrun. apply bind_Ok in Hrun as ([] & s1 & Hstep & Hrun).
    destruct (lookup_lt_is_Some_2 cs a) as [c Hc]; [lia|].
    pose proof (drop_S _ _ _ Hc) as Hdrop.
    apply (constraint_step_Ok whole cs a c (drop (S a) cs) _ s s1 Hdrop eq_refl)
      in Hstep as [Hk Hstep]. cbv zeta in Hstep.
    assert (Hin1 : index_range (m_nPrimalDofs s1)).
    { destruct (match match a with 0 => None | S a' => cs !! a' end with
                | None => true | Some p => constr_helper_lt p c end);
        [destruct (_ || _)|].
      - destruct Hstep as (-> & _). apply wrap_index_range.
      - by subst s1.
      - by destruct Hstep as (-> & _). }
    apply IH in Hrun as (Hn & Hpc & Hpd & Hk'); [|lia|done].
    rewrite Hc in *.
    rewrite Hdrop. simpl constraint_ids. simpl constraint_count.
    set (n := m_nPrimalDofs s) in *.
    set (first := match match a with 0 => None | S a' => cs !! a' end with
                  | None => true
                  | Some p => constr_helper_lt p c
                  end) in *.
    set (shared := match drop (S a) cs with
                   | [] => false
                   | c' :: _ => negb (constr_helper_lt c c')
                   end) in *.
    assert (E : wrap_index (m_nPrimalDofs s1)
                = wrap_index (if first then
                                if shared || whole then (n + 1)%Z else n
                              else n)).
    { destruct first; [destruct (shared || whole)|].
      - destruct Hstep as (-> & _).
        by rewrite wrap_index_id by apply wrap_index_range.
      - by subst s1.
      - by destruct Hstep as (-> & _). }
    destruct (constraint_ids_wrap whole (drop (S a) cs) (Some c) _ _ E)
      as [Eids Ecount].
    rewrite Eids in Hpc, Hpd. rewrite Ecount in Hn. clear Eids Ecount E.
    split; [|split; [|split; [|by eapply primal_only_trans]]].
    + destruct first; [destruct (shared || whole)|]; exact Hn.
    + destruct first; [destruct (shared || whole)|].
      * destruct Hstep as (_ & Epc & _). by rewrite Epc in Hpc.
      * by subst s1.
      * destruct Hstep as (_ & Epc & _). by rewrite Epc in Hpc.
    + destruct first; [destruct (shared || whole)|].
      * destruct Hstep as (_ & _ & Epd). by rewrite Epd in Hpd.
      * by subst s1.
      * destruct Hstep as (_ & _ & Epd). by rewrite Epd in Hpd.
Qed.

End Interfaces.

(** ** Interface averages as primal dofs *)

Lemma constraint_count_shift {T} whole (cs : list (constr_helper T)) :
  forall prev n,
    constraint_count whole prev n cs
    = (n + constraint_count whole prev 0 cs)%Z.
Proof.
  induction cs as [|c cs IH]; intros prev n; simpl; [lia|].
  destruct (match prev with Some _ => _ | None => _ end);
    [destruct (_ || _)|]; try apply IH.
  rewrite (IH _ (n + 1)%Z), (IH _ (0 + 1)%Z). lia.
Qed.

Lemma constraint_count_ge {T} whole (cs : list (constr_helper T)) :
  forall prev n, (n <= constraint_count whole prev n cs)%Z.
Proof.
  induction cs as [|c cs IH]; intros prev n; simpl; [lia|].
  destruct (match prev with Some _ => _ | None => _ end);
    [destruct (_ || _)|]; try apply IH.
  specialize (IH (Some c) (n + 1)%Z). lia.
Qed.

Lemma kept_runs_nonneg {T} whole (cs : list (constr_helper T)) :
  (0 <= kept_runs whole cs)%Z.
Proof. apply constraint_count_ge. Qed.

(** Whether a constraint is kept does not depend on the counter. *)
Lemma constraint_ids_kept {T} whole (cs : list (constr_helper T)) :
  forall prev n m i z,
    constraint_ids whole prev n cs !! i = Some (Some z) ->
    exists z', constraint_ids whole prev m cs !! i = Some (Some z').
Proof.
  induction cs as [|c cs IH]; intros prev n m i z; [done|].
  simpl. destruct (match prev with Some _ => _ | None => _ end);
    [destruct (_ || _)|]; destruct i as [|i]; simpl; eauto; done.
Qed.

Lemma wrap_id_id (ids : list (option Z)) :
  Forall (fun o => forall z, o = Some z -> index_range z) ids ->
  wrap_id <$> ids = ids.
Proof.
  induction 1 as [|[z|] ids Hz Hids IH]; [done| |]; rewrite fmap_cons, IH;
    [|done].
  unfold wrap_id. simpl. by rewrite wrap_index_id by by apply Hz.
Qed.

Lemma elem_of_kept_ids {T} (cs : list (constr_helper T))
    (ids : list (option Z)) it :
  it ∈ kept_ids cs ids <->
  exists i c, cs !! i = Some c /\ ids !! i = Some (Some it.2) /\
              it.1 = ch_patch c.
Proof.
  unfold kept_ids. rewrite list_elem_of_omap. split.
  - intros ([c o] & Hin & Hsome). simpl in Hsome.
    destruct o as [z|]; [|done]. injection Hsome as <-.
    apply list_elem_of_lookup in Hin as [i Hi].
    apply lookup_zip_with_Some in Hi as (c' & o' & [= <- <-] & Hc & Ho).
    by exists i, c.
  - intros (i & c & Hc & Hi & Hp). exists (c, Some it.2). split.
    + apply list_elem_of_lookup. exists i.
      apply lookup_zip_with_Some. by exists c, (Some it.2).
    + simpl. destruct it. simpl in *. by subst.
Qed.

Lemma kept_fst {T} (cs : list (constr_helper T)) (ids : list (option Z)) :
  (kept_rows cs ids).*1 = (kept_ids cs ids).*1.
Proof.
  unfold kept_rows, kept_ids.
  induction (zip cs ids) as [|[c [z|]] l IH]; [done| |exact IH].
  csimpl. f_equal. exact IH.
Qed.

Section InterfacePrimals.
Context `{Scalar T}.
Variable assembleAverage :
  gsMultiPatch -> gsMultiBasis -> nat -> gsDofMapperLocal -> patchComponent ->
  SparseVector T.
Implicit Types (s : gsIetiMapper T) (c p : constr_helper T).

(** A position of the pass whose constraint is kept names a patch for
    which primal dof indices are kept. *)
Lemma constraint_step_range whole (cs : list (constr_helper T)) a c rest prev
    s s' :
  drop a cs = c :: rest ->
  prev = match a with 0 => None | S a' => cs !! a' end ->
  constraint_step whole cs a s = (Ok tt, s') ->
  let first :=
    match prev with None => true | Some p => constr_helper_lt p c end in
  let shared :=
    match rest with
    | c' :: _ => negb (constr_helper_lt c c')
    | [] => false
    end in
  (if first then shared || whole else true) = true ->
  ch_patch c < length (m_primalDofIndices s).
Proof.
  intros Hdrop Hprev Hrun. cbv zeta.
  assert (Ha : cs !! a = Some c).
  { rewrite <- (Nat.add_0_r a), <- lookup_drop, Hdrop. done. }
  assert (Hnext : cs !! (a + 1) = rest !! 0).
  { by rewrite <- lookup_drop, Hdrop. }
  assert (Hlen : length cs = a + S (length rest)).
  { rewrite <- (take_drop a cs) at 1. rewrite length_app, Hdrop.
    apply lookup_lt_Some in Ha. rewrite length_take. simpl. lia. }
  unfold constraint_step in Hrun. cbv zeta in Hrun.
  apply get_Ok in Ha. rewrite Ha, bind_lift_Ok in Hrun.
  apply bind_Ok in Hrun as (first & s1 & Hfirst & Hrun).
  assert (Hf : first = match prev with
                       | None => true
                       | Some p => constr_helper_lt p c
                       end /\ s1 = s).
  { destruct a as [|a']; simpl in Hfirst.
    - injection Hfirst as <- <-. by rewrite Hprev.
    - rewrite Nat.sub_0_r in Hfirst.
      destruct (lookup_lt_is_Some_2 cs a') as [p Hp]; [lia|].
      rewrite Hp in Hprev. apply get_Ok in Hp.
      rewrite Hp, bind_lift_Ok in Hfirst. injection Hfirst as <- <-.
      by rewrite Hprev. }
  destruct Hf as [-> ->]. clear Hfirst.
  set (first := match prev with None => true | Some p => _ end) in *.
  apply bind_Ok in Hrun as (ignore & s2 & Hign & Hrun).
  destruct first.
  - apply bind_Ok in Hign as (shared & s3 & Hshared & Hign).
    assert (Hs : shared = match rest with
                          | c' :: _ => negb (constr_helper_lt c c')
                          | [] => false
                          end /\ s3 = s).
    { destruct rest as [|c' r]; simpl in Hlen.
      - replace (Z.of_nat a <? Z.of_nat (length cs) - 1)%Z with false
          in Hshared by (symmetry; apply Z.ltb_ge; lia).
        by injection Hshared as <- <-.
      - replace (Z.of_nat a <? Z.of_nat (length cs) - 1)%Z with true
          in Hshared by (symmetry; apply Z.ltb_lt; lia).
        simpl in Hnext. apply get_Ok in Hnext.
        rewrite Hnext, bind_lift_Ok in Hshared.
        by injection Hshared as <- <-. }
    destruct Hs as [-> ->]. clear Hshared.
    set (shared := match rest with [] => false | _ => _ end) in *.
    intros Hkept. rewrite Hkept in Hign.
    rewrite bind_modify in Hign. injection Hign as <- <-.
    cbv beta in Hrun. change (negb false) with true in Hrun.
    cbv iota zeta in Hrun. rewrite bind_gets in Hrun.
    apply bind_Ok in Hrun as ([] & s4 & Hpc & Hpd).
    apply m_push_back_Ok in Hpc as [_ ->].
    by apply m_push_back_Ok in Hpd as [Hk _].
  - intros _. injection Hign as <- <-.
    cbv beta in Hrun. change (negb false) with true in Hrun.
    cbv iota zeta in Hrun. rewrite bind_gets in Hrun.
    apply bind_Ok in Hrun as ([] & s4 & Hpc & Hpd).
    apply m_push_back_Ok in Hpc as [_ ->].
    by apply m_push_back_Ok in Hpd as [Hk _].
Qed.

Lemma constraint_fold_range whole (cs : list (constr_helper T)) :
  forall m a s s',
    a + m = length cs ->
    forM_ (seq a m) (constraint_step whole cs) s = (Ok tt, s') ->
    let prev := match a with 0 => None | S a' => cs !! a' end in
    forall n i c z,
      drop a cs !! i = Some c ->
      constraint_ids whole prev n (drop a cs) !! i = Some (Some z) ->
      ch_patch c < length (m_primalDofIndices s).
Proof.
  induction m as [|m IH]; intros a s s' Hlen Hrun; cbv zeta.
  - rewrite drop_ge by lia. done.
  - simpl in Hrun. apply bind_Ok in Hrun as ([] & s1 & Hstep & Hrun).
    destruct (lookup_lt_is_Some_2 cs a) as [c Hc]; [lia|].
    pose proof (drop_S _ _ _ Hc) as Hdrop.
    pose proof (constraint_step_range whole cs a c (drop (S a) cs) _ s s1
                  Hdrop eq_refl Hstep) as Hrange.
    apply (constraint_step_Ok whole cs a c (drop (S a) cs) _ s s1 Hdrop eq_refl)
      in Hstep as [Hk Hstep]. cbv zeta in Hstep, Hrange.
    specialize (IH (S a) s1 s' ltac:(lia) Hrun). cbv zeta iota in IH.
    rewrite Hc in IH.
    rewrite Hdrop.
    set (first := match match a with 0 => None | S a' => cs !! a' end with
                  | None => true
                  | Some p => constr_helper_lt p c
                  end) in *.
    set (shared := match drop (S a) cs with
                   | [] => false
                   | c' :: _ => negb (constr_helper_lt c c')
                   end) in *.
    assert (Hl : length (m_primalDofIndices s1)
                 = length (m_primalDofIndices s)).
    { destruct first; [destruct (shared || whole)|].
      - destruct Hstep as (_ & _ & ->). apply length_alter.
      - by subst s1.
      - destruct Hstep as (_ & _ & ->). apply length_alter. }
    rewrite Hl in IH.
    intros n [|i] c' z Hc' Hz; simpl constraint_ids in Hz;
      fold first shared in Hz.
    + simpl in Hc'. injection Hc' as <-. apply Hrange.
      destruct first; [|done]. destruct (shared || whole); [done|].
      simpl in Hz. done.
    + simpl in Hc'.
      destruct first; [destruct (shared || whole)|]; simpl in Hz;
        by eapply IH.
Qed.

(** The pass over the sorted constraints of a component, when the counter
    has room for the runs that are kept. *)
Lemma constraints_pass_Ok whole (collected : list (constr_helper T)) s s' :
  counter_fits (m_nPrimalDofs s)
               (kept_runs whole (std_sort constr_helper_lt collected)) ->
  constraints_construct_data whole (std_sort constr_helper_lt collected) s
  = (Ok tt, s') ->
  let cs := std_sort constr_helper_lt collected in
  exists ids : list (option Z),
    length ids = length cs /\
    (forall i c,
       cs !! i = Some c ->
       (ids !! i = Some None <->
        whole = false /\
        forall j c', j <> i -> cs !! j = Some c' ->
                     ch_globalIndices c' <> ch_globalIndices c)) /\
    (forall i j ci cj zi zj,
       cs !! i = Some ci -> cs !! j = Some cj ->
       ids !! i = Some (Some zi) -> ids !! j = Some (Some zj) ->
       (zi = zj <-> ch_globalIndices ci = ch_globalIndices cj)) /\
    (forall z, Some z ∈ ids
               <-> (m_nPrimalDofs s <= z < m_nPrimalDofs s')%Z) /\
    m_nPrimalDofs s' = (m_nPrimalDofs s + kept_runs whole cs)%Z /\
    m_primalConstraints s'
    = register (m_primalConstraints s) (kept_rows cs ids) /\
    m_primalDofIndices s'
    = register (m_primalDofIndices s) (kept_ids cs ids) /\
    (forall it, it ∈ kept_ids cs ids ->
                it.1 < length (m_primalDofIndices s)) /\
    primal_only s s'.
Proof.
  intros [Hlo Hhi] Hrun cs. fold cs in Hrun, Hhi.
  pose proof (kept_runs_nonneg whole cs) as Hk0.
  assert (Hin : index_range (m_nPrimalDofs s)) by (split; lia).
  rewrite constraints_construct_data_eq in Hrun.
  pose proof (constraint_fold_range whole cs (length cs) 0 s s' eq_refl Hrun)
    as Hrange.
  apply (constraint_fold_Ok whole cs (length cs) 0) in Hrun
    as (Hn & Hpc & Hpd & Hprimal); [|done..].
  cbv zeta in Hrange. rewrite drop_0 in Hn, Hpc, Hpd, Hrange.
  pose proof (constraints_sorted collected) as Hsorted. fold cs in Hsorted.
  destruct (constraint_ids_spec whole cs None (m_nPrimalDofs s) Hsorted)
    as (Hd & Ha & Ha' & Hb & Hcv); [done|].
  set (ids := constraint_ids whole None (m_nPrimalDofs s) cs) in *.
  assert (Hcount : constraint_count whole None (m_nPrimalDofs s) cs
                   = (m_nPrimalDofs s + kept_runs whole cs)%Z)
    by apply constraint_count_shift.
  assert (Hnew : forall z, Some z ∈ ids ->
            (m_nPrimalDofs s <= z
             < constraint_count whole None (m_nPrimalDofs s) cs)%Z).
  { intros z [i Hi]%list_elem_of_lookup.
    destruct (lookup_lt_is_Some_2 cs i) as [c Hc].
    { apply lookup_lt_Some in Hi. unfold ids in Hi.
      by rewrite constraint_ids_length in Hi. }
    destruct (Ha i c z Hc Hi) as [Hr Heq].
    assert (z <> (m_nPrimalDofs s - 1)%Z).
    { intros E. apply Heq in E as (p & Hp & _). done. }
    lia. }
  assert (Hids : wrap_id <$> ids = ids).
  { apply wrap_id_id, Forall_forall. intros o Ho z ->.
    apply Hnew in Ho. split; lia. }
  rewrite Hids in Hpc, Hpd. rewrite wrap_index_id in Hn by (split; lia).
  exists ids. split; [apply constraint_ids_length|].
  split; [|split; [exact Hb|split; [|split; [|split; [|split; [|split]]]]]].
  - intros i c Hc. rewrite (Ha' i c Hc). split.
    + intros (Hw & Ho & _). auto.
    + intros (Hw & Ho). split; [done|]. split; [done|]. done.
  - intros z. rewrite Hn. split; [apply Hnew|apply Hcv].
  - by rewrite Hn.
  - exact Hpc.
  - exact Hpd.
  - intros it (i & c & Hc & Hi & ->)%elem_of_kept_ids.
    by eapply (Hrange (m_nPrimalDofs s)).
  - exact Hprimal.
Qed.

(** The constraints of a component depend on the status through the
    flag of the artificial dofs only. *)
Lemma collect_constraints_status geo mb dm locals artificial st st'
    component :
  has_flag st 2 = has_flag st' 2 ->
  collect_constraints assembleAverage geo mb dm locals artificial st component
  = collect_constraints assembleAverage geo mb dm locals artificial st'
                        component.
Proof. intros E. unfold collect_constraints. by rewrite E. Qed.

Lemma component_dofs_nonneg geo d s component :
  (0 <= component_dofs assembleAverage geo d s component)%Z.
Proof.
  unfold component_dofs. destruct (collected_for _ _ _ _); [|done].
  apply kept_runs_nonneg.
Qed.

Lemma interface_sum_nonneg geo d s (l : list (list patchComponent)) :
  (0 <= foldr Z.add 0%Z (component_dofs assembleAverage geo d s <$> l))%Z.
Proof.
  induction l as [|x l IH]; [done|]. rewrite fmap_cons. cbn [foldr].
  pose proof (component_dofs_nonneg geo d s x). lia.
Qed.

(** The loop of lines 345-438 over the components, from an object that
    has the setup of [s]: a pass for every component of dimension [d]. *)
Lemma interface_loop geo d s (l : list (list patchComponent)) :
  forall st st',
    m_dofMapperGlobal st = m_dofMapperGlobal s ->
    m_dofMapperLocal st = m_dofMapperLocal s ->
    m_artificialDofInfo st = m_artificialDofInfo s ->
    has_flag (m_status st) 2 = has_flag (m_status s) 2 ->
    counter_fits (m_nPrimalDofs st)
      (foldr Z.add 0%Z
         (component_dofs assembleAverage geo d s
            <$> filter (fun component => has_dim d component = true) l)) ->
    forM_ l (fun component =>
      c0 ← lift (get component 0);
      if (pc_dim c0 =? d)%Z then
        dm ← gets m_dofMapperGlobal;
        locals ← gets m_dofMapperLocal;
        artificial ← gets m_artificialDofInfo;
        status ← gets m_status;
        constraints ←
          lift (collect_constraints assembleAverage geo (m_multiBasis s) dm
                  locals artificial status component);
        constraints_construct_data (mb_dim (m_multiBasis s) =? d)%Z
          (std_sort constr_helper_lt constraints)
      else mret tt) st = (Ok tt, st') ->
    let whole := (mb_dim (m_multiBasis s) =? d)%Z in
    m_nPrimalDofs st'
    = (m_nPrimalDofs st
       + foldr Z.add 0%Z
           (component_dofs assembleAverage geo d s
              <$> filter (fun component => has_dim d component = true) l))%Z /\
    primal_only st st' /\
    exists passes : list (list (constr_helper T) * list (option Z)),
      Forall2
        (fun component pass =>
           exists collected,
             collected_for assembleAverage geo s component = Ok collected /\
             pass.1 ≡ₚ collected /\
             StronglySorted (not_after constr_helper_lt) pass.1 /\
             length pass.2 = length pass.1 /\
             forall i c,
               pass.1 !! i = Some c ->
               (pass.2 !! i = Some None <->
                whole = false /\
                forall j c', j <> i -> pass.1 !! j = Some c' ->
                             ch_globalIndices c' <> ch_globalIndices c))
        (filter (fun component => has_dim d component = true) l) passes /\
      (forall a b pa pb i j ci cj zi zj,
         passes !! a = Some pa -> passes !! b = Some pb ->
         pa.1 !! i = Some ci -> pb.1 !! j = Some cj ->
         pa.2 !! i = Some (Some zi) -> pb.2 !! j = Some (Some zj) ->
         (zi = zj <-> a = b /\ ch_globalIndices ci = ch_globalIndices cj)) /\
      (forall z, (exists pass, pass ∈ passes /\ Some z ∈ pass.2)
                 <-> (m_nPrimalDofs st <= z < m_nPrimalDofs st')%Z) /\
      m_primalConstraints st'
      = register (m_primalConstraints st)
          (passes ≫= fun pass => kept_rows pass.1 pass.2) /\
      m_primalDofIndices st'
      = register (m_primalDofIndices st)
          (passes ≫= fun pass => kept_ids pass.1 pass.2) /\
      forall it, it ∈ (passes ≫= fun pass => kept_ids pass.1 pass.2) ->
                 it.1 < length (m_primalDofIndices st).
Proof.
  induction l as [|x l IH];
    intros st st' Edm Eloc Eart Eflag Hfits Hrun; cbv zeta.
  - simpl in Hrun. injection Hrun as <-. simpl.
    split; [lia|]. split; [apply primal_only_refl|].
    exists []. split; [constructor|]. split; [done|]. split.
    + intros z. split; [|lia]. intros (pass & Hp & _).
      by apply elem_of_nil in Hp.
    + split; [done|]. split; [done|]. intros it Hit.
      by apply elem_of_nil in Hit.
  - simpl in Hrun. apply bind_Ok in Hrun as ([] & st1 & Hx & Hrun).
    run_steps Hx. apply get_Ok in Hlift.
    assert (Hdim : has_dim d x = (pc_dim a =? d)%Z)
      by (unfold has_dim; by rewrite Hlift).
    destruct (pc_dim a =? d)%Z eqn:Ed.
    2:{ injection Hx as <-.
        rewrite filter_cons_False in Hfits |- * by (by rewrite Hdim).
        by apply IH. }
    rewrite filter_cons_True in Hfits |- * by done.
    run_steps Hx. rename a0 into collected.
    rewrite Edm, Eloc, Eart in Hlift0.
    rewrite (collect_constraints_status _ _ _ _ _ _ (m_status s))
      in Hlift0 by done.
    fold (collected_for assembleAverage geo s x) in Hlift0.
    rewrite fmap_cons in Hfits |- *. cbn [foldr] in Hfits |- *.
    set (rest := foldr Z.add 0%Z _) in *.
    assert (Hrest : (0 <= rest)%Z) by apply interface_sum_nonneg.
    assert (Hdofs : component_dofs assembleAverage geo d s x
                    = kept_runs (mb_dim (m_multiBasis s) =? d)%Z
                                (std_sort constr_helper_lt collected)).
    { unfold component_dofs. by rewrite Hlift0. }
    rewrite Hdofs in Hfits |- *.
    set (whole := (mb_dim (m_multiBasis s) =? d)%Z) in *.
    set (cs := std_sort constr_helper_lt collected) in *.
    pose proof (kept_runs_nonneg whole cs) as Hk0.
    destruct Hfits as [Hlo Hhi].
    destruct (constraints_pass_Ok whole collected st st1) as
      (ids & Hlen & Hnone & Hsame & Hids & Hn1 & Hpc1 & Hpd1 & Hpatch
         & Hprimal1); [split; fold cs; lia|exact Hx|].
    fold cs in Hlen, Hnone, Hsame, Hn1, Hpc1, Hpd1, Hpatch.
    destruct Hprimal1 as (P1 & P2 & P3 & P4 & P5 & P6 & P7).
    destruct (IH st1 st') as (Hn & Hprimal & passes & HF & Hcross & Hrange
                                & Hpc & Hpd & Hpatches);
      [congruence|congruence|congruence|by rewrite P7
      |split; lia|exact Hrun|].
    split; [lia|]. split.
    { eapply primal_only_trans; [|exact Hprimal]. by repeat split. }
    exists ((cs, ids) :: passes). split; [|split; [|split; [|split; [|split]]]].
    + constructor; [|exact HF]. exists collected. simpl.
      split; [done|]. split; [apply std_sort_perm|].
      split; [apply constraints_sorted|]. done.
    + intros [|a'] [|b'] pa pb i j ci cj zi zj Ha Hb Hci Hcj Hzi Hzj;
        simpl in Ha, Hb.
      * injection Ha as <-. injection Hb as <-. simpl in *.
        rewrite (Hsame i j ci cj zi zj) by done. tauto.
      * injection Ha as <-. simpl in *.
        assert (m_nPrimalDofs st <= zi < m_nPrimalDofs st1)%Z
          by (apply Hids; by eapply list_elem_of_lookup_2).
        assert (m_nPrimalDofs st1 <= zj < m_nPrimalDofs st')%Z.
        { apply Hrange. exists pb. split; by eapply list_elem_of_lookup_2. }
        split; [lia|]. intros [? _]. done.
      * injection Hb as <-. simpl in *.
        assert (m_nPrimalDofs st <= zj < m_nPrimalDofs st1)%Z
          by (apply Hids; by eapply list_elem_of_lookup_2).
        assert (m_nPrimalDofs st1 <= zi < m_nPrimalDofs st')%Z.
        { apply Hrange. exists pa. split; by eapply list_elem_of_lookup_2. }
        split; [lia|]. intros [? _]. done.
      * rewrite (Hcross a' b' pa pb i j ci cj zi zj) by done.
        split; intros [E ?]; split; (done || lia).
    + intros z. split.
      * intros (pass & [->|Hp]%elem_of_cons & Hz).
        -- simpl in Hz. apply Hids in Hz. lia.
        -- assert (m_nPrimalDofs st1 <= z < m_nPrimalDofs st')%Z
             by (apply Hrange; eauto).
           lia.
      * intros Hz. destruct (decide (z < m_nPrimalDofs st1)%Z).
        -- exists (cs, ids). split; [left|]. simpl. apply Hids. lia.
        -- destruct (proj2 (Hrange z)) as (pass & Hp & Hz'); [lia|].
           exists pass. split; [by right|done].
    + rewrite bind_cons, register_app. simpl. by rewrite <- Hpc1.
    + rewrite bind_cons, register_app. simpl. by rewrite <- Hpd1.
    + intros it Hit. rewrite bind_cons in Hit.
      apply elem_of_app in Hit as [Hit|Hit]; [by apply Hpatch|].
      apply Hpatches in Hit. by rewrite Hpd1, register_length in Hit.
Qed.

(** A completed [interfaceAveragesAsPrimals], in terms of the passes. *)
Lemma interfaceAveragesAsPrimals_Ok geo d s s' :
  counter_fits (m_nPrimalDofs s) (interface_dofs assembleAverage geo d s) ->
  interfaceAveragesAsPrimals assembleAverage geo d s = (Ok tt, s') ->
  let whole := (mb_dim (m_multiBasis s) =? d)%Z in
  m_nPrimalDofs s'
  = (m_nPrimalDofs s + interface_dofs assembleAverage geo d s)%Z /\
  exists passes : list (list (constr_helper T) * list (option Z)),
    Forall2
      (fun component pass =>
         exists collected,
           collected_for assembleAverage geo s component = Ok collected /\
           pass.1 ≡ₚ collected /\
           StronglySorted (not_after constr_helper_lt) pass.1 /\
           length pass.2 = length pass.1 /\
           forall i c,
             pass.1 !! i = Some c ->
             (pass.2 !! i = Some None <->
              whole = false /\
              forall j c', j <> i -> pass.1 !! j = Some c' ->
                           ch_globalIndices c' <> ch_globalIndices c))
      (components_of geo d) passes /\
    (forall a b pa pb i j ci cj zi zj,
       passes !! a = Some pa -> passes !! b = Some pb ->
       pa.1 !! i = Some ci -> pb.1 !! j = Some cj ->
       pa.2 !! i = Some (Some zi) -> pb.2 !! j = Some (Some zj) ->
       (zi = zj <-> a = b /\ ch_globalIndices ci = ch_globalIndices cj)) /\
    (forall z, (exists pass, pass ∈ passes /\ Some z ∈ pass.2)
               <-> (m_nPrimalDofs s <= z < m_nPrimalDofs s')%Z) /\
    m_primalConstraints s'
    = register (m_primalConstraints s)
        (passes ≫= fun pass => kept_rows pass.1 pass.2) /\
    m_primalDofIndices s'
    = register (m_primalDofIndices s)
        (passes ≫= fun pass => kept_ids pass.1 pass.2) /\
    forall it, it ∈ (passes ≫= fun pass => kept_ids pass.1 pass.2) ->
               it.1 < length (m_primalDofIndices s).
Proof.
  intros Hfits Hrun whole.
  unfold interfaceAveragesAsPrimals, assert_initialized in Hrun.
  run_steps Hrun. apply Z.ltb_lt in Hassert0.
  set (s0 := set_status _ s) in *.
  destruct (interface_loop geo d s (mp_allComponents geo) s0 s')
    as (Hn & _ & passes & Hpasses);
    [done|done|done| |exact Hfits|exact Hrun|].
  { apply has_flag_lor_other. apply (flags_disjoint (3 + d) 1); lia. }
  split; [exact Hn|]. exists passes. exact Hpasses.
Qed.

(** C4. A completed [interfaceAveragesAsPrimals] for the dimension [d],
    when the counter has room for its primal dofs, has made one pass for
    every component of dimension [d], in the order of the geometry: over
    the constraints collected for the component, sorted by their
    signature (the sorted global indices of the support, compared by
    length first and then element by element).  In a pass a constraint is
    ignored exactly when no other constraint of the component has its
    signature and [d] is not the dimension of the bases (the component is
    not the whole domain); two constraints that are kept get the same
    primal id exactly when they are of the same component and have the
    same signature; the ids given are exactly the new ones, from the old
    to the new value of the counter, so a run that is kept is one new
    primal dof and a run that is ignored none; and the constraints that
    are kept, and only they, are registered with their patch, under their
    id. *)
Theorem C4_interface_primals geo d s s' :
  counter_fits (m_nPrimalDofs s) (interface_dofs assembleAverage geo d s) ->
  interfaceAveragesAsPrimals assembleAverage geo d s = (Ok tt, s') ->
  let whole := (mb_dim (m_multiBasis s) =? d)%Z in
  exists passes : list (list (constr_helper T) * list (option Z)),
    Forall2
      (fun component pass =>
         exists collected,
           collect_constraints assembleAverage geo (m_multiBasis s)
             (m_dofMapperGlobal s) (m_dofMapperLocal s)
             (m_artificialDofInfo s) (m_status s) component
           = Ok collected /\
           pass.1 ≡ₚ collected /\
           StronglySorted (not_after constr_helper_lt) pass.1 /\
           length pass.2 = length pass.1 /\
           forall i c,
             pass.1 !! i = Some c ->
             (pass.2 !! i = Some None <->
              whole = false /\
              forall j c', j <> i -> pass.1 !! j = Some c' ->
                           ch_globalIndices c' <> ch_globalIndices c))
      (components_of geo d) passes /\
    (forall a b pa pb i j ci cj zi zj,
       passes !! a = Some pa -> passes !! b = Some pb ->
       pa.1 !! i = Some ci -> pb.1 !! j = Some cj ->
       pa.2 !! i = Some (Some zi) -> pb.2 !! j = Some (Some zj) ->
       (zi = zj <-> a = b /\ ch_globalIndices ci = ch_globalIndices cj)) /\
    (forall z, (exists pass, pass ∈ passes /\ Some z ∈ pass.2)
               <-> (m_nPrimalDofs s <= z < m_nPrimalDofs s')%Z) /\
    forall patch : nat,
      m_primalConstraints s' !! patch
      = (fun old =>
           old ++ (snd <$> filter (fun it => it.1 = patch)
                     (passes ≫= fun pass => kept_rows pass.1 pass.2)))
          <$> m_primalConstraints s !! patch /\
      m_primalDofIndices s' !! patch
      = (fun old =>
           old ++ (snd <$> filter (fun it => it.1 = patch)
                     (passes ≫= fun pass => kept_ids pass.1 pass.2)))
          <$> m_primalDofIndices s !! patch.
Proof.
  intros Hfits Hrun whole.
  destruct (interfaceAveragesAsPrimals_Ok geo d s s' Hfits Hrun)
    as (_ & passes & HF & Hcross & Hrange & Hpc & Hpd & _).
  exists passes. split; [exact HF|]. split; [exact Hcross|].
  split; [exact Hrange|].
  intros patch. by rewrite Hpc, Hpd, !register_lookup.
Qed.

End InterfacePrimals.

(** ** Custom primal constraints *)

Section Custom.
Context `{Scalar T}.
Implicit Types s : gsIetiMapper T.

Lemma m_push_back_run {A} (f : gsIetiMapper T -> list (list A))
    (g : list (list A) -> gsIetiMapper T -> gsIetiMapper T) k x s :
  k < length (f s) ->
  m_push_back f g k x s
  = (Ok tt, g (alter (fun l => l ++ [x]) k (f s)) s).
Proof.
  intros Hk. destruct (lookup_lt_is_Some_2 _ _ Hk) as [l Hl].
  unfold m_push_back, m_get, m_put.
  rewrite bind_assoc, bind_gets. unfold get. rewrite Hl, bind_lift_Ok.
  rewrite bind_gets. unfold put. rewrite decide_True by done.
  rewrite bind_lift_Ok. unfold modify.
  by rewrite (insert_push_back _ _ _ _ Hl).
Qed.

(** The loop of lines 449-455, with the counter at [n] throughout. *)
Lemma custom_loop_run (data : list (nat * SparseVector T)) s :
  length (m_primalDofIndices s) = length (m_primalConstraints s) ->
  Forall (fun d => d.1 < length (m_primalConstraints s)) data ->
  forM_ data (fun d =>
    n ← gets m_nPrimalDofs;
    m_push_back m_primalConstraints set_primalConstraints d.1 d.2;;
    m_push_back m_primalDofIndices set_primalDofIndices d.1 n) s
  = (Ok tt,
     set_primalDofIndices
       (register (m_primalDofIndices s)
                 ((fun d => (d.1, m_nPrimalDofs s)) <$> data))
       (set_primalConstraints (register (m_primalConstraints s) data) s)).
Proof.
  revert s. induction data as [|d data IH]; intros s Hlen Hin.
  - simpl. by destruct s.
  - apply Forall_cons in Hin as [Hd Hin]. simpl forM_.
    rewrite bind_assoc, bind_gets, bind_assoc.
    rewrite bind_eq, (m_push_back_run _ _ _ _ _ Hd).
    rewrite bind_eq, m_push_back_run by (simpl; lia).
    rewrite IH.
    + reflexivity.
    + simpl. by rewrite !length_alter.
    + simpl. eapply Forall_impl; [exact Hin|].
      intros d0 Hd0. by rewrite length_alter.
Qed.

Lemma custom_loop_Ok (data : list (nat * SparseVector T)) s s' :
  forM_ data (fun d =>
    n ← gets m_nPrimalDofs;
    m_push_back m_primalConstraints set_primalConstraints d.1 d.2;;
    m_push_back m_primalDofIndices set_primalDofIndices d.1 n) s
  = (Ok tt, s') ->
  Forall (fun d => d.1 < length (m_primalConstraints s)) data.
Proof.
  intros Hrun.
  pose (I := fun (pre : list (nat * SparseVector T)) (st : gsIetiMapper T) =>
    length (m_primalConstraints st) = length (m_primalConstraints s) /\
    Forall (fun d => d.1 < length (m_primalConstraints s)) pre).
  cut (I ([] ++ data) s'); [by intros [_ ?]|].
  refine (forM_invariant I _ _ _ _ _ _ _ Hrun); [|by split].
  intros pre d st st' [Hlen Hpre] Hbody. cbv beta in Hbody.
  rewrite bind_gets in Hbody.
  apply bind_Ok in Hbody as ([] & st1 & Hpc & Hpd).
  apply m_push_back_Ok in Hpc as [Hd ->].
  apply m_push_back_Ok in Hpd as [_ ->]. simpl. split.
  - simpl. by rewrite length_alter.
  - simpl in Hd. apply Forall_app. split; [done|].
    apply Forall_singleton. lia.
Qed.

Lemma filter_ids_replicate (data : list (nat * SparseVector T)) (n : Z) p :
  (filter (fun it : nat * Z => it.1 = p) ((fun d => (d.1, n)) <$> data)).*2
  = replicate (length (filter (fun d => d.1 = p) data)) n.
Proof.
  induction data as [|d data IH]; [done|].
  rewrite fmap_cons, !filter_cons. cbn [fst].
  destruct (decide (d.1 = p)); [|exact IH].
  rewrite fmap_cons. cbn [snd length replicate]. by rewrite IH.
Qed.

(** X7. On an initialised object, [customPrimalConstraints] appends, for
    every pair (patch, vector) in the order given, the vector to the
    primal constraints of the patch and the current counter value to its
    primal dof indices, and then raises the counter by one as [++] does
    on [index_t] (from the largest value it goes to the smallest), also
    when no pair is given; nothing else changes.  It completes exactly
    when every patch named is one for which constraints are kept. *)
Theorem X7_custom_constraints (data : list (nat * SparseVector T)) s :
  has_flag (m_status s) 1 = true ->
  length (m_primalDofIndices s) = length (m_primalConstraints s) ->
  (Forall (fun d => d.1 < length (m_primalConstraints s)) data ->
   exists s',
     customPrimalConstraints data s = (Ok tt, s') /\
     m_nPrimalDofs s' = wrap_index (m_nPrimalDofs s + 1) /\
     primal_only s s' /\
     forall p,
       m_primalConstraints s' !! p
       = (fun old => old ++ (filter (fun d => d.1 = p) data).*2)
         <$> m_primalConstraints s !! p /\
       m_primalDofIndices s' !! p
       = (fun old =>
            old ++ replicate (length (filter (fun d => d.1 = p) data))
                             (m_nPrimalDofs s))
         <$> m_primalDofIndices s !! p) /\
  (forall s', customPrimalConstraints data s = (Ok tt, s') ->
              Forall (fun d => d.1 < length (m_primalConstraints s)) data).
Proof.
  intros Hinit Hlen. split.
  - intros Hin. eexists. split.
    + unfold customPrimalConstraints, assert_initialized.
      rewrite bind_assoc, bind_gets, Hinit, bind_assert_true.
      rewrite bind_eq, (custom_loop_run data s Hlen Hin). reflexivity.
    + split; [done|]. split; [by repeat split|].
      intros p. simpl. rewrite !register_lookup. split; [done|].
      by rewrite filter_ids_replicate.
  - intros s' Hrun. unfold customPrimalConstraints, assert_initialized in Hrun.
    rewrite bind_assoc, bind_gets, Hinit, bind_assert_true in Hrun.
    apply bind_Ok in Hrun as ([] & s1 & Hloop & _).
    exact (custom_loop_Ok _ _ _ Hloop).
Qed.
End Custom.

(** ** The number of multipliers *)

(** The pairs of a group: occurrence [j1] against occurrence [j2 > j1],
    with [j1 = 0] only unless the rows are fully redundant. *)
Lemma elem_of_group_pairs_iff fr (group : list (nat * nat)) o1 o2 :
  (o1, o2) ∈ group_pairs fr group <->
  exists j1 j2, j1 < j2 /\ (fr = false -> j1 = 0) /\
                group !! j1 = Some o1 /\ group !! j2 = Some o2.
Proof.
  unfold group_pairs. rewrite list_elem_of_omap. split.
  - intros ([j1 j2] & Hj & Hp). apply elem_of_pair_positions in Hj as [Hlt Hfr].
    simpl in Hp.
    destruct (group !! j1) as [x|] eqn:H1; [|done]. simpl in Hp.
    destruct (group !! j2) as [y|] eqn:H2; [|done]. simpl in Hp.
    injection Hp as -> ->. exists j1, j2. split; [lia|done].
  - intros (j1 & j2 & Hlt & Hfr & H1 & H2). exists (j1, j2). split.
    + apply elem_of_pair_positions. split; [|done].
      apply lookup_lt_Some in H2. lia.
    + simpl. rewrite H1. simpl. rewrite H2. done.
Qed.

Lemma group_rows_minimal (group : list (nat * nat)) :
  length (group_pairs false group) = length group - 1.
Proof. by rewrite group_pairs_length, length_pair_positions_minimal. Qed.

Lemma group_rows_redundant (group : list (nat * nat)) :
  Z.of_nat (length (group_pairs true group))
  = Z.quot (Z.of_nat (length group) * (Z.of_nat (length group) - 1)) 2.
Proof. by rewrite group_pairs_length, length_pair_positions_redundant. Qed.

(** In the minimal mode the count of line 534 is one short of the rows
    emitted for every group that is empty. *)
Lemma all_rows_minimal (coupling : list (list (nat * nat))) :
  Z.of_nat (length (all_pairs false coupling))
  = (expected_total false coupling
     + Z.of_nat (length (filter (fun group => group = []) coupling)))%Z.
Proof.
  induction coupling as [|group coupling IH]; [done|].
  unfold all_pairs in *. rewrite bind_cons, length_app, filter_cons.
  rewrite Nat2Z.inj_add, IH, group_rows_minimal. simpl expected_total.
  unfold expected_rows. destruct group as [|o group].
  - rewrite decide_True by done. simpl. lia.
  - rewrite decide_False by done. simpl length. lia.
Qed.

Lemma all_rows_redundant (coupling : list (list (nat * nat))) :
  Z.of_nat (length (all_pairs true coupling)) = expected_total true coupling.
Proof.
  induction coupling as [|group coupling IH]; [done|].
  unfold all_pairs in *. rewrite bind_cons, length_app.
  rewrite Nat2Z.inj_add, IH, group_rows_redundant. reflexivity.
Qed.

Section JumpCounts.
Context `{Scalar T}.

(** A completed run: every jump matrix has as many rows as rows were
    emitted, which is the count expected of the groups. *)
Lemma jump_rows_total fr ec (s s' : gsIetiMapper T) :
  consistent s ->
  computeJumpMatrices fr ec s = (Ok tt, s') ->
  exists coupling,
    (forall c group, coupling !! c = Some group ->
       group = occurrences (m_dofMapperGlobal s) c \/
       (ec = true /\ group = [])) /\
    (forall group, group ∈ coupling -> 1 < length group \/ ec = true) /\
    expected_total fr coupling = Z.of_nat (length (all_pairs fr coupling)) /\
    forall jm, jm ∈ m_jumpMatrices s' ->
               jm_rows jm = expected_total fr coupling.
Proof.
  intros Hcons Hrun.
  destruct (computeJumpMatrices_Ok _ _ _ _ Hcons Hrun)
    as (coupling & se & N & _ & Hgrp & Hsizes & HN & Hemit & HF).
  exists coupling. split; [done|]. split; [done|].
  apply emit_fold in Hemit as (HN' & _). split; [lia|].
  intros jm [k Hk]%list_elem_of_lookup.
  destruct (Forall2_lookup_r _ _ _ _ _ HF Hk) as (k' & _ & e & _ & -> & _).
  simpl. lia.
Qed.
End JumpCounts.

(** C1. A group of [n] occurrences gives [n - 1] rows in the minimal mode
    and [n (n - 1) / 2] rows in the fully redundant mode; the count the
    code expects of a group is the same number, except for a group that
    [excludeCorners] has emptied, in the minimal mode: no row is emitted
    for it, but -1 is counted.  With that the expected count falls short
    of the rows emitted, and the run on two intervals that share an end
    point stops at the check of line 564.  Without [excludeCorners], a dof
    shared by three patches gives two rows, or three when the rows are
    fully redundant. *)
Theorem C1_emptied_group_miscounted :
  (forall group : list (nat * nat),
     length (group_pairs false group) = length group - 1) /\
  (forall group : list (nat * nat),
     Z.of_nat (length (group_pairs true group))
     = Z.quot (Z.of_nat (length group) * (Z.of_nat (length group) - 1)) 2) /\
  (forall coupling : list (list (nat * nat)),
     Z.of_nat (length (all_pairs false coupling))
     = (expected_total false coupling
        + Z.of_nat (length (filter (fun group => group = []) coupling)))%Z) /\
  (forall coupling : list (list (nat * nat)),
     Z.of_nat (length (all_pairs true coupling))
     = expected_total true coupling) /\
  find_coupling two_intervals (m_dofMapperLocal two_intervals_mapper) 2 1
  = Ok [[(0, 1); (1, 0)]] /\
  erase_corners two_intervals_bases two_intervals 2 [[(0, 1); (1, 0)]]
  = Ok [[]] /\
  count_multipliers false true [[]] = Ok (-1)%Z /\
  assemble_jumps (T:=Z) false 2 [[]] = Ok ([[]; []], 0%Z) /\
  (computeJumpMatrices false true two_intervals_mapper).1
  = Err InternalInvariantViolation /\
  jm_rows <$> m_jumpMatrices
                (computeJumpMatrices false false three_shared_mapper).2
  = [2%Z; 2%Z; 2%Z] /\
  jm_rows <$> m_jumpMatrices
                (computeJumpMatrices true false three_shared_mapper).2
  = [3%Z; 3%Z; 3%Z].
Proof.
  split; [exact group_rows_minimal|].
  split; [exact group_rows_redundant|].
  split; [exact all_rows_minimal|].
  split; [exact all_rows_redundant|].
  repeat split; vm_compute; reflexivity.
Qed.

(** C9. On two intervals that share an end point, the only coupled dof is
    a corner of both.  Without [excludeCorners] both modes give one
    multiplier.  With [excludeCorners] the fully redundant mode gives
    none, which is fewer; the minimal mode does not complete: it stops
    with an internal error and sets no jump matrix. *)
Theorem C9_exclude_corners_minimal_fails :
  (computeJumpMatrices false false two_intervals_mapper).1 = Ok tt /\
  jm_rows <$> m_jumpMatrices
                (computeJumpMatrices false false two_intervals_mapper).2
  = [1%Z; 1%Z] /\
  (computeJumpMatrices true false two_intervals_mapper).1 = Ok tt /\
  jm_rows <$> m_jumpMatrices
                (computeJumpMatrices true false two_intervals_mapper).2
  = [1%Z; 1%Z] /\
  (computeJumpMatrices true true two_intervals_mapper).1 = Ok tt /\
  jm_rows <$> m_jumpMatrices
                (computeJumpMatrices true true two_intervals_mapper).2
  = [0%Z; 0%Z] /\
  (computeJumpMatrices false true two_intervals_mapper).1
  = Err InternalInvariantViolation /\
  m_jumpMatrices (computeJumpMatrices false true two_intervals_mapper).2
  = [].
Proof. repeat split; vm_compute; reflexivity. Qed.

(** ** The theorems on concrete inputs *)

(** The hypotheses of the theorems, on the inputs above, by evaluation. *)
Ltac by_evaluation := vm_compute; first [reflexivity | lia | done].

(** Every number below a bound that is given. *)
Ltac each_below k :=
  first [ exfalso; lia | destruct k as [|k]; [ | each_below k ] ].

Ltac show_consistent :=
  split; [by_evaluation|];
  split; [by_evaluation|];
  split; [by_evaluation|];
  let k := fresh "k" in let Hk := fresh "Hk" in
  intros k Hk; simpl in Hk; each_below k; by_evaluation.

(** Every element of a list that is given. *)
Ltac each_element x Hx :=
  apply list_elem_of_In in Hx; vm_compute in Hx;
  repeat (destruct Hx as [<-|Hx]); [..|destruct Hx].

(** *** [init] may run again *)

(** [init] has no check of the status: run on an object that is
    initialised and has its corners registered, it succeeds and gives the
    object of the first run. *)
Lemma C5_init_runs_again :
  init two_intervals_bases two_intervals two_intervals_fixed new_mapper
  = (Ok tt, two_intervals_mapper) /\
  (cornersAsPrimals two_intervals_mapper).1 = Ok tt /\
  nPrimalDofs (cornersAsPrimals two_intervals_mapper).2 = 1%Z /\
  init two_intervals_bases two_intervals two_intervals_fixed
       (cornersAsPrimals two_intervals_mapper).2
  = (Ok tt, two_intervals_mapper) /\
  (init two_intervals_bases two_intervals two_intervals_fixed
        (cornersAsPrimals two_intervals_mapper).2).1
  <> Err SequencingError.
Proof. repeat split; by_evaluation. Qed.

(** The guards on the two intervals: nothing runs on the object that
    [init] has not seen, and no one-shot phase runs twice, whatever is
    called in between. *)
Lemma C5_sequencing_witness :
  has_flag (m_status (new_mapper (T:=Z))) 1 = false /\
  run_phase uniform_average (ComputeJumpMatrices false false) new_mapper
  = (Err SequencingError, new_mapper) /\
  (let s' := (cornersAsPrimals two_intervals_mapper).2 in
   let s'' := after (run_phase uniform_average)
                    [ComputeJumpMatrices true false; SkeletonDofs 0] s' in
   cornersAsPrimals two_intervals_mapper = (Ok tt, s') /\
   cornersAsPrimals s'' = (Err SequencingError, s'')) /\
  (let s' := (computeJumpMatrices false false two_intervals_mapper).2 in
   let s'' := after (run_phase uniform_average)
                    [Builder CornersAsPrimals] s' in
   computeJumpMatrices false false two_intervals_mapper = (Ok tt, s') /\
   computeJumpMatrices true true s'' = (Err SequencingError, s'')) /\
  (let s' := (interfaceAveragesAsPrimals uniform_average two_intervals_geo 1
                two_intervals_mapper).2 in
   let s'' := after (run_phase uniform_average)
                    [Builder CornersAsPrimals;
                     ComputeJumpMatrices false false] s' in
   interfaceAveragesAsPrimals uniform_average two_intervals_geo 1
     two_intervals_mapper = (Ok tt, s') /\
   interfaceAveragesAsPrimals uniform_average two_intervals_geo 1 s''
   = (Err SequencingError, s'')).
Proof.
  destruct (C5_sequencing uniform_average) as (Hinit & Hc & Hj & Hi).
  assert (H0 : has_flag (m_status (new_mapper (T:=Z))) 1 = false)
    by reflexivity.
  assert (H1 : cornersAsPrimals two_intervals_mapper
               = (Ok tt, (cornersAsPrimals two_intervals_mapper).2))
    by by_evaluation.
  assert (H2 : computeJumpMatrices false false two_intervals_mapper
               = (Ok tt, (computeJumpMatrices false false
                            two_intervals_mapper).2))
    by by_evaluation.
  assert (H3 : interfaceAveragesAsPrimals uniform_average two_intervals_geo 1
                 two_intervals_mapper
               = (Ok tt, (interfaceAveragesAsPrimals uniform_average
                            two_intervals_geo 1 two_intervals_mapper).2))
    by by_evaluation.
  split; [exact H0|].
  split; [exact (Hinit (ComputeJumpMatrices false false) new_mapper H0)|].
  split; [split; [exact H1 | exact (Hc _ _ _ H1)]|].
  split; [split; [exact H2 | exact (Hj _ _ true true _ _ _ H2)]|].
  split; [exact H3 | exact (Hi _ _ _ _ _ H3)].
Defined.

(** *** A shared dof is free on both of its patches *)

(** Two intervals without artificial dofs that share an end point: the
    global mapper has three free dofs, the local mappers have two each. *)
Lemma C7_shared_dof_counted_twice :
  init two_intervals_bases two_intervals two_intervals_fixed new_mapper
  = (Ok tt, two_intervals_mapper) /\
  (forall k, k < dm_numPatches two_intervals ->
             dm_patchSize two_intervals k = mb_size two_intervals_bases k) /\
  lm_freeSize <$> m_dofMapperLocal two_intervals_mapper = [2; 2] /\
  total_local_free two_intervals_mapper = 4 /\
  dm_freeSize two_intervals = 3 /\
  total_local_free two_intervals_mapper <> dm_freeSize two_intervals.
Proof.
  split; [by_evaluation|].
  split; [intros k Hk; simpl in Hk; each_below k; by_evaluation|].
  repeat split; by_evaluation.
Qed.

(** Two intervals that share nothing: the local free sizes add up to the
    free dofs of the global mapper. *)
Lemma C7_local_free_sizes_witness :
  let s' := (init two_apart_bases two_apart
                  {| mat_cols := 1; mat_data := [] |}
                  (new_mapper (T:=Z))).2 in
  (forall k lm, m_dofMapperLocal s' !! k = Some lm ->
                lm_freeSize lm <= dm_patchSize two_apart k) /\
  total_local_free s'
  = length (filter (locally_free two_apart) (all_dofs two_apart)) /\
  total_local_free s' = dm_freeSize two_apart.
Proof.
  intros s'.
  destruct (C7_local_free_sizes two_apart_bases two_apart
              {| mat_cols := 1; mat_data := [] |} new_mapper s')
    as (Hle & Hsum & Htotal).
  { by_evaluation. }
  split; [exact Hle|]. split; [exact Hsum|].
  apply Htotal.
  - intros k Hk. simpl in Hk. each_below k; by_evaluation.
  - intros ki Hki. each_element ki Hki; by_evaluation.
  - intros g Hg. simpl in Hg.
    each_below g;
      [ exists (0, 0) | exists (0, 1) | exists (1, 0) | exists (1, 1) ];
      (split; [apply list_elem_of_In; vm_compute; tauto | reflexivity]).
  - intros ki ki' Hki Hki' _ Heq.
    each_element ki Hki; each_element ki' Hki';
      first [reflexivity | exfalso; vm_compute in Heq; lia].
Defined.

(** *** Runs on the two intervals *)

(** The jump matrices of the two intervals in the minimal mode. *)
Lemma C2_jump_matrix_rows_witness :
  let s := two_intervals_mapper in
  let s' := (computeJumpMatrices false false s).2 in
  consistent s /\
  computeJumpMatrices false false s = (Ok tt, s') /\
  exists numLagrangeMult : Z,
    (forall k jm,
       m_jumpMatrices s' !! k = Some jm ->
       jm_rows jm = numLagrangeMult /\
       jm_cols jm = lm_freeSize (local_mapper (m_dofMapperGlobal s) k)) /\
    forall r, (0 <= r < numLagrangeMult)%Z ->
      exists k1 c1 k2 c2,
        (k1, c1) <> (k2, c2) /\
        jump_entry s' k1 r c1 = 1%Z /\
        jump_entry s' k2 r c2 = (-1)%Z /\
        forall k c, (k, c) <> (k1, c1) -> (k, c) <> (k2, c2) ->
                    jump_entry s' k r c = 0%Z.
Proof.
  intros s s'.
  assert (Hcons : consistent s) by show_consistent.
  assert (Hrun : computeJumpMatrices false false s = (Ok tt, s'))
    by by_evaluation.
  split; [exact Hcons|]. split; [exact Hrun|].
  destruct (C2_jump_matrix_rows false false s s') as (N & _ & Hshape & Hrows).
  - intros x. reflexivity.
  - reflexivity.
  - discriminate.
  - discriminate.
  - exact Hcons.
  - exact Hrun.
  - exists N. split; [exact Hshape|].
    intros r Hr.
    destruct (Hrows r Hr)
      as (k1 & c1 & k2 & c2 & Hne & _ & _ & _ & _ & H1 & H2 & H0 & _).
    exists k1, c1, k2, c2. split; [exact Hne|].
    split; [exact H1|]. split; [exact H2 | exact H0].
Defined.

(** The corners of the two intervals: the shared end point is the only
    corner that is free. *)
Lemma C3_corner_primals_witness :
  let s := two_intervals_mapper in
  let s' := (cornersAsPrimals s).2 in
  consistent s /\
  counter_fits (m_nPrimalDofs s)
    (corner_dofs (m_multiBasis s) (m_dofMapperGlobal s) (m_status s)) /\
  cornersAsPrimals s = (Ok tt, s') /\
  exists (corners : list dof_helper) (ids : list Z),
    corners ≡ₚ corner_tuples (m_multiBasis s) (m_dofMapperGlobal s)
                 (m_status s) /\
    length ids = length corners /\
    (forall z, z ∈ ids <-> (m_nPrimalDofs s <= z < m_nPrimalDofs s')%Z) /\
    forall p,
      m_primalConstraints s' !! p
      = (fun old => old ++ (unit_row (m_dofMapperGlobal s) <$>
                            filter (fun c => dh_patch c = p) corners))
        <$> m_primalConstraints s !! p.
Proof.
  intros s s'.
  assert (Hcons : consistent s) by show_consistent.
  assert (Hfits : counter_fits (m_nPrimalDofs s)
            (corner_dofs (m_multiBasis s) (m_dofMapperGlobal s) (m_status s)))
    by (split; by_evaluation).
  assert (Hrun : cornersAsPrimals s = (Ok tt, s')) by by_evaluation.
  split; [exact Hcons|]. split; [exact Hfits|]. split; [exact Hrun|].
  destruct (C3_corner_primals s s' Hcons Hfits Hrun)
    as (corners & ids & Hperm & _ & Hlen & _ & Hids & _ & Hreg).
  exists corners, ids.
  split; [exact Hperm|]. split; [exact Hlen|]. split; [exact Hids|].
  intros p. exact (proj1 (Hreg p)).
Defined.

(** The sides of the two strips: the averages of the shared side have
    the same signature and are one primal dof; the average of the side
    of patch 1 alone is ignored. *)
Lemma C4_interface_primals_witness :
  let s := two_strips_mapper in
  let s' := (interfaceAveragesAsPrimals side_average two_strips_geo 1 s).2 in
  counter_fits (m_nPrimalDofs s)
               (interface_dofs side_average two_strips_geo 1 s) /\
  interfaceAveragesAsPrimals side_average two_strips_geo 1 s = (Ok tt, s') /\
  m_nPrimalDofs s = 0%Z /\ m_nPrimalDofs s' = 1%Z /\
  exists passes : list (list (constr_helper Z) * list (option Z)),
    length passes = length (components_of two_strips_geo 1) /\
    (forall z, (exists pass, pass ∈ passes /\ Some z ∈ pass.2)
               <-> (m_nPrimalDofs s <= z < m_nPrimalDofs s')%Z) /\
    forall patch : nat,
      m_primalDofIndices s' !! patch
      = (fun old =>
           old ++ (snd <$> filter (fun it => it.1 = patch)
                     (passes ≫= fun pass => kept_ids pass.1 pass.2)))
          <$> m_primalDofIndices s !! patch.
Proof.
  intros s s'.
  assert (Hfits : counter_fits (m_nPrimalDofs s)
            (interface_dofs side_average two_strips_geo 1 s))
    by (split; by_evaluation).
  assert (Hrun : interfaceAveragesAsPrimals side_average two_strips_geo 1 s
                 = (Ok tt, s')) by by_evaluation.
  split; [exact Hfits|]. split; [exact Hrun|].
  split; [by_evaluation|]. split; [by_evaluation|].
  destruct (C4_interface_primals side_average two_strips_geo 1 s s'
              Hfits Hrun) as (passes & HF & _ & Hids & Hreg).
  exists passes. split; [symmetry; exact (Forall2_length _ _ _ HF)|].
  split; [exact Hids|]. intros patch. exact (proj2 (Hreg patch)).
Defined.

(** The round trip on the two intervals; the shared end point, global dof
    2, is written by patch 0 and then by patch 1. *)
Lemma C6_reconstruction_witness :
  let s := two_intervals_mapper in
  has_flag (m_status s) 1 = true /\
  consistent s /\
  constructGlobalSolutionFromLocalSolutions two_intervals_local s
  = (Ok two_intervals_global, s) /\
  writers (m_multiBasis s) (m_dofMapperGlobal s) 2 = [(0, 2); (1, 0)] /\
  mat_data two_intervals_global !! 2
  = match last (writers (m_multiBasis s) (m_dofMapperGlobal s) 2) with
    | Some ki => contrib_row (m_dofMapperGlobal s) two_intervals_local ki
    | None => Some (replicate (mat_cols two_intervals_global) 0%Z)
    end.
Proof.
  intros s.
  assert (Hflag : has_flag (m_status s) 1 = true) by by_evaluation.
  assert (Hcons : consistent s) by show_consistent.
  destruct (C6_reconstruction s two_intervals_local Hflag Hcons)
    as (Hlast & Hround).
  assert (Hrun : constructGlobalSolutionFromLocalSolutions
                   two_intervals_local s = (Ok two_intervals_global, s)).
  { apply Hround.
    - by_evaluation.
    - intros row Hrow. each_element row Hrow; by_evaluation.
    - by_evaluation.
    - eexists. split; by_evaluation.
    - intros ki Hki Hcopied.
      each_element ki Hki;
        first [ discriminate Hcopied | split; by_evaluation ].
    - intros g Hg. simpl in Hg.
      each_below g; [ exists (0, 1) | exists (1, 1) | exists (0, 2) ];
        (split; [apply list_elem_of_In; vm_compute; tauto|];
         split; reflexivity). }
  split; [exact Hflag|]. split; [exact Hcons|]. split; [exact Hrun|].
  split; [by_evaluation|].
  destruct (Hlast _ _ Hrun) as (_ & _ & Hrows).
  apply Hrows. by_evaluation.
Defined.

(** Two inputs that differ in the row of the artificial dof of patch 0
    only. *)
Lemma C10_artificial_rows_not_read_witness :
  let s := with_artificial_mapper in
  consistent s /\
  artificial_local_1 <> artificial_local_2 /\
  constructGlobalSolutionFromLocalSolutions artificial_local_1 s
  = constructGlobalSolutionFromLocalSolutions artificial_local_2 s /\
  local_index (m_dofMapperGlobal s) 0 0
  <> local_index (m_dofMapperGlobal s) 0 2 /\
  local_index (m_dofMapperGlobal s) 0 1
  <> local_index (m_dofMapperGlobal s) 0 2.
Proof.
  intros s.
  assert (Hcons : consistent s) by show_consistent.
  destruct (C10_artificial_rows_not_read s artificial_local_1
              artificial_local_2 Hcons) as (Hsame & Hrows).
  - reflexivity.
  - reflexivity.
  - intros ki Hki Hcopied.
    each_element ki Hki; first [discriminate Hcopied | reflexivity].
  - split; [exact Hcons|]. split; [discriminate|]. split; [exact Hsame|].
    split; apply Hrows; by_evaluation.
Defined.

(** ** More on [init] *)

(** A loop over [a, a+1, ..]: the invariant is stated of the next index. *)
Lemma foldM_seq_invariant {S} (I : nat -> S -> Prop)
    (f : S -> nat -> result S) (n : nat) :
  forall a s s',
    (forall j st st', a <= j < a + n ->
                      I j st -> f st j = Ok st' -> I (Datatypes.S j) st') ->
    I a s -> foldM f (seq a n) s = Ok s' -> I (a + n) s'.
Proof.
  induction n as [|n IH]; intros a s s' Hstep HI Hrun.
  - simpl in Hrun. injection Hrun as <-. by rewrite Nat.add_0_r.
  - simpl in Hrun. destruct (f s a) as [s1|e] eqn:E; [|discriminate].
    replace (a + Datatypes.S n) with (Datatypes.S a + n) by lia.
    apply (IH (Datatypes.S a) s1 s'); [|apply (Hstep a s); [lia|done..]|done].
    intros j st st' Hj. apply Hstep. lia.
Qed.

Lemma amap_find_insert {V} (k k' : nat) (v : V) (m : list (nat * V)) :
  amap_find k' (amap_insert k v m)
  = if decide (k' = k) then Some v else amap_find k' m.
Proof.
  induction m as [|[k0 v0] m IH]; simpl.
  - destruct (decide (k' = k)) as [->|Hne].
    + by rewrite Nat.eqb_refl.
    + destruct (k =? k') eqn:E; [apply Nat.eqb_eq in E; congruence|done].
  - destruct (k <? k0) eqn:Hlt; simpl.
    + destruct (decide (k' = k)) as [->|Hne].
      * by rewrite Nat.eqb_refl.
      * destruct (k =? k') eqn:E; [apply Nat.eqb_eq in E; congruence|done].
    + destruct (k =? k0) eqn:Heq; simpl.
      * apply Nat.eqb_eq in Heq as <-.
        destruct (decide (k' = k)) as [->|Hne].
        -- by rewrite Nat.eqb_refl.
        -- destruct (k =? k') eqn:E; [apply Nat.eqb_eq in E; congruence|done].
      * destruct (k0 =? k') eqn:E0.
        -- apply Nat.eqb_eq in E0 as <-. apply Nat.eqb_neq in Heq.
           by rewrite decide_False by congruence.
        -- exact IH.
Qed.

Lemma forM_preserves_in {St A} (J : St -> Prop) (body : A -> M St unit)
    (l : list A) :
  (forall x s s', x ∈ l -> J s -> body x s = (Ok tt, s') -> J s') ->
  forall s s', J s -> forM_ l body s = (Ok tt, s') -> J s'.
Proof.
  induction l as [|x l IH]; intros Hbody s s' HJ Hrun.
  - simpl in Hrun. by injection Hrun as <-.
  - simpl in Hrun. apply bind_Ok in Hrun as ([] & s1 & Hx & Hrest).
    apply (IH (fun y t t' Hy => Hbody y t t' (list_elem_of_further _ _ _ Hy))
              s1 s'); [|done].
    apply (Hbody x s s1); [left|done..].
Qed.

Lemma forM_invariant_in {St A} (I : list A -> St -> Prop)
    (body : A -> M St unit) (l : list A) :
  (forall pre x s s',
     x ∈ l -> I pre s -> body x s = (Ok tt, s') -> I (pre ++ [x]) s') ->
  forall pre s s',
    I pre s -> forM_ l body s = (Ok tt, s') -> I (pre ++ l) s'.
Proof.
  induction l as [|x l IH]; intros Hbody pre s s' HI Hrun.
  - simpl in Hrun. injection Hrun as <-. by rewrite app_nil_r.
  - simpl in Hrun. apply bind_Ok in Hrun as ([] & s1 & Hx & Hrest).
    replace (pre ++ x :: l) with ((pre ++ [x]) ++ l)
      by (rewrite <- app_assoc; reflexivity).
    apply (IH (fun pre' y t t' Hy =>
                 Hbody pre' y t t' (list_elem_of_further _ _ _ Hy))
              (pre ++ [x]) s1 s'); [|done].
    apply (Hbody pre x s s1); [left|done..].
Qed.

Section Matrices.
Context `{Scalar T}.

(** Writing one coefficient of a dense matrix and reading it back. *)
Lemma mat_set_coeff_Ok (m m' : Matrix T) i j x :
  mat_set_coeff m i j x = Ok m' ->
  mat_cols m' = mat_cols m /\
  length (mat_data m') = length (mat_data m) /\
  mat_coeff m' i j = Ok x /\
  forall i' j', (i', j') <> (i, j) -> mat_coeff m' i' j' = mat_coeff m i' j'.
Proof.
  unfold mat_set_coeff, mat_coeff. intros Hrun.
  destruct (get (mat_data m) i) as [row|e] eqn:Hrow; [|discriminate].
  rewrite rbind_ret in Hrun.
  destruct (put row j x) as [row'|e] eqn:Hput; [|discriminate].
  rewrite rbind_ret in Hrun.
  destruct (put (mat_data m) i row') as [data|e] eqn:Hdata; [|discriminate].
  rewrite rbind_ret in Hrun. injection Hrun as <-. simpl.
  apply get_Ok in Hrow. apply put_Ok in Hput as [Hj ->].
  apply put_Ok in Hdata as [Hi ->].
  split; [done|]. split; [by rewrite length_insert|]. split.
  - unfold get. rewrite list_lookup_insert_eq by done. rewrite rbind_ret.
    by rewrite list_lookup_insert_eq.
  - intros i' j' Hne. unfold get.
    destruct (decide (i' = i)) as [->|Hi'].
    + rewrite list_lookup_insert_eq by done. rewrite Hrow, !rbind_ret.
      rewrite list_lookup_insert_ne by congruence. done.
    + by rewrite list_lookup_insert_ne.
Qed.
End Matrices.

Section InitMore.
Context `{Scalar T}.
Implicit Types s : gsIetiMapper T.

(** The local boundary index of an eliminated dof. *)
Lemma local_mapper_bindex dm k i :
  i < dm_patchSize dm k ->
  dm_is_boundary_index dm (dm_index dm i k) = true ->
  lm_bindex (local_mapper dm k) i
  = Ok (local_index dm k i - lm_freeSize (local_mapper dm k)) /\
  lm_freeSize (local_mapper dm k) <= local_index dm k i.
Proof.
  intros Hi Hb. destruct (local_mapper_index dm k i Hi) as [Hidx Hfree].
  unfold lm_bindex. rewrite Hidx, rbind_ret. split; [done|].
  rewrite Hb in Hfree. apply Nat.ltb_ge in Hfree. exact Hfree.
Qed.

(** Lines 87-101: the fixed part of a patch holds, for every eliminated
    dof, the value that the given global vector has for it. *)
Lemma init_fixedPart_Ok dm (fp fpk : Matrix T) k :
  init_fixedPart dm (local_mapper dm k) fp k = Ok fpk ->
  mat_cols fpk = 1 /\
  length (mat_data fpk) = lm_boundarySize (local_mapper dm k) /\
  forall i, i < dm_patchSize dm k ->
    dm_is_boundary_index dm (dm_index dm i k) = true ->
    exists x,
      mat_coeff fp (dm_bindex dm i k) 0 = Ok x /\
      mat_coeff fpk (local_index dm k i - lm_freeSize (local_mapper dm k)) 0
      = Ok x.
Proof.
  unfold init_fixedPart. intros Hrun.
  set (lm := local_mapper dm k) in *.
  pose (I := fun (n : nat) (m : Matrix T) =>
    mat_cols m = 1 /\
    length (mat_data m) = lm_boundarySize lm /\
    forall i, i < n ->
      dm_is_boundary_index dm (dm_index dm i k) = true ->
      exists x,
        mat_coeff fp (dm_bindex dm i k) 0 = Ok x /\
        mat_coeff m (local_index dm k i - lm_freeSize lm) 0 = Ok x).
  assert (HI : I (0 + dm_patchSize dm k) fpk).
  { eapply (foldM_seq_invariant I); [| |exact Hrun].
    - intros j m m' Hj (Hc & Hl & Hrows) Hstep. cbv beta in Hstep.
      destruct (dm_is_boundary_index dm (dm_index dm j k)) eqn:Hb.
      + destruct (local_mapper_bindex dm k j) as [Hbi Hge]; [lia|done|].
        fold lm in Hbi, Hge. rewrite Hbi, rbind_ret in Hstep.
        destruct (mat_coeff fp (dm_bindex dm j k) 0) as [x|e] eqn:Hx;
          [|discriminate].
        rewrite rbind_ret in Hstep.
        apply mat_set_coeff_Ok in Hstep as (Hc' & Hl' & Hset & Hother).
        split; [congruence|]. split; [congruence|].
        intros i Hi Hbi'. destruct (decide (i = j)) as [->|Hne].
        * exists x. done.
        * destruct (Hrows i) as (y & Hy & Hm); [lia|done|].
          exists y. split; [done|]. rewrite Hother; [done|].
          intros Heq. apply (f_equal fst) in Heq. cbn [fst] in Heq.
          destruct (local_mapper_bindex dm k i) as [_ Hge']; [lia|done|].
          fold lm in Hge'. apply Hne.
          apply (local_index_inj dm k); lia.
      + injection Hstep as <-. split; [done|]. split; [done|].
        intros i Hi Hbi'. destruct (decide (i = j)) as [->|Hne];
          [congruence|]. apply Hrows; [lia|done].
    - split; [done|]. split; [apply length_replicate|]. intros i Hi. lia. }
  destruct HI as (Hc & Hl & Hrows). auto.
Qed.

Lemma has_artificial_snoc mb dm pre k :
  has_artificial mb dm (pre ++ [k])
  = has_artificial mb dm pre || (mb_size mb k <? dm_patchSize dm k).
Proof.
  unfold has_artificial. rewrite existsb_app. simpl. by rewrite orb_false_r.
Qed.

(** The object that [init] leaves: what lines 56-68 reset, the status, and
    the fixed parts. *)
Lemma init_state mb dm fp s s' :
  init mb dm fp s = (Ok tt, s') ->
  let nP := dm_numPatches dm in
  m_jumpMatrices s' = [] /\
  m_primalConstraints s' = replicate nP [] /\
  m_primalDofIndices s' = replicate nP [] /\
  m_status s' = (if has_artificial mb dm (seq 0 nP) then 3 else 1)%Z /\
  length (m_fixedPart s') = nP /\
  (forall k, k < nP ->
     exists fpk, m_fixedPart s' !! k = Some fpk /\
                 init_fixedPart dm (local_mapper dm k) fp k = Ok fpk) /\
  (has_artificial mb dm (seq 0 nP) = false ->
   m_artificialDofInfo s' = m_artificialDofInfo s).
Proof.
  intros Hrun nP. unfold init in Hrun. run_steps Hrun.
  apply bind_Ok in Hrun as ([] & s1 & Hloop & Hrest). fold nP in Hloop.
  pose (I := fun (pre : list nat) (st : gsIetiMapper T) =>
    length (m_dofMapperLocal st) = nP /\
    m_jumpMatrices st = [] /\
    m_primalConstraints st = replicate nP [] /\
    m_primalDofIndices st = replicate nP [] /\
    m_status st = (if has_artificial mb dm pre then 3 else 1)%Z /\
    length (m_fixedPart st) = nP /\
    (forall k, k ∈ pre ->
       exists fpk, m_fixedPart st !! k = Some fpk /\
                   init_fixedPart dm (local_mapper dm k) fp k = Ok fpk) /\
    m_artificialDofInfo st = m_artificialDofInfo s).
  assert (HI : I (seq 0 nP) s1).
  { change (seq 0 nP) with ([] ++ seq 0 nP).
    eapply (forM_invariant I); [|idtac|exact Hloop].
    - clear. intros pre k st st' HI Hbody.
      destruct HI as (Hlen & Hjm & Hpc & Hpd & Hst & Hfl & Hfp & Hart).
      cbv beta in Hbody. run_steps Hbody.
      set (b := mb_size mb k <? dm_patchSize dm k) in *.
      assert (exists st0,
        st0 = set_status (if b then Z.lor (m_status st) 2 else m_status st) st
        /\ (m_put m_dofMapperLocal set_dofMapperLocal k (local_mapper dm k)
         ≫= (fun _ =>
           m_get m_dofMapperLocal k ≫= (fun lm =>
             lift (init_fixedPart dm lm fp k) ≫= (fun fp0 =>
               m_put m_fixedPart set_fixedPart k fp0)))) st0 = (Ok tt, st'))
        as (st0 & -> & Hrun0).
      { destruct b.
        - rewrite bind_modify in Hbody. eauto.
        - rewrite bind_ret in Hbody. destruct st. eauto. }
      clear Hbody.
      apply bind_Ok in Hrun0 as ([] & st1 & Hput & Hrun0).
      apply m_put_Ok in Hput as [Hk ->].
      apply bind_Ok in Hrun0 as (lm & st2 & Hget & Hrun0).
      apply m_get_Ok in Hget as [Hlm ->].
      simpl in Hlm, Hk. rewrite list_lookup_insert_eq in Hlm by done.
      injection Hlm as <-.
      run_steps Hrun0. apply m_put_Ok in Hrun0 as [Hk' ->].
      simpl in Hk'.
      split; [simpl; by rewrite length_insert|].
      split; [done|]. split; [done|]. split; [done|]. split.
      { simpl. rewrite has_artificial_snoc, Hst. fold b.
        by destruct (has_artificial mb dm pre), b. }
      split; [simpl; by rewrite length_insert|]. split; [|done].
      simpl. intros k' [Hk0| ->%list_elem_of_singleton]%elem_of_app.
      + destruct (decide (k' = k)) as [->|Hne].
        * exists a. split; [by apply list_lookup_insert_eq|done].
        * rewrite list_lookup_insert_ne by done. auto.
      + exists a. split; [by apply list_lookup_insert_eq|done].
    - unfold I, resize; simpl.
      rewrite !take_nil, !app_nil_l, !length_replicate, !Nat.sub_0_r.
      repeat split; try done.
      intros k Hk; by apply elem_of_nil in Hk. }
  assert (Hcore : core_kept s1 s' /\
                  (has_flag (m_status s1) 2 = false -> s' = s1)).
  { rewrite bind_gets in Hrest.
    destruct (has_flag (m_status s1) 2).
    - rewrite bind_gets in Hrest.
      destruct (init_owners mb dm (m_dofMapperLocal s1)) as [dofs|e];
        [rewrite bind_lift_Ok in Hrest
        |rewrite bind_lift_Err in Hrest; discriminate].
      pose proof (init_artificial_core mb dm dofs s1) as Hc.
      rewrite Hrest in Hc. split; [exact Hc | discriminate].
    - injection Hrest as <-. repeat split. }
  destruct HI as (Hlen & Hjm & Hpc & Hpd & Hst & Hfl & Hfp & Hart).
  destruct Hcore as ((C1 & C2 & C3 & C4 & C5 & C6 & C7 & C8 & C9) & Hsame).
  rewrite C5, C6, C7, C9, C4.
  split; [done|]. split; [done|]. split; [done|]. split; [done|].
  split; [done|]. split.
  - intros k Hk. apply Hfp, elem_of_seq. lia.
  - intros Hno. rewrite Hsame; [done|]. rewrite Hst, Hno. reflexivity.
Qed.

(** [init] reads of the object it is called on nothing but the table of
    artificial dofs, which it does not clear. *)
Lemma init_reads_artificial_only mb dm fp s1 s2 :
  m_artificialDofInfo s1 = m_artificialDofInfo s2 ->
  (init mb dm fp s1).1 = (init mb dm fp s2).1 /\
  ((init mb dm fp s1).1 = Ok tt -> (init mb dm fp s1).2 = (init mb dm fp s2).2).
Proof.
  intros Hart. unfold init.
  destruct (dm_componentsSize dm =? 1);
    [rewrite !bind_assert_true | rewrite !bind_assert_false; split; [done|discriminate]].
  destruct (dm_numPatches dm =? mb_nBases mb);
    [rewrite !bind_assert_true | rewrite !bind_assert_false; split; [done|discriminate]].
  cbv zeta. rewrite !bind_modify, Hart. done.
Qed.

(** X1. [init] checks its arguments before it touches the object: a
    global mapper with more than one component, or with another number of
    patches than the bases, is refused with a configuration error and the
    object is left as it was.  And [init] completes only when no patch has
    fewer dofs in the mapper than its basis has functions. *)
Theorem X1_init_refuses mb dm fp s :
  (dm_componentsSize dm <> 1 ->
   init mb dm fp s = (Err ConfigurationError, s)) /\
  (dm_numPatches dm <> mb_nBases mb ->
   init mb dm fp s = (Err ConfigurationError, s)) /\
  (forall s', init mb dm fp s = (Ok tt, s') ->
     dm_componentsSize dm = 1 /\ dm_numPatches dm = mb_nBases mb /\
     forall k, k < dm_numPatches dm -> mb_size mb k <= dm_patchSize dm k).
Proof.
  split; [|split].
  - intros Hc. unfold init. apply Nat.eqb_neq in Hc.
    by rewrite Hc, bind_assert_false.
  - intros Hn. unfold init. apply Nat.eqb_neq in Hn.
    destruct (dm_componentsSize dm =? 1);
      [rewrite bind_assert_true | by rewrite bind_assert_false].
    by rewrite Hn, bind_assert_false.
  - intros s' Hrun.
    destruct (init_Ok _ _ _ _ _ Hrun)
      as (Emb & Edm & (_ & _ & _ & Hsz) & _ & _ & Hc & Hn).
    split; [done|]. split; [done|].
    intros k Hk. rewrite Edm, Emb in Hsz. auto.
Qed.

(** X2. A completed [init] leaves a fresh object, whatever the object held
    before: the given bases and mapper, the local mappers built from the
    mapper, no jump matrices, no primal dofs, an empty list of primal
    constraints for every patch, and the status 1, or 3 when some patch
    has artificial dofs.  Only the table of artificial dofs is not reset:
    without artificial dofs it stays as it was, and the outcome of [init]
    depends on the old object through that table alone. *)
Theorem X2_init_fresh_object mb dm fp s s' :
  init mb dm fp s = (Ok tt, s') ->
  let nP := dm_numPatches dm in
  m_multiBasis s' = mb /\
  m_dofMapperGlobal s' = dm /\
  m_dofMapperLocal s' = local_mapper dm <$> seq 0 nP /\
  m_jumpMatrices s' = [] /\
  m_nPrimalDofs s' = 0%Z /\
  m_primalConstraints s' = replicate nP [] /\
  m_primalDofIndices s' = replicate nP [] /\
  m_status s' = (if has_artificial mb dm (seq 0 nP) then 3 else 1)%Z /\
  (has_artificial mb dm (seq 0 nP) = false ->
   m_artificialDofInfo s' = m_artificialDofInfo s) /\
  (forall s0, m_artificialDofInfo s0 = m_artificialDofInfo s ->
              init mb dm fp s0 = (Ok tt, s')).
Proof.
  intros Hrun nP.
  destruct (init_Ok _ _ _ _ _ Hrun)
    as (Emb & Edm & (Hloc & _) & _ & Hn & _).
  destruct (init_state _ _ _ _ _ Hrun)
    as (Hjm & Hpc & Hpd & Hst & _ & _ & Hart).
  rewrite Edm in Hloc.
  repeat (split; [done|]).
  intros s0 Hs0.
  destruct (init_reads_artificial_only mb dm fp s0 s Hs0) as [H1 H2].
  rewrite Hrun in H1, H2. simpl in H1, H2.
  destruct (init mb dm fp s0) as [r0 s0']. simpl in *.
  rewrite H1, (H2 H1). done.
Qed.

(** X3. After [init], the fixed part of every patch is a column with one
    row for every eliminated dof of the local mapper, and the row of an
    eliminated dof holds the value that the given global vector of fixed
    values has at the global boundary index of that dof. *)
Theorem X3_init_fixed_part mb dm fp s s' :
  init mb dm fp s = (Ok tt, s') ->
  length (m_fixedPart s') = dm_numPatches dm /\
  forall k, k < dm_numPatches dm ->
    exists lm fpk,
      m_dofMapperLocal s' !! k = Some lm /\
      m_fixedPart s' !! k = Some fpk /\
      mat_cols fpk = 1 /\
      length (mat_data fpk) = lm_boundarySize lm /\
      forall i, i < dm_patchSize dm k ->
        dm_is_boundary_index dm (dm_index dm i k) = true ->
        exists b x,
          lm_bindex lm i = Ok b /\
          mat_coeff fp (dm_bindex dm i k) 0 = Ok x /\
          mat_coeff fpk b 0 = Ok x.
Proof.
  intros Hrun.
  destruct (init_Ok _ _ _ _ _ Hrun) as (_ & Edm & Hcons & _).
  destruct (init_state _ _ _ _ _ Hrun) as (_ & _ & _ & _ & Hlen & Hfp & _).
  split; [done|]. intros k Hk.
  destruct (Hfp k Hk) as (fpk & Hfpk & Hinit).
  exists (local_mapper dm k), fpk.
  split; [rewrite <- Edm; apply consistent_local; [done|by rewrite Edm]|].
  split; [done|].
  destruct (init_fixedPart_Ok _ _ _ _ Hinit) as (Hc & Hl & Hrows).
  split; [done|]. split; [done|].
  intros i Hi Hb. destruct (Hrows i Hi Hb) as (x & Hx & Hm).
  destruct (local_mapper_bindex dm k i Hi Hb) as [Hbi _].
  eauto.
Qed.

(** *** The table of artificial dofs *)

(** Lines 107-125: an owner that is recorded is a basis function with
    that global index. *)
Lemma init_owners_Ok mb dm dofs :
  (forall k, k < dm_numPatches dm -> mb_size mb k <= dm_patchSize dm k) ->
  init_owners mb dm (local_mapper dm <$> seq 0 (dm_numPatches dm)) = Ok dofs ->
  forall g d, dofs !! g = Some d -> d.2 <> 0 ->
    d.1 < dm_numPatches dm /\
    exists i0, i0 < mb_size mb d.1 /\ dm_index dm i0 d.1 = g /\
               d.2 = S (local_index dm d.1 i0).
Proof.
  intros Hsz Hrun. unfold init_owners in Hrun.
  rewrite (foldM_nested
    (fun dofs ki =>
       let globalIndex := dm_index dm ki.2 ki.1 in
       if dm_is_free_index dm globalIndex then
         d ← get dofs globalIndex;
         check (d.1 =? 0) InternalInvariantViolation;;
         lm ← get (local_mapper dm <$> seq 0 (dm_numPatches dm)) ki.1;
         li ← lm_index lm ki.2;
         put dofs globalIndex (ki.1, li + 1)
       else mret dofs)) in Hrun.
  fold (basis_dofs mb dm) in Hrun.
  pose (J := fun dofs : list (nat * nat) =>
    forall g d, dofs !! g = Some d -> d.2 <> 0 ->
      d.1 < dm_numPatches dm /\
      exists i0, i0 < mb_size mb d.1 /\ dm_index dm i0 d.1 = g /\
                 d.2 = S (local_index dm d.1 i0)).
  refine (foldM_invariant_in (fun _ => J) _ _ _ _ _ _ Hrun).
  - intros pre [k i] ds ds' Hin HJ Hstep. cbv beta zeta in Hstep. simpl in Hstep.
    apply elem_of_basis_dofs in Hin as [Hk Hi]. simpl in Hk, Hi.
    destruct (dm_is_free_index dm (dm_index dm i k)); [|by injection Hstep as <-].
    destruct (get ds (dm_index dm i k)) as [d0|e]; [|discriminate].
    rewrite rbind_ret in Hstep.
    destruct (check (d0.1 =? 0) InternalInvariantViolation); [|discriminate].
    rewrite rbind_ret in Hstep.
    assert (Hget : get (local_mapper dm <$> seq 0 (dm_numPatches dm)) k
                   = Ok (local_mapper dm k)).
    { apply get_Ok. by rewrite list_lookup_fmap, lookup_seq_lt. }
    rewrite Hget, rbind_ret in Hstep.
    destruct (local_mapper_index dm k i) as [Hidx _]; [specialize (Hsz k Hk); lia|].
    rewrite Hidx, rbind_ret in Hstep.
    apply put_Ok in Hstep as [Hg ->].
    intros g d Hd Hd2.
    destruct (decide (g = dm_index dm i k)) as [->|Hne].
    + rewrite list_lookup_insert_eq in Hd by done. injection Hd as <-.
      simpl. split; [done|]. exists i. split; [done|]. split; [done|]. lia.
    + rewrite list_lookup_insert_ne in Hd by done. by apply HJ.
  - intros g d Hd Hd2. apply lookup_replicate in Hd as [-> _]. done.
Qed.

(** Lines 127-146 keep the tables sound. *)
Lemma init_artificial_sound mb dm dofs s s' :
  m_dofMapperLocal s = local_mapper dm <$> seq 0 (dm_numPatches dm) ->
  (forall g d, dofs !! g = Some d -> d.2 <> 0 ->
     d.1 < dm_numPatches dm /\
     exists i0, i0 < mb_size mb d.1 /\ dm_index dm i0 d.1 = g /\
                d.2 = S (local_index dm d.1 i0)) ->
  artificial_sound mb dm
    (resize (dm_numPatches dm) [] (m_artificialDofInfo s)) ->
  init_artificial mb dm dofs s = (Ok tt, s') ->
  artificial_sound mb dm (m_artificialDofInfo s').
Proof.
  intros Hloc Hown Hsound Hrun. unfold init_artificial in Hrun.
  rewrite bind_modify in Hrun.
  pose (J := fun st : gsIetiMapper T =>
    m_dofMapperLocal st = local_mapper dm <$> seq 0 (dm_numPatches dm) /\
    artificial_sound mb dm (m_artificialDofInfo st)).
  cut (J s'); [by intros [_ ?]|].
  refine (forM_preserves_in J _ _ _ _ _ _ Hrun); [|by split].
  clear s s' Hloc Hsound Hrun.
  intros k s s' Hk HJ Hrun. cbv zeta in Hrun.
  apply elem_of_seq in Hk as [_ Hk]. simpl in Hk.
  refine (forM_preserves_in J _ _ _ _ _ HJ Hrun).
  clear s s' HJ Hrun.
  intros i s s' Hi [Hloc Hsound] Hrun. cbv beta zeta in Hrun.
  apply elem_of_seq in Hi.
  destruct (dm_is_free_index dm (dm_index dm i k)) eqn:Hfree;
    [|by injection Hrun as <-].
  run_steps Hrun. rename a into d.
  apply get_Ok in Hlift.
  apply bind_Ok in Hrun as (info & s1 & Hinfo & Hrun).
  apply m_get_Ok in Hinfo as [Hinfo ->].
  apply bind_Ok in Hrun as (lmO & s1 & HlmO & Hrun).
  apply m_get_Ok in HlmO as [HlmO ->].
  run_steps Hrun. apply put_Ok in Hlift0 as [Hidx ->].
  apply m_put_Ok in Hrun as [Hp ->].
  assert (Hd2 : d.2 <> 0) by (apply Z.leb_le in Hassert; lia).
  destruct (Hown _ _ Hlift Hd2) as (Hp' & i0 & Hi0 & Hg & Hli).
  rewrite Hloc, list_lookup_fmap, lookup_seq_lt in HlmO by done.
  injection HlmO as <-.
  split; [done|]. simpl.
  intros p info' k' which Hinfo' Hfind.
  destruct (decide (p = d.1)) as [->|Hne];
    [|rewrite list_lookup_insert_ne in Hinfo' by done; eauto].
  rewrite list_lookup_insert_eq in Hinfo' by done. injection Hinfo' as <-.
  rewrite amap_find_insert in Hfind.
  destruct (decide (k' = k)) as [->|Hne]; [|eauto].
  injection Hfind as <-.
  set (which := default [] (amap_find k info)) in *.
  assert (Hwhich : length which = 0 \/
            (length which = lm_freeSize (local_mapper dm d.1) /\
             forall j i1, which !! j = Some (S i1) ->
                          artificial_copy mb dm d.1 k j i1)).
  { subst which. destruct (amap_find k info) as [w|] eqn:Hw; [|by left].
    right. exact (Hsound _ _ _ _ Hinfo Hw). }
  set (which1 := if length which =? 0
                 then replicate (lm_freeSize (local_mapper dm d.1)) 0
                 else which) in *.
  assert (Hwhich1 : length which1 = lm_freeSize (local_mapper dm d.1) /\
             forall j i1, which1 !! j = Some (S i1) ->
                          artificial_copy mb dm d.1 k j i1).
  { subst which1. destruct (length which =? 0) eqn:E.
    - split; [apply length_replicate|].
      intros j i1 [? _]%lookup_replicate. done.
    - apply Nat.eqb_neq in E. destruct Hwhich as [?|?]; [done|done]. }
  destruct Hwhich1 as [Hlen1 Hent1].
  split; [by rewrite length_insert|].
  intros j i1 Hj. destruct (decide (j = d.2 - 1)) as [->|Hne].
  - rewrite list_lookup_insert_eq in Hj by done.
    assert (i1 = i) as -> by (injection Hj; lia).
    split; [done|]. split; [done|]. split; [lia|]. split; [done|].
    exists i0. split; [done|]. split; [done|]. lia.
  - rewrite list_lookup_insert_ne in Hj by done. auto.
Qed.

(** One step of lines 127-146 keeps the tables sound, keeps what is
    recorded, and records the dof it handles. *)
Lemma init_artificial_step mb dm dofs k i s s' :
  (forall k, k < dm_numPatches dm -> mb_size mb k <= dm_patchSize dm k) ->
  (forall g d, dofs !! g = Some d -> d.2 <> 0 ->
     d.1 < dm_numPatches dm /\
     exists i0, i0 < mb_size mb d.1 /\ dm_index dm i0 d.1 = g /\
                d.2 = S (local_index dm d.1 i0)) ->
  k < dm_numPatches dm -> mb_size mb k <= i < dm_patchSize dm k ->
  m_dofMapperLocal s = local_mapper dm <$> seq 0 (dm_numPatches dm) ->
  artificial_sound mb dm (m_artificialDofInfo s) ->
  (let globalIndex := dm_index dm i k in
   if dm_is_free_index dm globalIndex then
     d ← lift (get dofs globalIndex);
     let otherPatch := d.1 in
     assert_ (0 <=? Z.of_nat d.2 - 1)%Z InternalInvariantViolation;;
     let indexOnOtherPatch := d.2 - 1 in
     info ← m_get m_artificialDofInfo otherPatch;
     lmO ← m_get m_dofMapperLocal otherPatch;
     let which := default [] (amap_find k info) in
     let which1 :=
       if length which =? 0 then replicate (lm_freeSize lmO) 0 else which in
     which2 ← lift (put which1 indexOnOtherPatch (i + 1));
     m_put m_artificialDofInfo set_artificialDofInfo otherPatch
           (amap_insert k which2 info)
   else mret tt) s = (Ok tt, s') ->
  m_dofMapperLocal s' = m_dofMapperLocal s /\
  artificial_sound mb dm (m_artificialDofInfo s') /\
  (forall k' g, recorded dm (m_artificialDofInfo s) k' g ->
                recorded dm (m_artificialDofInfo s') k' g) /\
  (dm_is_free_index dm (dm_index dm i k) = true ->
   recorded dm (m_artificialDofInfo s') k (dm_index dm i k)).
Proof.
  intros Hsz Hown Hk Hi Hloc Hsound Hrun. cbv zeta in Hrun.
  destruct (dm_is_free_index dm (dm_index dm i k)) eqn:Hfree; cycle 1.
  { injection Hrun as <-. split; [done|]. split; [done|]. split; done. }
  run_steps Hrun. rename a into d.
  apply get_Ok in Hlift.
  apply bind_Ok in Hrun as (info & s1 & Hinfo & Hrun).
  apply m_get_Ok in Hinfo as [Hinfo ->].
  apply bind_Ok in Hrun as (lmO & s1 & HlmO & Hrun).
  apply m_get_Ok in HlmO as [HlmO ->].
  run_steps Hrun. apply put_Ok in Hlift0 as [Hidx ->].
  apply m_put_Ok in Hrun as [Hp ->].
  assert (Hd2 : d.2 <> 0) by (apply Z.leb_le in Hassert; lia).
  destruct (Hown _ _ Hlift Hd2) as (Hp' & i0 & Hi0 & Hg & Hli).
  rewrite Hloc, list_lookup_fmap, lookup_seq_lt in HlmO by done.
  injection HlmO as <-.
  set (which := default [] (amap_find k info)) in *.
  set (which1 := if length which =? 0
                 then replicate (lm_freeSize (local_mapper dm d.1)) 0
                 else which) in *.
  assert (Hwhich1 : length which1 = lm_freeSize (local_mapper dm d.1) /\
             (forall j i1, which1 !! j = Some (S i1) ->
                           artificial_copy mb dm d.1 k j i1) /\
             (forall w, amap_find k info = Some w ->
                forall j i1, w !! j = Some (S i1) ->
                             which1 !! j = Some (S i1))).
  { subst which1 which.
    destruct (amap_find k info) as [w|] eqn:Hw; simpl.
    - destruct (Hsound _ _ _ _ Hinfo Hw) as [Hlw Hew].
      destruct (length w =? 0) eqn:E.
      + apply Nat.eqb_eq in E. split; [apply length_replicate|]. split.
        * intros j i1 [? _]%lookup_replicate. done.
        * intros ? [= <-] j i1 Hj. apply lookup_lt_Some in Hj. lia.
      + split; [done|]. split; [done|]. by intros ? [= <-].
    - split; [apply length_replicate|]. split.
      + intros j i1 [? _]%lookup_replicate. done.
      + done. }
  destruct Hwhich1 as (Hlen1 & Hent1 & Hkeep).
  assert (Hnew : artificial_copy mb dm d.1 k (d.2 - 1) i).
  { split; [done|]. split; [done|]. split; [lia|]. split; [done|].
    exists i0. split; [done|]. split; [done|]. lia. }
  split; [done|]. simpl. split; [|split].
  - intros p info' k' w Hinfo' Hfind.
    destruct (decide (p = d.1)) as [->|Hne];
      [|rewrite list_lookup_insert_ne in Hinfo' by done; eauto].
    rewrite list_lookup_insert_eq in Hinfo' by done. injection Hinfo' as <-.
    rewrite amap_find_insert in Hfind.
    destruct (decide (k' = k)) as [->|Hne]; [|eauto].
    injection Hfind as <-.
    split; [by rewrite length_insert|].
    intros j i1 Hj. destruct (decide (j = d.2 - 1)) as [->|Hne].
    + rewrite list_lookup_insert_eq in Hj by done.
      assert (i1 = i) as -> by (injection Hj; lia). done.
    + rewrite list_lookup_insert_ne in Hj by done. auto.
  - intros k' g (p & info' & w & j & i' & Hinfo' & Hfind & Hj & Hgi).
    destruct (decide (p = d.1)) as [->|Hne]; cycle 1.
    { exists p, info', w, j, i'.
      by rewrite list_lookup_insert_ne by done. }
    assert (info' = info) as -> by congruence.
    destruct (decide (k' = k)) as [->|Hnek]; cycle 1.
    { exists d.1, (amap_insert k (<[d.2 - 1:=i + 1]> which1) info), w, j, i'.
      rewrite list_lookup_insert_eq by done.
      rewrite amap_find_insert, decide_False by done. done. }
    pose proof (Hkeep w Hfind j i' Hj) as Hj1.
    destruct (decide (j = d.2 - 1)) as [->|Hnej].
    + exists d.1, (amap_insert k (<[d.2 - 1:=i + 1]> which1) info),
        (<[d.2 - 1:=i + 1]> which1), (d.2 - 1), i.
      rewrite list_lookup_insert_eq by done.
      rewrite amap_find_insert, decide_True by done.
      rewrite list_lookup_insert_eq by done.
      split; [done|]. split; [done|]. split; [f_equal; lia|].
      destruct (Hent1 _ _ Hj1) as (_ & _ & _ & _ & i1 & Hi1 & Hgi1 & Hli1).
      assert (i1 = i0).
      { apply (local_index_inj dm d.1).
        - specialize (Hsz d.1 Hp'). lia.
        - specialize (Hsz d.1 Hp'). lia.
        - lia. }
      subst i1. congruence.
    + exists d.1, (amap_insert k (<[d.2 - 1:=i + 1]> which1) info),
        (<[d.2 - 1:=i + 1]> which1), j, i'.
      rewrite list_lookup_insert_eq by done.
      rewrite amap_find_insert, decide_True by done.
      by rewrite list_lookup_insert_ne by done.
  - intros _.
    exists d.1, (amap_insert k (<[d.2 - 1:=i + 1]> which1) info),
      (<[d.2 - 1:=i + 1]> which1), (d.2 - 1), i.
    rewrite list_lookup_insert_eq by done.
    rewrite amap_find_insert, decide_True by done.
    rewrite list_lookup_insert_eq by done.
    split; [done|]. split; [done|]. split; [f_equal; lia|done].
Qed.

(** Lines 127-146 record every free artificial dof. *)
Lemma init_artificial_recorded mb dm dofs s s' :
  (forall k, k < dm_numPatches dm -> mb_size mb k <= dm_patchSize dm k) ->
  (forall g d, dofs !! g = Some d -> d.2 <> 0 ->
     d.1 < dm_numPatches dm /\
     exists i0, i0 < mb_size mb d.1 /\ dm_index dm i0 d.1 = g /\
                d.2 = S (local_index dm d.1 i0)) ->
  m_dofMapperLocal s = local_mapper dm <$> seq 0 (dm_numPatches dm) ->
  artificial_sound mb dm
    (resize (dm_numPatches dm) [] (m_artificialDofInfo s)) ->
  init_artificial mb dm dofs s = (Ok tt, s') ->
  forall k i, k < dm_numPatches dm ->
    mb_size mb k <= i < dm_patchSize dm k ->
    dm_is_free_index dm (dm_index dm i k) = true ->
    recorded dm (m_artificialDofInfo s') k (dm_index dm i k).
Proof.
  intros Hsz Hown Hloc Hsound Hrun. unfold init_artificial in Hrun.
  rewrite bind_modify in Hrun.
  pose (L := local_mapper dm <$> seq 0 (dm_numPatches dm)).
  pose (done_ := fun (st : gsIetiMapper T) (k i : nat) =>
    dm_is_free_index dm (dm_index dm i k) = true ->
    recorded dm (m_artificialDofInfo st) k (dm_index dm i k)).
  pose (Iout := fun (pre : list nat) (st : gsIetiMapper T) =>
    m_dofMapperLocal st = L /\
    artificial_sound mb dm (m_artificialDofInfo st) /\
    forall k, k ∈ pre ->
      forall i, mb_size mb k <= i < dm_patchSize dm k -> done_ st k i).
  assert (HI : Iout ([] ++ seq 0 (dm_numPatches dm)) s').
  { refine (forM_invariant_in Iout _ _ _ _ _ _ _ Hrun).
    - clear s s' Hloc Hsound Hrun.
      intros pre k s s' Hk (Hloc & Hsound & Hdone) Hrun. cbv zeta in Hrun.
      apply elem_of_seq in Hk as [_ Hk]. simpl in Hk.
      pose (Iin := fun (prei : list nat) (st : gsIetiMapper T) =>
        m_dofMapperLocal st = L /\
        artificial_sound mb dm (m_artificialDofInfo st) /\
        (forall k', k' ∈ pre ->
           forall i, mb_size mb k' <= i < dm_patchSize dm k' ->
                     done_ st k' i) /\
        forall i, i ∈ prei -> done_ st k i).
      assert (HIin : Iin ([] ++ seq (mb_size mb k)
                                   (dm_patchSize dm k - mb_size mb k)) s').
      { refine (forM_invariant_in Iin _ _ _ _ _ _ _ Hrun).
        - clear s s' Hloc Hsound Hdone Hrun.
          intros prei i s s' Hi (Hloc & Hsound & Hdone & Hdonei) Hrun.
          apply elem_of_seq in Hi.
          destruct (init_artificial_step mb dm dofs k i s s')
            as (Hloc' & Hsound' & Hkeep & Hnew); try done; [lia|].
          split; [congruence|]. split; [done|]. split.
          + intros k' Hk' i' Hi' Hfree. apply Hkeep. by apply Hdone.
          + intros i' [Hi'| ->%list_elem_of_singleton]%elem_of_app Hfree.
            * apply Hkeep. by apply Hdonei.
            * by apply Hnew.
        - split; [done|]. split; [done|]. split; [done|].
          intros i Hi. by apply elem_of_nil in Hi. }
      destruct HIin as (Hloc' & Hsound' & Hdone' & Hdonei).
      split; [done|]. split; [done|].
      intros k' [Hk'| ->%list_elem_of_singleton]%elem_of_app i Hi.
      + by apply Hdone'.
      + apply Hdonei. simpl. apply elem_of_seq. lia.
    - split; [done|]. split; [done|]. intros k Hk. by apply elem_of_nil in Hk. }
  destruct HI as (_ & _ & Hdone). intros k i Hk Hi Hfree.
  apply (Hdone k); [apply elem_of_seq; simpl; lia|done|done].
Qed.

(** The tables that [init] leaves when it starts from an empty table. *)
Lemma init_tables mb dm fp s s' :
  m_artificialDofInfo s = [] ->
  init mb dm fp s = (Ok tt, s') ->
  artificial_sound mb dm (m_artificialDofInfo s') /\
  forall k i,
    k < dm_numPatches dm -> mb_size mb k <= i < dm_patchSize dm k ->
    dm_is_free_index dm (dm_index dm i k) = true ->
    recorded dm (m_artificialDofInfo s') k (dm_index dm i k).
Proof.
  intros Hempty Hrun.
  destruct (init_Ok _ _ _ _ _ Hrun)
    as (Emb & Edm & (Hloc & _ & _ & Hsz) & _).
  rewrite Edm in Hloc. rewrite Edm, Emb in Hsz.
  destruct (init_state _ _ _ _ _ Hrun) as (_ & _ & _ & Hst & _).
  unfold init in Hrun. run_steps Hrun.
  apply bind_Ok in Hrun as ([] & s1 & Hloop & Hrest).
  assert (Hart : m_artificialDofInfo s1 = []).
  { match type of Hloop with
    | ?m ?s0 = _ =>
        assert (Hm : mono (fun st st' : gsIetiMapper T =>
                  m_artificialDofInfo st' = m_artificialDofInfo st) m)
    end.
    { assert (Hr : forall st : gsIetiMapper T,
                m_artificialDofInfo st = m_artificialDofInfo st) by done.
      assert (Ht : forall s1 s2 s3 : gsIetiMapper T,
                m_artificialDofInfo s2 = m_artificialDofInfo s1 ->
                m_artificialDofInfo s3 = m_artificialDofInfo s2 ->
                m_artificialDofInfo s3 = m_artificialDofInfo s1)
        by (intros; congruence).
      unfold m_put, m_get. repeat mono_step. all: intros ?; reflexivity. }
    match type of Hloop with
    | _ ?s0 = _ => specialize (Hm s0)
    end.
    rewrite Hloop in Hm. simpl in Hm. congruence. }
  rewrite bind_gets in Hrest.
  destruct (has_flag (m_status s1) 2) eqn:Hflag.
  - rewrite bind_gets in Hrest.
    destruct (init_owners mb dm (m_dofMapperLocal s1)) as [dofs|e] eqn:Hown;
      [rewrite bind_lift_Ok in Hrest
      |rewrite bind_lift_Err in Hrest; discriminate].
    pose proof (init_artificial_core mb dm dofs s1) as Hc.
    rewrite Hrest in Hc. destruct Hc as (_ & _ & C3 & _). simpl in C3.
    rewrite <- C3, Hloc in Hown.
    assert (Hloc1 : m_dofMapperLocal s1
                    = local_mapper dm <$> seq 0 (dm_numPatches dm))
      by (rewrite <- C3, Hloc; reflexivity).
    assert (Hsound0 : artificial_sound mb dm
              (resize (dm_numPatches dm) [] (m_artificialDofInfo s1))).
    { rewrite Hart. intros p info k which Hp.
      unfold resize in Hp. rewrite take_nil, app_nil_l, Nat.sub_0_r in Hp.
      apply lookup_replicate in Hp as [-> _]. done. }
    pose proof (init_owners_Ok mb dm dofs Hsz Hown) as Hown'.
    split.
    + by apply (init_artificial_sound mb dm dofs s1 s').
    + by apply (init_artificial_recorded mb dm dofs s1 s').
  - injection Hrest as <-. split.
    + rewrite Hart. by intros p info k which Hp.
    + intros k i Hk Hi _. exfalso.
      assert (Ha : has_artificial mb dm (seq 0 (dm_numPatches dm)) = true).
      { unfold has_artificial. apply existsb_exists. exists k. split.
        - apply list_elem_of_In, elem_of_seq. lia.
        - apply Nat.ltb_lt. lia. }
      rewrite Ha in Hst. rewrite Hst in Hflag. discriminate.
Qed.

(** X4. After [init] on an object whose table of artificial dofs is
    empty, as it is on a new object, the table is sound: the vector that
    patch [p] keeps for patch [k] has one entry for every free local dof
    of [p], and an entry [i + 1] at position [j] says that [i] is an
    artificial dof of [k] (an index from the size of the basis of [k] on)
    with a free global index, and that the basis function of [p] with
    the local index [j] has the same global index. *)
Theorem X4_artificial_table mb dm fp s s' :
  m_artificialDofInfo s = [] ->
  init mb dm fp s = (Ok tt, s') ->
  forall p info k which,
    m_artificialDofInfo s' !! p = Some info ->
    amap_find k info = Some which ->
    length which = lm_freeSize (local_mapper dm p) /\
    forall j i, which !! j = Some (S i) -> artificial_copy mb dm p k j i.
Proof.
  intros Hempty Hrun. by destruct (init_tables _ _ _ _ _ Hempty Hrun).
Qed.

(** X17. After [init] on an object whose table of artificial dofs is
    empty, every artificial dof with a free global index is recorded: for
    an artificial dof [i] of patch [k] there is a patch [p] whose table
    for [k] holds, at the local index [j] of a basis function of [p] with
    the global index of [i], an entry for an artificial dof of [k] with
    that same global index. *)
Theorem X17_artificial_recorded mb dm fp s s' :
  m_artificialDofInfo s = [] ->
  init mb dm fp s = (Ok tt, s') ->
  forall k i,
    k < dm_numPatches dm -> mb_size mb k <= i < dm_patchSize dm k ->
    dm_is_free_index dm (dm_index dm i k) = true ->
    exists p info which j i',
      m_artificialDofInfo s' !! p = Some info /\
      amap_find k info = Some which /\
      which !! j = Some (S i') /\
      dm_index dm i' k = dm_index dm i k /\
      exists i0, i0 < mb_size mb p /\
                 dm_index dm i0 p = dm_index dm i k /\
                 local_index dm p i0 = j.
Proof.
  intros Hempty Hrun k i Hk Hi Hfree.
  destruct (init_tables _ _ _ _ _ Hempty Hrun) as [Hsound Hrec].
  destruct (Hrec k i Hk Hi Hfree)
    as (p & info & which & j & i' & Hp & Hfind & Hj & Hg).
  destruct (Hsound p info k which Hp Hfind) as [_ Hcopy].
  destruct (Hcopy j i' Hj) as (_ & _ & _ & _ & i0 & Hi0 & Hg0 & Hl0).
  exists p, info, which, j, i'. do 4 (split; [done|]).
  exists i0. split; [done|]. split; [congruence|done].
Qed.

(** *** The check of the owners *)

(** Lines 111-125: the check [dofs(globalIndex,0) == 0] lets a second
    basis function take a free global index only when the one before is
    on patch 0. *)
Lemma init_owners_shared mb dm dofs :
  (forall k, k < dm_numPatches dm -> mb_size mb k <= dm_patchSize dm k) ->
  init_owners mb dm (local_mapper dm <$> seq 0 (dm_numPatches dm)) = Ok dofs ->
  forall x y : nat * nat,
    x ∈ basis_dofs mb dm -> y ∈ basis_dofs mb dm -> x <> y ->
    dm_is_free_index dm (dm_index dm x.2 x.1) = true ->
    dm_index dm x.2 x.1 = dm_index dm y.2 y.1 ->
    x.1 = 0 \/ y.1 = 0.
Proof.
  intros Hsz Hrun. unfold init_owners in Hrun.
  rewrite (foldM_nested
    (fun dofs ki =>
       let globalIndex := dm_index dm ki.2 ki.1 in
       if dm_is_free_index dm globalIndex then
         d ← get dofs globalIndex;
         check (d.1 =? 0) InternalInvariantViolation;;
         lm ← get (local_mapper dm <$> seq 0 (dm_numPatches dm)) ki.1;
         li ← lm_index lm ki.2;
         put dofs globalIndex (ki.1, li + 1)
       else mret dofs)) in Hrun.
  fold (basis_dofs mb dm) in Hrun.
  pose (free := fun x : nat * nat =>
    dm_is_free_index dm (dm_index dm x.2 x.1) = true).
  pose (I := fun (pre : list (nat * nat)) (ds : list (nat * nat)) =>
    (forall x, x ∈ pre -> free x -> x.1 <> 0 ->
       exists d, ds !! dm_index dm x.2 x.1 = Some d /\ d.1 <> 0) /\
    (forall l1 x l2, pre = l1 ++ x :: l2 ->
       forall y, y ∈ l1 -> free y ->
                 dm_index dm y.2 y.1 = dm_index dm x.2 x.1 -> y.1 = 0)).
  assert (HI : I (basis_dofs mb dm) dofs).
  { refine (foldM_invariant_in I _ _ _ _ _ _ Hrun).
    - clear Hrun dofs. intros pre [k i] ds ds' Hin [HJ HP] Hstep.
      cbv beta zeta in Hstep. simpl in Hstep.
      apply elem_of_basis_dofs in Hin as [Hk Hi]. simpl in Hk, Hi.
      assert (Hearlier : forall y, y ∈ pre -> free y ->
                dm_index dm y.2 y.1 = dm_index dm i k -> y.1 = 0).
      { intros y Hy Hfy Hg. destruct (decide (y.1 = 0)) as [|Hne]; [done|].
        destruct (HJ y Hy Hfy Hne) as (d & Hd & Hd1). exfalso.
        unfold free in Hfy. rewrite Hg in Hfy, Hd. rewrite Hfy in Hstep.
        apply get_Ok in Hd. rewrite Hd, rbind_ret in Hstep.
        destruct (Nat.eqb_spec d.1 0) as [E|E]; [done|]. simpl in Hstep.
        discriminate. }
      split.
      + intros x [Hx| ->%list_elem_of_singleton]%elem_of_app Hfx Hx1.
        * destruct (HJ x Hx Hfx Hx1) as (d & Hd & Hd1).
          destruct (dm_is_free_index dm (dm_index dm i k)) eqn:Hf;
            [|injection Hstep as <-; eauto].
          destruct (get ds (dm_index dm i k)) as [d0|e]; [|discriminate].
          rewrite rbind_ret in Hstep.
          destruct (check (d0.1 =? 0) InternalInvariantViolation);
            [|discriminate].
          rewrite rbind_ret in Hstep.
          destruct (get _ k) as [lm|]; [|discriminate].
          rewrite rbind_ret in Hstep.
          destruct (lm_index lm i) as [li|]; [|discriminate].
          rewrite rbind_ret in Hstep. apply put_Ok in Hstep as [Hg ->].
          destruct (decide (dm_index dm x.2 x.1 = dm_index dm i k)) as [E|E].
          -- specialize (Hearlier x Hx Hfx E). done.
          -- exists d. by rewrite list_lookup_insert_ne.
        * unfold free in Hfx. simpl in Hfx, Hx1 |- *. rewrite Hfx in Hstep.
          destruct (get ds (dm_index dm i k)) as [d0|e]; [|discriminate].
          rewrite rbind_ret in Hstep.
          destruct (check (d0.1 =? 0) InternalInvariantViolation);
            [|discriminate].
          rewrite rbind_ret in Hstep.
          destruct (get _ k) as [lm|]; [|discriminate].
          rewrite rbind_ret in Hstep.
          destruct (lm_index lm i) as [li|]; [|discriminate].
          rewrite rbind_ret in Hstep. apply put_Ok in Hstep as [Hg ->].
          exists (k, li + 1). by rewrite list_lookup_insert_eq.
      + intros l1 x l2 Hsplit y Hy Hfy Hg.
        destruct l2 as [|z l2 _] using rev_ind.
        * apply app_inj_tail in Hsplit as [-> <-]. by apply Hearlier.
        * rewrite app_comm_cons, app_assoc in Hsplit.
          apply app_inj_tail in Hsplit as [-> _]. by eapply HP.
    - split.
      + intros x Hx. by apply elem_of_nil in Hx.
      + intros l1 x l2 Hsplit. by destruct l1. }
  destruct HI as [_ HP]. intros x y Hx Hy Hne Hfx Hg.
  apply list_elem_of_split in Hx as (l1 & l2 & Hsplit).
  rewrite Hsplit in Hy.
  apply elem_of_app in Hy as [Hy|[->|Hy]%elem_of_cons]; [| done |].
  - right. eapply (HP l1 x l2 Hsplit y Hy); [|done].
    unfold free. by rewrite <- Hg.
  - left. apply list_elem_of_split in Hy as (m1 & m2 & ->).
    eapply (HP (l1 ++ x :: m1) y m2); [|idtac|exact Hfx|exact Hg].
    + by rewrite Hsplit, <- app_assoc.
    + apply elem_of_app. right. left.
Qed.

(** X23. What the check of the owners sees.  When [init] completes on a
    mapper with artificial dofs, two different basis functions that share
    a free global index are not both on patches other than patch 0: the
    check compares the patch recorded for the index with 0, so the
    second of two such functions is refused whenever the first is on a
    patch other than 0. *)
Theorem X23_init_owner_check mb dm fp s s' :
  init mb dm fp s = (Ok tt, s') ->
  has_artificial mb dm (seq 0 (dm_numPatches dm)) = true ->
  forall k i k' i',
    k < dm_numPatches dm -> i < mb_size mb k ->
    k' < dm_numPatches dm -> i' < mb_size mb k' ->
    (k, i) <> (k', i') ->
    dm_is_free_index dm (dm_index dm i k) = true ->
    dm_index dm i k = dm_index dm i' k' ->
    k = 0 \/ k' = 0.
Proof.
  intros Hrun Hart k i k' i' Hk Hi Hk' Hi' Hne Hfree Hg.
  destruct (init_Ok _ _ _ _ _ Hrun)
    as (Emb & Edm & (Hloc & _ & _ & Hsz) & _).
  rewrite Edm in Hloc. rewrite Edm, Emb in Hsz.
  destruct (init_state _ _ _ _ _ Hrun) as (_ & _ & _ & Hst & _).
  rewrite Hart in Hst.
  unfold init in Hrun. run_steps Hrun.
  apply bind_Ok in Hrun as ([] & s1 & Hloop & Hrest).
  rewrite bind_gets in Hrest.
  destruct (has_flag (m_status s1) 2) eqn:Hflag;
    [|injection Hrest as <-; by rewrite Hst in Hflag].
  rewrite bind_gets in Hrest.
  destruct (init_owners mb dm (m_dofMapperLocal s1)) as [dofs|e] eqn:Hown;
    [rewrite bind_lift_Ok in Hrest
    |rewrite bind_lift_Err in Hrest; discriminate].
  pose proof (init_artificial_core mb dm dofs s1) as Hc.
  rewrite Hrest in Hc. destruct Hc as (_ & _ & C3 & _). simpl in C3.
  rewrite <- C3, Hloc in Hown.
  apply (init_owners_shared mb dm dofs Hsz Hown (k, i) (k', i'));
    try done; by apply elem_of_basis_dofs.
Qed.
End InitMore.

(** ** What the member functions keep *)

Section Kept.
Context `{Scalar T}.
Variable assembleAverage :
  gsMultiPatch -> gsMultiBasis -> nat -> gsDofMapperLocal -> patchComponent ->
  SparseVector T.
Implicit Types s : gsIetiMapper T.

Lemma setup_kept_refl s : setup_kept s s.
Proof. repeat split. Qed.

Lemma setup_kept_trans s1 s2 s3 :
  setup_kept s1 s2 -> setup_kept s2 s3 -> setup_kept s1 s3.
Proof. unfold setup_kept. intros ? ?. intuition congruence. Qed.

Lemma m_put_constraints_kept k (x : list (SparseVector T)) :
  mono setup_kept (m_put m_primalConstraints set_primalConstraints k x).
Proof.
  intros s. unfold m_put. rewrite bind_gets.
  destruct (put (m_primalConstraints s) k x) as [l'|e] eqn:Hput.
  - rewrite bind_lift_Ok. apply put_Ok in Hput as [_ ->].
    repeat split. simpl. apply length_insert.
  - rewrite bind_lift_Err. apply setup_kept_refl.
Qed.

Lemma m_put_indices_kept k (x : list Z) :
  mono setup_kept
       (m_put (T:=T) m_primalDofIndices set_primalDofIndices k x).
Proof.
  intros s. unfold m_put. rewrite bind_gets.
  destruct (put (m_primalDofIndices s) k x) as [l'|e] eqn:Hput.
  - rewrite bind_lift_Ok. apply put_Ok in Hput as [_ ->].
    repeat split. simpl. apply length_insert.
  - rewrite bind_lift_Err. apply setup_kept_refl.
Qed.

Lemma run_phase_setup_kept c :
  mono setup_kept (run_phase assembleAverage c).
Proof.
  pose proof setup_kept_refl as Hr. pose proof setup_kept_trans as Ht.
  destruct c as [[| |]| | |]; unfold run_phase, run_builder;
    unfold cornersAsPrimals, interfaceAveragesAsPrimals,
      customPrimalConstraints, computeJumpMatrices, skeletonDofs,
      constructGlobalSolutionFromLocalSolutions, corners_create_data,
      constraints_construct_data, assert_initialized, m_push_back, m_get.
  all: repeat first [ apply m_put_constraints_kept
                    | apply m_put_indices_kept
                    | mono_step ].
  all: intros s; repeat split.
Qed.

Lemma setup_kept_consistent s s' :
  setup_kept s s' -> consistent s -> consistent s'.
Proof.
  intros (E1 & E2 & E3 & _ & _ & L1 & L2) (C1 & C2 & C3 & C4).
  unfold consistent. rewrite E1, E2, E3, L1, L2. done.
Qed.

(** X5. No member function other than [init] writes the bases, the
    global or the local mappers, the fixed parts or the table of
    artificial dofs, or changes for how many patches primal constraints
    are kept, whether it succeeds or fails.  Hence an object that is
    consistent with its global mapper, as [init] leaves it, stays so
    through any sequence of calls. *)
Theorem X5_setup_is_kept :
  (forall (c : phase_call T) s,
     setup_kept s (run_phase assembleAverage c s).2) /\
  (forall (cs : list (phase_call T)) s,
     setup_kept s (after (run_phase assembleAverage) cs s)) /\
  (forall (cs : list (phase_call T)) s,
     consistent s -> consistent (after (run_phase assembleAverage) cs s)) /\
  (forall mb dm fp s s' (cs : list (phase_call T)),
     init mb dm fp s = (Ok tt, s') ->
     consistent (after (run_phase assembleAverage) cs s')).
Proof.
  assert (Hafter : forall (cs : list (phase_call T)) s,
            setup_kept s (after (run_phase assembleAverage) cs s)).
  { intros cs s. unfold after.
    apply (mono_after setup_kept setup_kept_refl setup_kept_trans).
    apply run_phase_setup_kept. }
  split; [intros c s; apply run_phase_setup_kept|].
  split; [exact Hafter|].
  split.
  - intros cs s. apply setup_kept_consistent, Hafter.
  - intros mb dm fp s s' cs Hrun.
    apply (setup_kept_consistent s'); [apply Hafter|].
    by destruct (init_Ok _ _ _ _ _ Hrun) as (_ & _ & ? & _).
Qed.

Lemma flag_added_refl f s : flag_added f s s.
Proof. by left. Qed.

Lemma flag_added_trans f s1 s2 s3 :
  flag_added f s1 s2 -> flag_added f s2 s3 -> flag_added f s1 s3.
Proof.
  unfold flag_added. intros [E1|E1] [E2|E2]; rewrite E2, E1; auto.
  right. by rewrite <- Z.lor_assoc, Z.lor_diag.
Qed.

Lemma run_phase_flag_added c :
  mono (flag_added (phase_flag c)) (run_phase assembleAverage c).
Proof.
  pose proof (flag_added_refl (phase_flag c)) as Hr.
  pose proof (flag_added_trans (phase_flag c)) as Ht.
  destruct c as [[| |]| | |]; unfold run_phase, run_builder; unfold_members.
  all: repeat mono_step.
  all: intros s; first [by left | by right].
Qed.

(** After the guards of a member function, the rest of the body leaves
    the status alone. *)
Ltac rest_keeps_status Hrun :=
  match type of Hrun with
  | ?m ?s0 = _ =>
      let Hm := fresh "Hm" in
      assert (Hm : mono (fun s s' : gsIetiMapper T =>
                           m_status s' = m_status s) m);
      [ assert (Hr : forall s : gsIetiMapper T, m_status s = m_status s)
          by done;
        assert (Ht : forall s1 s2 s3 : gsIetiMapper T,
                  m_status s2 = m_status s1 -> m_status s3 = m_status s2 ->
                  m_status s3 = m_status s1) by (intros; congruence);
        unfold_members; repeat mono_step; intros ?; reflexivity
      | specialize (Hm s0); rewrite Hrun in Hm; exact Hm ]
  end.

(** X6. A member function other than [init] changes the status by its own
    flag at most: 8 for the corners, [1 << (3+d)] for the interface
    averages of dimension [d], 4 for the jump matrices, and none for the
    custom constraints, the skeleton dofs and the reconstruction.  When it
    completes, the status is the old one with that flag set. *)
Theorem X6_status_flags :
  (forall (c : phase_call T) s,
     flag_added (phase_flag c) s (run_phase assembleAverage c s).2) /\
  (forall (c : phase_call T) s s',
     run_phase assembleAverage c s = (Ok tt, s') ->
     m_status s' = Z.lor (m_status s) (phase_flag c)).
Proof.
  split; [intros c s; apply run_phase_flag_added|].
  intros c s s' Hrun.
  destruct (has_flag (m_status s) 1) eqn:E1;
    [|rewrite (run_phase_not_initialized _ _ _ E1) in Hrun; discriminate].
  destruct c as [[|geo d|data]|fr ec|patch|lc];
    unfold run_phase, run_builder in Hrun; simpl phase_flag.
  - unfold cornersAsPrimals, assert_initialized in Hrun.
    rewrite bind_assoc, bind_gets, E1, bind_assert_true, bind_gets in Hrun.
    destruct (has_flag (m_status s) 8); simpl negb in Hrun;
      [rewrite bind_assert_false in Hrun; discriminate|].
    rewrite bind_assert_true, bind_modify in Hrun.
    rest_keeps_status Hrun.
  - unfold interfaceAveragesAsPrimals, assert_initialized in Hrun.
    rewrite bind_assoc, bind_gets, E1, bind_assert_true, bind_gets in Hrun.
    run_steps Hrun.
    rest_keeps_status Hrun.
  - pose proof (run_phase_flag_added (Builder (CustomPrimalConstraints data)) s)
      as Hf.
    unfold run_phase, run_builder in Hf. rewrite Hrun in Hf.
    destruct Hf as [Hf|Hf]; simpl in Hf; rewrite Hf; by rewrite ?Z.lor_0_r.
  - unfold computeJumpMatrices, assert_initialized in Hrun.
    rewrite bind_assoc, bind_gets, E1, bind_assert_true, bind_gets in Hrun.
    destruct (has_flag (m_status s) 4); simpl negb in Hrun;
      [rewrite bind_assert_false in Hrun; discriminate|].
    rewrite bind_assert_true, bind_modify in Hrun.
    rest_keeps_status Hrun.
  - pose proof (run_phase_flag_added (SkeletonDofs patch) s) as Hf.
    unfold run_phase in Hf. rewrite Hrun in Hf.
    destruct Hf as [Hf|Hf]; simpl in Hf; rewrite Hf; by rewrite ?Z.lor_0_r.
  - pose proof (run_phase_flag_added (ConstructGlobalSolution lc) s) as Hf.
    unfold run_phase in Hf. rewrite Hrun in Hf.
    destruct Hf as [Hf|Hf]; simpl in Hf; rewrite Hf; by rewrite ?Z.lor_0_r.
Qed.

(** A call that changes the status has passed its guards, so its flag is
    a single bit above those of [init]. *)
Lemma run_phase_status_change (c : phase_call T) s :
  m_status (run_phase assembleAverage c s).2 = m_status s \/
  (m_status (run_phase assembleAverage c s).2
   = Z.lor (m_status s) (phase_flag c) /\
   exists k, (2 <= k)%Z /\ phase_flag c = Z.shiftl 1 k).
Proof.
  pose proof (run_phase_flag_added c s) as [Hf|Hf]; [by left|].
  destruct c as [[|geo d|data]|fr ec|patch|lc]; simpl phase_flag in *.
  - right. split; [done|]. by exists 3%Z.
  - destruct (0 <? d)%Z eqn:Ed.
    + right. split; [done|]. exists (3 + d)%Z. apply Z.ltb_lt in Ed.
      split; [lia|done].
    + left. clear Hf.
      destruct (has_flag (m_status s) 1) eqn:E1;
        [|by rewrite (run_phase_not_initialized _ _ _ E1)].
      unfold run_phase, run_builder, interfaceAveragesAsPrimals,
        assert_initialized.
      by rewrite bind_assoc, bind_gets, E1, bind_assert_true, bind_gets, Ed.
  - left. by rewrite Hf, Z.lor_0_r.
  - right. split; [done|]. by exists 2%Z.
  - left. by rewrite Hf, Z.lor_0_r.
  - left. by rewrite Hf, Z.lor_0_r.
Qed.

(** X20. The flags do not interfere.  No member function other than
    [init] changes the flags 1 (initialised) and 2 (artificial dofs), and
    none changes a flag other than its own, whether it succeeds or fails:
    the corners, the interface averages of each dimension and the jump
    matrices neither block nor unblock each other. *)
Theorem X20_flags_do_not_interfere (c : phase_call T) s :
  let s' := (run_phase assembleAverage c s).2 in
  has_flag (m_status s') 1 = has_flag (m_status s) 1 /\
  has_flag (m_status s') 2 = has_flag (m_status s) 2 /\
  forall b, (0 <= b)%Z -> Z.shiftl 1 b <> phase_flag c ->
            has_flag (m_status s') (Z.shiftl 1 b)
            = has_flag (m_status s) (Z.shiftl 1 b).
Proof.
  intros s'. subst s'.
  destruct (run_phase_status_change c s) as [->|(-> & k & Hk & Hc)];
    [done|].
  rewrite Hc.
  assert (Hother : forall b, (0 <= b)%Z -> b <> k ->
            has_flag (Z.lor (m_status s) (Z.shiftl 1 k)) (Z.shiftl 1 b)
            = has_flag (m_status s) (Z.shiftl 1 b)).
  { intros b Hb Hne. apply has_flag_lor_other, flags_disjoint; lia. }
  split; [apply (Hother 0%Z); lia|].
  split; [apply (Hother 1%Z); lia|].
  intros b Hb Hne. apply Hother; [done|]. by intros ->.
Qed.
End Kept.

(** ** The counter of the primal dofs *)

Section Counter.
Context `{Scalar T}.
Variable assembleAverage :
  gsMultiPatch -> gsMultiBasis -> nat -> gsDofMapperLocal -> patchComponent ->
  SparseVector T.
Implicit Types s : gsIetiMapper T.

Lemma run_builder_consistent (c : builder_call T) s :
  consistent s -> consistent (run_builder assembleAverage c s).2.
Proof.
  intros Hcons. apply (setup_kept_consistent s); [|done].
  apply (run_phase_setup_kept assembleAverage (Builder c)).
Qed.

(** One call of a builder that completes with room for its primal dofs. *)
Lemma run_builder_added (c : builder_call T) s s' :
  consistent s ->
  counter_fits (nPrimalDofs s) (added_primal_dofs assembleAverage c s) ->
  run_builder assembleAverage c s = (Ok tt, s') ->
  (0 <= added_primal_dofs assembleAverage c s)%Z /\
  nPrimalDofs s'
  = (nPrimalDofs s + added_primal_dofs assembleAverage c s)%Z.
Proof.
  unfold nPrimalDofs. intros Hcons Hfits Hrun.
  destruct c as [|geo d|data]; simpl in Hfits, Hrun |- *.
  - assert (H0 : (0 <= corner_dofs (m_multiBasis s) (m_dofMapperGlobal s)
                         (m_status s))%Z) by (unfold corner_dofs; lia).
    split; [done|]. destruct Hfits as [Hlo Hhi].
    destruct (cornersAsPrimals_Ok s s') as (_ & Hcount & Hn & _);
      [done|split; lia|done|].
    rewrite Hn, Hcount. apply wrap_index_id. split; lia.
  - split.
    + unfold interface_dofs. apply interface_sum_nonneg.
    + by destruct (interfaceAveragesAsPrimals_Ok assembleAverage geo d s s'
                     Hfits Hrun) as [Hn _].
  - split; [done|]. destruct Hfits as [Hlo Hhi].
    unfold customPrimalConstraints, assert_initialized in Hrun.
    run_steps Hrun.
    apply bind_Ok in Hrun as ([] & s1 & Hloop & Hret).
    pose proof (custom_loop_Ok _ _ _ Hloop) as Hin.
    rewrite custom_loop_run in Hloop;
      [|by destruct Hcons as (_ & -> & -> & _)|done].
    injection Hloop as <-. unfold modify in Hret. injection Hret as <-.
    simpl. apply wrap_index_id. split; lia.
Qed.

(** C8. The counter of the primal dofs is the one member
    [m_nPrimalDofs], which all builders count in and [nPrimalDofs]
    reports.  A call of a builder (corners, interface averages of any
    dimension, custom constraints) that completes on a consistent object
    raises it by the number of primal dofs the call adds, so it does not
    decrease, as long as the counter has room for them within [index_t];
    and so it does not decrease across any sequence of such calls in any
    order. *)
Theorem C8_primal_counter_monotone :
  (forall (c : builder_call T) s s',
     consistent s ->
     counter_fits (nPrimalDofs s) (added_primal_dofs assembleAverage c s) ->
     run_builder assembleAverage c s = (Ok tt, s') ->
     nPrimalDofs s'
     = (nPrimalDofs s + added_primal_dofs assembleAverage c s)%Z /\
     (nPrimalDofs s <= nPrimalDofs s')%Z) /\
  (forall (cs : list (builder_call T)) s,
     consistent s ->
     completes_within assembleAverage cs s ->
     (nPrimalDofs s
      <= nPrimalDofs (after (run_builder assembleAverage) cs s))%Z).
Proof.
  assert (Hone : forall (c : builder_call T) s s',
     consistent s ->
     counter_fits (nPrimalDofs s) (added_primal_dofs assembleAverage c s) ->
     run_builder assembleAverage c s = (Ok tt, s') ->
     nPrimalDofs s'
     = (nPrimalDofs s + added_primal_dofs assembleAverage c s)%Z /\
     (nPrimalDofs s <= nPrimalDofs s')%Z).
  { intros c s s' Hcons Hfits Hrun.
    destruct (run_builder_added c s s' Hcons Hfits Hrun) as [H0 Hn].
    split; [done|]. lia. }
  split; [exact Hone|].
  induction cs as [|c cs IH]; intros s Hcons Hall.
  - simpl. lia.
  - destruct Hall as (Hfits & s' & Hrun & Hrest).
    destruct (Hone c s s' Hcons Hfits Hrun) as [_ Hle].
    pose proof (run_builder_consistent c s Hcons) as Hcons'.
    unfold after in *. simpl fold_left. rewrite Hrun in Hcons' |- *.
    specialize (IH s' Hcons' Hrest). simpl in *. lia.
Qed.

(** The custom constraints without a constraint, called again and again:
    only the counter moves. *)
Lemma custom_nothing_repeated (k : nat) s :
  has_flag (m_status s) 1 = true ->
  index_range (m_nPrimalDofs s) ->
  after (run_builder assembleAverage)
        (replicate k (CustomPrimalConstraints [])) s
  = set_nPrimalDofs (wrap_index (m_nPrimalDofs s + Z.of_nat k)) s.
Proof.
  revert s. induction k as [|k IH]; intros s Hinit Hin.
  - simpl. rewrite Z.add_0_r, wrap_index_id by done. by destruct s.
  - unfold after in *. simpl replicate. simpl fold_left.
    assert (Hrun : customPrimalConstraints (T:=T) [] s
                   = (Ok tt, set_nPrimalDofs
                               (wrap_index (m_nPrimalDofs s + 1)) s)).
    { unfold customPrimalConstraints, assert_initialized.
      by rewrite bind_assoc, bind_gets, Hinit, bind_assert_true. }
    rewrite Hrun. cbn [snd]. rewrite IH; [|done|apply wrap_index_range].
    cbn [m_nPrimalDofs set_nPrimalDofs].
    rewrite wrap_index_add.
    replace (m_nPrimalDofs s + 1 + Z.of_nat k)%Z
      with (m_nPrimalDofs s + Z.of_nat (S k))%Z by lia.
    reflexivity.
Qed.

(** X16. A completed [cornersAsPrimals] adds exactly one primal dof for
    every global index that occurs among the tuples it collects: the
    counter is raised by the number of distinct free global indices of
    corner functions, in the arithmetic of [index_t]: beyond the largest
    value it goes on from the smallest. *)
Theorem X16_corner_primal_count s s' :
  consistent s ->
  index_range (m_nPrimalDofs s) ->
  cornersAsPrimals s = (Ok tt, s') ->
  m_nPrimalDofs s'
  = wrap_index
      (m_nPrimalDofs s
       + Z.of_nat (length (remove_dups
            (dh_globalIndex
               <$> corner_tuples (m_multiBasis s) (m_dofMapperGlobal s)
                                 (m_status s))))).
Proof.
  intros Hcons Hin Hrun.
  destruct (cornersAsPrimals_Ok s s' Hcons Hin Hrun)
    as (_ & Hcount & Hn & _).
  rewrite Hn, Hcount. reflexivity.
Qed.

End Counter.

(** The corners of the two intervals raise the counter from 0 to 1. *)
Lemma C8_primal_counter_monotone_witness :
  let s := two_intervals_mapper in
  let s' := (cornersAsPrimals s).2 in
  consistent s /\
  counter_fits (nPrimalDofs s)
               (added_primal_dofs uniform_average CornersAsPrimals s) /\
  run_builder uniform_average CornersAsPrimals s = (Ok tt, s') /\
  nPrimalDofs s'
  = (nPrimalDofs s + added_primal_dofs uniform_average CornersAsPrimals s)%Z /\
  (nPrimalDofs s <= nPrimalDofs s')%Z.
Proof.
  intros s s'.
  assert (Hcons : consistent s) by show_consistent.
  assert (Hfits : counter_fits (nPrimalDofs s)
            (added_primal_dofs uniform_average CornersAsPrimals s))
    by (split; by_evaluation).
  assert (Hrun : run_builder uniform_average CornersAsPrimals s = (Ok tt, s'))
    by by_evaluation.
  split; [exact Hcons|]. split; [exact Hfits|]. split; [exact Hrun|].
  exact (proj1 (C8_primal_counter_monotone uniform_average)
           CornersAsPrimals s s' Hcons Hfits Hrun).
Defined.

(** The counter does decrease: on the two intervals, after
    [customPrimalConstraints] has been called 2147483647 times without a
    constraint the counter is at the largest value of [index_t], and one
    more call, which completes, takes it to the smallest. *)
Lemma C8_counter_wraps :
  let calls :=
    replicate (Z.to_nat index_max)
              (CustomPrimalConstraints (T:=Z) []) in
  let s := after (run_builder uniform_average) calls two_intervals_mapper in
  let s' := set_nPrimalDofs index_min s in
  consistent s /\
  nPrimalDofs s = 2147483647%Z /\
  run_builder uniform_average (CustomPrimalConstraints []) s = (Ok tt, s') /\
  nPrimalDofs s' = (-2147483648)%Z /\
  (nPrimalDofs s' < nPrimalDofs s)%Z.
Proof.
  intros calls s s'.
  assert (Es : s = set_nPrimalDofs index_max two_intervals_mapper).
  { unfold s, calls. rewrite custom_nothing_repeated.
    - rewrite Z2Nat.id by done. reflexivity.
    - reflexivity.
    - apply index_range_0. }
  clearbody s. subst s. subst s'.
  split; [show_consistent|]. split; [reflexivity|].
  split; [by_evaluation|]. split; [reflexivity|]. by_evaluation.
Qed.

(** ** Skeleton dofs *)

(** The local index of a dof that is not eliminated counts the dofs
    before it that are not eliminated. *)
Lemma local_index_free dm k i :
  i < dm_patchSize dm k ->
  dm_is_boundary_index dm (dm_index dm i k) = false ->
  local_index dm k i = count_free (take i (local_marks dm k)).
Proof.
  intros Hi Hb. unfold local_index, local_mapper, finalize. simpl.
  pose proof (local_marks_lookup dm k i Hi) as Hm. rewrite Hb in Hm.
  by rewrite (number_dofs_lookup _ _ _ _ _ _ Hm).
Qed.

Lemma local_index_free_lt dm k i j :
  i < j -> j < dm_patchSize dm k ->
  dm_is_boundary_index dm (dm_index dm i k) = false ->
  dm_is_boundary_index dm (dm_index dm j k) = false ->
  local_index dm k i < local_index dm k j.
Proof.
  intros Hij Hj Hbi Hbj.
  rewrite !local_index_free by (done || lia).
  pose proof (local_marks_lookup dm k i ltac:(lia)) as Hm. rewrite Hbi in Hm.
  pose proof (count_free_take_S _ _ _ Hm) as HS. cbv iota in HS.
  destruct (count_free_take_mono (local_marks dm k) (S i) j) as [Hle _];
    [lia|rewrite local_marks_length; lia|].
  lia.
Qed.

Lemma sorted_fmap_filter_seq (f : nat -> nat) (P : nat -> Prop)
    `{!forall i, Decision (P i)} (a n : nat) :
  (forall i j, a <= i -> i < j -> j < a + n -> P i -> P j -> f i < f j) ->
  StronglySorted lt (f <$> filter P (seq a n)).
Proof.
  revert a. induction n as [|n IH]; intros a Hf; [constructor|].
  simpl seq. rewrite filter_cons.
  assert (Hrest : StronglySorted lt (f <$> filter P (seq (S a) n))).
  { apply IH. intros i j Hi Hij Hj. apply Hf; lia. }
  destruct (decide (P a)) as [Ha|Ha]; [|done].
  rewrite fmap_cons. constructor; [done|].
  apply Forall_forall. intros y (j & -> & Hj)%list_elem_of_fmap.
  apply list_elem_of_filter in Hj as [HPj Hj]. apply elem_of_seq in Hj.
  apply Hf; [lia|lia|lia|done|done].
Qed.

Section Skeleton.
Context `{Scalar T}.
Implicit Types s : gsIetiMapper T.

Lemma skeleton_fold dm patch (l : list nat) (acc : list nat) :
  patch < dm_numPatches dm ->
  (forall i, i ∈ l -> i < dm_patchSize dm patch) ->
  foldM
    (fun result i =>
       if dm_is_coupled dm i patch then
         lm ← get (local_mapper dm <$> seq 0 (dm_numPatches dm)) patch;
         li ← lm_index lm i;
         mret (result ++ [li])
       else mret result) l acc
  = Ok (acc ++ (local_index dm patch
                  <$> filter (fun i => dm_is_coupled dm i patch = true) l)).
Proof.
  intros Hp. revert acc. induction l as [|i l IH]; intros acc Hl.
  - simpl. by rewrite app_nil_r.
  - simpl foldM. rewrite filter_cons.
    assert (Hi : i < dm_patchSize dm patch) by (apply Hl; left).
    assert (Hl' : forall j, j ∈ l -> j < dm_patchSize dm patch)
      by (intros j Hj; apply Hl; by right).
    destruct (dm_is_coupled dm i patch) eqn:Hc.
    + assert (Hstep :
        (lm ← get (local_mapper dm <$> seq 0 (dm_numPatches dm)) patch;
         li ← lm_index lm i; mret (acc ++ [li]))
        = Ok (acc ++ [local_index dm patch i])).
      { assert (Hget : get (local_mapper dm <$> seq 0 (dm_numPatches dm)) patch
                       = Ok (local_mapper dm patch)).
        { apply get_Ok. by rewrite list_lookup_fmap, lookup_seq_lt. }
        rewrite Hget, rbind_ret.
        by destruct (local_mapper_index dm patch i Hi) as [-> _]. }
      rewrite Hstep, IH by done. rewrite decide_True by done.
      by rewrite fmap_cons, <- app_assoc.
    + change (mret acc) with (Ok acc). cbv iota beta. rewrite IH by done.
      by rewrite decide_False by congruence.
Qed.

(** X8. On an initialised, consistent object, [skeletonDofs] of a patch
    returns the local indices of the coupled dofs of the patch, in the
    order of the dofs and each once, and leaves the object as it is.
    When no coupled dof is eliminated, the indices are strictly
    increasing and all of them are free local indices. *)
Theorem X8_skeleton_dofs patch s :
  has_flag (m_status s) 1 = true ->
  consistent s ->
  patch < dm_numPatches (m_dofMapperGlobal s) ->
  let dm := m_dofMapperGlobal s in
  skeletonDofs patch s = (Ok (skeleton_of dm patch), s) /\
  NoDup (skeleton_of dm patch) /\
  ((forall i, i < dm_patchSize dm patch ->
      dm_is_coupled dm i patch = true ->
      dm_is_boundary_index dm (dm_index dm i patch) = false) ->
   StronglySorted lt (skeleton_of dm patch) /\
   forall j, j ∈ skeleton_of dm patch ->
             j < lm_freeSize (local_mapper dm patch)).
Proof.
  intros Hinit (Hloc & _) Hp dm. split; [|split].
  - unfold skeletonDofs, assert_initialized.
    rewrite bind_assoc, bind_gets, Hinit, bind_assert_true, !bind_gets.
    rewrite Hloc. fold dm. unfold lift.
    rewrite (skeleton_fold dm patch _ [] Hp); [done|].
    intros i Hi. apply elem_of_seq in Hi. lia.
  - unfold skeleton_of. apply NoDup_fmap_2_strong.
    + intros i j [_ Hi%elem_of_seq]%list_elem_of_filter
                 [_ Hj%elem_of_seq]%list_elem_of_filter Heq.
      apply (local_index_inj dm patch); [lia|lia|done].
    + apply NoDup_filter, NoDup_seq.
  - intros Hfree. split.
    + unfold skeleton_of. apply sorted_fmap_filter_seq.
      intros i j _ Hij Hj Hci Hcj.
      apply local_index_free_lt; [done|lia|apply Hfree; [lia|done]|by apply Hfree; [lia|]].
    + intros j (i & -> & Hi)%list_elem_of_fmap.
      apply list_elem_of_filter in Hi as [Hc Hi]. apply elem_of_seq in Hi.
      destruct (local_mapper_index dm patch i) as [_ Hlt]; [lia|].
      rewrite (Hfree i) in Hlt by (lia || done).
      by apply Nat.ltb_lt in Hlt.
Qed.
End Skeleton.

(** ** More on the jump matrices *)

Lemma elem_of_occurrences dm c (o : nat * nat) :
  o ∈ occurrences dm c <->
  exists i, o.1 < dm_numPatches dm /\ i < dm_patchSize dm o.1 /\
            dm_is_coupled dm i o.1 = true /\ dm_cindex dm i o.1 = c /\
            o.2 = local_index dm o.1 i.
Proof.
  unfold occurrences, occurrences_in. rewrite list_elem_of_fmap. split.
  - intros ([k i] & -> & Hki). apply list_elem_of_filter in Hki as [[Hc Hci] Hin].
    apply elem_of_all_dofs in Hin as [Hk Hi]. simpl in *.
    exists i. auto.
  - intros (i & Hk & Hi & Hc & Hci & Ho). exists (o.1, i). split.
    + destruct o as [k col]. simpl in *. by rewrite Ho.
    + apply list_elem_of_filter. split; [split; done|].
      by apply elem_of_all_dofs.
Qed.

Lemma occurrence_in_skeleton dm c k col :
  (k, col) ∈ occurrences dm c -> col ∈ skeleton_of dm k.
Proof.
  intros (i & _ & Hi & Hc & _ & Hcol)%elem_of_occurrences. simpl in *.
  subst col.
  unfold skeleton_of. apply list_elem_of_fmap. exists i. split; [done|].
  apply list_elem_of_filter. split; [done|]. apply elem_of_seq. lia.
Qed.

Section JumpMore.
Context `{Scalar T}.
Implicit Types s : gsIetiMapper T.

(** A triplet of the entries of patch [k] comes from the pair with the
    number of its row, and stands for one of its two occurrences. *)
Lemma elem_of_entries_from (pairs : list ((nat * nat) * (nat * nat)))
    (m : Z) (k : nat) (r : Z) (col : nat) (v : T) :
  (r, col, v) ∈ entries_from m pairs k ->
  exists t p, pairs !! t = Some p /\ r = (m + Z.of_nat t)%Z /\
              (((k, col) = p.1 /\ v = T1) \/ ((k, col) = p.2 /\ v = Tm1)).
Proof.
  revert m. induction pairs as [|p pairs IH]; intros m He; simpl in He.
  - by apply elem_of_nil in He.
  - apply elem_of_app in He as [He|He].
    + exists 0, p. split; [done|]. unfold pair_entries in He.
      apply elem_of_app in He as [He|He].
      * destruct (decide (p.1.1 = k)) as [<-|]; [|by apply elem_of_nil in He].
        apply list_elem_of_singleton in He. injection He as -> -> ->.
        split; [lia|]. left. by destruct p as [[] ?].
      * destruct (decide (p.2.1 = k)) as [<-|]; [|by apply elem_of_nil in He].
        apply list_elem_of_singleton in He. injection He as -> -> ->.
        split; [lia|]. right. by destruct p as [? []].
    + destruct (IH _ He) as (t & p' & Ht & -> & Hp').
      exists (S t), p'. split; [done|]. split; [lia|done].
Qed.

(** The two occurrences of a pair belong to one coupled dof. *)
Lemma pair_of_one_group dm fr ec (coupling : list (list (nat * nat)))
    (p : (nat * nat) * (nat * nat)) :
  (forall c group, coupling !! c = Some group ->
     group = occurrences dm c \/ (ec = true /\ group = [])) ->
  p ∈ all_pairs fr coupling ->
  exists c, c < length coupling /\ coupling !! c = Some (occurrences dm c) /\
            p.1 ∈ occurrences dm c /\ p.2 ∈ occurrences dm c.
Proof.
  intros Hgrp Hp. unfold all_pairs in Hp.
  apply list_elem_of_bind in Hp as (group & Hp & Hgroup).
  apply list_elem_of_lookup in Hgroup as [c Hc].
  destruct p as [o1 o2].
  apply elem_of_group_pairs in Hp as (j1 & j2 & _ & H1 & H2).
  exists c. split; [by eapply lookup_lt_Some|].
  destruct (Hgrp c group Hc) as [->|[_ ->]]; [|done].
  split; [done|]. split; by eapply list_elem_of_lookup_2.
Qed.

(** The entries of the jump matrices of a completed run. *)
Lemma jump_entries_Ok fr ec s s' :
  consistent s ->
  computeJumpMatrices fr ec s = (Ok tt, s') ->
  exists coupling N,
    (forall c group, coupling !! c = Some group ->
       group = occurrences (m_dofMapperGlobal s) c \/
       (ec = true /\ group = [])) /\
    N = Z.of_nat (length (all_pairs fr coupling)) /\
    forall k jm, m_jumpMatrices s' !! k = Some jm ->
      jm_rows jm = N /\
      jm_entries jm = entries_from 0 (all_pairs fr coupling) k.
Proof.
  intros Hcons Hrun.
  destruct (computeJumpMatrices_Ok _ _ _ _ Hcons Hrun)
    as (coupling & se & N & _ & Hgrp & _ & _ & Hemit & HF).
  apply emit_fold in Hemit as (HN & _ & _ & Hent).
  exists coupling, N. split; [done|]. split; [lia|].
  intros k jm Hk.
  destruct (Forall2_lookup_r _ _ _ _ _ HF Hk) as (k' & Hk' & e & He & -> & _).
  apply lookup_seq in Hk' as [-> Hlt]. simpl. split; [done|].
  specialize (Hent k [] (lookup_replicate_2 _ _ _ Hlt)).
  simpl in He. by rewrite (lookup_unique _ _ _ _ He Hent).
Qed.

(** X9. In the jump matrices of a completed run, every stored entry is
    a +1 or a -1 in a column that is a skeleton dof of its patch, and
    all entries of one row, in whatever matrices they are, belong to
    occurrences of one and the same coupled dof: a row sets two copies of
    one coupled dof against each other. *)
Theorem X9_jump_rows_couple_one_dof fr ec s s' :
  consistent s ->
  computeJumpMatrices fr ec s = (Ok tt, s') ->
  let dm := m_dofMapperGlobal s in
  forall k jm r col v,
    m_jumpMatrices s' !! k = Some jm ->
    (r, col, v) ∈ jm_entries jm ->
    (v = T1 \/ v = Tm1) /\
    (0 <= r < jm_rows jm)%Z /\
    col ∈ skeleton_of dm k /\
    forall k' jm' col' v',
      m_jumpMatrices s' !! k' = Some jm' ->
      (r, col', v') ∈ jm_entries jm' ->
      exists c i i',
        i < dm_patchSize dm k /\ i' < dm_patchSize dm k' /\
        dm_is_coupled dm i k = true /\ dm_is_coupled dm i' k' = true /\
        dm_cindex dm i k = c /\ dm_cindex dm i' k' = c /\
        col = local_index dm k i /\ col' = local_index dm k' i'.
Proof.
  intros Hcons Hrun dm k jm r col v Hk He.
  destruct (jump_entries_Ok _ _ _ _ Hcons Hrun)
    as (coupling & N & Hgrp & HN & Hjm). fold dm in Hgrp.
  destruct (Hjm k jm Hk) as [Hrows Hent]. rewrite Hent in He.
  apply elem_of_entries_from in He as (t & p & Ht & -> & Hv).
  assert (Hp : p ∈ all_pairs fr coupling) by by eapply list_elem_of_lookup_2.
  destruct (pair_of_one_group dm fr ec coupling p Hgrp Hp)
    as (c & _ & _ & Ho1 & Ho2).
  assert (Hocc : (k, col) ∈ occurrences dm c)
    by (destruct Hv as [[-> _]|[-> _]]; done).
  split; [destruct Hv as [[_ ?]|[_ ?]]; auto|].
  split; [apply lookup_lt_Some in Ht; lia|].
  split; [by eapply occurrence_in_skeleton|].
  intros k' jm' col' v' Hk' He'.
  destruct (Hjm k' jm' Hk') as [_ Hent']. rewrite Hent' in He'.
  apply elem_of_entries_from in He' as (t' & p' & Ht' & Hr & Hv').
  assert (t' = t) as -> by lia.
  assert (p' = p) as -> by congruence.
  assert (Hocc' : (k', col') ∈ occurrences dm c)
    by (destruct Hv' as [[-> _]|[-> _]]; done).
  apply elem_of_occurrences in Hocc as (i & _ & Hi & Hc & Hci & Hcol).
  apply elem_of_occurrences in Hocc' as (i' & _ & Hi' & Hc' & Hci' & Hcol').
  simpl in *. exists c, i, i'. auto 10.
Qed.

(** Lines 505-522 as one loop over the coupled indices of the corners. *)
Lemma erase_corners_eq mb dm coupling :
  erase_corners mb dm (dm_numPatches dm) coupling
  = foldM (fun cp c => put cp c []) (corner_cindices mb dm) coupling.
Proof.
  unfold erase_corners, corner_cindices.
  rewrite <- foldM_bind. apply foldM_ext. intros k cp _.
  rewrite <- foldM_bind. apply foldM_ext. intros it cp' _.
  destruct (dm_is_coupled_index _ _); [|done].
  simpl. by destruct (put cp' _ []).
Qed.

Lemma clear_groups_Ok (cs : list nat) (coupling coupling' : list (list (nat * nat))) :
  foldM (fun cp c => put cp c []) cs coupling = Ok coupling' ->
  length coupling' = length coupling /\
  forall c, coupling' !! c
            = if bool_decide (c ∈ cs) then
                (fun _ => []) <$> coupling !! c
              else coupling !! c.
Proof.
  revert coupling. induction cs as [|c0 cs IH]; intros coupling Hrun.
  - injection Hrun as <-. split; [done|]. intros c.
    rewrite bool_decide_eq_false_2; [done|]. apply not_elem_of_nil.
  - simpl in Hrun. destruct (put coupling c0 []) as [cp|] eqn:Hput;
      [|discriminate].
    apply put_Ok in Hput as [Hc0 ->].
    destruct (IH _ Hrun) as [Hlen Hgrp]. rewrite length_insert in Hlen.
    split; [done|]. intros c. rewrite Hgrp.
    destruct (decide (c = c0)) as [->|Hne].
    + rewrite list_lookup_insert_eq by done.
      rewrite (bool_decide_eq_true_2 (c0 ∈ c0 :: cs)) by left.
      destruct (lookup_lt_is_Some_2 _ _ Hc0) as [g ->].
      by destruct (bool_decide (c0 ∈ cs)).
    + rewrite list_lookup_insert_ne by done.
      destruct (bool_decide (c ∈ cs)) eqn:E.
      * apply bool_decide_eq_true in E.
        by rewrite bool_decide_eq_true_2 by by right.
      * apply bool_decide_eq_false in E.
        rewrite bool_decide_eq_false_2; [done|].
        intros [?|?]%elem_of_cons; done.
Qed.

(** The run of [computeJumpMatrices], step by step. *)
Lemma computeJumpMatrices_groups fr ec s s' :
  consistent s ->
  computeJumpMatrices fr ec s = (Ok tt, s') ->
  let dm := m_dofMapperGlobal s in
  let coupling := coupling_groups (m_multiBasis s) dm ec in
  (ec = true -> forall c, c ∈ corner_cindices (m_multiBasis s) dm ->
                          c < dm_coupledSize dm) /\
  count_multipliers fr ec coupling
  = Ok (Z.of_nat (length (all_pairs fr coupling))) /\
  length (m_jumpMatrices s') = dm_numPatches dm /\
  (forall jm, jm ∈ m_jumpMatrices s' ->
              jm_rows jm = Z.of_nat (length (all_pairs fr coupling))) /\
  forall k jm, m_jumpMatrices s' !! k = Some jm ->
               jm_entries jm = entries_from 0 (all_pairs fr coupling) k.
Proof.
  intros Hcons Hrun dm coupling.
  pose proof Hrun as Hrun0.
  unfold computeJumpMatrices, assert_initialized in Hrun.
  run_steps Hrun.
  cbn [m_dofMapperGlobal m_dofMapperLocal m_multiBasis set_status]
    in Hlift, Hrun.
  fold dm in Hlift, Hrun.
  apply find_coupling_Ok in Hlift as [Hlen Hgrp]; [|done].
  fold dm in Hlen, Hgrp. rename a into c0.
  apply bind_Ok in Hrun as (cp & s1 & Hec & Hrun).
  assert (Hcp : s1 = set_status (Z.lor (m_status s) 4) s /\ cp = coupling /\
                (ec = true ->
                 forall c, c ∈ corner_cindices (m_multiBasis s) dm ->
                           c < dm_coupledSize dm)).
  { destruct ec.
    - unfold lift in Hec. injection Hec as Herase <-.
      rewrite erase_corners_eq in Herase.
      pose proof Herase as Hin.
      apply clear_groups_Ok in Herase as [Hl Hg].
      split; [done|]. split.
      + apply list_eq. intros c. rewrite Hg. unfold coupling, coupling_groups.
        rewrite list_lookup_fmap. destruct (decide (c < dm_coupledSize dm)).
        * rewrite lookup_seq_lt, Hgrp by done. simpl.
          by destruct (bool_decide _).
        * rewrite lookup_seq_ge by lia.
          rewrite (lookup_ge_None_2 c0) by lia.
          by destruct (bool_decide _).
      + intros _. rewrite <- Hlen. clear -Hin. revert c0 Hin.
        induction (corner_cindices (m_multiBasis s) dm) as [|c1 cs IH];
          intros c0 Hin c Hc; [by apply elem_of_nil in Hc|].
        simpl in Hin. destruct (put c0 c1 []) as [cp1|] eqn:Hput;
          [|discriminate].
        apply put_Ok in Hput as [Hc1 ->].
        apply elem_of_cons in Hc as [->|Hc]; [done|].
        specialize (IH _ Hin c Hc). by rewrite length_insert in IH.
    - injection Hec as <- <-. split; [done|]. split; [|discriminate].
      apply list_eq. intros c. unfold coupling, coupling_groups.
      rewrite list_lookup_fmap. destruct (decide (c < dm_coupledSize dm)).
      + by rewrite lookup_seq_lt, Hgrp by done.
      + rewrite lookup_seq_ge by lia. by rewrite lookup_ge_None_2 by lia. }
  destruct Hcp as (-> & -> & Hcorner). clear Hec.
  split; [done|].
  destruct (count_multipliers fr ec coupling) as [N|] eqn:Hcount;
    [rewrite bind_lift_Ok in Hrun|rewrite bind_lift_Err in Hrun; discriminate].
  cbn [m_dofMapperGlobal set_status] in Hrun. fold dm in Hrun.
  destruct (assemble_jumps fr (dm_numPatches dm) coupling) as [[se m]|]
    eqn:Hasm;
    [rewrite bind_lift_Ok in Hrun|rewrite bind_lift_Err in Hrun; discriminate].
  cbn [fst snd] in Hrun.
  destruct (m =? N)%Z eqn:HmN;
    [rewrite bind_assert_true in Hrun
    |rewrite bind_assert_false in Hrun; discriminate].
  apply Z.eqb_eq in HmN as ->. rewrite bind_modify in Hrun.
  rewrite assemble_jumps_eq in Hasm.
  apply emit_fold in Hasm as (HN & _ & _ & Hent).
  rewrite Z.add_0_l in HN. subst N.
  split; [done|].
  pose (I := fun (pre : list nat) (st : gsIetiMapper T) =>
    length (m_jumpMatrices st) = length pre /\
    (forall jm, jm ∈ m_jumpMatrices st ->
                jm_rows jm = Z.of_nat (length (all_pairs fr coupling))) /\
    Forall2 (fun k jm => se !! k = Some (jm_entries jm))
            pre (m_jumpMatrices st)).
  assert (HI : I ([] ++ seq 0 (dm_numPatches dm)) s').
  { eapply (forM_invariant I); [|idtac|exact Hrun].
    - clear Hrun. intros pre k st st' (Hl & Hr & HF) Hbody.
      cbv beta in Hbody.
      apply bind_Ok in Hbody as (lm & st0 & Hget & Hbody).
      apply m_get_Ok in Hget as [Hlm ->].
      run_steps Hbody. unfold modify in Hbody. injection Hbody as <-.
      unfold jm_setFrom in Hlift0. apply get_Ok in Hlift.
      apply rbind_Ok in Hlift0 as ([] & _ & Hjm). injection Hjm as <-.
      split; [|split]; simpl.
      + rewrite !length_app. simpl. lia.
      + intros jm [Hjm| ->%list_elem_of_singleton]%elem_of_app; auto.
      + apply Forall2_app; [done|]. by repeat constructor.
    - split; [done|]. split; [|constructor].
      intros jm Hjm. by apply elem_of_nil in Hjm. }
  destruct HI as (Hl & Hr & HF). simpl in Hl, HF. rewrite length_seq in Hl.
  split; [done|]. split; [done|].
  intros k jm Hk.
  destruct (Forall2_lookup_r _ _ _ _ _ HF Hk) as (k' & Hk' & Hse).
  apply lookup_seq in Hk' as [-> Hlt]. simpl in Hse.
  pose proof (Hent k [] (lookup_replicate_2 _ _ _ Hlt)) as Hse'.
  pose proof (lookup_unique _ _ _ _ Hse Hse') as E. by rewrite E.
Qed.

Lemma expected_rows_redundant_nonneg n :
  (0 <= n)%Z -> (0 <= expected_rows true n)%Z.
Proof.
  intros Hn. unfold expected_rows.
  destruct (decide (n = 0%Z)) as [->|Hne]; [done|].
  apply Z.quot_pos; nia.
Qed.

Lemma expected_rows_redundant_pos n :
  (1 < n)%Z -> (0 < expected_rows true n)%Z.
Proof.
  intros Hn. unfold expected_rows.
  rewrite Z.quot_div_nonneg by nia.
  apply Z.div_str_pos. nia.
Qed.

(** The expected count of two families of groups over the same indices. *)
Lemma expected_total_le fr (g1 g0 : nat -> list (nat * nat)) (l : list nat) :
  (forall c, c ∈ l ->
     (expected_rows fr (Z.of_nat (length (g1 c)))
      <= expected_rows fr (Z.of_nat (length (g0 c))))%Z) ->
  (expected_total fr (g1 <$> l) <= expected_total fr (g0 <$> l))%Z /\
  ((exists c, c ∈ l /\
      (expected_rows fr (Z.of_nat (length (g1 c)))
       < expected_rows fr (Z.of_nat (length (g0 c))))%Z) ->
   (expected_total fr (g1 <$> l) < expected_total fr (g0 <$> l))%Z).
Proof.
  induction l as [|c l IH]; intros Hle.
  - split; [done|]. intros (c & Hc & _). by apply elem_of_nil in Hc.
  - destruct IH as [IHle IHlt]; [intros c' Hc'; apply Hle; by right|].
    pose proof (Hle c ltac:(left)) as Hc.
    rewrite !fmap_cons. simpl expected_total. split; [lia|].
    intros (c' & [->|Hc']%elem_of_cons & Hlt); [lia|].
    assert (expected_total fr (g1 <$> l) < expected_total fr (g0 <$> l))%Z
      by (apply IHlt; eauto).
    lia.
Qed.

(** X10. When [computeJumpMatrices] completes without [excludeCorners],
    every coupled index has at least two occurrences, and every jump
    matrix has as many rows as the groups ask for: the sum over the
    coupled dofs of [n - 1] in the minimal mode, and of [n (n - 1) / 2] in
    the fully redundant mode, where [n] is the number of occurrences. *)
Theorem X10_multiplier_count fr s s' :
  consistent s ->
  computeJumpMatrices fr false s = (Ok tt, s') ->
  let dm := m_dofMapperGlobal s in
  (forall c, c < dm_coupledSize dm -> 1 < length (occurrences dm c)) /\
  length (m_jumpMatrices s') = dm_numPatches dm /\
  forall jm, jm ∈ m_jumpMatrices s' ->
    jm_rows jm
    = foldr Z.add 0%Z
        ((fun c => if fr
                   then let n := Z.of_nat (length (occurrences dm c)) in
                        Z.quot (n * (n - 1)) 2
                   else (Z.of_nat (length (occurrences dm c)) - 1)%Z)
           <$> seq 0 (dm_coupledSize dm)).
Proof.
  intros Hcons Hrun dm.
  destruct (computeJumpMatrices_groups _ _ _ _ Hcons Hrun)
    as (_ & Hcount & Hlen & Hrows & _). fold dm in Hcount, Hlen, Hrows.
  apply count_multipliers_Ok in Hcount as [HN Hsizes].
  split; [|split; [done|]].
  - intros c Hc.
    destruct (Hsizes (occurrences dm c)) as [?|?]; [|done..].
    unfold coupling_groups. apply list_elem_of_fmap. exists c.
    split; [done|]. apply elem_of_seq. lia.
  - intros jm Hjm. rewrite (Hrows jm Hjm), HN.
    unfold coupling_groups. simpl andb. cbv iota.
    induction (seq 0 (dm_coupledSize dm)) as [|c l IH]; [done|].
    rewrite !fmap_cons. simpl. rewrite IH. unfold expected_rows.
    by destruct fr.
Qed.

(** X11. In the fully redundant mode, excluding the corners never adds a
    multiplier, and it removes at least one when some corner function is
    coupled: if both runs complete on the same object, the jump matrices
    with [excludeCorners] have at most as many rows as those without,
    and fewer when a corner function of some patch is coupled. *)
Theorem X11_exclude_corners_redundant s s0 s1 :
  consistent s ->
  computeJumpMatrices true false s = (Ok tt, s0) ->
  computeJumpMatrices true true s = (Ok tt, s1) ->
  let dm := m_dofMapperGlobal s in
  let mb := m_multiBasis s in
  forall jm0 jm1,
    jm0 ∈ m_jumpMatrices s0 -> jm1 ∈ m_jumpMatrices s1 ->
    (jm_rows jm1 <= jm_rows jm0)%Z /\
    forall k it,
      k < dm_numPatches dm -> it ∈ boxCorners (mb_dim mb) ->
      dm_is_coupled_index dm (dm_index dm (mb_functionAtCorner mb k it) k)
      = true ->
      (jm_rows jm1 < jm_rows jm0)%Z.
Proof.
  intros Hcons Hrun0 Hrun1 dm mb jm0 jm1 Hjm0 Hjm1.
  destruct (computeJumpMatrices_groups _ _ _ _ Hcons Hrun0)
    as (_ & Hcount0 & _ & Hrows0 & _).
  destruct (computeJumpMatrices_groups _ _ _ _ Hcons Hrun1)
    as (Hcorner & Hcount1 & _ & Hrows1 & _).
  fold dm mb in Hcount0, Hrows0, Hcorner, Hcount1, Hrows1.
  apply count_multipliers_Ok in Hcount0 as [HN0 Hsizes0].
  apply count_multipliers_Ok in Hcount1 as [HN1 _].
  rewrite (Hrows0 _ Hjm0), (Hrows1 _ Hjm1), HN0, HN1.
  unfold coupling_groups.
  assert (Hocc : forall c, c ∈ seq 0 (dm_coupledSize dm) ->
                           1 < length (occurrences dm c)).
  { intros c Hc. destruct (Hsizes0 (occurrences dm c)) as [?|?]; [|done..].
    unfold coupling_groups. apply list_elem_of_fmap. by exists c. }
  destruct (expected_total_le true
    (fun c => if true && bool_decide (c ∈ corner_cindices mb dm)
              then [] else occurrences dm c)
    (fun c => if false && bool_decide (c ∈ corner_cindices mb dm)
              then [] else occurrences dm c)
    (seq 0 (dm_coupledSize dm))) as [Hle Hlt].
  { intros c Hc. simpl andb. cbv iota.
    destruct (bool_decide _); [|lia]. simpl length.
    apply expected_rows_redundant_nonneg. lia. }
  split; [exact Hle|].
  intros k it Hk Hit Hcoupled. apply Hlt.
  set (c := dm_cindex dm (mb_functionAtCorner mb k it) k).
  assert (Hc : c ∈ corner_cindices mb dm).
  { unfold corner_cindices. apply list_elem_of_bind. exists k.
    split; [|apply elem_of_seq; lia].
    apply list_elem_of_bind. exists it. split; [|done].
    rewrite Hcoupled. by left. }
  exists c. split; [apply elem_of_seq; specialize (Hcorner eq_refl c Hc); lia|].
  simpl andb. cbv iota. rewrite bool_decide_eq_true_2 by done.
  simpl length. change (expected_rows true (Z.of_nat 0)) with 0%Z.
  apply expected_rows_redundant_pos.
  assert (1 < length (occurrences dm c)); [|lia].
  apply Hocc, elem_of_seq. specialize (Hcorner eq_refl c Hc). lia.
Qed.

(** X12. In the minimal mode, [computeJumpMatrices] with
    [excludeCorners] completes only when no corner function of any patch
    is coupled: the count of line 534 takes one off for a group that was
    emptied, while no row is taken back, and the check of line 564 stops
    the run. *)
Theorem X12_exclude_corners_minimal s s' :
  consistent s ->
  computeJumpMatrices false true s = (Ok tt, s') ->
  let dm := m_dofMapperGlobal s in
  let mb := m_multiBasis s in
  forall k it,
    k < dm_numPatches dm -> it ∈ boxCorners (mb_dim mb) ->
    dm_is_coupled_index dm (dm_index dm (mb_functionAtCorner mb k it) k)
    = false.
Proof.
  intros Hcons Hrun dm mb k it Hk Hit.
  destruct (computeJumpMatrices_groups _ _ _ _ Hcons Hrun)
    as (Hcorner & Hcount & _).
  fold dm mb in Hcorner, Hcount.
  apply count_multipliers_Ok in Hcount as [HN _].
  rewrite all_rows_minimal in HN.
  destruct (dm_is_coupled_index dm
              (dm_index dm (mb_functionAtCorner mb k it) k)) eqn:Hcoupled;
    [exfalso|done].
  set (c := dm_cindex dm (mb_functionAtCorner mb k it) k).
  assert (Hc : c ∈ corner_cindices mb dm).
  { unfold corner_cindices. apply list_elem_of_bind. exists k.
    split; [|apply elem_of_seq; lia].
    apply list_elem_of_bind. exists it. split; [|done].
    rewrite Hcoupled. by left. }
  assert (Hin : [] ∈ filter (fun group : list (nat * nat) => group = [])
                       (coupling_groups mb dm true)).
  { apply list_elem_of_filter. split; [done|].
    unfold coupling_groups. apply list_elem_of_fmap. exists c. split.
    - simpl andb. by rewrite bool_decide_eq_true_2.
    - apply elem_of_seq. specialize (Hcorner eq_refl c Hc). lia. }
  destruct (filter _ (coupling_groups mb dm true)) as [|g l];
    [by apply elem_of_nil in Hin|].
  simpl length in HN. lia.
Qed.

(** X19. The rows of a completed run connect the occurrences of every
    coupled dof whose group was not emptied: for the occurrences at the
    positions [j1 < j2] of its group, with [j1 = 0] unless the rows are
    fully redundant, there is a row with +1 at the first and -1 at the
    second.  So in the minimal mode the first occurrence is set against
    every other, and in the fully redundant mode every two occurrences
    are set against each other. *)
Theorem X19_jump_rows_connect fr ec s s' :
  consistent s ->
  computeJumpMatrices fr ec s = (Ok tt, s') ->
  let dm := m_dofMapperGlobal s in
  forall c j1 j2 o1 o2,
    c < dm_coupledSize dm ->
    (ec = true -> c ∉ corner_cindices (m_multiBasis s) dm) ->
    occurrences dm c !! j1 = Some o1 ->
    occurrences dm c !! j2 = Some o2 ->
    j1 < j2 -> (fr = false -> j1 = 0) ->
    exists r jm1 jm2,
      m_jumpMatrices s' !! o1.1 = Some jm1 /\
      m_jumpMatrices s' !! o2.1 = Some jm2 /\
      (0 <= r < jm_rows jm1)%Z /\ jm_rows jm2 = jm_rows jm1 /\
      (r, o1.2, T1) ∈ jm_entries jm1 /\
      (r, o2.2, Tm1) ∈ jm_entries jm2.
Proof.
  intros Hcons Hrun dm c j1 j2 o1 o2 Hc Hcorner H1 H2 Hlt Hfr.
  destruct (computeJumpMatrices_groups _ _ _ _ Hcons Hrun)
    as (_ & _ & Hlen & Hrows & Hent).
  fold dm in Hlen, Hrows, Hent.
  set (coupling := coupling_groups (m_multiBasis s) dm ec) in *.
  assert (Hp : (o1, o2) ∈ all_pairs fr coupling).
  { unfold all_pairs. apply list_elem_of_bind. exists (occurrences dm c).
    split.
    - apply elem_of_group_pairs_iff. exists j1, j2. auto.
    - unfold coupling, coupling_groups. apply list_elem_of_fmap. exists c.
      split; [|apply elem_of_seq; lia].
      destruct ec; [|done]. simpl andb.
      by rewrite bool_decide_eq_false_2 by by apply Hcorner. }
  apply list_elem_of_lookup in Hp as [t Ht].
  assert (Ho1 : o1.1 < dm_numPatches dm).
  { apply list_elem_of_lookup_2, elem_of_occurrences in H1.
    by destruct H1 as (_ & ? & _). }
  assert (Ho2 : o2.1 < dm_numPatches dm).
  { apply list_elem_of_lookup_2, elem_of_occurrences in H2.
    by destruct H2 as (_ & ? & _). }
  rewrite <- Hlen in Ho1, Ho2.
  destruct (lookup_lt_is_Some_2 _ _ Ho1) as [jm1 Hjm1].
  destruct (lookup_lt_is_Some_2 _ _ Ho2) as [jm2 Hjm2].
  exists (Z.of_nat t), jm1, jm2.
  split; [done|]. split; [done|].
  rewrite (Hrows jm1) by by eapply list_elem_of_lookup_2.
  rewrite (Hrows jm2) by by eapply list_elem_of_lookup_2.
  split; [apply lookup_lt_Some in Ht; lia|]. split; [done|].
  rewrite (Hent _ _ Hjm1), (Hent _ _ Hjm2). split.
  - apply (entries_from_elem _ 0 t (o1, o2)); [done|].
    unfold pair_entries. simpl. rewrite decide_True by done.
    apply elem_of_app. left. by left.
  - apply (entries_from_elem _ 0 t (o1, o2)); [done|].
    unfold pair_entries. simpl. rewrite (decide_True (P:=o2.1 = o2.1)) by done.
    apply elem_of_app. right. by left.
Qed.
End JumpMore.

(** ** The order of the constraints, the arguments of the interface
    averages, and failures of the reconstruction *)

Section Behaviour.
Context `{Scalar T}.
Variable assembleAverage :
  gsMultiPatch -> gsMultiBasis -> nat -> gsDofMapperLocal -> patchComponent ->
  SparseVector T.
Implicit Types s : gsIetiMapper T.

(** X13. [constr_helper::operator<] is a strict weak order, as
    [std::sort] asks for: it is irreflexive, asymmetric and transitive,
    two constraints are equivalent (neither is less) exactly when their
    lists of global indices are equal, and a shorter list comes first.
    The vector and the patch of a constraint play no part. *)
Theorem X13_constraint_order (a b c : constr_helper T) :
  constr_helper_lt a a = false /\
  (constr_helper_lt a b = true -> constr_helper_lt b a = false) /\
  (constr_helper_lt a b = true -> constr_helper_lt b c = true ->
   constr_helper_lt a c = true) /\
  (constr_helper_lt a b = false /\ constr_helper_lt b a = false <->
   ch_globalIndices a = ch_globalIndices b) /\
  (length (ch_globalIndices a) < length (ch_globalIndices b) ->
   constr_helper_lt a b = true) /\
  (ch_globalIndices a = ch_globalIndices b ->
   constr_helper_lt a c = constr_helper_lt b c /\
   constr_helper_lt c a = constr_helper_lt c b).
Proof.
  rewrite !constr_helper_lt_signature.
  split; [apply signature_lt_irrefl|].
  split; [apply signature_lt_asym|].
  split; [apply signature_lt_trans|].
  split; [|split].
  - split.
    + intros [Hab Hba]. by apply signature_lt_total.
    + intros ->. by rewrite signature_lt_irrefl.
  - intros Hlen. unfold signature_lt.
    destruct (length (ch_globalIndices a) =? length (ch_globalIndices b))
      eqn:E; [apply Nat.eqb_eq in E; lia|].
    simpl. by apply Nat.ltb_lt.
  - intros ->. done.
Qed.

(** X14. On an initialised object, [interfaceAveragesAsPrimals] refuses,
    with a configuration error and before it changes anything or looks at
    its flag, a dimension that is not positive or larger than that of the
    bases, and a geometry with another number of patches or another
    dimension.  With arguments that pass, called for the first time for a
    dimension of which the geometry has no component, it only sets the
    flag of that dimension. *)
Theorem X14_interface_arguments geo d s :
  has_flag (m_status s) 1 = true ->
  let mb := m_multiBasis s in
  (((d <= 0)%Z \/ (mb_dim mb < d)%Z \/ mp_nPatches geo <> mb_nBases mb \/
    mp_parDim geo <> mb_dim mb) ->
   interfaceAveragesAsPrimals assembleAverage geo d s
   = (Err ConfigurationError, s)) /\
  ((0 < d <= mb_dim mb)%Z -> mp_nPatches geo = mb_nBases mb ->
   mp_parDim geo = mb_dim mb ->
   has_flag (m_status s) (Z.shiftl 1 (3 + d)) = false ->
   Forall (fun component =>
             exists c0, component !! 0 = Some c0 /\ pc_dim c0 <> d)
          (mp_allComponents geo) ->
   interfaceAveragesAsPrimals assembleAverage geo d s
   = (Ok tt, set_status (Z.lor (m_status s) (Z.shiftl 1 (3 + d))) s)).
Proof.
  intros Hinit mb. split.
  - intros Hbad. unfold interfaceAveragesAsPrimals, assert_initialized.
    rewrite bind_assoc, bind_gets, Hinit, bind_assert_true, bind_gets.
    fold mb.
    destruct (0 <? d)%Z eqn:E1; [rewrite bind_assert_true|done].
    destruct (d <=? mb_dim mb)%Z eqn:E2; [rewrite bind_assert_true|done].
    destruct (mp_nPatches geo =? mb_nBases mb) eqn:E3;
      [rewrite bind_assert_true|done].
    destruct (mp_parDim geo =? mb_dim mb)%Z eqn:E4;
      [rewrite bind_assert_true|done].
    apply Z.ltb_lt in E1. apply Z.leb_le in E2. apply Nat.eqb_eq in E3.
    apply Z.eqb_eq in E4. lia.
  - intros [Hd1 Hd2] Hn Hp Hflag Hcomp.
    unfold interfaceAveragesAsPrimals, assert_initialized.
    rewrite bind_assoc, bind_gets, Hinit, bind_assert_true, bind_gets.
    fold mb.
    rewrite (proj2 (Z.ltb_lt 0 d) Hd1), bind_assert_true.
    rewrite (proj2 (Z.leb_le d (mb_dim mb)) Hd2), bind_assert_true.
    rewrite Hn, Nat.eqb_refl, bind_assert_true.
    rewrite Hp, Z.eqb_refl, bind_assert_true.
    cbv zeta. rewrite bind_gets, Hflag. simpl negb.
    rewrite bind_assert_true, bind_modify.
    generalize (set_status (Z.lor (m_status s) (Z.shiftl 1 (3 + d))) s).
    induction Hcomp as [|component l (c0 & Hc0 & Hdim) _ IH]; intros st;
      [done|].
    apply get_Ok in Hc0. apply Z.eqb_neq in Hdim.
    simpl forM_. rewrite bind_assoc, Hc0, bind_lift_Ok, Hdim, bind_ret.
    apply IH.
Qed.

(** X15. [constructGlobalSolutionFromLocalSolutions] never changes the
    object.  On an initialised object it refuses a list of local
    contributions whose length is not the number of patches; and on an
    initialised, consistent object it completes, with one row for every
    free global dof, as soon as there is one contribution for every
    patch, every pair it copies has a global index among the free dofs,
    and the contributions have a row of the width of the first one for
    every pair it copies. *)
Theorem X15_reconstruction_completes (lc : list (Matrix T)) s :
  (constructGlobalSolutionFromLocalSolutions lc s).2 = s /\
  (has_flag (m_status s) 1 = true ->
   length lc <> dm_numPatches (m_dofMapperGlobal s) ->
   constructGlobalSolutionFromLocalSolutions lc s
   = (Err ConfigurationError, s)) /\
  (has_flag (m_status s) 1 = true -> consistent s ->
   length lc = dm_numPatches (m_dofMapperGlobal s) ->
   forall m0, lc !! 0 = Some m0 ->
   (forall ki, ki ∈ basis_dofs (m_multiBasis s) (m_dofMapperGlobal s) ->
      copied (m_dofMapperGlobal s) ki = true ->
      global_index (m_dofMapperGlobal s) ki
        < dm_freeSize (m_dofMapperGlobal s) /\
      exists row, contrib_row (m_dofMapperGlobal s) lc ki = Some row /\
                  length row = mat_cols m0) ->
   exists R,
     constructGlobalSolutionFromLocalSolutions lc s = (Ok R, s) /\
     mat_cols R = mat_cols m0 /\
     length (mat_data R) = dm_freeSize (m_dofMapperGlobal s)).
Proof.
  split; [|split].
  - assert (Hm : mono (fun s s' : gsIetiMapper T => s' = s)
                      (constructGlobalSolutionFromLocalSolutions lc)).
    { assert (Hr : forall s : gsIetiMapper T, s = s) by done.
      assert (Ht : forall s1 s2 s3 : gsIetiMapper T,
                s2 = s1 -> s3 = s2 -> s3 = s1) by (intros; congruence).
      unfold constructGlobalSolutionFromLocalSolutions, assert_initialized.
      repeat mono_step. }
    apply Hm.
  - intros Hinit Hlen. rewrite (construct_unfold _ _ Hinit).
    apply Nat.eqb_neq in Hlen. rewrite Nat.eqb_sym in Hlen.
    by rewrite Hlen.
  - intros Hinit Hcons Hlen m0 Hm0 Hrows.
    set (dm := m_dofMapperGlobal s) in *. set (mb := m_multiBasis s) in *.
    rewrite (construct_unfold _ _ Hinit). fold dm mb.
    rewrite Hlen, Nat.eqb_refl. simpl check. rewrite rbind_ret.
    unfold get at 1. rewrite Hm0, rbind_ret.
    rewrite (foldM_ext _
      (fun R ki =>
         if copied dm ki then
           match contrib_row dm lc ki with
           | Some row => mat_set_row R (global_index dm ki) row
           | None => Err OutOfRange
           end
         else Ok R))
      by (intros ki R Hki; by apply reconstruct_step_eq).
    destruct (reconstruct_fold_total dm lc (basis_dofs mb dm)
                (mat_zero (dm_freeSize dm) (mat_cols m0))) as [R HR].
    { intros ki Hki Hc. simpl. rewrite length_replicate. by apply Hrows. }
    exists R. rewrite HR. split; [done|].
    apply reconstruct_fold_rows in HR as (Hcols & Hl & _).
    simpl in Hcols, Hl. rewrite length_replicate in Hl. done.
Qed.
End Behaviour.

(** ** The primal dof indices *)

Lemma filter_fst_length {A B} (l1 : list (nat * A)) (l2 : list (nat * B)) p :
  l1.*1 = l2.*1 ->
  length (filter (fun it => it.1 = p) l1)
  = length (filter (fun it => it.1 = p) l2).
Proof.
  revert l2. induction l1 as [|x l1 IH]; intros [|y l2] E; try done.
  rewrite !fmap_cons in E. injection E as E1 E.
  rewrite !filter_cons. rewrite <- E1.
  destruct (decide (x.1 = p)); simpl; by rewrite (IH l2).
Qed.

Lemma kept_bind_fst {T}
    (passes : list (list (constr_helper T) * list (option Z))) :
  (passes ≫= fun pass => kept_rows pass.1 pass.2).*1
  = (passes ≫= fun pass => kept_ids pass.1 pass.2).*1.
Proof.
  induction passes as [|pass passes IH]; [done|].
  by rewrite !bind_cons, !fmap_app, IH, kept_fst.
Qed.

Section Primal.
Context `{Scalar T}.
Variable assembleAverage :
  gsMultiPatch -> gsMultiBasis -> nat -> gsDofMapperLocal -> patchComponent ->
  SparseVector T.
Implicit Types s : gsIetiMapper T.

(** Registering rows and ids for the same patches, the ids among the new
    primal dofs. *)
Lemma primal_ids_extend s s' (rows : list (nat * SparseVector T))
    (ids : list (nat * Z)) :
  primal_ids_valid s ->
  (m_nPrimalDofs s <= m_nPrimalDofs s')%Z ->
  m_primalConstraints s' = register (m_primalConstraints s) rows ->
  m_primalDofIndices s' = register (m_primalDofIndices s) ids ->
  rows.*1 = ids.*1 ->
  (forall it, it ∈ ids -> (m_nPrimalDofs s <= it.2 < m_nPrimalDofs s')%Z) ->
  primal_ids_valid s'.
Proof.
  intros [Hn Hv] Hle Hpc Hpd Hfst Hrange. split; [lia|].
  intros p r i Hr Hi. rewrite Hpc, register_lookup in Hr.
  rewrite Hpd, register_lookup in Hi.
  destruct (m_primalConstraints s !! p) as [r0|] eqn:E1; [|done].
  destruct (m_primalDofIndices s !! p) as [i0|] eqn:E2; [|done].
  simpl in Hr, Hi. injection Hr as <-. injection Hi as <-.
  destruct (Hv p r0 i0 E1 E2) as [Hl Hf]. split.
  - rewrite !length_app, !length_fmap, Hl.
    by rewrite (filter_fst_length rows ids).
  - apply Forall_app. split.
    + eapply Forall_impl; [exact Hf|]. simpl. intros z Hz. lia.
    + apply Forall_forall. intros z Hz.
      apply list_elem_of_fmap in Hz as (it & -> & Hit).
      apply list_elem_of_filter in Hit as [_ Hit].
      specialize (Hrange it Hit). lia.
Qed.

(** Registering ids that take up every new primal dof. *)
Lemma primal_ids_cover_extend s s' (ids : list (nat * Z)) :
  primal_ids_covered s ->
  m_primalDofIndices s' = register (m_primalDofIndices s) ids ->
  (forall z, (m_nPrimalDofs s <= z < m_nPrimalDofs s')%Z ->
             exists p, (p, z) ∈ ids /\ p < length (m_primalDofIndices s)) ->
  primal_ids_covered s'.
Proof.
  intros Hcov Hpd Hnew z Hz.
  destruct (decide (z < m_nPrimalDofs s)%Z) as [Hlt|Hge].
  - destruct (Hcov z) as (p & old & Hold & Hin); [lia|].
    exists p, (old ++ (snd <$> filter (fun it => it.1 = p) ids)).
    rewrite Hpd, register_lookup, Hold. split; [done|].
    apply elem_of_app. by left.
  - destruct (Hnew z) as (p & Hin & Hp); [lia|].
    destruct (lookup_lt_is_Some_2 _ _ Hp) as [old Hold].
    exists p, (old ++ (snd <$> filter (fun it => it.1 = p) ids)).
    rewrite Hpd, register_lookup, Hold. split; [done|].
    apply elem_of_app. right. apply list_elem_of_fmap. exists (p, z).
    split; [done|]. by apply list_elem_of_filter.
Qed.

(** What a completed call of a builder registers, when the counter has
    room: rows and ids for the same patches, the ids being exactly the
    new values of the counter, each on a patch of the object. *)
Lemma run_builder_registers (b : builder_call T) s s' :
  consistent s ->
  counter_fits (m_nPrimalDofs s) (added_primal_dofs assembleAverage b s) ->
  run_builder assembleAverage b s = (Ok tt, s') ->
  (m_nPrimalDofs s <= m_nPrimalDofs s')%Z /\
  exists (rows : list (nat * SparseVector T)) (ids : list (nat * Z)),
    m_primalConstraints s' = register (m_primalConstraints s) rows /\
    m_primalDofIndices s' = register (m_primalDofIndices s) ids /\
    rows.*1 = ids.*1 /\
    (forall it, it ∈ ids ->
       (m_nPrimalDofs s <= it.2 < m_nPrimalDofs s')%Z /\
       it.1 < length (m_primalDofIndices s)) /\
    (b <> CustomPrimalConstraints [] ->
     forall z, (m_nPrimalDofs s <= z < m_nPrimalDofs s')%Z ->
               exists p, (p, z) ∈ ids).
Proof.
  intros Hcons Hfits Hrun.
  destruct (run_builder_added assembleAverage b s s' Hcons Hfits Hrun)
    as [H0 Hn]. unfold nPrimalDofs in Hn.
  split; [lia|].
  destruct b as [|geo d|data]; simpl in Hfits, Hrun, Hn.
  - destruct (cornersAsPrimals_fits s s' Hcons Hfits Hrun)
      as (_ & _ & Hids & Hpc & Hpd & Hrange).
    set (corners := std_sort dof_helper_lt _) in *.
    set (ids := corner_ids (-1) (m_nPrimalDofs s) corners) in *.
    assert (Hlen : length ids = length corners) by apply corner_ids_length.
    eexists _, _. split; [exact Hpc|]. split; [exact Hpd|]. split; [|split].
    + rewrite <- list_fmap_compose. rewrite fst_zip; [done|].
      rewrite length_fmap. lia.
    + intros [p z] Hit. simpl.
      apply list_elem_of_lookup in Hit as [i Hi].
      apply lookup_zip_with_Some in Hi as (p' & z' & [= <- <-] & Hp & Hz).
      apply list_lookup_fmap_Some in Hp as (c & -> & Hc).
      split; [apply Hids; by eapply list_elem_of_lookup_2|].
      destruct (Hrange c) as [Hp _]; [by eapply list_elem_of_lookup_2|].
      destruct Hcons as (_ & _ & -> & _). exact Hp.
    + intros _ z Hz. apply Hids in Hz.
      apply list_elem_of_lookup in Hz as [i Hi].
      destruct (lookup_lt_is_Some_2 corners i) as [c Hc].
      { apply lookup_lt_Some in Hi. lia. }
      exists (dh_patch c). apply list_elem_of_lookup. exists i.
      apply lookup_zip_with_Some. exists (dh_patch c), z.
      split; [done|]. split; [|done]. by rewrite list_lookup_fmap, Hc.
  - destruct (interfaceAveragesAsPrimals_Ok assembleAverage geo d s s'
                Hfits Hrun)
      as (_ & passes & HF & _ & Hids & Hpc & Hpd & Hpatch).
    eexists _, _. split; [exact Hpc|]. split; [exact Hpd|]. split; [|split].
    + apply kept_bind_fst.
    + intros it Hit. split; [|by apply Hpatch].
      apply list_elem_of_bind in Hit as (pass & Hit & Hpass).
      apply elem_of_kept_ids in Hit as (i & c & _ & Hi & _).
      apply Hids. exists pass. split; [done|].
      by eapply list_elem_of_lookup_2.
    + intros _ z Hz. apply Hids in Hz as (pass & Hpass & Hz).
      apply list_elem_of_lookup in Hz as [i Hi].
      destruct (lookup_lt_is_Some_2 pass.1 i) as [c Hc].
      { pose proof Hpass as [a Ha]%list_elem_of_lookup.
        destruct (Forall2_lookup_r _ _ _ _ _ HF Ha)
          as (comp & _ & collected & _ & _ & _ & Hl & _).
        apply lookup_lt_Some in Hi. lia. }
      exists (ch_patch c). apply list_elem_of_bind. exists pass.
      split; [|done]. apply elem_of_kept_ids. by exists i, c.
  - unfold customPrimalConstraints, assert_initialized in Hrun.
    run_steps Hrun.
    apply bind_Ok in Hrun as ([] & s1 & Hloop & Hret).
    pose proof (custom_loop_Ok _ _ _ Hloop) as Hin.
    assert (Hlen : length (m_primalDofIndices s)
                   = length (m_primalConstraints s))
      by (by destruct Hcons as (_ & -> & -> & _)).
    rewrite custom_loop_run in Hloop; [|done..].
    injection Hloop as <-. unfold modify in Hret. injection Hret as <-.
    simpl in Hn |- *.
    eexists _, _. split; [reflexivity|]. split; [reflexivity|].
    split; [|split].
    + by rewrite <- list_fmap_compose.
    + intros it (dd & -> & Hdd)%list_elem_of_fmap. simpl.
      split; [lia|]. rewrite Forall_forall in Hin.
      specialize (Hin dd Hdd). lia.
    + intros Hdata z Hz. destruct data as [|d0 data]; [done|].
      exists d0.1. replace z with (m_nPrimalDofs s) by lia.
      rewrite fmap_cons. left.
Qed.

(** X21. The primal bookkeeping stays in agreement: after [init], and
    after every builder of primal constraints that completes on a
    consistent object whose counter has room for the primal dofs added,
    each constraint of a patch has its primal dof index and every index
    is at least 0 and below the number of primal dofs, which has not
    decreased. *)
Theorem X21_primal_ids_valid :
  (forall mb dm fp s s',
     init mb dm fp s = (Ok tt, s') -> primal_ids_valid s') /\
  (forall (b : builder_call T) s s',
     consistent s -> primal_ids_valid s ->
     counter_fits (m_nPrimalDofs s)
                  (added_primal_dofs assembleAverage b s) ->
     run_builder assembleAverage b s = (Ok tt, s') ->
     primal_ids_valid s' /\ (m_nPrimalDofs s <= m_nPrimalDofs s')%Z).
Proof.
  split.
  - intros mb dm fp s s' Hrun.
    destruct (init_state _ _ _ _ _ Hrun) as (_ & Hpc & Hpd & _).
    destruct (init_Ok _ _ _ _ _ Hrun) as (_ & _ & _ & _ & Hn & _).
    split; [lia|]. intros p r i Hr Hi.
    rewrite Hpc in Hr. rewrite Hpd in Hi.
    apply lookup_replicate in Hr as [-> _].
    apply lookup_replicate in Hi as [-> _]. by split.
  - intros b s s' Hcons Hvalid Hfits Hrun.
    destruct (run_builder_registers b s s' Hcons Hfits Hrun)
      as (Hle & rows & ids & Hpc & Hpd & Hfst & Hids & _).
    split; [|done].
    apply (primal_ids_extend s s' rows ids); try done.
    intros it Hit. by apply Hids.
Qed.

(** X22. Every primal dof has a constraint, with one exception.  After
    [init] there is no primal dof; a completed [cornersAsPrimals] or
    [interfaceAveragesAsPrimals], and a completed
    [customPrimalConstraints] that is given at least one constraint,
    leave every primal dof counted with a constraint on some patch if it
    was so before, as long as the counter has room for the primal dofs
    added.  [customPrimalConstraints] without any constraint, below the
    largest value of the counter, counts a primal dof that has no
    constraint on any patch. *)
Theorem X22_primal_ids_covered :
  (forall mb dm fp s s',
     init mb dm fp s = (Ok tt, s') -> primal_ids_covered s') /\
  (forall (b : builder_call T) s s',
     consistent s -> primal_ids_covered s ->
     counter_fits (m_nPrimalDofs s)
                  (added_primal_dofs assembleAverage b s) ->
     b <> CustomPrimalConstraints [] ->
     run_builder assembleAverage b s = (Ok tt, s') ->
     primal_ids_covered s') /\
  (forall s s',
     consistent s -> primal_ids_valid s ->
     (m_nPrimalDofs s < index_max)%Z ->
     customPrimalConstraints [] s = (Ok tt, s') ->
     ~ primal_ids_covered s').
Proof.
  split; [|split].
  - intros mb dm fp s s' Hrun z Hz.
    destruct (init_Ok _ _ _ _ _ Hrun) as (_ & _ & _ & _ & Hn & _). lia.
  - intros b s s' Hcons Hcov Hfits Hb Hrun.
    destruct (run_builder_registers b s s' Hcons Hfits Hrun)
      as (_ & rows & ids & _ & Hpd & _ & Hids & Hall).
    apply (primal_ids_cover_extend s s' ids Hcov Hpd).
    intros z Hz. destruct (Hall Hb z Hz) as [p Hp].
    exists p. split; [done|]. exact (proj2 (Hids _ Hp)).
  - intros s s' Hcons [Hn Hv] Hmax Hrun Hcov.
    unfold customPrimalConstraints, assert_initialized in Hrun.
    run_steps Hrun. simpl in Hrun. unfold modify in Hrun.
    injection Hrun as <-.
    assert (E : wrap_index (m_nPrimalDofs s + 1) = (m_nPrimalDofs s + 1)%Z).
    { apply wrap_index_id. unfold index_range, index_min, index_bits.
      split; simpl; lia. }
    destruct (Hcov (m_nPrimalDofs s)) as (p & ids & Hids & Hin).
    { simpl. rewrite E. lia. }
    simpl in Hids.
    destruct (lookup_lt_is_Some_2 (m_primalConstraints s) p) as [rows Hrows].
    { apply lookup_lt_Some in Hids.
      destruct Hcons as (_ & E1 & E2 & _). lia. }
    destruct (Hv p rows ids Hrows Hids) as [_ Hf].
    rewrite Forall_forall in Hf. apply Hf in Hin. lia.
Qed.
End Primal.

(** ** The constraints of a component *)

Section Collect.
Context `{Scalar T}.
Variable assembleAverage :
  gsMultiPatch -> gsMultiBasis -> nat -> gsDofMapperLocal -> patchComponent ->
  SparseVector T.

Lemma sorted_indices (l : list nat) :
  StronglySorted le (std_sort Nat.ltb l).
Proof.
  assert (Hs : StronglySorted (not_after Nat.ltb) (std_sort Nat.ltb l)).
  { apply std_sort_sorted.
    - intros a b Hab%Nat.ltb_lt. apply Nat.ltb_ge. lia.
    - intros a b c Hab%Nat.ltb_ge Hbc%Nat.ltb_ge. apply Nat.ltb_ge. lia. }
  induction Hs as [|x xs Hs IH Hx]; constructor; [done|].
  eapply Forall_impl; [exact Hx|]. intros y Hy%Nat.ltb_ge. done.
Qed.

(** The loop of lines 381-383: [ok] stays true only when the table has an
    entry for every stored row of the vector. *)
Lemma all_nonzero (which : list nat) (nz : list (nat * T)) (b : bool) :
  foldM (fun ok (v_it : nat * T) =>
           w ← get which v_it.1; mret (if w =? 0 then false else ok))
        nz b = Ok true ->
  b = true /\
  forall row x, (row, x) ∈ nz -> exists w, which !! row = Some (S w).
Proof.
  revert b. induction nz as [|[row0 x0] nz IH]; intros b Hok.
  - injection Hok as ->. split; [done|].
    intros row x Hrow. by apply elem_of_nil in Hrow.
  - simpl in Hok. destruct (get which row0) as [w|] eqn:Hw; [|discriminate].
    apply get_Ok in Hw. apply IH in Hok as [Hb Hnz].
    destruct w as [|w]; [discriminate|]. simpl in Hb. split; [done|].
    intros row x [[= -> ->]|Hrow]%elem_of_cons; eauto.
Qed.

(** Storing into a sparse vector. *)
Lemma elem_of_nz_set (i : nat) (x : T) (nz : list (nat * T)) e :
  e ∈ nz_set i x nz -> e = (i, x) \/ e ∈ nz.
Proof.
  induction nz as [|[j y] nz IH]; simpl.
  - intros ->%list_elem_of_singleton. by left.
  - destruct (i <? j); [|destruct (i =? j)].
    + intros [->|He]%elem_of_cons; [by left|by right].
    + intros [->|He]%elem_of_cons; [by left|]. right. by right.
    + intros [->|He]%elem_of_cons; [right; by left|].
      destruct (IH He) as [->|?]; [by left|]. right. by right.
Qed.

Lemma nz_set_stored (i : nat) (x : T) (nz : list (nat * T)) :
  (i, x) ∈ nz_set i x nz.
Proof.
  induction nz as [|[j y] nz IH]; simpl; [by left|].
  destruct (i <? j); [by left|]. destruct (i =? j); [by left|by right].
Qed.

Lemma nz_set_keeps (i : nat) (x : T) (nz : list (nat * T)) j y :
  (j, y) ∈ nz -> exists y', (j, y') ∈ nz_set i x nz.
Proof.
  induction nz as [|[j0 y0] nz IH]; simpl; [by intros ?%elem_of_nil|].
  intros [[= -> ->]|Hj]%elem_of_cons.
  - destruct (i <? j0) eqn:E1; [exists y0; right; by left|].
    destruct (Nat.eqb_spec i j0) as [->|Hne]; [exists x; by left|].
    exists y0. by left.
  - destruct (i <? j0); [exists y; right; by right|].
    destruct (i =? j0); [exists y; by right|].
    destruct (IH Hj) as [y' Hy']. exists y'. by right.
Qed.

(** The loop of lines 390-394: the row of a copy. *)
Lemma copy_vector_Ok (which : list nat) lm2 (nz : list (nat * T)) :
  forall vec0 vec : SparseVector T,
    foldM (fun vec (v_it : nat * T) =>
             w ← get which v_it.1;
             idx ← lm_index lm2 (w - 1);
             sv_set vec idx v_it.2) nz vec0 = Ok vec ->
    (forall row x, (row, x) ∈ nz -> exists w, which !! row = Some (S w)) ->
    sv_size vec = sv_size vec0 /\
    (forall idx x,
       (idx, x) ∈ sv_nz vec ->
       (idx, x) ∈ sv_nz vec0 \/
       exists row w, (row, x) ∈ nz /\ which !! row = Some (S w) /\
                     lm_index lm2 w = Ok idx) /\
    (forall row x,
       (row, x) ∈ nz ->
       exists w idx x', which !! row = Some (S w) /\
                        lm_index lm2 w = Ok idx /\ (idx, x') ∈ sv_nz vec) /\
    (forall j y, (j, y) ∈ sv_nz vec0 -> exists y', (j, y') ∈ sv_nz vec).
Proof.
  induction nz as [|[row0 x0] nz IH]; intros vec0 vec Hrun Hall.
  - injection Hrun as <-. split; [done|]. split; [by left|].
    split; [by intros ? ? ?%elem_of_nil|]. eauto.
  - simpl in Hrun.
    destruct (Hall row0 x0) as [w0 Hw0]; [by left|].
    apply get_Ok in Hw0 as Hget. rewrite Hget, rbind_ret in Hrun.
    replace (S w0 - 1) with w0 in Hrun by lia.
    destruct (lm_index lm2 w0) as [idx0|] eqn:Hidx; [|discriminate].
    rewrite rbind_ret in Hrun. unfold sv_set in Hrun.
    destruct (check _ _); [|discriminate]. rewrite rbind_ret in Hrun.
    apply IH in Hrun as (Hsz & Hfrom & Hto & Hkeys).
    2:{ intros row x Hrow. apply (Hall row x). by right. }
    simpl in Hsz, Hfrom, Hkeys. split; [done|]. split; [|split].
    + intros idx x Hin. destruct (Hfrom idx x Hin) as [Hold|Hnew].
      * apply elem_of_nz_set in Hold as [[= -> ->]|Hold]; [|by left].
        right. exists row0, w0. split; [by left|done].
      * destruct Hnew as (row & w & Hrow & Hw & Hi). right.
        exists row, w. split; [by right|done].
    + intros row x [[= -> ->]|Hrow]%elem_of_cons; [|exact (Hto _ _ Hrow)].
      destruct (Hkeys idx0 x0 (nz_set_stored _ _ _)) as [x' Hx'].
      by exists w0, idx0, x'.
    + intros j y Hj. destruct (nz_set_keeps idx0 x0 _ j y Hj) as [y1 Hy1].
      by apply (Hkeys j y1).
Qed.

(** Lines 376-402 add copies of the constraint, on patches for which the
    patch of the constraint keeps a table. *)
Lemma transfer_to_artificial_Ok locals info (c : constr_helper T) cs cs' :
  transfer_to_artificial locals info c cs = Ok cs' ->
  exists copies,
    cs' = cs ++ copies /\
    Forall (fun c2 => exists which lm2,
                        (ch_patch c2, which) ∈ info /\
                        locals !! ch_patch c2 = Some lm2 /\
                        copy_of lm2 which c c2) copies.
Proof.
  unfold transfer_to_artificial. intros Hrun.
  pose (P := fun c2 : constr_helper T =>
    exists which lm2,
      (ch_patch c2, which) ∈ info /\
      locals !! ch_patch c2 = Some lm2 /\ copy_of lm2 which c c2).
  cut (exists copies, cs' = cs ++ copies /\ Forall P copies); [done|].
  refine (foldM_invariant_in
    (fun _ acc => exists copies, acc = cs ++ copies /\ Forall P copies)
    _ _ _ _ _ _ Hrun).
  - clear Hrun cs'. intros pre [k2 which] acc acc' Hin (copies & -> & HP) Hstep.
    cbv beta in Hstep. simpl in Hstep.
    destruct (foldM _ (sv_nz (ch_vector c)) true) as [ok|] eqn:Hok;
      [|discriminate].
    rewrite rbind_ret in Hstep.
    destruct ok; [|injection Hstep as <-; eauto].
    destruct (get locals k2) as [lm2|] eqn:Hlm2; [|discriminate].
    rewrite rbind_ret in Hstep.
    destruct (foldM _ (sv_nz (ch_vector c)) (sv_new (lm_freeSize lm2)))
      as [vector2|] eqn:Hvec; [|discriminate].
    rewrite rbind_ret in Hstep. injection Hstep as <-.
    eexists. split; [by rewrite <- app_assoc|].
    apply Forall_app. split; [done|]. apply Forall_singleton.
    exists which, lm2. simpl.
    split; [done|]. split; [by apply get_Ok|].
    destruct (all_nonzero _ _ _ Hok) as [_ Hall].
    destruct (copy_vector_Ok _ _ _ _ _ Hvec Hall) as (Hsz & Hfrom & Hto & _).
    split; [done|]. split; [done|]. split; [|done].
    intros idx x Hin'. destruct (Hfrom idx x Hin') as [Hnil|Hnew]; [|done].
    by apply elem_of_nil in Hnil.
  - exists []. by rewrite app_nil_r.
Qed.

(** The constraints that lines 350-407 collect for a component. *)
Lemma collect_constraints_Ok geo mb dm locals artificial status
    component cs :
  collect_constraints assembleAverage geo mb dm locals artificial status
                      component = Ok cs ->
  (forall c, c ∈ cs ->
     StronglySorted le (ch_globalIndices c) /\
     exists pc lm,
       pc ∈ component /\ locals !! pc_patch pc = Some lm /\
       let v := assembleAverage geo mb (pc_patch pc) lm pc in
       let original :=
         {| ch_globalIndices :=
              std_sort Nat.ltb (support_indices dm lm (pc_patch pc) v);
            ch_vector := v; ch_patch := pc_patch pc |} in
       sv_nz v <> [] /\
       ch_globalIndices c ≡ₚ support_indices dm lm (pc_patch pc) v /\
       (c = original \/
        (has_flag status 2 = true /\
         exists info which lm2,
           artificial !! pc_patch pc = Some info /\
           (ch_patch c, which) ∈ info /\
           locals !! ch_patch c = Some lm2 /\
           copy_of lm2 which original c))) /\
  (forall pc lm,
     pc ∈ component -> locals !! pc_patch pc = Some lm ->
     let v := assembleAverage geo mb (pc_patch pc) lm pc in
     sv_nz v <> [] ->
     {| ch_globalIndices :=
          std_sort Nat.ltb (support_indices dm lm (pc_patch pc) v);
        ch_vector := v; ch_patch := pc_patch pc |} ∈ cs).
Proof.
  unfold collect_constraints. intros Hrun.
  pose (P := fun c : constr_helper T =>
     StronglySorted le (ch_globalIndices c) /\
     exists pc lm,
       pc ∈ component /\ locals !! pc_patch pc = Some lm /\
       let v := assembleAverage geo mb (pc_patch pc) lm pc in
       let original :=
         {| ch_globalIndices :=
              std_sort Nat.ltb (support_indices dm lm (pc_patch pc) v);
            ch_vector := v; ch_patch := pc_patch pc |} in
       sv_nz v <> [] /\
       ch_globalIndices c ≡ₚ support_indices dm lm (pc_patch pc) v /\
       (c = original \/
        (has_flag status 2 = true /\
         exists info which lm2,
           artificial !! pc_patch pc = Some info /\
           (ch_patch c, which) ∈ info /\
           locals !! ch_patch c = Some lm2 /\
           copy_of lm2 which original c))).
  pose (Q := fun (pc : patchComponent) (cs : list (constr_helper T)) =>
     forall lm, locals !! pc_patch pc = Some lm ->
     let v := assembleAverage geo mb (pc_patch pc) lm pc in
     sv_nz v <> [] ->
     {| ch_globalIndices :=
          std_sort Nat.ltb (support_indices dm lm (pc_patch pc) v);
        ch_vector := v; ch_patch := pc_patch pc |} ∈ cs).
  cut ((forall c, c ∈ cs -> P c) /\ forall pc, pc ∈ component -> Q pc cs).
  { intros [HP HQ]. split; [exact HP|]. intros pc lm Hpc. by apply HQ. }
  refine (foldM_invariant_in
    (fun pre acc => (forall c, c ∈ acc -> P c) /\
                    forall pc, pc ∈ pre -> Q pc acc) _ _ _ _ _ _ Hrun).
  - clear Hrun cs. intros pre pc acc acc' Hpc [HP HQ] Hstep.
    cbv beta zeta in Hstep.
    destruct (get locals (pc_patch pc)) as [lm|] eqn:Hlm; [|discriminate].
    rewrite rbind_ret in Hstep. apply get_Ok in Hlm.
    set (v := assembleAverage geo mb (pc_patch pc) lm pc) in *.
    fold (support_indices dm lm (pc_patch pc) v) in Hstep.
    destruct (0 <? sv_nonZeros v) eqn:Hnz.
    + apply Nat.ltb_lt in Hnz. unfold sv_nonZeros in Hnz.
      assert (Hne : sv_nz v <> []) by (intros E; rewrite E in Hnz; simpl in Hnz; lia).
      set (c := {| ch_globalIndices :=
                     std_sort Nat.ltb (support_indices dm lm (pc_patch pc) v);
                   ch_vector := v; ch_patch := pc_patch pc |}) in *.
      assert (HPc : P c).
      { split; [apply sorted_indices|]. exists pc, lm.
        split; [done|]. split; [done|]. split; [done|].
        split; [apply std_sort_perm|]. by left. }
      assert (exists copies, acc' = acc ++ copies ++ [c] /\
                             forall c2, c2 ∈ copies -> P c2)
        as (copies & -> & Hcopies).
      { destruct (has_flag status 2) eqn:Hflag.
        - destruct (get artificial (pc_patch pc)) as [info|] eqn:Hinfo;
            [|discriminate].
          rewrite rbind_ret in Hstep. apply get_Ok in Hinfo.
          destruct (transfer_to_artificial locals info c acc) as [acc1|]
            eqn:Htr; [|discriminate].
          rewrite rbind_ret in Hstep. injection Hstep as <-.
          apply transfer_to_artificial_Ok in Htr as (copies & -> & Hc).
          exists copies. split; [by rewrite <- app_assoc|].
          intros c2 Hc2. rewrite Forall_forall in Hc.
          destruct (Hc c2 Hc2) as (which & lm2 & Hw & Hlm2 & Hcopy).
          pose proof Hcopy as (Hsig & _).
          split; [rewrite Hsig; apply sorted_indices|]. exists pc, lm.
          split; [done|]. split; [done|]. split; [done|].
          split; [rewrite Hsig; apply std_sort_perm|].
          right. split; [done|]. by exists info, which, lm2.
        - rewrite rbind_ret in Hstep. injection Hstep as <-.
          exists []. split; [done|]. intros c2 Hc2.
          by apply elem_of_nil in Hc2. }
      split.
      * intros c' [Hc'|[Hc'| ->%list_elem_of_singleton]%elem_of_app]%elem_of_app;
          auto.
      * intros pc' [Hpc'| ->%list_elem_of_singleton]%elem_of_app lm' Hlm' v' Hv'.
        -- apply elem_of_app. left. by apply HQ.
        -- assert (lm' = lm) as -> by congruence.
           rewrite !elem_of_app. right. right. by left.
    + injection Hstep as <-. split; [done|].
      intros pc' [Hpc'| ->%list_elem_of_singleton]%elem_of_app lm' Hlm' v' Hv'.
      * by apply HQ.
      * assert (lm' = lm) as -> by congruence. exfalso.
        apply Nat.ltb_ge in Hnz. unfold sv_nonZeros in Hnz.
        subst v'. fold v in Hv'. destruct (sv_nz v); [done|simpl in Hnz; lia].
  - split; [intros c Hc; by apply elem_of_nil in Hc|].
    intros pc Hpc. by apply elem_of_nil in Hpc.
Qed.

Lemma m_put_constraints_primal_only k (x : list (SparseVector T)) :
  mono primal_only (m_put m_primalConstraints set_primalConstraints k x).
Proof.
  intros s. unfold m_put. rewrite bind_gets.
  destruct (put (m_primalConstraints s) k x) as [l'|e] eqn:Hput.
  - rewrite bind_lift_Ok. by repeat split.
  - rewrite bind_lift_Err. apply primal_only_refl.
Qed.

Lemma m_put_indices_primal_only k (x : list Z) :
  mono primal_only
       (m_put (T:=T) m_primalDofIndices set_primalDofIndices k x).
Proof.
  intros s. unfold m_put. rewrite bind_gets.
  destruct (put (m_primalDofIndices s) k x) as [l'|e] eqn:Hput.
  - rewrite bind_lift_Ok. by repeat split.
  - rewrite bind_lift_Err. apply primal_only_refl.
Qed.

Lemma constraints_construct_data_primal_only whole
    (cs : list (constr_helper T)) :
  mono primal_only (constraints_construct_data whole cs).
Proof.
  pose proof (primal_only_refl (T:=T)) as Hr.
  pose proof (primal_only_trans (T:=T)) as Ht.
  unfold constraints_construct_data, m_push_back, m_get.
  repeat first [ apply m_put_constraints_primal_only
               | apply m_put_indices_primal_only
               | mono_step ].
  all: intros s; by repeat split.
Qed.

(** A completed [interfaceAveragesAsPrimals] has collected the
    constraints of every component of dimension [d], on the object as it
    was before the call. *)
Lemma interface_collects geo d s s' :
  interfaceAveragesAsPrimals assembleAverage geo d s = (Ok tt, s') ->
  forall component,
    component ∈ components_of geo d ->
    exists cs, collected_for assembleAverage geo s component = Ok cs.
Proof.
  intros Hrun.
  unfold interfaceAveragesAsPrimals, assert_initialized in Hrun.
  run_steps Hrun. apply Z.ltb_lt in Hassert0.
  set (s0 := set_status _ s) in *.
  assert (Eflag : has_flag (m_status s0) 2 = has_flag (m_status s) 2).
  { apply has_flag_lor_other. apply (flags_disjoint (3 + d) 1); lia. }
  pose (I := fun (pre : list (list patchComponent)) (st : gsIetiMapper T) =>
    primal_only s0 st /\
    forall component, component ∈ pre -> has_dim d component = true ->
      exists cs, collected_for assembleAverage geo s component = Ok cs).
  assert (HI : I ([] ++ mp_allComponents geo) s').
  { eapply (forM_invariant I); [|idtac|exact Hrun].
    - clear Hrun. intros pre x st st' [Hp Hpre] Hx. cbv beta in Hx.
      run_steps Hx. apply get_Ok in Hlift.
      assert (Hdim : has_dim d x = (pc_dim a =? d)%Z)
        by (unfold has_dim; by rewrite Hlift).
      destruct (pc_dim a =? d)%Z eqn:Ed.
      + run_steps Hx.
        pose proof (constraints_construct_data_primal_only
                      (mb_dim (m_multiBasis s) =? d)%Z
                      (std_sort constr_helper_lt a0) st) as Hm.
        rewrite Hx in Hm. split; [by eapply primal_only_trans|].
        intros component [Hc| ->%list_elem_of_singleton]%elem_of_app Hd;
          [by apply Hpre|].
        exists a0. unfold collected_for.
        destruct Hp as (_ & E2 & E3 & _ & _ & E6 & E7).
        rewrite E2, E3, E6, E7 in Hlift0.
        by rewrite <- (collect_constraints_status assembleAverage _ _ _ _ _
                        (m_status s0)).
      + injection Hx as <-. split; [done|].
        intros component [Hc| ->%list_elem_of_singleton]%elem_of_app Hd;
          [by apply Hpre|]. by rewrite Hdim in Hd.
    - split; [apply primal_only_refl|].
      intros component Hc. by apply elem_of_nil in Hc. }
  destruct HI as [_ HI]. intros component Hc.
  apply list_elem_of_filter in Hc as [Hd Hc]. by apply HI.
Qed.

(** X18. A completed [interfaceAveragesAsPrimals] has, for every
    component of dimension [d], collected constraints (lines 350-407)
    of which every one belongs to a member of the component whose average
    has a row that is not empty: its signature is the list of the global
    indices of the dofs of that row, in increasing order, and it is
    either that average on the patch of the member, or, when there are
    artificial dofs, a copy of it on a patch for which the patch of the
    member keeps a table: a row over the free dofs of that patch, whose
    values are the values of the average, each stored at the local index
    of the artificial dof that the table gives for its position.  And
    the average of every member whose row is not empty is among the
    constraints collected. *)
Theorem X18_collected_constraints geo d s s' :
  interfaceAveragesAsPrimals assembleAverage geo d s = (Ok tt, s') ->
  let mb := m_multiBasis s in
  let dm := m_dofMapperGlobal s in
  let locals := m_dofMapperLocal s in
  forall component,
    component ∈ components_of geo d ->
    exists cs,
      collect_constraints assembleAverage geo mb dm locals
        (m_artificialDofInfo s) (m_status s) component = Ok cs /\
      (forall c, c ∈ cs ->
         StronglySorted le (ch_globalIndices c) /\
         exists pc lm,
           pc ∈ component /\ locals !! pc_patch pc = Some lm /\
           let v := assembleAverage geo mb (pc_patch pc) lm pc in
           let original :=
             {| ch_globalIndices :=
                  std_sort Nat.ltb (support_indices dm lm (pc_patch pc) v);
                ch_vector := v; ch_patch := pc_patch pc |} in
           sv_nz v <> [] /\
           ch_globalIndices c ≡ₚ support_indices dm lm (pc_patch pc) v /\
           (c = original \/
            (has_flag (m_status s) 2 = true /\
             exists info which lm2,
               m_artificialDofInfo s !! pc_patch pc = Some info /\
               (ch_patch c, which) ∈ info /\
               locals !! ch_patch c = Some lm2 /\
               copy_of lm2 which original c))) /\
      (forall pc lm,
         pc ∈ component -> locals !! pc_patch pc = Some lm ->
         let v := assembleAverage geo mb (pc_patch pc) lm pc in
         sv_nz v <> [] ->
         {| ch_globalIndices :=
              std_sort Nat.ltb (support_indices dm lm (pc_patch pc) v);
            ch_vector := v; ch_patch := pc_patch pc |} ∈ cs).
Proof.
  intros Hrun mb dm locals component Hc.
  destruct (interface_collects geo d s s' Hrun component Hc) as [cs Hcs].
  exists cs. split; [exact Hcs|].
  exact (collect_constraints_Ok _ _ _ _ _ _ _ _ Hcs).
Qed.
End Collect.

(** ** The further properties on concrete inputs *)

(** An element of a list that is given. *)
Ltac in_list := apply list_elem_of_In; vm_compute; tauto.

(** *** [init] *)

(** [init] on a new object: refused for a mapper with two components and
    for three patches against two bases, completed for the two
    intervals. *)
Lemma X1_init_refuses_witness :
  dm_componentsSize two_components <> 1 /\
  init two_intervals_bases two_components two_intervals_fixed new_mapper
  = (Err ConfigurationError, new_mapper) /\
  dm_numPatches three_shared <> mb_nBases two_intervals_bases /\
  init two_intervals_bases three_shared two_intervals_fixed new_mapper
  = (Err ConfigurationError, new_mapper) /\
  init two_intervals_bases two_intervals two_intervals_fixed new_mapper
  = (Ok tt, two_intervals_mapper) /\
  forall k, k < dm_numPatches two_intervals ->
            mb_size two_intervals_bases k <= dm_patchSize two_intervals k.
Proof.
  assert (H1 : dm_componentsSize two_components <> 1) by by_evaluation.
  assert (H2 : dm_numPatches three_shared <> mb_nBases two_intervals_bases)
    by by_evaluation.
  assert (H3 : init two_intervals_bases two_intervals two_intervals_fixed
                    new_mapper = (Ok tt, two_intervals_mapper))
    by by_evaluation.
  split; [exact H1|].
  split; [exact (proj1 (X1_init_refuses two_intervals_bases two_components
                          two_intervals_fixed new_mapper) H1)|].
  split; [exact H2|].
  split; [exact (proj1 (proj2 (X1_init_refuses two_intervals_bases
                                 three_shared two_intervals_fixed
                                 new_mapper)) H2)|].
  split; [exact H3|].
  exact (proj2 (proj2 (proj2 (proj2 (X1_init_refuses two_intervals_bases
           two_intervals two_intervals_fixed new_mapper))
           two_intervals_mapper H3))).
Defined.

(** [init] on the two intervals after the corners were registered. *)
Lemma X2_init_fresh_object_witness :
  let s := (cornersAsPrimals two_intervals_mapper).2 in
  let s' := two_intervals_mapper in
  let nP := dm_numPatches two_intervals in
  init two_intervals_bases two_intervals two_intervals_fixed s
  = (Ok tt, s') /\
  m_nPrimalDofs s = 1%Z /\
  m_nPrimalDofs s' = 0%Z /\
  m_jumpMatrices s' = [] /\
  m_primalConstraints s' = replicate nP [] /\
  m_status s'
  = (if has_artificial two_intervals_bases two_intervals (seq 0 nP)
     then 3 else 1)%Z /\
  init two_intervals_bases two_intervals two_intervals_fixed new_mapper
  = (Ok tt, s').
Proof.
  intros s s' nP.
  assert (Hrun : init two_intervals_bases two_intervals two_intervals_fixed s
                 = (Ok tt, s')) by by_evaluation.
  pose proof (X2_init_fresh_object _ _ _ _ _ Hrun) as Hfresh.
  cbv zeta in Hfresh.
  destruct Hfresh as (_ & _ & _ & Hjm & Hn & Hpc & _ & Hst & _ & Hany).
  split; [exact Hrun|]. split; [by_evaluation|]. split; [exact Hn|].
  split; [exact Hjm|]. split; [exact Hpc|]. split; [exact Hst|].
  apply Hany. reflexivity.
Defined.

(** The fixed part of the first interval: its first dof is eliminated and
    has the first of the given fixed values. *)
Lemma X3_init_fixed_part_witness :
  init two_intervals_bases two_intervals two_intervals_fixed new_mapper
  = (Ok tt, two_intervals_mapper) /\
  dm_is_boundary_index two_intervals (dm_index two_intervals 0 0) = true /\
  exists lm fpk b x,
    m_dofMapperLocal two_intervals_mapper !! 0 = Some lm /\
    m_fixedPart two_intervals_mapper !! 0 = Some fpk /\
    length (mat_data fpk) = lm_boundarySize lm /\
    lm_bindex lm 0 = Ok b /\
    mat_coeff two_intervals_fixed (dm_bindex two_intervals 0 0) 0 = Ok x /\
    mat_coeff fpk b 0 = Ok x.
Proof.
  assert (Hrun : init two_intervals_bases two_intervals two_intervals_fixed
                      new_mapper = (Ok tt, two_intervals_mapper))
    by by_evaluation.
  assert (Hb : dm_is_boundary_index two_intervals
                 (dm_index two_intervals 0 0) = true) by by_evaluation.
  split; [exact Hrun|]. split; [exact Hb|].
  destruct (X3_init_fixed_part _ _ _ _ _ Hrun) as [_ Hfp].
  destruct (Hfp 0) as (lm & fpk & Hlm & Hfpk & _ & Hlen & Hrows);
    [by_evaluation|].
  destruct (Hrows 0) as (b & x & Hbi & Hx & Hm); [by_evaluation|exact Hb|].
  exists lm, fpk, b, x. auto 10.
Defined.

(** The table of the patches with an artificial dof: the second patch
    keeps, for the first, an entry for its dof 2 at the local index 0. *)
Lemma X4_artificial_table_witness :
  m_artificialDofInfo (new_mapper (T:=Z)) = [] /\
  init with_artificial_bases with_artificial
       {| mat_cols := 1; mat_data := [] |} new_mapper
  = (Ok tt, with_artificial_mapper) /\
  m_artificialDofInfo with_artificial_mapper !! 1 = Some [(0, [3; 0])] /\
  length [3; 0] = lm_freeSize (local_mapper with_artificial 1) /\
  artificial_copy with_artificial_bases with_artificial 1 0 0 2.
Proof.
  assert (Hrun : init with_artificial_bases with_artificial
                      {| mat_cols := 1; mat_data := [] |} new_mapper
                 = (Ok tt, with_artificial_mapper)) by by_evaluation.
  assert (Hinfo : m_artificialDofInfo with_artificial_mapper !! 1
                  = Some [(0, [3; 0])]) by by_evaluation.
  split; [reflexivity|]. split; [exact Hrun|]. split; [exact Hinfo|].
  destruct (X4_artificial_table with_artificial_bases with_artificial _
              new_mapper with_artificial_mapper eq_refl Hrun
              1 [(0, [3; 0])] 0 [3; 0] Hinfo eq_refl) as [Hlen Hcopy].
  split; [exact Hlen|]. apply Hcopy. reflexivity.
Defined.

(** The artificial dof of the first patch is recorded. *)
Lemma X17_artificial_recorded_witness :
  init with_artificial_bases with_artificial
       {| mat_cols := 1; mat_data := [] |} new_mapper
  = (Ok tt, with_artificial_mapper) /\
  mb_size with_artificial_bases 0 <= 2 < dm_patchSize with_artificial 0 /\
  exists p info which j i',
    m_artificialDofInfo with_artificial_mapper !! p = Some info /\
    amap_find 0 info = Some which /\
    which !! j = Some (S i') /\
    dm_index with_artificial i' 0 = dm_index with_artificial 2 0.
Proof.
  assert (Hrun : init with_artificial_bases with_artificial
                      {| mat_cols := 1; mat_data := [] |} new_mapper
                 = (Ok tt, with_artificial_mapper)) by by_evaluation.
  assert (Hi : mb_size with_artificial_bases 0 <= 2
               < dm_patchSize with_artificial 0) by by_evaluation.
  split; [exact Hrun|]. split; [exact Hi|].
  destruct (X17_artificial_recorded with_artificial_bases with_artificial _
              new_mapper with_artificial_mapper eq_refl Hrun 0 2)
    as (p & info & which & j & i' & Hp & Hfind & Hj & Hg & _);
    [by_evaluation|exact Hi|by_evaluation|].
  exists p, info, which, j, i'. auto.
Defined.

(** *** The member functions on the two intervals *)

(** The object stays consistent through calls that complete and calls
    that fail. *)
Lemma X5_setup_is_kept_witness :
  let cs := [Builder CornersAsPrimals; ComputeJumpMatrices false true;
             Builder CornersAsPrimals] in
  init two_intervals_bases two_intervals two_intervals_fixed new_mapper
  = (Ok tt, two_intervals_mapper) /\
  setup_kept two_intervals_mapper
             (after (run_phase uniform_average) cs two_intervals_mapper) /\
  consistent (after (run_phase uniform_average) cs two_intervals_mapper).
Proof.
  intros cs.
  assert (Hrun : init two_intervals_bases two_intervals two_intervals_fixed
                      new_mapper = (Ok tt, two_intervals_mapper))
    by by_evaluation.
  destruct (X5_setup_is_kept uniform_average) as (_ & Hkept & _ & Hinit).
  split; [exact Hrun|]. split; [apply Hkept|].
  exact (Hinit _ _ _ _ _ cs Hrun).
Defined.

(** The corners set the flag 8. *)
Lemma X6_status_flags_witness :
  let s' := (cornersAsPrimals two_intervals_mapper).2 in
  run_phase uniform_average (Builder CornersAsPrimals) two_intervals_mapper
  = (Ok tt, s') /\
  m_status s' = Z.lor (m_status two_intervals_mapper) 8.
Proof.
  intros s'.
  assert (Hrun : run_phase uniform_average (Builder CornersAsPrimals)
                   two_intervals_mapper = (Ok tt, s')) by by_evaluation.
  split; [exact Hrun|].
  exact (proj2 (X6_status_flags uniform_average) _ _ _ Hrun).
Defined.

(** A custom constraint with a row on either interval. *)
Lemma X7_custom_constraints_witness :
  let s := two_intervals_mapper in
  has_flag (m_status s) 1 = true /\
  Forall (fun d => d.1 < length (m_primalConstraints s)) two_custom /\
  exists s',
    customPrimalConstraints two_custom s = (Ok tt, s') /\
    m_nPrimalDofs s' = wrap_index (m_nPrimalDofs s + 1) /\
    m_primalDofIndices s' !! 1
    = (fun old =>
         old ++ replicate (length (filter (fun d => d.1 = 1) two_custom))
                          (m_nPrimalDofs s))
      <$> m_primalDofIndices s !! 1.
Proof.
  intros s.
  assert (Hinit : has_flag (m_status s) 1 = true) by by_evaluation.
  assert (Hin : Forall (fun d => d.1 < length (m_primalConstraints s))
                       two_custom).
  { apply Forall_forall. intros d Hd. each_element d Hd; by_evaluation. }
  split; [exact Hinit|]. split; [exact Hin|].
  destruct (proj1 (X7_custom_constraints two_custom s Hinit eq_refl) Hin)
    as (s' & Hrun & Hn & _ & Hreg).
  exists s'. split; [exact Hrun|]. split; [exact Hn|].
  exact (proj2 (Hreg 1)).
Defined.

(** The skeleton of the first interval is its last dof. *)
Lemma X8_skeleton_dofs_witness :
  let s := two_intervals_mapper in
  has_flag (m_status s) 1 = true /\
  consistent s /\
  skeletonDofs 0 s = (Ok (skeleton_of two_intervals 0), s) /\
  StronglySorted lt (skeleton_of two_intervals 0) /\
  forall j, j ∈ skeleton_of two_intervals 0 ->
            j < lm_freeSize (local_mapper two_intervals 0).
Proof.
  intros s.
  assert (Hinit : has_flag (m_status s) 1 = true) by by_evaluation.
  assert (Hcons : consistent s) by show_consistent.
  split; [exact Hinit|]. split; [exact Hcons|].
  destruct (X8_skeleton_dofs 0 s Hinit Hcons) as (Hrun & _ & Hsorted);
    [by_evaluation|].
  split; [exact Hrun|]. apply Hsorted.
  intros i Hi Hc. simpl in Hi.
  each_below i; first [discriminate Hc | reflexivity].
Defined.

(** *** The jump matrices *)

(** The one row of the two intervals: +1 at the skeleton dof of the
    first, -1 at that of the second, both copies of the coupled dof 0. *)
Lemma X9_jump_rows_couple_one_dof_witness :
  let s := two_intervals_mapper in
  let s' := (computeJumpMatrices false false s).2 in
  let jm0 := {| jm_rows := 1; jm_cols := 2; jm_entries := [(0%Z, 1, 1%Z)] |} in
  let jm1 := {| jm_rows := 1; jm_cols := 2;
                jm_entries := [(0%Z, 0, (-1)%Z)] |} in
  consistent s /\
  computeJumpMatrices false false s = (Ok tt, s') /\
  m_jumpMatrices s' !! 0 = Some jm0 /\
  m_jumpMatrices s' !! 1 = Some jm1 /\
  1 ∈ skeleton_of two_intervals 0 /\
  exists c i i',
    dm_is_coupled two_intervals i 0 = true /\
    dm_is_coupled two_intervals i' 1 = true /\
    dm_cindex two_intervals i 0 = c /\ dm_cindex two_intervals i' 1 = c /\
    1 = local_index two_intervals 0 i /\ 0 = local_index two_intervals 1 i'.
Proof.
  intros s s' jm0 jm1.
  assert (Hcons : consistent s) by show_consistent.
  assert (Hrun : computeJumpMatrices false false s = (Ok tt, s'))
    by by_evaluation.
  assert (H0 : m_jumpMatrices s' !! 0 = Some jm0) by by_evaluation.
  assert (H1 : m_jumpMatrices s' !! 1 = Some jm1) by by_evaluation.
  split; [exact Hcons|]. split; [exact Hrun|]. split; [exact H0|].
  split; [exact H1|].
  destruct (X9_jump_rows_couple_one_dof false false s s' Hcons Hrun
              0 jm0 0%Z 1 1%Z H0) as (_ & _ & Hsk & Hrow); [by left|].
  split; [exact Hsk|].
  destruct (Hrow 1 jm1 0 (-1)%Z H1) as (c & i & i' & Hrest); [by left|].
  exists c, i, i'. tauto.
Defined.

(** The two intervals have one coupled dof with two occurrences: one
    row. *)
Lemma X10_multiplier_count_witness :
  let s := two_intervals_mapper in
  let s' := (computeJumpMatrices false false s).2 in
  consistent s /\
  computeJumpMatrices false false s = (Ok tt, s') /\
  1 < length (occurrences two_intervals 0) /\
  forall jm, jm ∈ m_jumpMatrices s' ->
    jm_rows jm
    = foldr Z.add 0%Z
        ((fun c => (Z.of_nat (length (occurrences two_intervals c)) - 1)%Z)
           <$> seq 0 (dm_coupledSize two_intervals)).
Proof.
  intros s s'.
  assert (Hcons : consistent s) by show_consistent.
  assert (Hrun : computeJumpMatrices false false s = (Ok tt, s'))
    by by_evaluation.
  split; [exact Hcons|]. split; [exact Hrun|].
  destruct (X10_multiplier_count false s s' Hcons Hrun) as (Hocc & _ & Hrows).
  split; [apply Hocc; by_evaluation|]. exact Hrows.
Defined.

(** The shared end point of the two intervals is a corner: excluding the
    corners takes the one row away in the fully redundant mode. *)
Lemma X11_exclude_corners_redundant_witness :
  let s := two_intervals_mapper in
  let s0 := (computeJumpMatrices true false s).2 in
  let s1 := (computeJumpMatrices true true s).2 in
  let jm0 := {| jm_rows := 1; jm_cols := 2; jm_entries := [(0%Z, 1, 1%Z)] |} in
  let jm1 := {| jm_rows := 0; jm_cols := 2; jm_entries := [] |} in
  consistent s /\
  computeJumpMatrices true false s = (Ok tt, s0) /\
  computeJumpMatrices true true s = (Ok tt, s1) /\
  jm0 ∈ m_jumpMatrices s0 /\ jm1 ∈ m_jumpMatrices s1 /\
  dm_is_coupled_index two_intervals
    (dm_index two_intervals (mb_functionAtCorner two_intervals_bases 0 2) 0)
  = true /\
  (jm_rows jm1 < jm_rows jm0)%Z.
Proof.
  intros s s0 s1 jm0 jm1.
  assert (Hcons : consistent s) by show_consistent.
  assert (Hrun0 : computeJumpMatrices true false s = (Ok tt, s0))
    by by_evaluation.
  assert (Hrun1 : computeJumpMatrices true true s = (Ok tt, s1))
    by by_evaluation.
  assert (H0 : jm0 ∈ m_jumpMatrices s0) by in_list.
  assert (H1 : jm1 ∈ m_jumpMatrices s1) by in_list.
  assert (Hc : dm_is_coupled_index two_intervals
                 (dm_index two_intervals
                    (mb_functionAtCorner two_intervals_bases 0 2) 0) = true)
    by by_evaluation.
  do 5 (split; [assumption|]). split; [exact Hc|].
  destruct (X11_exclude_corners_redundant s s0 s1 Hcons Hrun0 Hrun1
              jm0 jm1 H0 H1) as [_ Hlt].
  apply (Hlt 0 2); [by_evaluation|in_list|exact Hc].
Defined.

(** Three patches that share their middle function: no corner is
    coupled, and the minimal mode completes with the corners excluded. *)
Lemma X12_exclude_corners_minimal_witness :
  let s := three_shared_mapper in
  let s' := (computeJumpMatrices false true s).2 in
  consistent s /\
  computeJumpMatrices false true s = (Ok tt, s') /\
  dm_is_coupled_index three_shared
    (dm_index three_shared (mb_functionAtCorner three_shared_bases 1 2) 1)
  = false.
Proof.
  intros s s'.
  assert (Hcons : consistent s) by show_consistent.
  assert (Hrun : computeJumpMatrices false true s = (Ok tt, s'))
    by by_evaluation.
  split; [exact Hcons|]. split; [exact Hrun|].
  apply (X12_exclude_corners_minimal s s' Hcons Hrun 1 2);
    [by_evaluation|in_list].
Defined.

(** *** Constraints, arguments and the reconstruction *)

(** Two constraints with the signature [2, 5] and one with [7]: the
    shorter signature comes first, equal signatures are equivalent. *)
Lemma X13_constraint_order_witness :
  let a := {| ch_globalIndices := [7];
              ch_vector := {| sv_size := 2; sv_nz := [(0, 1%Z)] |};
              ch_patch := 1 |} in
  let b := {| ch_globalIndices := [2; 5];
              ch_vector := {| sv_size := 2; sv_nz := [(1, 1%Z)] |};
              ch_patch := 0 |} in
  let c := {| ch_globalIndices := [2; 5];
              ch_vector := {| sv_size := 2; sv_nz := [(0, 1%Z)] |};
              ch_patch := 1 |} in
  length (ch_globalIndices a) < length (ch_globalIndices b) /\
  constr_helper_lt a b = true /\
  constr_helper_lt b a = false /\
  ch_globalIndices b = ch_globalIndices c /\
  constr_helper_lt b c = false /\ constr_helper_lt c b = false /\
  constr_helper_lt a c = true.
Proof.
  intros a b c.
  assert (Hlen : length (ch_globalIndices a) < length (ch_globalIndices b))
    by by_evaluation.
  assert (Hsig : ch_globalIndices b = ch_globalIndices c) by reflexivity.
  destruct (X13_constraint_order a b c)
    as (_ & Hasym & Htrans & _ & Hshort & _).
  destruct (X13_constraint_order b c a)
    as (_ & _ & _ & Heq & _ & Hsame).
  pose proof (Hshort Hlen) as Hab.
  destruct (proj2 Heq Hsig) as [Hbc Hcb].
  split; [exact Hlen|]. split; [exact Hab|]. split; [exact (Hasym Hab)|].
  split; [exact Hsig|]. split; [exact Hbc|]. split; [exact Hcb|].
  destruct (Hsame Hsig) as [_ Hac]. rewrite <- Hac. exact Hab.
Defined.

(** The dimension 0 is refused; the dimension 1 on a geometry that lists
    no component of dimension 1 sets the flag 16 and nothing else. *)
Lemma X14_interface_arguments_witness :
  let s := two_intervals_mapper in
  has_flag (m_status s) 1 = true /\
  interfaceAveragesAsPrimals uniform_average two_intervals_geo 0 s
  = (Err ConfigurationError, s) /\
  interfaceAveragesAsPrimals uniform_average two_intervals_points 1 s
  = (Ok tt, set_status (Z.lor (m_status s) (Z.shiftl 1 (3 + 1))) s).
Proof.
  intros s.
  assert (Hinit : has_flag (m_status s) 1 = true) by by_evaluation.
  split; [exact Hinit|]. split.
  - apply (X14_interface_arguments uniform_average two_intervals_geo 0 s
             Hinit). left. lia.
  - apply (X14_interface_arguments uniform_average two_intervals_points 1 s
             Hinit); [by_evaluation..|].
    apply Forall_forall. intros component Hc.
    each_element component Hc; eexists; (split; [reflexivity|discriminate]).
Defined.

(** The reconstruction on the two intervals: it refuses one contribution
    for two patches, and completes on the two local solutions. *)
Lemma X15_reconstruction_completes_witness :
  let s := two_intervals_mapper in
  has_flag (m_status s) 1 = true /\
  consistent s /\
  constructGlobalSolutionFromLocalSolutions (take 1 two_intervals_local) s
  = (Err ConfigurationError, s) /\
  exists R,
    constructGlobalSolutionFromLocalSolutions two_intervals_local s
    = (Ok R, s) /\
    length (mat_data R) = dm_freeSize (m_dofMapperGlobal s).
Proof.
  intros s.
  assert (Hinit : has_flag (m_status s) 1 = true) by by_evaluation.
  assert (Hcons : consistent s) by show_consistent.
  split; [exact Hinit|]. split; [exact Hcons|]. split.
  - apply (X15_reconstruction_completes (take 1 two_intervals_local) s);
      [exact Hinit|by_evaluation].
  - destruct (X15_reconstruction_completes two_intervals_local s)
      as (_ & _ & Hok).
    destruct (Hok Hinit Hcons eq_refl
                {| mat_cols := 1; mat_data := [[10%Z]; [12%Z]] |} eq_refl)
      as (R & HR & _ & Hlen).
    + intros ki Hki Hcopied.
      each_element ki Hki;
        first [ discriminate Hcopied
              | split; [by_evaluation | eexists; split; reflexivity] ].
    + exists R. split; [exact HR | exact Hlen].
Defined.

(** The one free corner of the two intervals gives one primal dof. *)
Lemma X16_corner_primal_count_witness :
  let s := two_intervals_mapper in
  let s' := (cornersAsPrimals s).2 in
  consistent s /\
  index_range (m_nPrimalDofs s) /\
  cornersAsPrimals s = (Ok tt, s') /\
  m_nPrimalDofs s'
  = wrap_index
      (m_nPrimalDofs s
       + Z.of_nat (length (remove_dups
            (dh_globalIndex
               <$> corner_tuples (m_multiBasis s) (m_dofMapperGlobal s)
                                 (m_status s))))).
Proof.
  intros s s'.
  assert (Hcons : consistent s) by show_consistent.
  assert (Hin : index_range (m_nPrimalDofs s)) by (split; by_evaluation).
  assert (Hrun : cornersAsPrimals s = (Ok tt, s')) by by_evaluation.
  split; [exact Hcons|]. split; [exact Hin|]. split; [exact Hrun|].
  exact (X16_corner_primal_count s s' Hcons Hin Hrun).
Defined.

(** The second interval of [with_artificial]: the average of its first
    side lies on the dof of which patch 0 has an artificial copy, so the
    constraint is collected a second time, as a copy on patch 0. *)
Lemma X18_collected_constraints_witness :
  let s := with_artificial_mapper in
  let s' :=
    (interfaceAveragesAsPrimals side_average with_artificial_geo 1 s).2 in
  let component := [ {| pc_patch := 1; pc_dim := 1; pc_index := 1 |} ] in
  let copy := {| ch_globalIndices := [3];
                 ch_vector := {| sv_size := 3; sv_nz := [(2, 1%Z)] |};
                 ch_patch := 0 |} in
  interfaceAveragesAsPrimals side_average with_artificial_geo 1 s
  = (Ok tt, s') /\
  component ∈ components_of with_artificial_geo 1 /\
  exists cs,
    collect_constraints side_average with_artificial_geo (m_multiBasis s)
      (m_dofMapperGlobal s) (m_dofMapperLocal s) (m_artificialDofInfo s)
      (m_status s) component = Ok cs /\
    copy ∈ cs /\
    has_flag (m_status s) 2 = true /\
    exists which lm2 original,
      (ch_patch copy, which)
        ∈ default [] (m_artificialDofInfo s !! ch_patch original) /\
      copy_of lm2 which original copy.
Proof.
  intros s s' component copy.
  assert (Hrun : interfaceAveragesAsPrimals side_average with_artificial_geo
                   1 s = (Ok tt, s')) by by_evaluation.
  assert (Hc : component ∈ components_of with_artificial_geo 1) by in_list.
  split; [exact Hrun|]. split; [exact Hc|].
  destruct (X18_collected_constraints side_average with_artificial_geo 1 s s'
              Hrun component Hc) as (cs & Hcs & Hall & _).
  exists cs. split; [exact Hcs|].
  assert (Hcopy : copy ∈ cs).
  { clear Hall. vm_compute in Hcs. injection Hcs as <-. in_list. }
  split; [exact Hcopy|].
  destruct (Hall copy Hcopy) as (_ & pc & lm & Hpc & Hlm & Hrest).
  cbv zeta in Hrest. destruct Hrest as (_ & _ & [Heq|Hart]).
  - exfalso. apply (f_equal ch_patch) in Heq. cbn [ch_patch copy] in Heq.
    each_element pc Hpc. discriminate Heq.
  - destruct Hart as (Hflag & info & which & lm2 & Hinfo & Hw & _ & Hcopy').
    split; [exact Hflag|]. eexists which, lm2, _.
    split; [|exact Hcopy']. cbn [ch_patch]. by rewrite Hinfo.
Defined.

(** *** The rows, the flags and the primal dofs *)

(** The two copies of the coupled dof of the two intervals are set
    against each other by the one row. *)
Lemma X19_jump_rows_connect_witness :
  let s := two_intervals_mapper in
  let s' := (computeJumpMatrices false false s).2 in
  consistent s /\
  computeJumpMatrices false false s = (Ok tt, s') /\
  occurrences two_intervals 0 !! 0 = Some (0, 1) /\
  occurrences two_intervals 0 !! 1 = Some (1, 0) /\
  exists r jm1 jm2,
    m_jumpMatrices s' !! 0 = Some jm1 /\
    m_jumpMatrices s' !! 1 = Some jm2 /\
    (0 <= r < jm_rows jm1)%Z /\ jm_rows jm2 = jm_rows jm1 /\
    (r, 1, 1%Z) ∈ jm_entries jm1 /\
    (r, 0, (-1)%Z) ∈ jm_entries jm2.
Proof.
  intros s s'.
  assert (Hcons : consistent s) by show_consistent.
  assert (Hrun : computeJumpMatrices false false s = (Ok tt, s'))
    by by_evaluation.
  assert (H1 : occurrences two_intervals 0 !! 0 = Some (0, 1))
    by by_evaluation.
  assert (H2 : occurrences two_intervals 0 !! 1 = Some (1, 0))
    by by_evaluation.
  split; [exact Hcons|]. split; [exact Hrun|]. split; [exact H1|].
  split; [exact H2|].
  apply (X19_jump_rows_connect false false s s' Hcons Hrun 0 0 1 (0, 1) (1, 0)).
  - by_evaluation.
  - intros Hec. discriminate Hec.
  - exact H1.
  - exact H2.
  - lia.
  - reflexivity.
Defined.

(** The corners leave the flag of the jump matrices alone. *)
Lemma X20_flags_do_not_interfere_witness :
  let s := two_intervals_mapper in
  let s' := (run_phase uniform_average (Builder CornersAsPrimals) s).2 in
  Z.shiftl 1 2 <> phase_flag (Builder (T:=Z) CornersAsPrimals) /\
  has_flag (m_status s') (Z.shiftl 1 2) = has_flag (m_status s) (Z.shiftl 1 2).
Proof.
  intros s s'.
  assert (Hne : Z.shiftl 1 2 <> phase_flag (Builder (T:=Z) CornersAsPrimals))
    by (intros E; discriminate E).
  split; [exact Hne|].
  apply (proj2 (proj2 (X20_flags_do_not_interfere uniform_average
                         (Builder CornersAsPrimals) s)) 2%Z); [lia|exact Hne].
Defined.

(** The corners of the two intervals after [init]. *)
Lemma X21_primal_ids_valid_witness :
  let s := two_intervals_mapper in
  let s' := (cornersAsPrimals s).2 in
  init two_intervals_bases two_intervals two_intervals_fixed new_mapper
  = (Ok tt, s) /\
  consistent s /\
  counter_fits (m_nPrimalDofs s)
               (added_primal_dofs uniform_average CornersAsPrimals s) /\
  run_builder uniform_average CornersAsPrimals s = (Ok tt, s') /\
  primal_ids_valid s' /\ (m_nPrimalDofs s <= m_nPrimalDofs s')%Z.
Proof.
  intros s s'.
  assert (Hinit : init two_intervals_bases two_intervals two_intervals_fixed
                       new_mapper = (Ok tt, s)) by by_evaluation.
  assert (Hcons : consistent s) by show_consistent.
  assert (Hfits : counter_fits (m_nPrimalDofs s)
            (added_primal_dofs uniform_average CornersAsPrimals s))
    by (split; by_evaluation).
  assert (Hrun : run_builder uniform_average CornersAsPrimals s = (Ok tt, s'))
    by by_evaluation.
  split; [exact Hinit|]. split; [exact Hcons|]. split; [exact Hfits|].
  split; [exact Hrun|].
  destruct (X21_primal_ids_valid uniform_average) as [Hi Hb].
  exact (Hb CornersAsPrimals s s' Hcons (Hi _ _ _ _ _ Hinit) Hfits Hrun).
Defined.

(** The corners of the two intervals give a primal dof with constraints;
    custom constraints without a constraint give one without. *)
Lemma X22_primal_ids_covered_witness :
  let s := two_intervals_mapper in
  let s' := (cornersAsPrimals s).2 in
  let s'' := (customPrimalConstraints [] s).2 in
  init two_intervals_bases two_intervals two_intervals_fixed new_mapper
  = (Ok tt, s) /\
  consistent s /\
  counter_fits (m_nPrimalDofs s)
               (added_primal_dofs uniform_average CornersAsPrimals s) /\
  run_builder uniform_average CornersAsPrimals s = (Ok tt, s') /\
  primal_ids_covered s' /\
  (m_nPrimalDofs s < index_max)%Z /\
  customPrimalConstraints [] s = (Ok tt, s'') /\
  ~ primal_ids_covered s''.
Proof.
  intros s s' s''.
  assert (Hinit : init two_intervals_bases two_intervals two_intervals_fixed
                       new_mapper = (Ok tt, s)) by by_evaluation.
  assert (Hcons : consistent s) by show_consistent.
  assert (Hfits : counter_fits (m_nPrimalDofs s)
            (added_primal_dofs uniform_average CornersAsPrimals s))
    by (split; by_evaluation).
  assert (Hrun : run_builder uniform_average CornersAsPrimals s = (Ok tt, s'))
    by by_evaluation.
  assert (Hmax : (m_nPrimalDofs s < index_max)%Z) by by_evaluation.
  assert (Hcustom : customPrimalConstraints [] s = (Ok tt, s''))
    by by_evaluation.
  assert (Hvalid : primal_ids_valid s).
  { split; [by_evaluation|]. intros patch rows ids Hrows Hids.
    destruct patch as [|[|patch]]; vm_compute in Hrows, Hids;
      [| |discriminate Hrows];
      injection Hrows as <-; injection Hids as <-; by split. }
  split; [exact Hinit|]. split; [exact Hcons|]. split; [exact Hfits|].
  split; [exact Hrun|].
  destruct (X22_primal_ids_covered uniform_average) as (Hi & Hb & Hc).
  split.
  - apply (Hb CornersAsPrimals s s' Hcons (Hi _ _ _ _ _ Hinit) Hfits);
      [|exact Hrun].
    intros E. discriminate E.
  - split; [exact Hmax|]. split; [exact Hcustom|].
    exact (Hc s s'' Hcons Hvalid Hmax Hcustom).
Defined.

(** A dof shared by basis functions of patch 0 and patch 1 passes the
    check of the owners. *)
Lemma X23_init_owner_check_witness :
  let mb := interval_bases [2; 2] in
  let fp := {| mat_cols := 1; mat_data := [] |} : Matrix Z in
  let s' := (init mb shared_with_artificial fp new_mapper).2 in
  init mb shared_with_artificial fp new_mapper = (Ok tt, s') /\
  has_artificial mb shared_with_artificial
                 (seq 0 (dm_numPatches shared_with_artificial)) = true /\
  dm_index shared_with_artificial 1 0 = dm_index shared_with_artificial 0 1 /\
  (0 = 0 \/ 1 = 0).
Proof.
  intros mb fp s'.
  assert (Hrun : init mb shared_with_artificial fp new_mapper = (Ok tt, s'))
    by by_evaluation.
  assert (Hart : has_artificial mb shared_with_artificial
                   (seq 0 (dm_numPatches shared_with_artificial)) = true)
    by by_evaluation.
  assert (Hg : dm_index shared_with_artificial 1 0
               = dm_index shared_with_artificial 0 1) by by_evaluation.
  split; [exact Hrun|]. split; [exact Hart|]. split; [exact Hg|].
  apply (X23_init_owner_check mb shared_with_artificial fp new_mapper s'
           Hrun Hart 0 1 1 0); by_evaluation.
Defined.
